(** * TV-Split-Optimizer: the allocation engine of [calculationService.ts]

    A shallow embedding of the metric calculator, the selection filters,
    the share optimizer and the three split generators, followed by the
    properties of the specification that concern them.

    Numbers.  The source computes with IEEE doubles of type
    [number | null].  Here a number is an exact rational ([Q]) and
    [number | null] is [option Q]; rounding is therefore not modelled, and
    equalities between computed numbers are stated with [==] on [Q].
    One computation is kept in binary64, because its rounding changes a
    count: the number of channels that the cutoff excludes
    ([channelsToCutOf]).
    [NaN] only enters the source through [parseFloat] on a malformed cell
    and is turned into [null] by the JSON copy every split starts from; it
    is represented by [None] as well (both are falsy, both fail every
    comparison with [0]). *)

From Stdlib Require Import QArith Qround Qminmax Qabs ZArith List String Lia Lqa.
From Stdlib Require Import Permutation Sorted.
From Stdlib Require SpecFloat.
From stdpp Require Import gmap strings list.
From Equations Require Import Equations.
Import ListNotations.

Local Open Scope Q_scope.
Local Open Scope string_scope.

(** ** JavaScript numbers *)

Abbreviation num := (option Q).

Definition Qltb (a b : Q) : bool := negb (Qle_bool b a).

(** [x || d] on [number | null]: [null] and [0] are falsy. *)
Definition orNum (x : num) (d : Q) : Q :=
  match x with
  | Some q => if Qeq_bool q 0 then d else q
  | None => d
  end.

(** The value [null] takes inside arithmetic ([null * f], [null + f]). *)
Definition numVal (x : num) : Q :=
  match x with Some q => q | None => 0 end.

(** [x && ...] used as a test: the number is neither [null] nor [0]. *)
Definition truthy (x : num) : bool :=
  match x with Some q => negb (Qeq_bool q 0) | None => false end.

(** [x > 0] on [number | null] ([null > 0] is false). *)
Definition gt0 (x : num) : bool :=
  match x with Some q => Qltb 0 q | None => false end.

Definition isNull {A} (x : option A) : bool :=
  match x with Some _ => false | None => true end.

(** [x ?? d] *)
Definition nullish (x : num) (d : Q) : Q :=
  match x with Some q => q | None => d end.

Definition sumQ (l : list Q) : Q := fold_right Qplus 0 l.

(** [Math.max(...l)] on a non-empty list (every call is guarded by
    [length > 0]). *)
Definition maxList (l : list Q) : Q :=
  match l with
  | [] => 0
  | x :: l' => fold_left Qmax l' x
  end.

(** [s.includes(needle)] *)
Fixpoint includes (needle s : string) : bool :=
  String.prefix needle s ||
  match s with
  | EmptyString => false
  | String _ s' => includes needle s'
  end.

(** [Array.prototype.sort(cmp)]: a stable sort; [cmp a b <= 0] keeps [a]
    before [b]. *)
Fixpoint insertBy {A} (cmp : A -> A -> Q) (x : A) (l : list A) : list A :=
  match l with
  | [] => [x]
  | y :: l' => if Qle_bool (cmp x y) 0 then x :: l else y :: insertBy cmp x l'
  end.

Definition sortBy {A} (cmp : A -> A -> Q) (l : list A) : list A :=
  fold_right (insertBy cmp) [] l.

(** [l.slice(0, k)]: a negative [k] counts from the end. *)
Definition slice0 {A} (k : Z) (l : list A) : list A :=
  let n := Z.of_nat (List.length l) in
  firstn (Z.to_nat (if (k <? 0)%Z then Z.max (n + k) 0 else k)) l.

(** ** Data model ([types.ts]) *)

Inductive BuyType := GRP | Min.

(** The texts written to [comment]; the two that embed a number carry it. *)
Inductive Comment :=
| LowShare (pct : Q)          (* `Низкая доля (<${pct.toFixed(1)}%)` *)
| OrbitalCorrected (cap : Q)  (* `Доля орбит. скорр. до ${cap}%` *)
| ExpensiveIndex              (* "Дорогой Index TCPP" *)
| NoTcppData                  (* "Нет данных для расчета TCPP" *)
| NoDataOrZeroCpp             (* "Нет данных для расчета или нулевой CPP" *)
| NotChosenByUser             (* "Не выбран пользователем" *)
| ManualShare                 (* "Доля задана вручную" *)
| ZeroPercent                 (* "Доля 0%" *)
| NotChosen.                  (* "Не выбран" *)

Record ChannelData := mkChannel {
  region : string;
  channel : string;
  type : BuyType;
  ta : string;
  tvrTa : num;
  aff : num;
  salesTvr : num;
  cpp : num;
  tcpp : num;
  indexTcpp : num;
  selected : bool;
  weightedRating : num;
  share : num;
  trp : num;
  comment : option Comment;
  sortOrder : Q
}.

Definition set_indexTcpp (v : num) (d : ChannelData) : ChannelData :=
  mkChannel (region d) (channel d) (type d) (ta d) (tvrTa d) (aff d) (salesTvr d)
    (cpp d) (tcpp d) v (selected d) (weightedRating d) (share d) (trp d)
    (comment d) (sortOrder d).

Definition set_selected (v : bool) (d : ChannelData) : ChannelData :=
  mkChannel (region d) (channel d) (type d) (ta d) (tvrTa d) (aff d) (salesTvr d)
    (cpp d) (tcpp d) (indexTcpp d) v (weightedRating d) (share d) (trp d)
    (comment d) (sortOrder d).

Definition set_weightedRating (v : num) (d : ChannelData) : ChannelData :=
  mkChannel (region d) (channel d) (type d) (ta d) (tvrTa d) (aff d) (salesTvr d)
    (cpp d) (tcpp d) (indexTcpp d) (selected d) v (share d) (trp d)
    (comment d) (sortOrder d).

Definition set_share (v : num) (d : ChannelData) : ChannelData :=
  mkChannel (region d) (channel d) (type d) (ta d) (tvrTa d) (aff d) (salesTvr d)
    (cpp d) (tcpp d) (indexTcpp d) (selected d) (weightedRating d) v (trp d)
    (comment d) (sortOrder d).

Definition set_trp (v : num) (d : ChannelData) : ChannelData :=
  mkChannel (region d) (channel d) (type d) (ta d) (tvrTa d) (aff d) (salesTvr d)
    (cpp d) (tcpp d) (indexTcpp d) (selected d) (weightedRating d) (share d) v
    (comment d) (sortOrder d).

Definition set_comment (v : option Comment) (d : ChannelData) : ChannelData :=
  mkChannel (region d) (channel d) (type d) (ta d) (tvrTa d) (aff d) (salesTvr d)
    (cpp d) (tcpp d) (indexTcpp d) (selected d) (weightedRating d) (share d) (trp d)
    v (sortOrder d).

Record RegionBrief := mkBrief {
  targetAudience : string;
  minChannelShare : num;
  maxOrbitalShare : num;
  expensiveChannelCutoff : num
}.

(** [BriefData.regionBriefs]: an object used as a map from region name to
    brief.  The list is in the order [Object.keys] enumerates it. *)
Record BriefData := mkBriefData {
  regionBriefs : list (string * RegionBrief)
}.

(** [Object.keys(brief.regionBriefs)] *)
Definition regionsOf (brief : BriefData) : list string :=
  map fst (regionBriefs brief).

(** [brief.regionBriefs[r]], for the keys of the brief.  A name that is
    no key but names a member of [Object.prototype] (such as
    "constructor") finds that member in the source; such region names are
    outside this definition. *)
Definition briefOf (brief : BriefData) (r : string) : option RegionBrief :=
  match List.find (fun kv => String.eqb (fst kv) r) (regionBriefs brief) with
  | Some kv => Some (snd kv)
  | None => None
  end.

Record Weights := mkWeights { w_aff : Q; w_tcpp : Q; w_eff : Q }.

(** [d.region === region] *)
Definition inRegion (r : string) (d : ChannelData) : bool :=
  String.eqb (region d) r.

(** [d.region === region && d.selected] *)
Definition inRegionSel (r : string) (d : ChannelData) : bool :=
  inRegion r d && selected d.

(** [arr.reduce((sum, d) => sum + f(d), 0)] *)
Definition sumBy {A} (f : A -> Q) (l : list A) : Q :=
  fold_left (fun sum d => sum + f d) l 0.

(** ** Metric calculator ([processFilesAndCalculate], step 3)

    Reading the two spreadsheets is outside the engine; a row is taken as
    the values the parser extracts from it. *)

Record RatingRow := mkRow {
  rowRegion : option string;   (* [originalBriefKey]; [None]: empty or not in the brief *)
  rowChannel : option string;  (* [baseChannelName]; [None]: empty cell or one with "/" *)
  rowTaColumns : bool;         (* both columns of the region's audience were found *)
  rowOrbital : bool;           (* [isOrbital] *)
  rowAvgTvrTa : num;           (* [avgTvrTa] *)
  rowTotalTvrTa : num;         (* [totalTvrTa] *)
  rowSalesTvr : num;           (* [originalSalesTvr] *)
  rowCpp : num;                (* [cpp]: the price found for the channel, or [null] *)
  rowGrpBuying : string        (* [grpBuyingValue] *)
}.

Fixpoint indexOf (r : string) (l : list string) : option nat :=
  match l with
  | [] => None
  | x :: l' => if String.eqb x r then Some 0%nat
               else match indexOf r l' with Some i => Some (S i) | None => None end
  end.

(** [regionSortOrder.get(key) ?? 99] with [regionSortOrder] mapping the
    i-th brief region to [i + 1]. *)
Definition sortOrderOf (brief : BriefData) (key : string) : Q :=
  match indexOf key (regionsOf brief) with
  | Some i => inject_Z (Z.of_nat i + 1)
  | None => 99
  end.

(** One iteration of the row loop: [None] is a [continue]. *)
Definition buildRecord (brief : BriefData) (row : RatingRow) : option ChannelData :=
  match rowRegion row with
  | None => None
  | Some originalBriefKey =>
    match briefOf brief originalBriefKey, rowChannel row with
    | Some regionBrief, Some baseChannelName =>
      if negb (rowTaColumns row) then None else
      let channelForDisplay :=
        if rowOrbital row then baseChannelName ++ " - 0" else baseChannelName in
      let avgTvrTa := rowAvgTvrTa row in
      let totalTvrTa := rowTotalTvrTa row in
      let originalSalesTvr := rowSalesTvr row in
      let cpp := rowCpp row in
      let grpBuyingValue := rowGrpBuying row in
      let channelType :=
        if String.eqb grpBuyingValue "N/A" || String.eqb grpBuyingValue "N\A"
           || String.eqb grpBuyingValue ""
        then Min else GRP in
      let aff :=
        if gt0 totalTvrTa && gt0 originalSalesTvr
        then Some (numVal totalTvrTa / numVal originalSalesTvr) else None in
      let tcpp :=
        match channelType with
        | GRP => if truthy cpp && truthy aff && gt0 aff
                 then Some (numVal cpp / numVal aff) else None
        | Min => if truthy cpp && gt0 avgTvrTa
                 then Some (numVal cpp / 3 / numVal avgTvrTa) else None
        end in
      let recalculatedSalesTvr :=
        if truthy aff && gt0 aff
        then match avgTvrTa with Some a => Some (a / numVal aff) | None => None end
        else None in
      Some (mkChannel originalBriefKey channelForDisplay channelType
              (targetAudience regionBrief) avgTvrTa aff recalculatedSalesTvr cpp tcpp
              None false None None None None (sortOrderOf brief originalBriefKey))
    | _, _ => None
    end
  end.

Definition buildInitialData (brief : BriefData) (rows : list RatingRow) : list ChannelData :=
  omap (buildRecord brief) rows.

(** [d.region === region && d.tcpp !== null] *)
Definition hasTcpp (r : string) (d : ChannelData) : bool :=
  inRegion r d && negb (isNull (tcpp d)).

(** [Math.max(...regionChannels.map(d => d.tcpp))] *)
Definition maxTcppOf (r : string) (initialData : list ChannelData) : Q :=
  maxList (map (fun d => numVal (tcpp d)) (List.filter (hasTcpp r) initialData)).

Definition indexOne (r : string) (maxTcpp : Q) (d : ChannelData) : ChannelData :=
  if hasTcpp r d && Qltb 0 maxTcpp
  then set_indexTcpp (Some (numVal (tcpp d) / maxTcpp)) d
  else d.

(** Index TCPP of one region: TCPP over the largest TCPP of the region. *)
Definition indexRegion (r : string) (initialData : list ChannelData) : list ChannelData :=
  let regionChannels := List.filter (hasTcpp r) initialData in
  if (0 <? List.length regionChannels)%nat
  then map (indexOne r (maxTcppOf r initialData)) initialData
  else initialData.

Definition calcIndexTcpp (brief : BriefData) (initialData : list ChannelData)
  : list ChannelData :=
  fold_left (fun data r => indexRegion r data) (regionsOf brief) initialData.

(** ** Share optimizer ([optimizeSplit]) *)

(** *** One region inside one pass

    [div] is the division operator.  The optimizer runs with [Qdiv]; the
    pass is written over an arbitrary operator so that "this division is
    never reached with a zero divisor" can be stated. *)

Section Pass.
Variable div : Q -> Q -> Q.

Definition avgTcppOf (selectedInRegion : list ChannelData) : Q :=
  div (sumBy (fun d => orNum (tcpp d) 0) selectedInRegion)
      (inject_Z (Z.of_nat (List.length selectedInRegion))).

(** [(d.tvrTa || 0) * (d.aff || 1)] *)
Definition ratingAff (d : ChannelData) : Q :=
  orNum (tvrTa d) 0 * orNum (aff d) 1.

(** [(avgTcpp > 0 && d.tcpp && d.tcpp > 0) ? (d.tvrTa || 0) / (d.tcpp / avgTcpp) : 0] *)
Definition ratingTcpp (avgTcpp : Q) (d : ChannelData) : Q :=
  if Qltb 0 avgTcpp && truthy (tcpp d) && gt0 (tcpp d)
  then div (orNum (tvrTa d) 0) (div (numVal (tcpp d)) avgTcpp)
  else 0.

(** [(d.cpp || 0) > 0 ? (d.tvrTa || 0) / d.cpp : 0] *)
Definition ratingEff (d : ChannelData) : Q :=
  if Qltb 0 (orNum (cpp d) 0)
  then div (orNum (tvrTa d) 0) (numVal (cpp d))
  else 0.

(** The [switch] on the weighting logic. *)
Definition plainRating (weightingLogic : string) (avgTcpp : Q) (d : ChannelData) : num :=
  if String.eqb weightingLogic "Natural" then tvrTa d
  else if String.eqb weightingLogic "Affinity" then Some (ratingAff d)
  else if String.eqb weightingLogic "Efficiency" then Some (ratingEff d)
  else if String.eqb weightingLogic "TCPP" then Some (ratingTcpp avgTcpp d)
  else Some (orNum (tvrTa d) 0).

(** An element of the array [wr] of the custom blend. *)
Record RawRating := mkRaw { wr_ch : string; wr_aff : Q; wr_tcpp : Q; wr_eff : Q }.

Definition rawRatings (avgTcpp : Q) (selectedInRegion : list ChannelData)
  : list RawRating :=
  map (fun d => mkRaw (channel d) (ratingAff d) (ratingTcpp avgTcpp d) (ratingEff d))
      selectedInRegion.

Definition customRating (weights : Weights) (wr : list RawRating) (d : ChannelData)
  : num :=
  let total_wr_aff := sumBy wr_aff wr in
  let total_wr_tcpp := sumBy wr_tcpp wr in
  let total_wr_eff := sumBy wr_eff wr in
  match List.find (fun w => String.eqb (wr_ch w) (channel d)) wr with
  | None => weightedRating d
  | Some channelWr =>
    let n_wr_aff :=
      if Qltb 0 total_wr_aff then div (wr_aff channelWr) total_wr_aff else 0 in
    let n_wr_tcpp :=
      if Qltb 0 total_wr_tcpp then div (wr_tcpp channelWr) total_wr_tcpp else 0 in
    let n_wr_eff :=
      if Qltb 0 total_wr_eff then div (wr_eff channelWr) total_wr_eff else 0 in
    Some ((w_aff weights / 100) * n_wr_aff + (w_tcpp weights / 100) * n_wr_tcpp
          + (w_eff weights / 100) * n_wr_eff)
  end.

(** The rating written to a selected channel of the region. *)
Definition newRating (weightingLogic : string) (weights : option Weights)
    (selectedInRegion : list ChannelData) (d : ChannelData) : num :=
  let avgTcpp := avgTcppOf selectedInRegion in
  match String.eqb weightingLogic "Custom", weights with
  | true, Some w => customRating w (rawRatings avgTcpp selectedInRegion) d
  | _, _ => plainRating weightingLogic avgTcpp d
  end.

Definition assignRating (weightingLogic : string) (weights : option Weights)
    (r : string) (selectedInRegion : list ChannelData) (d : ChannelData)
  : ChannelData :=
  if inRegionSel r d
  then set_weightedRating (newRating weightingLogic weights selectedInRegion d) d
  else d.

Definition totalWeightedRatingOf (r : string) (data : list ChannelData) : Q :=
  sumBy (fun d => orNum (weightedRating d) 0) (List.filter (inRegionSel r) data).

Definition normalizeShare (r : string) (totalWeightedRating : Q) (d : ChannelData)
  : ChannelData :=
  if inRegionSel r d
  then set_share (Some (div (orNum (weightedRating d) 0) totalWeightedRating)) d
  else if inRegion r d then set_share (Some 0) d
  else d.

(** The body of [for (const region of regions)]. *)
Definition regionPass (weightingLogic : string) (weights : option Weights)
    (r : string) (data : list ChannelData) : list ChannelData :=
  let selectedInRegion := List.filter (inRegionSel r) data in
  if (List.length selectedInRegion =? 0)%nat then data
  else
    let data1 := map (assignRating weightingLogic weights r selectedInRegion) data in
    let totalWeightedRating := totalWeightedRatingOf r data1 in
    if Qltb 0 totalWeightedRating
    then map (normalizeShare r totalWeightedRating) data1
    else data1.

Definition regionsPass (brief : BriefData) (weightingLogic : string)
    (weights : option Weights) (data : list ChannelData) : list ChannelData :=
  fold_left (fun d r => regionPass weightingLogic weights r d) (regionsOf brief) data.
End Pass.

(** *** The constraint pass *)

(** [(regionBrief.minChannelShare ?? 2) / 100] *)
Definition minShareOf (regionBrief : RegionBrief) : Q :=
  nullish (minChannelShare regionBrief) 2 / 100.

(** [d.selected && d.share !== null && d.share < minShare], for a record
    whose region has a brief. *)
Definition belowFloor (brief : BriefData) (d : ChannelData) : bool :=
  match briefOf brief (region d) with
  | None => false
  | Some regionBrief =>
    selected d && negb (isNull (share d))
    && Qltb (numVal (share d)) (minShareOf regionBrief)
  end.

Definition applyFloor (brief : BriefData) (d : ChannelData) : ChannelData :=
  match briefOf brief (region d) with
  | None => d
  | Some regionBrief =>
    if belowFloor brief d
    then set_comment (Some (LowShare (minShareOf regionBrief * 100)))
           (set_selected false d)
    else d
  end.

(** *** The loop

    One execution of the body of [do { ... } while (changesMade)] after
    the test of [iterationCount]: the new data and [changesMade]. *)
Definition passOnce (brief : BriefData) (weightingLogic : string) (applyLimits : bool)
    (weights : option Weights) (data : list ChannelData)
  : list ChannelData * bool :=
  let data1 := regionsPass Qdiv brief weightingLogic weights data in
  if applyLimits
  then (map (applyFloor brief) data1, existsb (belowFloor brief) data1)
  else (data1, false).

(** The data after one pass, and whether the pass deselected a channel. *)
Definition passData (brief : BriefData) (weightingLogic : string) (applyLimits : bool)
    (weights : option Weights) (data : list ChannelData) : list ChannelData :=
  fst (passOnce brief weightingLogic applyLimits weights data).

Definition deselects (brief : BriefData) (weightingLogic : string) (applyLimits : bool)
    (weights : option Weights) (data : list ChannelData) : bool :=
  snd (passOnce brief weightingLogic applyLimits weights data).

Definition inspect {A} (a : A) : {b : A | a = b} := exist _ a eq_refl.

(** The loop, entered with the current value of [iterationCount]; it
    returns the data and the value of [iterationCount] on exit. *)
Equations? optimizeLoop (brief : BriefData) (weightingLogic : string)
    (applyLimits : bool) (weights : option Weights)
    (iterationCount : nat) (data : list ChannelData)
  : list ChannelData * nat by wf (21 - iterationCount)%nat lt :=
optimizeLoop brief weightingLogic applyLimits weights iterationCount data
  with inspect (20 <? S iterationCount)%nat := {
  | exist _ true _ => (data, S iterationCount)
  | exist _ false Hc =>
    if snd (passOnce brief weightingLogic applyLimits weights data)
    then optimizeLoop brief weightingLogic applyLimits weights (S iterationCount)
           (fst (passOnce brief weightingLogic applyLimits weights data))
    else (fst (passOnce brief weightingLogic applyLimits weights data),
          S iterationCount) }.
Proof. apply Nat.ltb_ge in Hc. lia. Qed.

(** *** The orbital cap *)

(** [d.channel.includes(" - 0")] *)
Definition isOrbital (d : ChannelData) : bool := includes " - 0" (channel d).

Definition orbitalSel (r : string) (d : ChannelData) : bool :=
  inRegionSel r d && isOrbital d.

Definition networkSel (r : string) (d : ChannelData) : bool :=
  inRegionSel r d && negb (isOrbital d).

Definition shareSum (p : ChannelData -> bool) (data : list ChannelData) : Q :=
  sumBy (fun d => orNum (share d) 0) (List.filter p data).

Definition scaleOrbital (r : string) (cap reductionFactor : Q) (d : ChannelData)
  : ChannelData :=
  if orbitalSel r d
  then set_comment (Some (OrbitalCorrected cap))
         (set_share (Some (numVal (share d) * reductionFactor)) d)
  else d.

Definition topUpNetwork (r : string) (totalNetworkShare shareToRedistribute : Q)
    (d : ChannelData) : ChannelData :=
  if networkSel r d
  then set_share (Some (numVal (share d)
                        + numVal (share d) / totalNetworkShare * shareToRedistribute)) d
  else d.

Definition capRegion (brief : BriefData) (r : string) (data : list ChannelData)
  : list ChannelData :=
  match briefOf brief r with
  | None => data
  | Some regionBrief =>
    match maxOrbitalShare regionBrief with
    | None => data
    | Some cap =>
      let totalOrbitalShare := shareSum (orbitalSel r) data in
      let maxShare := cap / 100 in
      if Qltb maxShare totalOrbitalShare then
        let reductionFactor := maxShare / totalOrbitalShare in
        let shareToRedistribute := totalOrbitalShare - maxShare in
        let data1 := map (scaleOrbital r cap reductionFactor) data in
        let totalNetworkShare := shareSum (networkSel r) data1 in
        if Qltb 0 totalNetworkShare
        then map (topUpNetwork r totalNetworkShare shareToRedistribute) data1
        else data1
      else data
    end
  end.

Definition capPass (brief : BriefData) (applyLimits : bool) (data : list ChannelData)
  : list ChannelData :=
  if applyLimits
  then fold_left (fun d r => capRegion brief r d) (regionsOf brief) data
  else data.

(** *** Finalization *)

Definition finalize (d : ChannelData) : ChannelData :=
  if selected d then set_trp (Some (orNum (share d) 0 * 1000)) d
  else set_trp (Some 0) (set_share (Some 0) d).

(** [(a.sortOrder - b.sortOrder) || ((b.share || 0) - (a.share || 0))] *)
Definition cmpFinal (a b : ChannelData) : Q :=
  let bySortOrder := sortOrder a - sortOrder b in
  if Qeq_bool bySortOrder 0 then orNum (share b) 0 - orNum (share a) 0
  else bySortOrder.

(** Everything [optimizeSplit] does to the records, before it sorts the
    array. *)
Definition optimizeRecords (data : list ChannelData) (brief : BriefData)
    (weightingLogic : string) (applyLimits : bool) (weights : option Weights)
  : list ChannelData :=
  map finalize
    (capPass brief applyLimits
       (fst (optimizeLoop brief weightingLogic applyLimits weights 0 data))).

Definition optimizeSplit (data : list ChannelData) (brief : BriefData)
    (weightingLogic : string) (applyLimits : bool) (weights : option Weights)
  : list ChannelData :=
  sortBy cmpFinal (optimizeRecords data brief weightingLogic applyLimits weights).

(** ** Selection filters and split generators *)

(** [(a, b) => b.indexTcpp - a.indexTcpp] *)
Definition cmpIndexDesc (a b : ChannelData) : Q :=
  numVal (indexTcpp b) - numVal (indexTcpp a).

Definition hasIndex (r : string) (d : ChannelData) : bool :=
  inRegion r d && negb (isNull (indexTcpp d)).

(** *** The count of the cutoff, in doubles

    [double] is IEEE binary64 with rounding to nearest, ties to even. *)
Definition double := SpecFloat.spec_float.

(** The double of an integer. *)
Definition doubleOfZ (z : Z) : double := SpecFloat.binary_normalize 53 1024 z 0 false.

Definition doubleMul : double -> double -> double := SpecFloat.SFmul 53 1024.
Definition doubleDiv : double -> double -> double := SpecFloat.SFdiv 53 1024.

(** The double that the rational [q] stands for: [q] itself when [q] is
    a double, and the double nearest to [q] when [q] is the decimal typed
    into the brief (numerator and denominator below 2^53), which is what
    [parseFloat] makes of it. *)
Definition toDouble (q : Q) : double :=
  doubleDiv (doubleOfZ (Qnum q)) (doubleOfZ (Zpos (Qden q))).

(** [Math.ceil(x)] as [slice(0, ...)] reads it for an array of length
    [n]: [NaN] is read as 0, and an infinity as an end beyond the array
    on its side. *)
Definition ceilAsEnd (n : nat) (x : double) : Z :=
  match x with
  | SpecFloat.S754_zero _ => 0%Z
  | SpecFloat.S754_nan => 0%Z
  | SpecFloat.S754_infinity s => if s then (- Z.of_nat n)%Z else Z.of_nat n
  | SpecFloat.S754_finite s m e =>
    let z := if s then Zneg m else Zpos m in
    match e with
    | Zneg k => (- ((- z) / Z.pow_pos 2 k))%Z
    | _ => (z * 2 ^ e)%Z
    end
  end.

(** [Math.ceil(regionChannels.length * (cutoffValue / 100))] *)
Definition channelsToCutOf (n : nat) (cutoffValue : Q) : Z :=
  ceilAsEnd n (doubleMul (doubleOfZ (Z.of_nat n))
                 (doubleDiv (toDouble cutoffValue) (doubleOfZ 100))).

(** [regionBrief?.expensiveChannelCutoff ?? 20] *)
Definition cutoffValueOf (brief : BriefData) (r : string) : Q :=
  match briefOf brief r with
  | Some regionBrief => nullish (expensiveChannelCutoff regionBrief) 20
  | None => 20
  end.

(** The channels cut in a region: the head of the ranking. *)
Definition cutChannels (brief : BriefData) (r : string) (data : list ChannelData)
  : list ChannelData :=
  let regionChannels := List.filter (hasIndex r) data in
  slice0 (channelsToCutOf (List.length regionChannels) (cutoffValueOf brief r))
         (sortBy cmpIndexDesc regionChannels).

Definition cutoffMark (r : string) (channelsToExclude : gset string) (d : ChannelData)
  : ChannelData :=
  if inRegion r d then
    if negb (isNull (indexTcpp d)) then
      if bool_decide (channel d ∈ channelsToExclude)
      then set_comment (Some ExpensiveIndex) (set_selected false d)
      else set_selected true d
    else set_comment (Some NoTcppData) (set_selected false d)
  else d.

(** The body of the cutoff loop of [generateSingleSplit]. *)
Definition cutoffRegion (brief : BriefData) (r : string) (data : list ChannelData)
  : list ChannelData :=
  let regionChannels := List.filter (hasIndex r) data in
  if (List.length regionChannels =? 0)%nat then data
  else
    let channelsToExclude : gset string :=
      list_to_set (map channel (cutChannels brief r data)) in
    map (cutoffMark r channelsToExclude) data.

Definition naturalMark (d : ChannelData) : ChannelData :=
  if truthy (tvrTa d) && gt0 (tvrTa d) && negb (isNull (cpp d)) && gt0 (cpp d)
  then set_selected true d
  else set_comment (Some NoDataOrZeroCpp) (set_selected false d).

(** The selection stage of [generateSingleSplit]. *)
Definition selectSingle (data : list ChannelData) (brief : BriefData)
    (weightingLogic : string) : list ChannelData :=
  if negb (String.eqb weightingLogic "Natural")
  then fold_left (fun d r => cutoffRegion brief r d) (regionsOf brief) data
  else map naturalMark data.

Definition generateSingleSplit (data : list ChannelData) (brief : BriefData)
    (weightingLogic : string) (applyLimits : bool) : list ChannelData :=
  optimizeSplit (selectSingle data brief weightingLogic) brief weightingLogic
    applyLimits None.

Definition constructorMark (selectedSet : gset string) (d : ChannelData) : ChannelData :=
  if truthy (tcpp d) && gt0 (tcpp d) then
    if bool_decide (channel d ∈ selectedSet)
    then set_selected true d
    else set_comment (Some NotChosenByUser) (set_selected false d)
  else set_comment (Some NoTcppData) (set_selected false d).

Definition selectConstructor (data : list ChannelData)
    (selectedChannelNames : list string) : list ChannelData :=
  map (constructorMark (list_to_set selectedChannelNames)) data.

Definition generateConstructorSplit (allChannels : list ChannelData) (brief : BriefData)
    (selectedChannelNames : list string) (weightingLogic : string)
    (weights : option Weights) : list ChannelData :=
  optimizeSplit (selectConstructor allChannels selectedChannelNames) brief
    weightingLogic true weights.

(** The body of the [forEach] of [generateManualSharesSplit]; [reg] is
    [Object.keys(brief.regionBriefs)[0]], [None] for [undefined]. *)
Definition manualMark (reg : option string) (shares : gmap string Q) (d : ChannelData)
  : ChannelData :=
  if match reg with Some r => inRegion r d | None => false end then
    match shares !! channel d with
    | Some sharePercent =>
      if Qltb 0 sharePercent
      then set_comment (Some ManualShare)
             (set_trp (Some (sharePercent / 100 * 1000))
                (set_share (Some (sharePercent / 100)) (set_selected true d)))
      else set_comment (Some ZeroPercent)
             (set_trp (Some 0) (set_share (Some 0) (set_selected false d)))
    | None =>
      set_comment (Some NotChosen)
        (set_trp (Some 0) (set_share (Some 0) (set_selected false d)))
    end
  else set_comment None (set_trp (Some 0) (set_share (Some 0) (set_selected false d))).

Definition manualRecords (allChannels : list ChannelData) (brief : BriefData)
    (shares : gmap string Q) : list ChannelData :=
  map (manualMark (head (regionsOf brief)) shares) allChannels.

Definition generateManualSharesSplit (allChannels : list ChannelData)
    (brief : BriefData) (shares : gmap string Q) : list ChannelData :=
  sortBy cmpFinal (manualRecords allChannels brief shares).

(** ** The batch computation ([processFilesAndCalculate], steps 3 and 4) *)

Record SplitConfig := mkConfig {
  cfgName : string;
  cfgLogic : string;
  cfgApplyLimits : bool
}.

Definition splitConfigs : list SplitConfig :=
  [ mkConfig "Сплит (TCPP)" "TCPP" true;
    mkConfig "Сплит (Affinity)" "Affinity" true;
    mkConfig "Сплит (Эффективность)" "Efficiency" true;
    mkConfig "Сплит (Натуральный)" "Natural" false ].

(** [CalculationResults] without the summaries, which are derived from
    [splits] and which no property below reads. *)
Record CalculationResults := mkResults {
  splits : list (string * list ChannelData);
  initialData : list ChannelData
}.

(** The base snapshot: the records of the rows, then their cost index. *)
Definition baseSnapshot (rows : list RatingRow) (brief : BriefData) : list ChannelData :=
  calcIndexTcpp brief (buildInitialData brief rows).

(** [None] is the exception thrown for a brief without regions. *)
Definition processFilesAndCalculate (rows : list RatingRow) (brief : BriefData)
  : option CalculationResults :=
  if (List.length (regionsOf brief) =? 0)%nat then None
  else
    let initialData := baseSnapshot rows brief in
    Some (mkResults
            (map (fun config =>
                    (cfgName config,
                     generateSingleSplit initialData brief (cfgLogic config)
                       (cfgApplyLimits config)))
                 splitConfigs)
            initialData).

(** ** The store: arrays of references to mutable records

    The functions above give the values.  [generateSingleSplit] and
    [optimizeSplit] do not build new records: they assign to the fields of
    the records their argument refers to and sort that array in place,
    while the two exported generators first make a JSON copy.  To state
    who changes what, records and arrays live in a store and are named by
    their address. *)

Record Store := mkStore {
  objects : list ChannelData;   (* the records, by address *)
  arrays : list (list nat)      (* the arrays, by address: addresses of records *)
}.

Definition elementsOf (st : Store) (a : nat) : list nat :=
  default [] (arrays st !! a).

(** The records an array refers to, in order. *)
Definition deref (st : Store) (a : nat) : list ChannelData :=
  omap (fun l => objects st !! l) (elementsOf st a).

(** A new array holding the given new records. *)
Definition allocArray (vals : list ChannelData) (st : Store) : Store * nat :=
  (mkStore (objects st ++ vals)
           (arrays st ++ [seq (List.length (objects st)) (List.length vals)]),
   List.length (arrays st)).

(** [JSON.parse(JSON.stringify(arr))]: new records with the same fields in
    a new array. *)
Definition jsonCopy (a : nat) (st : Store) : Store * nat :=
  allocArray (deref st a) st.

(** [arr.forEach(d => { ...assignments to the fields of d... })] with [f]
    the effect of the body on one record. *)
Definition forEachMut (a : nat) (f : ChannelData -> ChannelData) (st : Store) : Store :=
  mkStore
    (fold_left (fun os l => match os !! l with
                            | Some d => <[l := f d]> os
                            | None => os
                            end)
               (elementsOf st a) (objects st))
    (arrays st).

(** The records of array [a] overwritten, address by address, with
    [F (deref st a)]: the effect of a sequence of [forEach] loops over [a]
    that together take its records from [data] to [F data]. *)
Definition mutateAll (a : nat) (F : list ChannelData -> list ChannelData) (st : Store)
  : Store :=
  mkStore
    (fold_left (fun os ld => <[fst ld := snd ld]> os)
               (zip (elementsOf st a) (F (deref st a))) (objects st))
    (arrays st).

(** [arr.sort(cmp)]: the array is reordered in place. *)
Definition sortInPlace (a : nat) (cmp : ChannelData -> ChannelData -> Q) (st : Store)
  : Store :=
  let cmpAt l1 l2 :=
    match objects st !! l1, objects st !! l2 with
    | Some d1, Some d2 => cmp d1 d2
    | _, _ => 0
    end in
  mkStore (objects st) (<[a := sortBy cmpAt (elementsOf st a)]> (arrays st)).

Definition optimizeSplit_st (data : nat) (brief : BriefData) (weightingLogic : string)
    (applyLimits : bool) (weights : option Weights) (st : Store) : Store * nat :=
  let st1 :=
    mutateAll data
      (fun d => optimizeRecords d brief weightingLogic applyLimits weights) st in
  (sortInPlace data cmpFinal st1, data).

Definition generateSingleSplit_st (data : nat) (brief : BriefData)
    (weightingLogic : string) (applyLimits : bool) (st : Store) : Store * nat :=
  let st1 := mutateAll data (fun d => selectSingle d brief weightingLogic) st in
  optimizeSplit_st data brief weightingLogic applyLimits None st1.

Definition generateConstructorSplit_st (allChannels : nat) (brief : BriefData)
    (selectedChannelNames : list string) (weightingLogic : string)
    (weights : option Weights) (st : Store) : Store * nat :=
  let '(st1, data) := jsonCopy allChannels st in
  let st2 := forEachMut data (constructorMark (list_to_set selectedChannelNames)) st1 in
  optimizeSplit_st data brief weightingLogic true weights st2.

Definition generateManualSharesSplit_st (allChannels : nat) (brief : BriefData)
    (shares : gmap string Q) (st : Store) : Store * nat :=
  let '(st1, data) := jsonCopy allChannels st in
  let st2 := forEachMut data (manualMark (head (regionsOf brief)) shares) st1 in
  (sortInPlace data cmpFinal st2, data).

(** The loop over [splitConfigs]: each variant is computed on a JSON copy
    of [initialData]. *)
Fixpoint computeSplits_st (configs : list SplitConfig) (initialData : nat)
    (brief : BriefData) (st : Store) : Store * list (string * nat) :=
  match configs with
  | [] => (st, [])
  | config :: rest =>
    let '(st1, copy) := jsonCopy initialData st in
    let '(st2, result) :=
      generateSingleSplit_st copy brief (cfgLogic config) (cfgApplyLimits config) st1 in
    let '(st3, others) := computeSplits_st rest initialData brief st2 in
    (st3, (cfgName config, result) :: others)
  end.

(** What [processFilesAndCalculate] returns, as addresses in the store. *)
Record ResultRefs := mkRefs {
  splitRefs : list (string * nat);
  initialDataRef : nat
}.

Definition processFilesAndCalculate_st (rows : list RatingRow) (brief : BriefData)
    (st : Store) : option (Store * ResultRefs) :=
  if (List.length (regionsOf brief) =? 0)%nat then None
  else
    let '(st1, initialData) := allocArray (baseSnapshot rows brief) st in
    let '(st2, refs) := computeSplits_st splitConfigs initialData brief st1 in
    Some (st2, mkRefs refs initialData).

(** ** Vocabulary of the properties *)

(** The record lists returned by the three split generators. *)
Inductive SplitOutput : list ChannelData -> Prop :=
| out_single data brief weightingLogic applyLimits :
    SplitOutput (generateSingleSplit data brief weightingLogic applyLimits)
| out_constructor allChannels brief selectedChannelNames weightingLogic weights :
    SplitOutput (generateConstructorSplit allChannels brief selectedChannelNames
                   weightingLogic weights)
| out_manual allChannels brief shares :
    SplitOutput (generateManualSharesSplit allChannels brief shares).

(** The records the result of the batch computation exposes: those of the
    base snapshot and those of every split. *)
Definition exposedRecord (res : CalculationResults) (d : ChannelData) : Prop :=
  In d (initialData res) \/
  exists name recs, In (name, recs) (splits res) /\ In d recs.

(** ** Sample inputs *)

(** One region with an orbital cap of 30% whose two channels are both
    orbital. *)
Definition orbitalBrief : BriefData :=
  mkBriefData [("Москва", mkBrief "All 18+" (Some 2) (Some 30) (Some 20))].

Definition orbitalRows : list RatingRow :=
  [ mkRow (Some "Москва") (Some "A") true true (Some 99) (Some 2) (Some 1) (Some 200) "1";
    mkRow (Some "Москва") (Some "B") true true (Some 1) (Some 1) (Some 1) (Some 50) "1" ].

(** The fields of a record that the manual-shares generator leaves as
    they came. *)
Definition sameMetrics (d d' : ChannelData) : Prop :=
  region d' = region d /\ channel d' = channel d /\ type d' = type d /\
  ta d' = ta d /\ tvrTa d' = tvrTa d /\ aff d' = aff d /\
  salesTvr d' = salesTvr d /\ cpp d' = cpp d /\ tcpp d' = tcpp d /\
  indexTcpp d' = indexTcpp d /\ weightedRating d' = weightedRating d /\
  sortOrder d' = sortOrder d.

(** What the manual-shares split makes of a record [d], in words of the
    map of percentages: [r] is the region the shares are meant for. *)
Definition manualOutcome (r : string) (shares : gmap string Q) (d d' : ChannelData)
  : Prop :=
  sameMetrics d d' /\
  (region d = r ->
     (forall v, shares !! channel d = Some v -> 0 < v ->
        selected d' = true /\ share d' = Some (v / 100) /\
        trp d' = Some (v / 100 * 1000)) /\
     (forall v, shares !! channel d = Some v -> v <= 0 ->
        selected d' = false /\ share d' = Some 0 /\ trp d' = Some 0) /\
     (shares !! channel d = None ->
        selected d' = false /\ share d' = Some 0 /\ trp d' = Some 0)) /\
  (region d <> r ->
     selected d' = false /\ share d' = Some 0 /\ trp d' = Some 0 /\
     comment d' = None).

(** Two regions; the manual shares are entered for the first. *)
Definition twoRegionBrief : BriefData :=
  mkBriefData [("Москва", mkBrief "All 18+" (Some 2) None (Some 20));
               ("Казань", mkBrief "All 18+" (Some 2) None (Some 20))].

Definition twoRegionRows : list RatingRow :=
  [ mkRow (Some "Москва") (Some "A") true false (Some 3) (Some 2) (Some 1) (Some 200) "1";
    mkRow (Some "Москва") (Some "B") true false (Some 1) (Some 1) (Some 1) (Some 50) "1";
    mkRow (Some "Казань") (Some "A") true false (Some 2) (Some 1) (Some 1) (Some 80) "1" ].

Definition manualPercentages : gmap string Q :=
  <["A" := 60]> (<["B" := 40]> ∅).

(** A channel of region [r] whose cost index is 1. *)
Definition indexIsOne (r : string) (d : ChannelData) : bool :=
  inRegion r d &&
  match indexTcpp d with Some i => Qeq_bool i 1 | None => false end.

(** Two channels bought by the minute at the same price and rating. *)
Definition tieRows : list RatingRow :=
  [ mkRow (Some "Москва") (Some "A") true false (Some 1) (Some 1) (Some 1) (Some 300) "N/A";
    mkRow (Some "Москва") (Some "B") true false (Some 1) (Some 1) (Some 1) (Some 300) "N/A" ].

(** A price list with a negative price. *)
Definition negativePriceRows : list RatingRow :=
  [ mkRow (Some "Москва") (Some "A") true false (Some 1) (Some 1) (Some 1) (Some 300) "N/A";
    mkRow (Some "Москва") (Some "B") true false (Some 1) (Some 1) (Some 1) (Some (-150)) "N/A" ].

(** A division that answers 1 where the divisor is zero. *)
Definition divOneAtZero (a b : Q) : Q := if Qeq_bool b 0 then 1 else a / b.

(** What the orbital-cap pass of region [r] makes of a record: [total] and
    [network] are the shares held by the selected orbital and non-orbital
    channels of [r] before the pass, [maxShare] the cap as a fraction. *)
Definition cappedRecord (r : string) (maxShare total network : Q) (d d' : ChannelData)
  : Prop :=
  (orbitalSel r d = true ->
     share d' = Some (numVal (share d) * (maxShare / total))) /\
  (networkSel r d = true ->
     (0 < network ->
        share d' = Some (numVal (share d)
                         + numVal (share d) / network * (total - maxShare))) /\
     (~ 0 < network -> d' = d)) /\
  (orbitalSel r d = false -> networkSel r d = false -> d' = d).

(** The loop was left through [while (changesMade)], not through the
    [break] at [iterationCount > 20]. *)
Definition loopConverged (data : list ChannelData) (brief : BriefData)
    (weightingLogic : string) (applyLimits : bool) (weights : option Weights) : bool :=
  (snd (optimizeLoop brief weightingLogic applyLimits weights 0 data) <=? 20)%nat.

(** A region with a cap of 30% holding an orbital channel between two
    network channels. *)
Definition mixedRows : list RatingRow :=
  [ mkRow (Some "Москва") (Some "A") true false (Some 1) (Some 1) (Some 1) (Some 50) "1";
    mkRow (Some "Москва") (Some "B") true true (Some 3) (Some 1) (Some 1) (Some 60) "1";
    mkRow (Some "Москва") (Some "C") true false (Some 1) (Some 1) (Some 1) (Some 500) "1" ].

(** The ranking of the cutoff: the channels of region [r] with a cost
    index, most expensive first. *)
Definition rankedOf (r : string) (data : list ChannelData) : list ChannelData :=
  sortBy cmpIndexDesc (List.filter (hasIndex r) data).

(** [a] is at least as expensive as [b]. *)
Definition notCheaper (a b : ChannelData) : Prop :=
  numVal (indexTcpp b) <= numVal (indexTcpp a).

(** The count as the specification has it: [ceil (N * cutoff / 100)],
    in exact arithmetic. *)
Definition ceilCount (n : nat) (cutoffValue : Q) : Z :=
  Qceiling (inject_Z (Z.of_nat n) * (cutoffValue / 100)).

(** The top [ceil (N * cutoff / 100)] channels of the ranking. *)
Definition topOf (brief : BriefData) (r : string) (data : list ChannelData)
  : list ChannelData :=
  firstn (Z.to_nat (ceilCount (List.length (rankedOf r data)) (cutoffValueOf brief r)))
         (rankedOf r data).

(** The code's count is the count of the specification: the double
    product did not round over an integer. *)
Definition countIsExact (brief : BriefData) (r : string) (data : list ChannelData)
  : Prop :=
  channelsToCutOf (List.length (rankedOf r data)) (cutoffValueOf brief r)
  = ceilCount (List.length (rankedOf r data)) (cutoffValueOf brief r).

(** The selection stage writes [selected] and [comment] only. *)
Definition selectionOnly (d d' : ChannelData) : Prop :=
  sameMetrics d d' /\ share d' = share d /\ trp d' = trp d.

(** A record of region [r] starts selected exactly when it has a cost
    index and is not among the channels cut. *)
Definition cutoffOutcome (r : string) (top : list ChannelData) (d d' : ChannelData)
  : Prop :=
  selectionOnly d d' /\
  (region d = r -> (selected d' = true <-> indexTcpp d <> None /\ ~ In d top)).

(** The cutoff of region [r] seen from one record: the mark it receives
    when the region has channels with a cost index. *)
Definition excludedNames (brief : BriefData) (r : string) (data : list ChannelData)
  : gset string :=
  list_to_set (map channel (cutChannels brief r data)).

Definition cutoffStep (brief : BriefData) (data : list ChannelData) (r : string)
    (d : ChannelData) : ChannelData :=
  if (List.length (List.filter (hasIndex r) data) =? 0)%nat then d
  else cutoffMark r (excludedNames brief r data) d.

(** Two rows of the same region that display under the same name. *)
Definition duplicateNameRows : list RatingRow :=
  [ mkRow (Some "Москва") (Some "A") true false (Some 1) (Some 1) (Some 1) (Some 300) "N/A";
    mkRow (Some "Москва") (Some "B") true false (Some 1) (Some 1) (Some 1) (Some 150) "N/A";
    mkRow (Some "Москва") (Some "A") true false (Some 3) (Some 1) (Some 1) (Some 300) "N/A" ].

(** A brief with a negative cutoff. *)
Definition negativeCutoffBrief : BriefData :=
  mkBriefData [("Москва", mkBrief "All 18+" (Some 2) None (Some (-50)))].

(** A region of 25 channels, named "A" to "Y" and priced 1 to 25, with a
    cutoff of 28%. *)
Definition letterRows : list RatingRow :=
  map (fun i => mkRow (Some "Москва")
                  (Some (String (Ascii.ascii_of_nat (64 + i)) ""))
                  true false (Some 1) (Some 1) (Some 1)
                  (Some (inject_Z (Z.of_nat i))) "1")
      (seq 1 25).

Definition cutoff28Brief : BriefData :=
  mkBriefData [("Москва", mkBrief "All 18+" (Some 2) None (Some 28))].

(** No array of the store refers to an address without a record. *)
Definition wfStore (st : Store) : Prop :=
  List.Forall (List.Forall (fun l => (l < List.length (objects st))%nat)) (arrays st).

(** [st'] has every record and array of [st], unchanged, and possibly
    more. *)
Definition extendsStore (st st' : Store) : Prop :=
  (exists newObjects, objects st' = (objects st ++ newObjects)%list) /\
  (exists newArrays, arrays st' = (arrays st ++ newArrays)%list).

(** The base snapshot of the orbital sample, alone in a store. *)
Definition sampleStore : Store :=
  fst (allocArray (baseSnapshot orbitalRows orbitalBrief) (mkStore [] [])).

(** A store extended with new records [vals] held by one new array. *)
Definition freshArray (objs : list ChannelData) (arrs : list (list nat))
    (vals : list ChannelData) : Store :=
  mkStore (objs ++ vals) (arrs ++ [seq (List.length objs) (List.length vals)]).

(** ** Vocabulary of the further properties *)

(** The fields of a record that the generators read and never write. *)
Record Metrics := mkMetrics {
  m_region : string;
  m_channel : string;
  m_type : BuyType;
  m_ta : string;
  m_tvrTa : num;
  m_aff : num;
  m_salesTvr : num;
  m_cpp : num;
  m_tcpp : num;
  m_indexTcpp : num;
  m_sortOrder : Q
}.

Definition metricsOf (d : ChannelData) : Metrics :=
  mkMetrics (region d) (channel d) (type d) (ta d) (tvrTa d) (aff d) (salesTvr d)
    (cpp d) (tcpp d) (indexTcpp d) (sortOrder d).

(** [d'] is what a generator made of [d]: the same channel with the same
    metrics, and selected only if [d] was. *)
Definition carriedOver (d d' : ChannelData) : Prop :=
  metricsOf d' = metricsOf d /\ (selected d' = true -> selected d = true).

(** [d'] is [d] after a step that writes neither its metrics nor its
    selection flag. *)
Definition keptSelection (d d' : ChannelData) : Prop :=
  metricsOf d' = metricsOf d /\ selected d' = selected d.

(** The number of selected records. *)
Definition selectedCount (data : list ChannelData) : nat :=
  List.length (List.filter selected data).

(** A selected record holds at least the share [minShare]. *)
Definition floorOk (minShare : Q) (d : ChannelData) : Prop :=
  selected d = true -> exists s, share d = Some s /\ minShare <= s.

(** The order of a finished split: by the position of the region in the
    brief, and inside a region by descending share. *)
Definition finalOrder (a b : ChannelData) : Prop :=
  sortOrder a < sortOrder b \/
  (sortOrder a == sortOrder b /\ orNum (share b) 0 <= orNum (share a) 0).

(** ** The summaries ([generateSummaries])

    The objects the function builds are given as the list of their
    entries in the order the assignments create them, like [splits]
    itself. *)

Record SummaryKPIs := mkKpis {
  trps : Q;
  avrTvr : Q;
  affinity : Q;
  cppTa : Q;
  budget : Q;
  costIndex : Q
}.

Definition set_costIndex (v : Q) (kpi : SummaryKPIs) : SummaryKPIs :=
  mkKpis (trps kpi) (avrTvr kpi) (affinity kpi) (cppTa kpi) (budget kpi) v.

Record RegionSummary := mkSummary {
  summaryRegion : string;
  channels : list (string * list (string * num));
  kpis : list (string * SummaryKPIs)
}.

(** [d.region === region && (d.selected || d.share > 0)] *)
Definition listedIn (r : string) (d : ChannelData) : bool :=
  inRegion r d && (selected d || gt0 (share d)).

(** [set.add(c)] on a [Set] kept as the list of its elements in insertion
    order. *)
Definition setAdd (set : list string) (c : string) : list string :=
  if existsb (String.eqb c) set then set else set ++ [c].

Definition allChannelsInRegionOf (splits : list (string * list ChannelData))
    (r : string) : list string :=
  fold_left
    (fun set split =>
       fold_left setAdd (map channel (List.filter (listedIn r) (snd split))) set)
    splits [].

(** [recs.find(d => d.region === region && d.channel === channel)?.share ?? null] *)
Definition shareOfChannel (r c : string) (recs : list ChannelData) : num :=
  match List.find (fun d => inRegion r d && String.eqb (channel d) c) recs with
  | Some channelData => share channelData
  | None => None
  end.

(** The channel table of a region, in the order the names were added (an
    object enumerates a name that reads as an integer, such as "360",
    before the others: the order of such names is not modelled). *)
Definition channelsOf (splits : list (string * list ChannelData)) (r : string)
  : list (string * list (string * num)) :=
  map (fun c => (c, map (fun split => (fst split, shareOfChannel r c (snd split)))
                        splits))
      (allChannelsInRegionOf splits r).

(** The KPIs of one split in one region, before the cost index; [None]
    when the split selects no channel of the region. *)
Definition kpisOfSplit (r : string) (recs : list ChannelData) : option SummaryKPIs :=
  let splitChannels := List.filter (inRegionSel r) recs in
  if (0 <? List.length splitChannels)%nat then
    let totalTrps := sumBy (fun d => orNum (trp d) 0) splitChannels in
    let avrTvr := sumBy (fun d => orNum (tvrTa d) 0 * orNum (share d) 0) splitChannels in
    let affinity := sumBy (fun d => orNum (aff d) 0 * orNum (share d) 0) splitChannels in
    let cppTa := sumBy (fun d => orNum (tcpp d) 0 * orNum (share d) 0) splitChannels in
    let budget := cppTa * totalTrps in
    Some (mkKpis totalTrps avrTvr affinity cppTa budget 0)
  else None.

Definition regionKpisOf (splits : list (string * list ChannelData)) (r : string)
  : list (string * SummaryKPIs) :=
  omap (fun split =>
          match kpisOfSplit r (snd split) with
          | Some kpi => Some (fst split, kpi)
          | None => None
          end)
       splits.

(** The cost index: every budget over the largest positive budget. *)
Definition withCostIndex (regionKpis : list (string * SummaryKPIs))
  : list (string * SummaryKPIs) :=
  let budgets := List.filter (Qltb 0) (map (fun kv => budget (snd kv)) regionKpis) in
  if (0 <? List.length budgets)%nat then
    let maxBudget := maxList budgets in
    if Qltb 0 maxBudget
    then map (fun kv => (fst kv, set_costIndex (budget (snd kv) / maxBudget) (snd kv)))
             regionKpis
    else regionKpis
  else regionKpis.

Definition summaryOf (splits : list (string * list ChannelData)) (r : string)
  : RegionSummary :=
  mkSummary r (channelsOf splits r) (withCostIndex (regionKpisOf splits r)).

Definition generateSummaries (splits : list (string * list ChannelData))
    (brief : BriefData) : list (string * RegionSummary) :=
  map (fun r => (r, summaryOf splits r)) (regionsOf brief).

(** The summaries [processFilesAndCalculate] returns with its splits. *)
Definition summariesOf (res : CalculationResults) (brief : BriefData)
  : list (string * RegionSummary) :=
  generateSummaries (splits res) brief.

(** The four systematic splits of the mixed sample. *)
Definition mixedSplits : list (string * list ChannelData) :=
  map (fun config =>
         (cfgName config,
          generateSingleSplit (baseSnapshot mixedRows orbitalBrief) orbitalBrief
            (cfgLogic config) (cfgApplyLimits config)))
      splitConfigs.

(** ** Column headers ([findColumn], the audience columns)

    Strings are kept as their UTF-8 bytes; prefixes, suffixes,
    concatenation and equality of strings are those of their bytes. *)

Definition byte (n : nat) : Ascii.ascii := Ascii.ascii_of_nat n.

(** A line terminator starts at the head of [s]: LF, CR, U+2028 or
    U+2029 (bytes E2 80 A8 and E2 80 A9), the characters that [.] does not
    match in a regular expression. *)
Definition lineTerminatorAt (s : string) : bool :=
  match s with
  | String c1 rest =>
    if Ascii.eqb c1 (byte 10) || Ascii.eqb c1 (byte 13) then true
    else if Ascii.eqb c1 (byte 226) then
      match rest with
      | String c2 (String c3 _) =>
        Ascii.eqb c2 (byte 128) && (Ascii.eqb c3 (byte 168) || Ascii.eqb c3 (byte 169))
      | _ => false
      end
    else false
  | EmptyString => false
  end.

(** [h.match(/^(.*?)T$/)] for [T] an alternation of literal texts
    [tails]: the group is the shortest prefix of [h] that leaves one of
    the [tails], and it cannot run over a line terminator. *)
Fixpoint matchLazyPrefix (tails : list string) (h : string) : option string :=
  if existsb (String.eqb h) tails then Some ""
  else match h with
       | EmptyString => None
       | String c rest =>
         if lineTerminatorAt h then None
         else match matchLazyPrefix tails rest with
              | Some group => Some (String c group)
              | None => None
              end
       end.

(** [/^(.*?)__(?:AVG Reg TVR|PBA Reg TVR|AVG TVR|TVR)$/] *)
Definition tvrTails : list string :=
  ["__AVG Reg TVR"; "__PBA Reg TVR"; "__AVG TVR"; "__TVR"].

(** [/^(.*?)__(?:AVG Reg TVR|AVG TVR)$/] *)
Definition avgTails : list string := ["__AVG Reg TVR"; "__AVG TVR"].

Definition nonEmpty (s : string) : bool :=
  match s with EmptyString => false | String _ _ => true end.

(** The audiences [preParseRatingsFile] collects from the header row:
    [taSet], in insertion order. *)
Definition taSetOf (headers : list string) : list string :=
  fold_left
    (fun taSet h =>
       match matchLazyPrefix tvrTails h with
       | Some group => if nonEmpty group then setAdd taSet group else taSet
       | None => taSet
       end)
    headers [].

(** [hasTaColumnPair] of [validateRatingsFile]. *)
Definition hasTaColumnPair (headers : list string) : bool :=
  existsb
    (fun h =>
       match matchLazyPrefix avgTails h with
       | Some baseTA =>
         if nonEmpty baseTA
         then existsb (fun suffix => existsb (String.eqb (baseTA ++ suffix)) headers)
                      ["__PBA Reg TVR"; "__TVR"]
         else false
       | None => false
       end)
    headers.

(** [findColumn].  [trim] and [toLowerCase] are the methods of the
    JavaScript string; a header cell may be missing from the row (a hole
    of the array, read as [undefined]). *)
Section FindColumn.
Variables trim toLowerCase : string -> string.

(** [h?.trim().toLowerCase() === name.toLowerCase()] *)
Definition headerIs (name : string) (h : option string) : bool :=
  match h with
  | Some s => String.eqb (toLowerCase (trim s)) (toLowerCase name)
  | None => false
  end.

(** [arr.findIndex(p)] *)
Fixpoint findIndex {A} (p : A -> bool) (l : list A) : Z :=
  match l with
  | [] => (-1)%Z
  | x :: l' =>
    if p x then 0%Z
    else let i := findIndex p l' in if (i =? -1)%Z then (-1)%Z else (i + 1)%Z
  end.

Fixpoint findColumn (headers : list (option string)) (namesToSearch : list string) : Z :=
  match namesToSearch with
  | [] => (-1)%Z
  | name :: rest =>
    let index := findIndex (headerIs name) headers in
    if negb (index =? -1)%Z then index else findColumn headers rest
  end.

Definition findAvgTAColumn (headers : list (option string)) (baseTA : string) : Z :=
  findColumn headers (map (fun suffix => baseTA ++ suffix) ["__AVG Reg TVR"; "__AVG TVR"]).

Definition findTotalTAColumn (headers : list (option string)) (baseTA : string) : Z :=
  findColumn headers (map (fun suffix => baseTA ++ suffix) ["__PBA Reg TVR"; "__TVR"]).

Definition findSalesTVRColumn (headers : list (option string)) : Z :=
  findColumn headers ["PBA Reg Sales TVR"; "PBA Sales TVR"; "Sales TVR"].
End FindColumn.

(** ** Vocabulary of the header properties *)

(** No line terminator starts inside [p] when [p] is followed by [t]. *)
Fixpoint clearRun (p t : string) : bool :=
  match p with
  | EmptyString => true
  | String _ p' => negb (lineTerminatorAt (p ++ t)) && clearRun p' t
  end.

(** [s] holds no line terminator. *)
Definition noLineBreak (s : string) : bool := clearRun s "".

Fixpoint properSuffixes (s : string) : list string :=
  match s with
  | EmptyString => []
  | String _ rest => rest :: properSuffixes rest
  end.

(** No text of [tails] ends with another one behind a non-empty prefix. *)
Definition independentTails (tails : list string) : bool :=
  forallb (fun t' => forallb (fun u => negb (existsb (String.eqb u) tails))
                             (properSuffixes t'))
          tails.

(** The header row of the rating template. *)
Definition templateHeaders : list string :=
  ["Регион"; "Телекомпания"; "Блок содержание"; "Блок распространение";
   "GRP баинговая"; "W 25-45 BC__AVG Reg TVR"; "W 25-45 BC__PBA Reg TVR";
   "Sales TVR"].

(** The ratings and the share of a record are not negative ([null]
    counting as 0). *)
Definition soundRecord (d : ChannelData) : Prop :=
  0 <= numVal (tvrTa d) /\ 0 <= numVal (aff d) /\ 0 <= numVal (share d).

Definition soundWeights (weights : option Weights) : Prop :=
  forall w, weights = Some w -> 0 <= w_aff w /\ 0 <= w_tcpp w /\ 0 <= w_eff w.

(** Every orbital cap of the brief is a percentage between 0 and 100. *)
Definition capsInRange (brief : BriefData) : Prop :=
  forall r rb cap, briefOf brief r = Some rb -> maxOrbitalShare rb = Some cap ->
                   0 <= cap /\ cap <= 100.

(** ** The manual-shares panel ([ManualSharesPanel], [ResultsStep])

    The state of the panel is the map [shares]; [numValue] is what
    [parseFloat] made of the text typed, [None] for [NaN]. *)

Definition handleShareChange (shares : gmap string Q) (channelName : string)
    (numValue : num) : gmap string Q :=
  match numValue with
  | Some v => if Qle_bool 0 v then <[channelName := v]> shares
              else delete channelName shares
  | None => delete channelName shares
  end.

(** [Array.from(shares.values()).reduce((sum, val) => sum + (val || 0), 0)] *)
Definition totalShareOf (shares : gmap string Q) : Q :=
  sumBy (fun kv => orNum (Some (snd kv)) 0) (map_to_list shares).

(** What the click hands to [onCalculate]; [None] when it does nothing. *)
Definition handleCalculateClick (shares : gmap string Q) : option (gmap string Q) :=
  if Qltb (Qabs (totalShareOf shares - 100)) (1 / 1000) then Some shares else None.

(** [generateManualSharesSplit(initialData, briefForRegion, shares)] with
    [briefForRegion] holding the brief of the active region only. *)
Definition handleCalculateManualSharesSplit (initialData : list ChannelData)
    (activeRegion : string) (regionBrief : RegionBrief) (shares : gmap string Q)
  : list ChannelData :=
  generateManualSharesSplit initialData (mkBriefData [(activeRegion, regionBrief)]) shares.

(** The maps the panel can hold: it starts empty, and every edit is a
    [handleShareChange] on the row of one of its [channels]. *)
Inductive panelShares (channels : list ChannelData) : gmap string Q -> Prop :=
| panel_start : panelShares channels ∅
| panel_edit shares ch numValue :
    panelShares channels shares -> In ch channels ->
    panelShares channels (handleShareChange shares (channel ch) numValue).

(** The panel of the first region of the two-region sample after 60 and
    40 were typed for its two channels. *)
Definition typedShares : gmap string Q :=
  handleShareChange (handleShareChange ∅ "A" (Some 60)) "B" (Some 40).

(** [generateConstructorSplit(initialData, briefForRegion, selectedChannels,
    logic, weights)] with [briefForRegion] holding the brief of the active
    region only. *)
Definition handleCalculateConstructorSplit (initialData : list ChannelData)
    (activeRegion : string) (regionBrief : RegionBrief)
    (selectedChannels : list string) (logic : string) (weights : option Weights)
  : list ChannelData :=
  generateConstructorSplit initialData (mkBriefData [(activeRegion, regionBrief)])
    selectedChannels logic weights.

(** ** The constructor panel ([ConstructorPanel], [ResultsStep]) *)

Module ConstructorPanel.

(** The state of the panel: the Set [selected] in insertion order, the
    value of the select [logic] and the three [weights]. *)
Record State := mkState {
  selected : list string;
  logic : string;
  weights : Weights
}.

(** [useState] initial values. *)
Definition initial : State := mkState [] "TCPP" (mkWeights 40 30 30).

Definition totalWeight (st : State) : Q :=
  w_aff (weights st) + w_tcpp (weights st) + w_eff (weights st).

Definition toggleChannel (st : State) (channelName : string) : State :=
  if existsb (String.eqb channelName) (selected st)
  then mkState (List.filter (fun c => negb (String.eqb channelName c)) (selected st))
         (logic st) (weights st)
  else mkState (selected st ++ [channelName])%list (logic st) (weights st).

Definition setLogic (st : State) (value : string) : State :=
  mkState (selected st) value (weights st).

Inductive Field := aff_field | tcpp_field | eff_field.

Definition setWeight (field : Field) (v : Q) (w : Weights) : Weights :=
  match field with
  | aff_field => mkWeights v (w_tcpp w) (w_eff w)
  | tcpp_field => mkWeights (w_aff w) v (w_eff w)
  | eff_field => mkWeights (w_aff w) (w_tcpp w) v
  end.

(** [numValue] is [parseInt(value, 10)], [None] for [NaN]; [isEmpty] is
    [value === '']. *)
Definition handleWeightChange (st : State) (field : Field) (numValue : option Z)
    (isEmpty : bool) : State :=
  match numValue with
  | Some n =>
    if (0 <=? n)%Z && (n <=? 100)%Z
    then mkState (selected st) (logic st) (setWeight field (inject_Z n) (weights st))
    else if isEmpty
         then mkState (selected st) (logic st) (setWeight field 0 (weights st))
         else st
  | None =>
    if isEmpty
    then mkState (selected st) (logic st) (setWeight field 0 (weights st))
    else st
  end.

(** The arguments handed to [onCalculate]; [None] when the click does
    nothing. *)
Definition handleCalculateClick (st : State)
  : option (list string * string * option Weights) :=
  if String.eqb (logic st) "Custom" && negb (Qeq_bool (totalWeight st) 100)
  then None
  else Some (selected st, logic st,
             if String.eqb (logic st) "Custom" then Some (weights st) else None).

(** The states the panel can reach. *)
Inductive reachable : State -> Prop :=
| reach_initial : reachable initial
| reach_toggle st channelName :
    reachable st -> reachable (toggleChannel st channelName)
| reach_logic st value : reachable st -> reachable (setLogic st value)
| reach_weight st field numValue isEmpty :
    reachable st -> reachable (handleWeightChange st field numValue isEmpty).

End ConstructorPanel.

(** ** Cell colours of the panels ([getGradientColor],
    [getInvertedGradientColor])

    A colour is kept as its parts: [rgb r g b] stands for the text
    [rgb(r, g, b)] that the function returns. *)

Inductive Color := transparent | rgb (r g b : Z).

(** [Math.round] *)
Definition jsRound (x : Q) : Z := Qfloor (x + (1 # 2)).

Definition getGradientColor (value : num) (min max : Q) : Color :=
  if isNull value || Qle_bool (numVal value) 0 then transparent
  else if Qle_bool max min then rgb 255 235 132
  else
    let percent := (numVal value - min) / (max - min) in
    if Qltb percent (1 # 2) then
      let localPercent := percent * 2 in
      rgb (jsRound (248 + localPercent * (255 - 248)))
          (jsRound (105 + localPercent * (235 - 105)))
          (jsRound (107 + localPercent * (132 - 107)))
    else
      let localPercent := (percent - (1 # 2)) * 2 in
      rgb (jsRound (255 + localPercent * (99 - 255)))
          (jsRound (235 + localPercent * (190 - 235)))
          (jsRound (132 + localPercent * (123 - 132))).

Definition getInvertedGradientColor (value : num) (min max : Q) : Color :=
  if isNull value || Qle_bool (numVal value) 0 then transparent
  else if Qle_bool max min then rgb 255 235 132
  else
    let percent := (numVal value - min) / (max - min) in
    getGradientColor (Some (1 - percent)) 0 1.

(** ** The brief form ([BriefStep]) *)

(** The brief that [handleRegionToggle] writes for a region just ticked;
    [availableTAs[0] || ''] is the first audience offered. *)
Definition tickedRegionBrief (availableTAs : list string) : RegionBrief :=
  mkBrief (match availableTAs with ta :: _ => ta | [] => "" end) (Some 2) None (Some 20).

(** [handleRegionToggle]: a region of the brief is dropped, another one is
    added at the end with the brief of a region just ticked.  (An object
    enumerates a key that reads as an integer before the others; region
    names are taken not to.) *)
Definition handleRegionToggle (regionBriefs : list (string * RegionBrief))
    (availableTAs : list string) (regionName : string)
  : list (string * RegionBrief) :=
  if existsb (fun kv => String.eqb (fst kv) regionName) regionBriefs
  then List.filter (fun kv => negb (String.eqb (fst kv) regionName)) regionBriefs
  else (regionBriefs ++ [(regionName, tickedRegionBrief availableTAs)])%list.

(** What the generators read of the brief of a region: the floor, the
    cap and the cutoff, each with its default. *)
Definition sameLimits (a b : RegionBrief) : Prop :=
  minShareOf a = minShareOf b /\ maxOrbitalShare a = maxOrbitalShare b /\
  nullish (expensiveChannelCutoff a) 20 = nullish (expensiveChannelCutoff b) 20.

(** Two briefs with the same regions in the same order and, region by
    region, the same limits. *)
Definition sameLimitsBrief (brief brief' : BriefData) : Prop :=
  Forall2 (fun kv kv' => fst kv = fst kv' /\ sameLimits (snd kv) (snd kv'))
          (regionBriefs brief) (regionBriefs brief').

(** ** Names that every object answers to

    The members of [Object.prototype]: [brief.regionBriefs[r]] finds one
    of them, a value that tests true, when [r] has such a name and is not
    a key of the brief. *)
Definition objectPrototypeKeys : list string :=
  ["constructor"; "__defineGetter__"; "__defineSetter__"; "hasOwnProperty";
   "__lookupGetter__"; "__lookupSetter__"; "isPrototypeOf"; "propertyIsEnumerable";
   "toString"; "valueOf"; "__proto__"; "toLocaleString"].

(** [brief.regionBriefs[r]] is [undefined]: [r] is no key of the brief
    and names no inherited member. *)
Definition withoutBrief (brief : BriefData) (r : string) : Prop :=
  briefOf brief r = None /\ ~ In r objectPrototypeKeys.

(** * Properties *)

(** ** Numbers and sums *)

Lemma Qltb_lt (a b : Q) : Qltb a b = true <-> a < b.
Proof.
  unfold Qltb. rewrite negb_true_iff. split; intro H.
  - apply Qnot_le_lt. intro Hle. apply Qle_bool_iff in Hle. congruence.
  - destruct (Qle_bool b a) eqn:E; [|reflexivity].
    apply Qle_bool_iff in E. exfalso. apply (Qlt_not_le _ _ H E).
Qed.

Lemma Qltb_ge (a b : Q) : Qltb a b = false <-> b <= a.
Proof.
  unfold Qltb. rewrite negb_false_iff. apply Qle_bool_iff.
Qed.

Lemma orNum0_numVal (x : num) : orNum x 0 == numVal x.
Proof.
  destruct x as [q|]; simpl; [|reflexivity].
  destruct (Qeq_bool q 0) eqn:E; [|reflexivity].
  apply Qeq_bool_iff in E. symmetry. exact E.
Qed.

Lemma fold_sum_acc {A} (f : A -> Q) (l : list A) (a : Q) :
  fold_left (fun sum d => sum + f d) l a == a + sumQ (map f l).
Proof.
  revert a. induction l as [|x l IH]; intro a; simpl.
  - ring.
  - rewrite IH. ring.
Qed.

Lemma sumBy_sumQ {A} (f : A -> Q) (l : list A) : sumBy f l == sumQ (map f l).
Proof. unfold sumBy. rewrite fold_sum_acc. ring. Qed.

Lemma sumBy_nil {A} (f : A -> Q) : sumBy f [] == 0.
Proof. reflexivity. Qed.

Lemma sumBy_cons {A} (f : A -> Q) (x : A) (l : list A) :
  sumBy f (x :: l) == f x + sumBy f l.
Proof. rewrite !sumBy_sumQ. reflexivity. Qed.

Lemma sumBy_perm {A} (f : A -> Q) (l1 l2 : list A) :
  Permutation l1 l2 -> sumBy f l1 == sumBy f l2.
Proof.
  induction 1 as [|x l l' _ IH|x y l|l l' l'' _ IH1 _ IH2].
  - reflexivity.
  - rewrite !sumBy_cons, IH. reflexivity.
  - rewrite !sumBy_cons. ring.
  - rewrite IH1. exact IH2.
Qed.

Lemma sumBy_ext {A} (f g : A -> Q) (l : list A) :
  (forall x, In x l -> f x == g x) -> sumBy f l == sumBy g l.
Proof.
  induction l as [|x l IH]; intro H.
  - reflexivity.
  - rewrite !sumBy_cons, IH.
    + rewrite (H x (or_introl eq_refl)). reflexivity.
    + intros y Hy. apply H. right. exact Hy.
Qed.

Lemma sumBy_map {A B} (f : B -> Q) (g : A -> B) (l : list A) :
  sumBy f (map g l) == sumBy (fun x => f (g x)) l.
Proof.
  induction l as [|x l IH]; simpl.
  - reflexivity.
  - rewrite !sumBy_cons, IH. reflexivity.
Qed.

Lemma sumBy_scale {A} (f : A -> Q) (c : Q) (l : list A) :
  sumBy (fun x => f x * c) l == sumBy f l * c.
Proof.
  induction l as [|x l IH].
  - rewrite !sumBy_nil. ring.
  - rewrite !sumBy_cons, IH. ring.
Qed.

Lemma sumBy_plus {A} (f g : A -> Q) (l : list A) :
  sumBy (fun x => f x + g x) l == sumBy f l + sumBy g l.
Proof.
  induction l as [|x l IH].
  - rewrite !sumBy_nil. ring.
  - rewrite !sumBy_cons, IH. ring.
Qed.

(** ** The stable sort *)

Lemma insertBy_perm {A} (cmp : A -> A -> Q) (x : A) (l : list A) :
  Permutation (x :: l) (insertBy cmp x l).
Proof.
  induction l as [|y l IH]; simpl.
  - apply Permutation_refl.
  - destruct (Qle_bool (cmp x y) 0).
    + apply Permutation_refl.
    + eapply perm_trans; [apply perm_swap|]. apply perm_skip. exact IH.
Qed.

Lemma sortBy_perm {A} (cmp : A -> A -> Q) (l : list A) :
  Permutation l (sortBy cmp l).
Proof.
  induction l as [|x l IH]; simpl.
  - apply perm_nil.
  - eapply perm_trans; [apply perm_skip; exact IH|]. apply insertBy_perm.
Qed.

Lemma sortBy_In {A} (cmp : A -> A -> Q) (l : list A) (x : A) :
  In x (sortBy cmp l) <-> In x l.
Proof.
  split; apply Permutation_in; [apply Permutation_sym|]; apply sortBy_perm.
Qed.

Lemma sortBy_length {A} (cmp : A -> A -> Q) (l : list A) :
  List.length (sortBy cmp l) = List.length l.
Proof. symmetry. apply Permutation_length, sortBy_perm. Qed.

Lemma filter_perm {A} (p : A -> bool) (l1 l2 : list A) :
  Permutation l1 l2 -> Permutation (List.filter p l1) (List.filter p l2).
Proof.
  induction 1 as [|x l l' _ IH|x y l|l l' l'' _ IH1 _ IH2]; simpl.
  - apply perm_nil.
  - destruct (p x); [apply perm_skip|]; exact IH.
  - destruct (p x), (p y); try apply Permutation_refl. apply perm_swap.
  - eapply perm_trans; eassumption.
Qed.

(** ** The loop of [optimizeSplit] *)

Section Loop.
Variables (brief : BriefData) (weightingLogic : string) (applyLimits : bool)
          (weights : option Weights).

Local Abbreviation loop := (optimizeLoop brief weightingLogic applyLimits weights).
Local Abbreviation pass := (passData brief weightingLogic applyLimits weights).
Local Abbreviation changed := (deselects brief weightingLogic applyLimits weights).

Lemma optimizeLoop_step (iterationCount : nat) (data : list ChannelData) :
  loop iterationCount data =
  if (20 <? S iterationCount)%nat then (data, S iterationCount)
  else if changed data then loop (S iterationCount) (pass data)
       else (pass data, S iterationCount).
Proof.
  rewrite optimizeLoop_equation_1.
  destruct (inspect (20 <? S iterationCount)%nat) as [[|] Hb];
    cbn [optimizeLoop_unfold_clause_1]; rewrite Hb; reflexivity.
Qed.

(** From any value of the counter, the loop is a run of at most
    [20 - iterationCount] passes, every one but the last deselecting. *)
Lemma optimizeLoop_run (n iterationCount : nat) (data : list ChannelData) :
  (iterationCount + n = 20)%nat ->
  exists passes : nat,
    (passes <= n)%nat /\ ((0 < n)%nat -> (1 <= passes)%nat) /\
    fst (loop iterationCount data) = Nat.iter passes pass data /\
    (forall k, (S k < passes)%nat -> changed (Nat.iter k pass data) = true) /\
    (((1 <= passes)%nat /\ changed (Nat.iter (passes - 1) pass data) = false /\
      snd (loop iterationCount data) = (iterationCount + passes)%nat)
     \/ (passes = n /\ snd (loop iterationCount data) = 21%nat)).
Proof.
  revert iterationCount data.
  induction n as [|n IH]; intros ic data Hic; rewrite optimizeLoop_step.
  - assert (ic = 20%nat) as -> by lia. simpl.
    exists 0%nat. split; [lia|]. split; [lia|]. split; [reflexivity|].
    split; [intros k Hk; lia|]. right. split; reflexivity.
  - destruct (20 <? S ic)%nat eqn:E; [apply Nat.ltb_lt in E; lia|].
    destruct (changed data) eqn:Hch.
    + destruct (IH (S ic) (pass data)) as (p & Hle & _ & Hres & Hprev & Hlast);
        [lia|].
      exists (S p). split; [lia|]. split; [lia|].
      split; [rewrite Hres; symmetry; apply Nat.iter_succ_r|].
      split.
      * intros [|k] Hk; [exact Hch|].
        rewrite Nat.iter_succ_r. apply Hprev. lia.
      * destruct Hlast as [(Hp & Hstop & Hcnt)|(Hp & Hcnt)].
        -- left. split; [lia|]. split; [|rewrite Hcnt; lia].
           replace (S p - 1)%nat with (S (p - 1)) by lia.
           rewrite Nat.iter_succ_r. exact Hstop.
        -- right. split; [lia|exact Hcnt].
    + exists 1%nat. split; [lia|]. split; [lia|].
      split; [reflexivity|]. split; [intros k Hk; lia|].
      left. split; [lia|]. split; [exact Hch|simpl; lia].
Qed.


End Loop.

(** ** Unselected records *)

Lemma finalize_unselected (d : ChannelData) :
  selected (finalize d) = false ->
  share (finalize d) = Some 0 /\ trp (finalize d) = Some 0.
Proof.
  unfold finalize. destruct (selected d) eqn:E; simpl; intro H.
  - congruence.
  - split; reflexivity.
Qed.

Lemma optimizeSplit_unselected data brief weightingLogic applyLimits weights d :
  In d (optimizeSplit data brief weightingLogic applyLimits weights) ->
  selected d = false -> share d = Some 0 /\ trp d = Some 0.
Proof.
  unfold optimizeSplit, optimizeRecords. intros Hin Hsel.
  apply sortBy_In in Hin. apply in_map_iff in Hin as (d0 & <- & _).
  apply finalize_unselected. exact Hsel.
Qed.

Lemma manualMark_unselected reg shares d :
  selected (manualMark reg shares d) = false ->
  share (manualMark reg shares d) = Some 0 /\ trp (manualMark reg shares d) = Some 0.
Proof.
  unfold manualMark.
  destruct (match reg with Some r => inRegion r d | None => false end).
  - destruct (shares !! channel d) as [p|].
    + destruct (Qltb 0 p); simpl; intro H; [congruence|split; reflexivity].
    + simpl. intros _. split; reflexivity.
  - simpl. intros _. split; reflexivity.
Qed.

(** C6, as amended.  In every record of every split (systematic,
    constructor or manual shares), an unset selection flag comes with
    [share = 0] and [trp = 0]. *)
Theorem C6_unselected_split_record_is_zero (recs : list ChannelData) (d : ChannelData) :
  SplitOutput recs -> In d recs -> selected d = false ->
  share d = Some 0 /\ trp d = Some 0.
Proof.
  intros [data brief logic limits|allChannels brief names logic weights
         |allChannels brief shares] Hin Hsel.
  - exact (optimizeSplit_unselected _ _ _ _ _ _ Hin Hsel).
  - exact (optimizeSplit_unselected _ _ _ _ _ _ Hin Hsel).
  - unfold generateManualSharesSplit, manualRecords in Hin.
    apply sortBy_In in Hin. apply in_map_iff in Hin as (d0 & <- & _).
    apply manualMark_unselected. exact Hsel.
Qed.

(** The channel cut as too expensive in the Affinity split of the sample
    is such a record. *)
Lemma C6_unselected_split_record_witness :
  exists d,
    In d (generateSingleSplit (baseSnapshot orbitalRows orbitalBrief) orbitalBrief
            "Affinity" true) /\
    selected d = false /\ share d = Some 0 /\ trp d = Some 0.
Proof.
  pose (recs := generateSingleSplit (baseSnapshot orbitalRows orbitalBrief)
                  orbitalBrief "Affinity" true).
  assert (Hd : exists d, In d recs /\ selected d = false).
  { vm_compute. eexists. split; [right; left; reflexivity|reflexivity]. }
  destruct Hd as (d & Hin & Hsel).
  exists d. split; [exact Hin|]. split; [exact Hsel|].
  apply (C6_unselected_split_record_is_zero recs d); [constructor|exact Hin|exact Hsel].
Defined.

(** C6, as stated, fails on the base snapshot, which the result exposes
    as [initialData]: its records are unselected and carry [share = null]
    and [trp = null]. *)
Lemma C6_base_snapshot_share_is_null :
  ~ (forall rows brief res d,
       processFilesAndCalculate rows brief = Some res ->
       exposedRecord res d -> selected d = false ->
       share d = Some 0 /\ trp d = Some 0).
Proof.
  intro H.
  assert (Hd : exists d, In d (baseSnapshot orbitalRows orbitalBrief) /\
                         selected d = false /\ share d = None).
  { vm_compute. eexists. split; [left; reflexivity|split; reflexivity]. }
  destruct Hd as (d & Hin & Hsel & Hshare).
  destruct (H orbitalRows orbitalBrief _ d eq_refl (or_introl Hin) Hsel) as [Hs _].
  congruence.
Qed.

(** ** The four systematic variants *)

Lemma optimizeLoop_without_limits brief weightingLogic weights data :
  fst (optimizeLoop brief weightingLogic false weights 0 data)
  = regionsPass Qdiv brief weightingLogic weights data.
Proof.
  rewrite optimizeLoop_step. unfold deselects, passData, passOnce. reflexivity.
Qed.

Lemma optimizeSplit_without_limits data brief weightingLogic weights :
  optimizeSplit data brief weightingLogic false weights
  = sortBy cmpFinal (map finalize (regionsPass Qdiv brief weightingLogic weights data)).
Proof.
  unfold optimizeSplit, optimizeRecords, capPass.
  rewrite optimizeLoop_without_limits. reflexivity.
Qed.

(** C2, as amended.  The TCPP, Affinity and Efficiency variants run the
    cutoff selection and optimize with limits enabled.  The Natural variant
    runs the Natural selection and optimizes with limits disabled: one
    pass of rating and normalization, no minimum-share floor and no
    orbital cap, then finalization and the sort. *)
Theorem C2_limits_of_the_four_variants (rows : list RatingRow) (brief : BriefData)
    (res : CalculationResults) :
  processFilesAndCalculate rows brief = Some res ->
  let base := baseSnapshot rows brief in
  let cut := fold_left (fun d r => cutoffRegion brief r d) (regionsOf brief) base in
  splits res =
  [ ("Сплит (TCPP)", optimizeSplit cut brief "TCPP" true None);
    ("Сплит (Affinity)", optimizeSplit cut brief "Affinity" true None);
    ("Сплит (Эффективность)", optimizeSplit cut brief "Efficiency" true None);
    ("Сплит (Натуральный)",
     sortBy cmpFinal
       (map finalize (regionsPass Qdiv brief "Natural" None (map naturalMark base)))) ].
Proof.
  unfold processFilesAndCalculate.
  destruct (List.length (regionsOf brief) =? 0)%nat; [discriminate|].
  intros [= <-]. cbn [splits map splitConfigs cfgName cfgLogic cfgApplyLimits].
  unfold generateSingleSplit. rewrite optimizeSplit_without_limits. reflexivity.
Qed.

Lemma C2_limits_of_the_four_variants_witness :
  exists res,
    processFilesAndCalculate orbitalRows orbitalBrief = Some res /\
    List.length (splits res) = 4%nat.
Proof.
  eexists. split; [reflexivity|].
  rewrite (C2_limits_of_the_four_variants orbitalRows orbitalBrief _ eq_refl).
  reflexivity.
Defined.

(** C2, as stated, fails for the Natural variant: it is configured with
    [applyLimits: false], and on the sample its split keeps a channel
    selected at 1% under a floor of 2% and leaves the orbital channels at
    100% under a cap of 30%. *)
Lemma C2_natural_variant_has_no_limits :
  ~ (forall config, In config splitConfigs -> cfgApplyLimits config = true) /\
  exists res recs d,
    processFilesAndCalculate orbitalRows orbitalBrief = Some res /\
    In ("Сплит (Натуральный)", recs) (splits res) /\
    In d recs /\ selected d = true /\ numVal (share d) == 1 # 100 /\
    shareSum (orbitalSel "Москва") recs == 1.
Proof.
  split.
  - intro H.
    specialize (H (mkConfig "Сплит (Натуральный)" "Natural" false)).
    discriminate H. right. right. right. left. reflexivity.
  - eexists. eexists. eexists.
    split; [reflexivity|].
    split; [right; right; right; left; reflexivity|].
    split; [vm_compute; right; left; reflexivity|].
    split; [reflexivity|]. split; reflexivity.
Qed.

(** ** The manual-shares split *)

Lemma inRegion_eq (r : string) (d : ChannelData) :
  inRegion r d = true <-> region d = r.
Proof. unfold inRegion. apply String.eqb_eq. Qed.

Lemma inRegion_neq (r : string) (d : ChannelData) :
  inRegion r d = false <-> region d <> r.
Proof. unfold inRegion. apply String.eqb_neq. Qed.

Lemma manualMark_outcome (r : string) (shares : gmap string Q) (d : ChannelData) :
  manualOutcome r shares d (manualMark (Some r) shares d).
Proof.
  unfold manualOutcome, manualMark.
  destruct (inRegion r d) eqn:Hr.
  - apply inRegion_eq in Hr.
    destruct (shares !! channel d) as [p|] eqn:Hp.
    + destruct (Qltb 0 p) eqn:Hpos.
      * split; [repeat split|]. split; [|congruence].
        intros _. split; [|split; [|discriminate]].
        -- intros v [= <-] _. repeat split.
        -- intros v [= <-] Hle. apply Qltb_lt in Hpos.
           exfalso. apply (Qlt_not_le _ _ Hpos Hle).
      * split; [repeat split|]. split; [|congruence].
        intros _. split; [|split; [|discriminate]].
        -- intros v [= <-] Hv. apply Qltb_lt in Hv. congruence.
        -- intros v _ _. repeat split.
    + split; [repeat split|]. split; [|congruence].
      intros _. split; [discriminate|]. split; [discriminate|].
      intros _. repeat split.
  - apply inRegion_neq in Hr.
    split; [repeat split|]. split; [congruence|].
    intros _. repeat split.
Qed.

(** C10.  With [r] the first key of the brief, the manual-shares split
    consists of one record per input record, reordered by the final sort:
    in region [r] a channel with a positive percentage [v] in the map is
    selected with [share = v / 100] and [trp = share * 1000], every other
    channel of [r] is unselected with share and trp 0, and a record of any
    other region is unselected with share and trp 0 and no comment, whatever
    it held before. *)
Theorem C10_manual_shares_first_region_only (allChannels : list ChannelData)
    (brief : BriefData) (shares : gmap string Q) (r : string) :
  head (regionsOf brief) = Some r ->
  exists recs,
    Permutation recs (generateManualSharesSplit allChannels brief shares) /\
    Forall2 (manualOutcome r shares) allChannels recs.
Proof.
  intro Hr. exists (manualRecords allChannels brief shares).
  split; [apply sortBy_perm|].
  unfold manualRecords. rewrite Hr.
  induction allChannels as [|d l IH]; simpl; constructor.
  - apply manualMark_outcome.
  - exact IH.
Qed.

Lemma C10_manual_shares_witness :
  exists recs,
    Permutation recs
      (generateManualSharesSplit (baseSnapshot twoRegionRows twoRegionBrief)
         twoRegionBrief manualPercentages) /\
    Forall2 (manualOutcome "Москва" manualPercentages)
      (baseSnapshot twoRegionRows twoRegionBrief) recs.
Proof.
  apply (C10_manual_shares_first_region_only
           (baseSnapshot twoRegionRows twoRegionBrief) twoRegionBrief
           manualPercentages "Москва").
  reflexivity.
Defined.

(** ** The relative cost index *)

Lemma fold_Qmax_ge (l : list Q) (a : Q) :
  a <= fold_left Qmax l a /\ forall x, In x l -> x <= fold_left Qmax l a.
Proof.
  revert a. induction l as [|y l IH]; intro a; simpl.
  - split; [apply Qle_refl|intros x []].
  - destruct (IH (Qmax a y)) as [Ha Hl]. split.
    + eapply Qle_trans; [apply Q.le_max_l|exact Ha].
    + intros x [<-|Hx].
      * eapply Qle_trans; [apply Q.le_max_r|exact Ha].
      * apply Hl. exact Hx.
Qed.

Lemma fold_Qmax_attained (l : list Q) (a : Q) :
  fold_left Qmax l a == a \/ exists x, In x l /\ fold_left Qmax l a == x.
Proof.
  revert a. induction l as [|y l IH]; intro a; simpl.
  - left. reflexivity.
  - destruct (IH (Qmax a y)) as [H|(x & Hx & H)].
    + destruct (Q.max_spec a y) as [[_ E]|[_ E]].
      * right. exists y. split; [left; reflexivity|]. rewrite H. exact E.
      * left. rewrite H. exact E.
    + right. exists x. split; [right; exact Hx|exact H].
Qed.

Lemma maxList_ge (l : list Q) (x : Q) : In x l -> x <= maxList l.
Proof.
  destruct l as [|a l]; [intros []|]. simpl.
  destruct (fold_Qmax_ge l a) as [Ha Hl].
  intros [<-|Hx]; [exact Ha|apply Hl; exact Hx].
Qed.

Lemma maxList_attained (l : list Q) :
  l <> [] -> exists x, In x l /\ maxList l == x.
Proof.
  destruct l as [|a l]; [congruence|]. intros _. simpl.
  destruct (fold_Qmax_attained l a) as [H|(x & Hx & H)].
  - exists a. split; [left; reflexivity|exact H].
  - exists x. split; [right; exact Hx|exact H].
Qed.

(** The index pass reads [region] and [tcpp] and writes [indexTcpp] only. *)
Lemma indexOne_region r M d : region (indexOne r M d) = region d.
Proof. unfold indexOne. destruct (hasTcpp r d && Qltb 0 M); reflexivity. Qed.

Lemma indexOne_tcpp r M d : tcpp (indexOne r M d) = tcpp d.
Proof. unfold indexOne. destruct (hasTcpp r d && Qltb 0 M); reflexivity. Qed.

Lemma hasTcpp_indexOne r' r M d : hasTcpp r' (indexOne r M d) = hasTcpp r' d.
Proof.
  unfold hasTcpp, inRegion. rewrite indexOne_region, indexOne_tcpp. reflexivity.
Qed.

Lemma filter_map_commute {A} (p : A -> bool) (f : A -> A) (l : list A) :
  (forall x, p (f x) = p x) ->
  List.filter p (map f l) = map f (List.filter p l).
Proof.
  intro H. induction l as [|x l IH]; simpl; [reflexivity|].
  rewrite H. destruct (p x); simpl; rewrite IH; reflexivity.
Qed.

Lemma indexRegion_map (r : string) (data : list ChannelData) :
  indexRegion r data = map (indexOne r (maxTcppOf r data)) data.
Proof.
  unfold indexRegion.
  destruct (0 <? List.length (List.filter (hasTcpp r) data))%nat eqn:E;
    [reflexivity|].
  apply Nat.ltb_ge in E.
  assert (Hnil : List.filter (hasTcpp r) data = []).
  { destruct (List.filter (hasTcpp r) data); [reflexivity|simpl in E; lia]. }
  rewrite <- (map_id data) at 1. apply map_ext_in.
  intros d Hd. unfold indexOne.
  destruct (hasTcpp r d) eqn:Hh; [|reflexivity].
  assert (In d (List.filter (hasTcpp r) data)) as Hin
      by (apply filter_In; split; assumption).
  rewrite Hnil in Hin. destruct Hin.
Qed.

Lemma maxTcppOf_indexRegion (r' r : string) (data : list ChannelData) :
  maxTcppOf r' (indexRegion r data) = maxTcppOf r' data.
Proof.
  rewrite indexRegion_map. unfold maxTcppOf.
  rewrite filter_map_commute by (intro; apply hasTcpp_indexOne).
  rewrite map_map. f_equal. apply map_ext. intro d.
  rewrite indexOne_tcpp. reflexivity.
Qed.

Lemma fold_left_pointwise {A B} (f g : A -> B -> A) (l : list B) (a : A) :
  (forall x y, f x y = g x y) -> fold_left f l a = fold_left g l a.
Proof.
  intro H. revert a. induction l as [|y l IH]; intro a; simpl; [reflexivity|].
  rewrite H. apply IH.
Qed.

(** The index passes of a list of regions act record by record, with the
    maxima of the data the passes started from. *)
Lemma calcIndex_map (rs : list string) (data : list ChannelData) :
  fold_left (fun d r => indexRegion r d) rs data
  = map (fun d => fold_left (fun x r => indexOne r (maxTcppOf r data) x) rs d) data.
Proof.
  revert data. induction rs as [|r rs IH]; intro data; simpl.
  - symmetry. apply map_id.
  - rewrite IH.
    transitivity
      (map (fun d => fold_left (fun x r0 => indexOne r0 (maxTcppOf r0 data) x) rs d)
           (indexRegion r data)).
    + apply map_ext. intro d. apply fold_left_pointwise.
      intros x r'. rewrite maxTcppOf_indexRegion. reflexivity.
    + rewrite indexRegion_map, map_map. reflexivity.
Qed.

Lemma indexFold_region (M : string -> Q) (rs : list string) (d : ChannelData) :
  region (fold_left (fun x r => indexOne r (M r) x) rs d) = region d.
Proof.
  revert d. induction rs as [|r rs IH]; intro d; simpl; [reflexivity|].
  rewrite IH. apply indexOne_region.
Qed.

Lemma indexFold_tcpp (M : string -> Q) (rs : list string) (d : ChannelData) :
  tcpp (fold_left (fun x r => indexOne r (M r) x) rs d) = tcpp d.
Proof.
  revert d. induction rs as [|r rs IH]; intro d; simpl; [reflexivity|].
  rewrite IH. apply indexOne_tcpp.
Qed.

Lemma indexFold_no_tcpp (M : string -> Q) (rs : list string) (d : ChannelData) :
  tcpp d = None -> fold_left (fun x r => indexOne r (M r) x) rs d = d.
Proof.
  intro Hn. induction rs as [|r rs IH]; simpl; [reflexivity|].
  unfold indexOne at 2, hasTcpp. rewrite Hn. simpl.
  rewrite andb_false_r. simpl. exact IH.
Qed.

Lemma indexFold_index (M : string -> Q) (rs : list string) (d : ChannelData) (t : Q) :
  tcpp d = Some t -> 0 < M (region d) ->
  indexTcpp (fold_left (fun x r => indexOne r (M r) x) rs d)
  = if existsb (String.eqb (region d)) rs then Some (t / M (region d))
    else indexTcpp d.
Proof.
  revert d. induction rs as [|r rs IH]; intros d Ht HM; simpl; [reflexivity|].
  destruct (String.eqb (region d) r) eqn:Er; simpl.
  - apply String.eqb_eq in Er. subst r.
    assert (E1 : indexOne (region d) (M (region d)) d
                 = set_indexTcpp (Some (t / M (region d))) d).
    { unfold indexOne, hasTcpp, inRegion. rewrite String.eqb_refl, Ht. simpl.
      apply Qltb_lt in HM. rewrite HM. reflexivity. }
    rewrite E1.
    rewrite (IH (set_indexTcpp (Some (t / M (region d))) d) Ht HM). simpl.
    destruct (existsb (String.eqb (region d)) rs); reflexivity.
  - assert (E1 : indexOne r (M r) d = d).
    { unfold indexOne, hasTcpp, inRegion. rewrite Er. reflexivity. }
    rewrite E1. apply (IH _ Ht HM).
Qed.

(** What the row loop builds. *)
Lemma briefOf_In (brief : BriefData) (r : string) (rb : RegionBrief) :
  briefOf brief r = Some rb -> In r (regionsOf brief).
Proof.
  unfold briefOf, regionsOf.
  destruct (List.find _ _) as [kv|] eqn:E; [|discriminate].
  intros _. apply find_some in E as [Hin Heq].
  apply String.eqb_eq in Heq. subst r. apply in_map. exact Hin.
Qed.

Lemma truthy_pos (x : num) : truthy x = true -> 0 <= numVal x -> 0 < numVal x.
Proof.
  destruct x as [q|]; simpl; [|discriminate].
  rewrite negb_true_iff. intros Hz Hle.
  apply Qle_lt_or_eq in Hle as [Hlt|Heq]; [exact Hlt|].
  symmetry in Heq. apply Qeq_bool_iff in Heq. congruence.
Qed.

Lemma gt0_pos (x : num) : gt0 x = true -> 0 < numVal x.
Proof. destruct x as [q|]; simpl; [apply Qltb_lt|discriminate]. Qed.

Lemma Qdiv_pos (a b : Q) : 0 < a -> 0 < b -> 0 < a / b.
Proof.
  intros Ha Hb. apply Qlt_shift_div_l; [exact Hb|]. rewrite Qmult_0_l. exact Ha.
Qed.

Lemma buildRecord_fresh (brief : BriefData) (row : RatingRow) (d : ChannelData) :
  buildRecord brief row = Some d ->
  indexTcpp d = None /\ selected d = false /\ share d = None /\ trp d = None /\
  In (region d) (regionsOf brief).
Proof.
  unfold buildRecord.
  destruct (rowRegion row) as [key|]; [|discriminate].
  destruct (briefOf brief key) as [rb|] eqn:Hb; [|discriminate].
  destruct (rowChannel row) as [name|]; [|discriminate].
  destruct (negb (rowTaColumns row)); [discriminate|].
  intros [= <-]. simpl. repeat split. eapply briefOf_In. exact Hb.
Qed.

Lemma buildRecord_tcpp_pos (brief : BriefData) (row : RatingRow) (d : ChannelData)
    (t : Q) :
  buildRecord brief row = Some d ->
  0 <= numVal (rowCpp row) -> tcpp d = Some t -> 0 < t.
Proof.
  unfold buildRecord.
  destruct (rowRegion row) as [key|]; [|discriminate].
  destruct (briefOf brief key) as [rb|]; [|discriminate].
  destruct (rowChannel row) as [name|]; [|discriminate].
  destruct (negb (rowTaColumns row)); [discriminate|].
  intros [= <-] Hcpp. simpl.
  set (a := if gt0 (rowTotalTvrTa row) && gt0 (rowSalesTvr row)
            then Some (numVal (rowTotalTvrTa row) / numVal (rowSalesTvr row))
            else None).
  destruct (_ || _ || _).
  - destruct (truthy (rowCpp row)) eqn:Hc; [|discriminate]. simpl.
    destruct (gt0 (rowAvgTvrTa row)) eqn:Ha; [|discriminate].
    intros [= <-]. apply Qdiv_pos; [|apply gt0_pos; exact Ha].
    apply Qdiv_pos; [apply truthy_pos; assumption|reflexivity].
  - destruct (truthy (rowCpp row)) eqn:Hc; [|discriminate]. simpl.
    destruct (truthy a); [|discriminate]. simpl.
    destruct (gt0 a) eqn:Ha; [|discriminate].
    intros [= <-]. apply Qdiv_pos; [apply truthy_pos; assumption|].
    apply gt0_pos. exact Ha.
Qed.

Lemma In_buildInitialData (brief : BriefData) (rows : list RatingRow) (d : ChannelData) :
  In d (buildInitialData brief rows) <->
  exists row, In row rows /\ buildRecord brief row = Some d.
Proof.
  unfold buildInitialData. rewrite <- list_elem_of_In, list_elem_of_omap.
  split; intros (row & Hrow & Hb); exists row; split; try exact Hb;
    apply list_elem_of_In; exact Hrow.
Qed.

Lemma maxTcppOf_calcIndex (brief : BriefData) (r : string) (data : list ChannelData) :
  maxTcppOf r (calcIndexTcpp brief data) = maxTcppOf r data.
Proof.
  unfold calcIndexTcpp. generalize (regionsOf brief). intro rs. revert data.
  induction rs as [|r0 rs IH]; intro data; simpl; [reflexivity|].
  rewrite IH. apply maxTcppOf_indexRegion.
Qed.

Lemma existsb_eqb_In (r : string) (rs : list string) :
  In r rs -> existsb (String.eqb r) rs = true.
Proof.
  intro H. apply existsb_exists. exists r. split; [exact H|apply String.eqb_refl].
Qed.

Lemma hasTcpp_inv (r : string) (d : ChannelData) :
  hasTcpp r d = true -> region d = r /\ exists t, tcpp d = Some t.
Proof.
  unfold hasTcpp. rewrite andb_true_iff. intros [Hr Ht].
  apply inRegion_eq in Hr. split; [exact Hr|].
  destruct (tcpp d) as [t|]; [exists t; reflexivity|discriminate].
Qed.

Lemma indexFold_untouched (M : string -> Q) (rs : list string) (d : ChannelData) :
  let d' := fold_left (fun x r => indexOne r (M r) x) rs d in
  selected d' = selected d /\ share d' = share d /\ trp d' = trp d.
Proof.
  revert d. induction rs as [|r rs IH]; intro d; simpl; [repeat split|].
  destruct (IH (indexOne r (M r) d)) as (Hs & Hsh & Ht).
  rewrite Hs, Hsh, Ht. unfold indexOne.
  destruct (hasTcpp r d && Qltb 0 (M r)); repeat split.
Qed.

(** Every record of the base snapshot is unselected, without share and
    without trp. *)
Lemma baseSnapshot_fresh (rows : list RatingRow) (brief : BriefData) (d : ChannelData) :
  In d (baseSnapshot rows brief) ->
  selected d = false /\ share d = None /\ trp d = None.
Proof.
  unfold baseSnapshot, calcIndexTcpp. rewrite calcIndex_map. intro Hd.
  apply in_map_iff in Hd as (d0 & <- & Hd0).
  apply In_buildInitialData in Hd0 as (row & _ & Hb).
  destruct (buildRecord_fresh _ _ _ Hb) as (_ & Hs & Hsh & Ht & _).
  destruct (indexFold_untouched (fun r0 => maxTcppOf r0 (buildInitialData brief rows))
              (regionsOf brief) d0) as (Hs' & Hsh' & Ht').
  rewrite Hs', Hsh', Ht'. repeat split; assumption.
Qed.

(** C5, as amended.  When no price is negative and some channel of the
    region has a cost-per-target-point, the largest one [M] is positive,
    every channel of the region with a cost-per-target-point [t] has the
    index [t / M], which lies in (0, 1], every other channel of the region
    has no index, and at least one channel of the region has index 1. *)
Theorem C5_cost_index_in_unit_interval (rows : list RatingRow) (brief : BriefData)
    (r : string) :
  (forall row, In row rows -> 0 <= numVal (rowCpp row)) ->
  (exists d, In d (baseSnapshot rows brief) /\ hasTcpp r d = true) ->
  let base := baseSnapshot rows brief in
  let M := maxTcppOf r base in
  0 < M /\
  (forall d, In d base -> region d = r ->
     match tcpp d with
     | Some t => exists i, indexTcpp d = Some i /\ i == t / M /\ 0 < i /\ i <= 1
     | None => indexTcpp d = None
     end) /\
  (exists d i, In d base /\ region d = r /\ indexTcpp d = Some i /\ i == 1).
Proof.
  intros Hprice (dw & Hdw & Hwt) base M.
  set (data0 := buildInitialData brief rows).
  set (M0 := fun r0 => maxTcppOf r0 data0).
  set (G := fun d => fold_left (fun x r0 => indexOne r0 (M0 r0) x) (regionsOf brief) d).
  assert (Hbase : base = map G data0) by apply calcIndex_map.
  assert (HM : M = M0 r) by apply maxTcppOf_calcIndex.
  assert (Hpos0 : forall d0 t, In d0 data0 -> tcpp d0 = Some t -> 0 < t).
  { intros d0 t Hd0 Ht. apply In_buildInitialData in Hd0 as (row & Hrow & Hb).
    eapply buildRecord_tcpp_pos; eauto. }
  assert (Hfresh : forall d0, In d0 data0 ->
                     indexTcpp d0 = None /\ In (region d0) (regionsOf brief)).
  { intros d0 Hd0. apply In_buildInitialData in Hd0 as (row & Hrow & Hb).
    destruct (buildRecord_fresh _ _ _ Hb) as (Hi & _ & _ & _ & Hr). split; assumption. }
  assert (Hle : forall d0 t, In d0 data0 -> region d0 = r -> tcpp d0 = Some t -> t <= M0 r).
  { intros d0 t Hd0 Hr Ht. unfold M0, maxTcppOf. apply maxList_ge.
    apply in_map_iff. exists d0. split; [rewrite Ht; reflexivity|].
    apply filter_In. split; [exact Hd0|].
    unfold hasTcpp. rewrite Ht. simpl. rewrite andb_true_r. apply inRegion_eq. exact Hr. }
  assert (Hw0 : exists d0 t, In d0 data0 /\ region d0 = r /\ tcpp d0 = Some t).
  { fold base in Hdw. rewrite Hbase in Hdw. apply in_map_iff in Hdw as (d0 & <- & Hd0).
    apply hasTcpp_inv in Hwt as [Hr [t Ht]].
    unfold G in Hr, Ht. rewrite indexFold_region in Hr. rewrite indexFold_tcpp in Ht.
    exists d0, t. repeat split; assumption. }
  destruct Hw0 as (dw0 & tw & Hdw0 & Hrw & Htw).
  assert (HMpos : 0 < M0 r).
  { eapply Qlt_le_trans; [eapply Hpos0; eauto|eapply Hle; eauto]. }
  assert (Hidx : forall d0 t, In d0 data0 -> region d0 = r -> tcpp d0 = Some t ->
                   indexTcpp (G d0) = Some (t / M0 r)).
  { intros d0 t Hd0 Hr Ht. unfold G.
    rewrite (indexFold_index M0 _ d0 t Ht) by (rewrite Hr; exact HMpos).
    rewrite existsb_eqb_In by (apply Hfresh; exact Hd0). rewrite Hr. reflexivity. }
  rewrite HM. split; [exact HMpos|]. split.
  - intros d Hd Hr. rewrite Hbase in Hd. apply in_map_iff in Hd as (d0 & <- & Hd0).
    unfold G in Hr. rewrite indexFold_region in Hr. fold (G d0).
    unfold G at 1. rewrite indexFold_tcpp.
    destruct (tcpp d0) as [t|] eqn:Ht.
    + exists (t / M0 r). split; [apply Hidx; assumption|].
      split; [reflexivity|]. split.
      * apply Qdiv_pos; [eapply Hpos0; eauto|exact HMpos].
      * apply Qle_shift_div_r; [exact HMpos|]. rewrite Qmult_1_l. eapply Hle; eauto.
    + unfold G. rewrite indexFold_no_tcpp by exact Ht. apply Hfresh. exact Hd0.
  - destruct (maxList_attained
                (map (fun d => numVal (tcpp d)) (List.filter (hasTcpp r) data0)))
      as (x & Hx & Hmax).
    { intro Hnil. apply map_eq_nil in Hnil.
      assert (In dw0 (List.filter (hasTcpp r) data0)) as Hin.
      { apply filter_In. split; [exact Hdw0|]. unfold hasTcpp. rewrite Htw. simpl.
        rewrite andb_true_r. apply inRegion_eq. exact Hrw. }
      rewrite Hnil in Hin. destruct Hin. }
    apply in_map_iff in Hx as (dm & Hxm & Hdm).
    apply filter_In in Hdm as [Hdm Hhm].
    apply hasTcpp_inv in Hhm as [Hrm [tm Htm]].
    rewrite Htm in Hxm. simpl in Hxm. subst x.
    exists (G dm), (tm / M0 r). split; [rewrite Hbase; apply in_map; exact Hdm|].
    split; [unfold G; rewrite indexFold_region; exact Hrm|].
    split; [apply Hidx; assumption|].
    assert (E : M0 r == tm) by exact Hmax.
    rewrite E in HMpos |- *. field. intro Hz. rewrite Hz in HMpos.
    apply (Qlt_irrefl 0). exact HMpos.
Qed.

Lemma C5_cost_index_witness :
  0 < maxTcppOf "Москва" (baseSnapshot twoRegionRows twoRegionBrief) /\
  exists d i,
    In d (baseSnapshot twoRegionRows twoRegionBrief) /\ region d = "Москва" /\
    indexTcpp d = Some i /\ i == 1.
Proof.
  destruct (C5_cost_index_in_unit_interval twoRegionRows twoRegionBrief "Москва")
    as (HM & _ & Hone).
  - intros row Hrow. simpl in Hrow.
    destruct Hrow as [<-|[<-|[<-|[]]]]; unfold Qle; simpl; lia.
  - eexists. split; [left; reflexivity|reflexivity].
  - split; [exact HM|exact Hone].
Defined.

(** C5, as stated, fails twice.  Two channels that share the largest
    cost-per-target-point both get index 1, so "exactly one" is wrong; and
    a negative price gives a negative index, outside (0, 1]. *)
Lemma C5_shared_maximum_and_negative_price :
  ~ (forall rows brief r,
       (exists d, In d (baseSnapshot rows brief) /\ hasTcpp r d = true) ->
       List.length (List.filter (indexIsOne r) (baseSnapshot rows brief)) = 1%nat) /\
  ~ (forall rows brief r,
       (exists d, In d (baseSnapshot rows brief) /\ hasTcpp r d = true) ->
       forall d i, In d (baseSnapshot rows brief) -> region d = r ->
                   indexTcpp d = Some i -> 0 < i /\ i <= 1).
Proof.
  split; intro H.
  - specialize (H tieRows orbitalBrief "Москва").
    assert (Hlen : List.length (List.filter (indexIsOne "Москва")
                                  (baseSnapshot tieRows orbitalBrief)) = 2%nat)
      by reflexivity.
    rewrite H in Hlen; [discriminate|].
    eexists. split; [left; reflexivity|reflexivity].
  - assert (Hd : exists d i, In d (baseSnapshot negativePriceRows orbitalBrief) /\
                             region d = "Москва" /\ indexTcpp d = Some i /\ i < 0).
    { eexists. eexists. split; [right; left; reflexivity|].
      split; [reflexivity|]. split; reflexivity. }
    destruct Hd as (d & i & Hin & Hr & Hi & Hneg).
    destruct (H negativePriceRows orbitalBrief "Москва") with (d := d) (i := i)
      as [Hpos _]; try assumption.
    + eexists. split; [left; reflexivity|reflexivity].
    + apply (Qlt_irrefl 0). eapply Qlt_trans; eassumption.
Qed.

(** ** The pass never divides by zero *)

Section DivisionSafe.
Variable div : Q -> Q -> Q.
Hypothesis div_nonzero : forall a b, ~ b == 0 -> div a b = a / b.

Lemma Qpos_nonzero (b : Q) : 0 < b -> ~ b == 0.
Proof. intros Hb Hz. rewrite Hz in Hb. apply (Qlt_irrefl 0). exact Hb. Qed.

Lemma avgTcppOf_safe (sel : list ChannelData) :
  sel <> [] -> avgTcppOf div sel = avgTcppOf Qdiv sel.
Proof.
  intro Hne. unfold avgTcppOf. apply div_nonzero.
  destruct sel as [|d sel]; [congruence|].
  apply Qpos_nonzero. unfold Qlt. simpl. lia.
Qed.

Lemma ratingTcpp_safe (avgTcpp : Q) (d : ChannelData) :
  ratingTcpp div avgTcpp d = ratingTcpp Qdiv avgTcpp d.
Proof.
  unfold ratingTcpp.
  destruct (Qltb 0 avgTcpp) eqn:Ha; [|reflexivity]. simpl.
  destruct (truthy (tcpp d)); [|reflexivity]. simpl.
  destruct (gt0 (tcpp d)) eqn:Ht; [|reflexivity].
  apply Qltb_lt in Ha. apply gt0_pos in Ht.
  rewrite (div_nonzero (numVal (tcpp d)) avgTcpp) by (apply Qpos_nonzero; exact Ha).
  apply div_nonzero. apply Qpos_nonzero. apply Qdiv_pos; assumption.
Qed.

Lemma orNum_pos_numVal (x : num) : 0 < orNum x 0 -> 0 < numVal x.
Proof. intro H. rewrite <- orNum0_numVal. exact H. Qed.

Lemma ratingEff_safe (d : ChannelData) : ratingEff div d = ratingEff Qdiv d.
Proof.
  unfold ratingEff. destruct (Qltb 0 (orNum (cpp d) 0)) eqn:Hc; [|reflexivity].
  apply Qltb_lt in Hc. apply div_nonzero, Qpos_nonzero, orNum_pos_numVal. exact Hc.
Qed.

Lemma plainRating_safe (weightingLogic : string) (avgTcpp : Q) (d : ChannelData) :
  plainRating div weightingLogic avgTcpp d = plainRating Qdiv weightingLogic avgTcpp d.
Proof.
  unfold plainRating. rewrite ratingEff_safe, ratingTcpp_safe. reflexivity.
Qed.

Lemma rawRatings_safe (avgTcpp : Q) (sel : list ChannelData) :
  rawRatings div avgTcpp sel = rawRatings Qdiv avgTcpp sel.
Proof.
  unfold rawRatings. apply map_ext. intro d.
  rewrite ratingEff_safe, ratingTcpp_safe. reflexivity.
Qed.

Lemma guarded_div_safe (a total : Q) :
  (if Qltb 0 total then div a total else 0) = (if Qltb 0 total then a / total else 0).
Proof.
  destruct (Qltb 0 total) eqn:H; [|reflexivity].
  apply Qltb_lt in H. apply div_nonzero, Qpos_nonzero. exact H.
Qed.

Lemma customRating_safe (w : Weights) (wr : list RawRating) (d : ChannelData) :
  customRating div w wr d = customRating Qdiv w wr d.
Proof.
  unfold customRating.
  destruct (List.find _ wr) as [cw|]; [|reflexivity].
  rewrite !guarded_div_safe. reflexivity.
Qed.

Lemma newRating_safe (weightingLogic : string) (weights : option Weights)
    (sel : list ChannelData) (d : ChannelData) :
  sel <> [] ->
  newRating div weightingLogic weights sel d = newRating Qdiv weightingLogic weights sel d.
Proof.
  intro Hne. unfold newRating. rewrite (avgTcppOf_safe sel Hne).
  destruct (String.eqb weightingLogic "Custom"), weights as [w|];
    try apply plainRating_safe.
  rewrite rawRatings_safe. apply customRating_safe.
Qed.

Lemma normalizeShare_safe (r : string) (total : Q) (d : ChannelData) :
  0 < total -> normalizeShare div r total d = normalizeShare Qdiv r total d.
Proof.
  intro Ht. unfold normalizeShare.
  rewrite div_nonzero by (apply Qpos_nonzero; exact Ht). reflexivity.
Qed.

Lemma regionPass_safe (weightingLogic : string) (weights : option Weights)
    (r : string) (data : list ChannelData) :
  regionPass div weightingLogic weights r data
  = regionPass Qdiv weightingLogic weights r data.
Proof.
  unfold regionPass.
  destruct (List.filter (inRegionSel r) data) as [|d0 sel] eqn:Hsel; [reflexivity|].
  cbn [List.length Nat.eqb].
  assert (Hne : d0 :: sel <> []) by discriminate.
  assert (Hassign : map (assignRating div weightingLogic weights r (d0 :: sel)) data
                    = map (assignRating Qdiv weightingLogic weights r (d0 :: sel)) data).
  { apply map_ext. intro d. unfold assignRating.
    rewrite (newRating_safe _ _ _ d Hne). reflexivity. }
  rewrite Hassign.
  destruct (Qltb 0 _) eqn:Ht; [|reflexivity].
  apply Qltb_lt in Ht. apply map_ext. intro d. apply normalizeShare_safe. exact Ht.
Qed.

End DivisionSafe.

(** ** A pass that cannot normalize *)

Lemma share_assignRating div weightingLogic weights r sel d :
  share (assignRating div weightingLogic weights r sel d) = share d.
Proof. unfold assignRating. destruct (inRegionSel r d); reflexivity. Qed.

Lemma regionPass_skips_normalization weightingLogic weights r data :
  ~ 0 < totalWeightedRatingOf r
          (map (assignRating Qdiv weightingLogic weights r
                  (List.filter (inRegionSel r) data)) data) ->
  map share (regionPass Qdiv weightingLogic weights r data) = map share data.
Proof.
  intro Hnot. unfold regionPass.
  destruct (List.length (List.filter (inRegionSel r) data) =? 0)%nat; [reflexivity|].
  destruct (Qltb 0 _) eqn:Ht.
  - apply Qltb_lt in Ht. contradiction.
  - rewrite map_map. apply map_ext. intro d. apply share_assignRating.
Qed.

Lemma inRegionSel_assignRating div weightingLogic weights r sel r' d :
  inRegionSel r' (assignRating div weightingLogic weights r sel d) = inRegionSel r' d.
Proof. unfold assignRating. destruct (inRegionSel r d); reflexivity. Qed.

Lemma sumBy_zero {A} (f : A -> Q) (l : list A) :
  (forall x, In x l -> f x == 0) -> sumBy f l == 0.
Proof.
  intro H. rewrite (sumBy_ext f (fun _ => 0) l H).
  induction l as [|x l IH]; [reflexivity|].
  rewrite sumBy_cons, IH; [ring|]. intros y Hy. apply H. right. exact Hy.
Qed.

(** The example of the claim: under Efficiency weighting, a region whose
    selected channels all have a price that is undefined or not positive
    has a total weighted rating of 0. *)
Lemma efficiency_without_prices_totals_zero weights r data :
  (forall d, In d data -> inRegionSel r d = true -> ~ 0 < orNum (cpp d) 0) ->
  totalWeightedRatingOf r
    (map (assignRating Qdiv "Efficiency" weights r (List.filter (inRegionSel r) data))
         data) == 0.
Proof.
  intro Hprice. unfold totalWeightedRatingOf.
  rewrite filter_map_commute by (intro; apply inRegionSel_assignRating).
  rewrite sumBy_map. apply sumBy_zero. intros d Hd.
  apply filter_In in Hd as [Hd Hsel].
  unfold assignRating. rewrite Hsel. simpl.
  unfold newRating, plainRating, ratingEff. simpl.
  destruct (Qltb 0 (orNum (cpp d) 0)) eqn:Hc; [|reflexivity].
  apply Qltb_lt in Hc. exfalso. exact (Hprice d Hd Hsel Hc).
Qed.

(** C9.  In a pass over a region whose total weighted rating is not
    strictly positive, the result does not depend on what a division by
    zero would give (none is performed) and every share is left as it
    was.  Such a region can reach finalization with a selected channel
    whose share is [null] and whose trp is 0: the Efficiency split of the
    sample with a negative price has one. *)
Theorem C9_no_normalization_without_positive_total (div : Q -> Q -> Q)
    (weightingLogic : string) (weights : option Weights) (r : string)
    (data : list ChannelData) :
  (forall a b, ~ b == 0 -> div a b = a / b) ->
  ~ 0 < totalWeightedRatingOf r
          (map (assignRating Qdiv weightingLogic weights r
                  (List.filter (inRegionSel r) data)) data) ->
  regionPass div weightingLogic weights r data
  = regionPass Qdiv weightingLogic weights r data /\
  map share (regionPass div weightingLogic weights r data) = map share data /\
  exists d,
    In d (generateSingleSplit (baseSnapshot negativePriceRows orbitalBrief)
            orbitalBrief "Efficiency" true) /\
    selected d = true /\ share d = None /\ trp d = Some 0.
Proof.
  intros Hdiv Htotal.
  split; [apply regionPass_safe; exact Hdiv|].
  split.
  - rewrite (regionPass_safe div Hdiv). apply regionPass_skips_normalization.
    exact Htotal.
  - vm_compute. eexists. split; [right; left; reflexivity|].
    split; [reflexivity|]. split; reflexivity.
Qed.

Lemma C9_no_normalization_witness :
  let data := selectSingle (baseSnapshot negativePriceRows orbitalBrief)
                orbitalBrief "Efficiency" in
  regionPass divOneAtZero "Efficiency" None "Москва" data
  = regionPass Qdiv "Efficiency" None "Москва" data /\
  map share (regionPass divOneAtZero "Efficiency" None "Москва" data) = map share data.
Proof.
  intro data.
  destruct (C9_no_normalization_without_positive_total divOneAtZero "Efficiency" None
              "Москва" data) as (H1 & H2 & _).
  - intros a b Hb. unfold divOneAtZero.
    destruct (Qeq_bool b 0) eqn:E; [|reflexivity].
    apply Qeq_bool_iff in E. contradiction.
  - rewrite (efficiency_without_prices_totals_zero None "Москва" data);
      [apply Qlt_irrefl|].
    intros d Hd Hsel Hprice. vm_compute in Hd.
    destruct Hd as [<-|[<-|[]]].
    + vm_compute in Hsel. discriminate Hsel.
    + vm_compute in Hprice. discriminate Hprice.
  - split; assumption.
Defined.

(** ** Sums of shares over the records of a region *)

Lemma filter_map_fixed {A} (p : A -> bool) (f : A -> A) (l : list A) :
  (forall x, p (f x) = p x) -> (forall x, p x = true -> f x = x) ->
  List.filter p (map f l) = List.filter p l.
Proof.
  intros Hp Hfix. induction l as [|x l IH]; simpl; [reflexivity|].
  rewrite Hp. destruct (p x) eqn:E; [|exact IH].
  rewrite (Hfix x E), IH. reflexivity.
Qed.

Lemma filter_within {A} (p q : A -> bool) (l : list A) :
  (forall x, p x = true -> q x = true) ->
  List.filter p (List.filter q l) = List.filter p l.
Proof.
  intro H. induction l as [|x l IH]; simpl; [reflexivity|].
  destruct (q x) eqn:Eq; simpl.
  - rewrite IH. reflexivity.
  - destruct (p x) eqn:Ep; [|exact IH].
    rewrite (H x Ep) in Eq. discriminate.
Qed.

Lemma inRegionSel_inRegion r d : inRegionSel r d = true -> inRegion r d = true.
Proof. unfold inRegionSel. rewrite andb_true_iff. tauto. Qed.

Lemma orbitalSel_inRegion r d : orbitalSel r d = true -> inRegion r d = true.
Proof.
  unfold orbitalSel. rewrite andb_true_iff. intros [H _].
  apply inRegionSel_inRegion. exact H.
Qed.

Lemma networkSel_inRegion r d : networkSel r d = true -> inRegion r d = true.
Proof.
  unfold networkSel. rewrite andb_true_iff. intros [H _].
  apply inRegionSel_inRegion. exact H.
Qed.

(** A sum over records of region [r] only reads the records of [r]. *)
Lemma shareSum_region (p : ChannelData -> bool) (r : string) (l l' : list ChannelData) :
  (forall d, p d = true -> inRegion r d = true) ->
  List.filter (inRegion r) l = List.filter (inRegion r) l' ->
  shareSum p l = shareSum p l'.
Proof.
  intros Hp Heq. unfold shareSum.
  rewrite <- (filter_within p (inRegion r) l Hp).
  rewrite <- (filter_within p (inRegion r) l' Hp).
  rewrite Heq. reflexivity.
Qed.

Lemma totalWeightedRatingOf_region (r : string) (l l' : list ChannelData) :
  List.filter (inRegion r) l = List.filter (inRegion r) l' ->
  totalWeightedRatingOf r l = totalWeightedRatingOf r l'.
Proof.
  intro Heq. unfold totalWeightedRatingOf.
  rewrite <- (filter_within (inRegionSel r) (inRegion r) l (inRegionSel_inRegion r)).
  rewrite <- (filter_within (inRegionSel r) (inRegion r) l' (inRegionSel_inRegion r)).
  rewrite Heq. reflexivity.
Qed.

Lemma shareSum_perm (p : ChannelData -> bool) (l l' : list ChannelData) :
  Permutation l l' -> shareSum p l == shareSum p l'.
Proof. intro H. unfold shareSum. apply sumBy_perm, filter_perm, H. Qed.

Lemma shareSum_map (p : ChannelData -> bool) (f : ChannelData -> ChannelData)
    (l : list ChannelData) :
  (forall d, p (f d) = p d) ->
  shareSum p (map f l) == sumBy (fun d => orNum (share (f d)) 0) (List.filter p l).
Proof.
  intro Hp. unfold shareSum. rewrite (filter_map_commute p f l Hp).
  apply sumBy_map.
Qed.

Lemma shareSum_map_same (p : ChannelData -> bool) (f : ChannelData -> ChannelData)
    (l : list ChannelData) :
  (forall d, p (f d) = p d) -> (forall d, p d = true -> share (f d) = share d) ->
  shareSum p (map f l) == shareSum p l.
Proof.
  intros Hp Hs. rewrite (shareSum_map p f l Hp). unfold shareSum.
  apply sumBy_ext. intros d Hd. apply filter_In in Hd as [_ Hd].
  rewrite (Hs d Hd). reflexivity.
Qed.

Lemma shareSum_split (r : string) (l : list ChannelData) :
  shareSum (inRegionSel r) l == shareSum (orbitalSel r) l + shareSum (networkSel r) l.
Proof.
  unfold shareSum, orbitalSel, networkSel.
  induction l as [|d l IH]; simpl.
  - rewrite !sumBy_nil. ring.
  - destruct (inRegionSel r d), (isOrbital d); simpl;
      rewrite ?sumBy_cons, IH; ring.
Qed.

(** ** The orbital cap *)

Lemma orbitalSel_scaleOrbital r' r cap f d :
  orbitalSel r' (scaleOrbital r cap f d) = orbitalSel r' d.
Proof. unfold scaleOrbital. destruct (orbitalSel r d); reflexivity. Qed.

Lemma networkSel_scaleOrbital r' r cap f d :
  networkSel r' (scaleOrbital r cap f d) = networkSel r' d.
Proof. unfold scaleOrbital. destruct (orbitalSel r d); reflexivity. Qed.

Lemma orbitalSel_topUpNetwork r' r n s d :
  orbitalSel r' (topUpNetwork r n s d) = orbitalSel r' d.
Proof. unfold topUpNetwork. destruct (networkSel r d); reflexivity. Qed.

Lemma networkSel_topUpNetwork r' r n s d :
  networkSel r' (topUpNetwork r n s d) = networkSel r' d.
Proof. unfold topUpNetwork. destruct (networkSel r d); reflexivity. Qed.

Lemma inRegion_scaleOrbital r' r cap f d :
  inRegion r' (scaleOrbital r cap f d) = inRegion r' d.
Proof. unfold scaleOrbital. destruct (orbitalSel r d); reflexivity. Qed.

Lemma inRegion_topUpNetwork r' r n s d :
  inRegion r' (topUpNetwork r n s d) = inRegion r' d.
Proof. unfold topUpNetwork. destruct (networkSel r d); reflexivity. Qed.

Lemma orbital_not_network r d : orbitalSel r d = true -> networkSel r d = false.
Proof.
  unfold orbitalSel, networkSel. rewrite andb_true_iff. intros [-> ->]. reflexivity.
Qed.

Lemma network_not_orbital r d : networkSel r d = true -> orbitalSel r d = false.
Proof.
  unfold orbitalSel, networkSel. rewrite andb_true_iff, negb_true_iff.
  intros [-> ->]. reflexivity.
Qed.

Lemma scaleOrbital_fixes_network r cap f d :
  networkSel r d = true -> scaleOrbital r cap f d = d.
Proof.
  intro H. unfold scaleOrbital. rewrite (network_not_orbital r d H). reflexivity.
Qed.

Lemma topUpNetwork_fixes_orbital r n s d :
  orbitalSel r d = true -> topUpNetwork r n s d = d.
Proof.
  intro H. unfold topUpNetwork. rewrite (orbital_not_network r d H). reflexivity.
Qed.

Lemma sumBy_numVal_share (l : list ChannelData) :
  sumBy (fun d => numVal (share d)) l == sumBy (fun d => orNum (share d) 0) l.
Proof.
  apply sumBy_ext. intros d _. symmetry. apply orNum0_numVal.
Qed.

Lemma orNum_Some (q : Q) : orNum (Some q) 0 == q.
Proof. apply (orNum0_numVal (Some q)). Qed.

Lemma Forall2_map_pointwise {A B} (R : A -> B -> Prop) (f : A -> B) (l : list A) :
  (forall x, R x (f x)) -> Forall2 R l (map f l).
Proof.
  intro H. induction l as [|x l IH]; simpl; constructor; [apply H|exact IH].
Qed.

Lemma percent_nonneg (c : Q) : 0 <= c -> 0 <= c / 100.
Proof.
  intro H. unfold Qdiv. apply Qmult_le_0_compat; [exact H|].
  unfold Qle. simpl. lia.
Qed.

Section Cap.
Variables (brief : BriefData) (r : string) (rb : RegionBrief) (cap : Q).
Hypothesis Hbrief : briefOf brief r = Some rb.
Hypothesis Hcap : maxOrbitalShare rb = Some cap.

Local Abbreviation maxShare := (cap / 100).

Lemma capRegion_idle (data : list ChannelData) :
  ~ maxShare < shareSum (orbitalSel r) data -> capRegion brief r data = data.
Proof.
  intro H. unfold capRegion. rewrite Hbrief, Hcap.
  destruct (Qltb maxShare _) eqn:E; [|reflexivity].
  apply Qltb_lt in E. contradiction.
Qed.

Lemma scaled_network_sum (f : Q) (data : list ChannelData) :
  shareSum (networkSel r) (map (scaleOrbital r cap f) data)
  = shareSum (networkSel r) data.
Proof.
  unfold shareSum. rewrite filter_map_fixed; [reflexivity| |].
  - intro d. apply networkSel_scaleOrbital.
  - intros d Hd. apply scaleOrbital_fixes_network. exact Hd.
Qed.

Lemma scaled_orbital_sum (f : Q) (data : list ChannelData) :
  shareSum (orbitalSel r) (map (scaleOrbital r cap f) data)
  == shareSum (orbitalSel r) data * f.
Proof.
  rewrite shareSum_map by (intro; apply orbitalSel_scaleOrbital).
  unfold shareSum. rewrite <- sumBy_numVal_share, <- sumBy_scale.
  apply sumBy_ext. intros d Hd. apply filter_In in Hd as [_ Hd].
  unfold scaleOrbital. rewrite Hd. simpl share. apply orNum_Some.
Qed.

Lemma capRegion_records (data : list ChannelData) :
  maxShare < shareSum (orbitalSel r) data ->
  Forall2 (cappedRecord r maxShare (shareSum (orbitalSel r) data)
             (shareSum (networkSel r) data))
          data (capRegion brief r data).
Proof.
  intro Hover. unfold capRegion. rewrite Hbrief, Hcap.
  apply Qltb_lt in Hover. rewrite Hover. cbv zeta.
  rewrite scaled_network_sum.
  set (total := shareSum (orbitalSel r) data).
  set (network := shareSum (networkSel r) data).
  destruct (Qltb 0 network) eqn:Hnet.
  - apply Qltb_lt in Hnet. rewrite map_map.
    apply Forall2_map_pointwise. intro d.
    unfold cappedRecord. split; [|split].
    + intro Ho. rewrite topUpNetwork_fixes_orbital
        by (rewrite orbitalSel_scaleOrbital; exact Ho).
      unfold scaleOrbital. rewrite Ho. reflexivity.
    + intro Hn. split; [intros _|intro H; contradiction].
      rewrite (scaleOrbital_fixes_network _ _ _ _ Hn).
      unfold topUpNetwork. rewrite Hn. reflexivity.
    + intros Ho Hn. unfold scaleOrbital. rewrite Ho.
      unfold topUpNetwork. rewrite Hn. reflexivity.
  - apply Qltb_ge in Hnet.
    apply Forall2_map_pointwise. intro d.
    unfold cappedRecord. split; [|split].
    + intro Ho. unfold scaleOrbital. rewrite Ho. reflexivity.
    + intro Hn. split; [intro H; exfalso; apply (Qlt_not_le _ _ H Hnet)|intros _].
      apply scaleOrbital_fixes_network. exact Hn.
    + intros Ho Hn. unfold scaleOrbital. rewrite Ho. reflexivity.
Qed.

Lemma capRegion_orbital_sum (data : list ChannelData) :
  maxShare < shareSum (orbitalSel r) data -> 0 <= cap ->
  shareSum (orbitalSel r) (capRegion brief r data) == maxShare.
Proof.
  intros Hover Hpos. unfold capRegion. rewrite Hbrief, Hcap.
  pose proof Hover as Hb. apply Qltb_lt in Hb. rewrite Hb. cbv zeta.
  set (total := shareSum (orbitalSel r) data) in *.
  assert (Hscaled : shareSum (orbitalSel r)
                      (map (scaleOrbital r cap (maxShare / total)) data) == maxShare).
  { rewrite scaled_orbital_sum. fold total. field. intro Hz.
    rewrite Hz in Hover. apply (Qlt_not_le _ _ Hover). apply percent_nonneg, Hpos. }
  destruct (Qltb 0 _); [|exact Hscaled].
  etransitivity; [|exact Hscaled]. unfold shareSum.
  rewrite filter_map_fixed; [reflexivity| |].
  - intro d. apply orbitalSel_topUpNetwork.
  - intros d Hd. apply topUpNetwork_fixes_orbital. exact Hd.
Qed.

Lemma capRegion_network_topped (data : list ChannelData) :
  maxShare < shareSum (orbitalSel r) data -> 0 < shareSum (networkSel r) data ->
  shareSum (networkSel r) (capRegion brief r data)
  == shareSum (networkSel r) data + (shareSum (orbitalSel r) data - maxShare).
Proof.
  intros Hover Hnet. unfold capRegion. rewrite Hbrief, Hcap.
  apply Qltb_lt in Hover. rewrite Hover. cbv zeta.
  rewrite scaled_network_sum.
  pose proof Hnet as Hb. apply Qltb_lt in Hb. rewrite Hb.
  set (total := shareSum (orbitalSel r) data).
  set (network := shareSum (networkSel r) data) in *.
  rewrite shareSum_map by (intro; apply networkSel_topUpNetwork).
  rewrite filter_map_fixed;
    [|intro; apply networkSel_scaleOrbital
     |intros d Hd; apply scaleOrbital_fixes_network; exact Hd].
  transitivity (sumBy (fun d => numVal (share d)
                                + numVal (share d) * ((total - maxShare) / network))
                      (List.filter (networkSel r) data)).
  - apply sumBy_ext. intros d Hd. apply filter_In in Hd as [_ Hd].
    unfold topUpNetwork. rewrite Hd. simpl share. rewrite orNum_Some.
    field. intro Hz. rewrite Hz in Hnet. apply (Qlt_irrefl 0). exact Hnet.
  - rewrite sumBy_plus, sumBy_scale, sumBy_numVal_share.
    change (sumBy (fun d => orNum (share d) 0) (List.filter (networkSel r) data))
      with network.
    field. intro Hz. rewrite Hz in Hnet. apply (Qlt_irrefl 0). exact Hnet.
Qed.

Lemma capRegion_network_kept (data : list ChannelData) :
  maxShare < shareSum (orbitalSel r) data -> ~ 0 < shareSum (networkSel r) data ->
  shareSum (networkSel r) (capRegion brief r data) = shareSum (networkSel r) data.
Proof.
  intros Hover Hnet. unfold capRegion. rewrite Hbrief, Hcap.
  apply Qltb_lt in Hover. rewrite Hover. cbv zeta.
  rewrite scaled_network_sum.
  destruct (Qltb 0 _) eqn:E; [apply Qltb_lt in E; contradiction|].
  apply scaled_network_sum.
Qed.

(** After the pass of region [r] its selected orbital channels hold at
    most the cap. *)
Lemma capRegion_bound (data : list ChannelData) :
  0 <= cap -> shareSum (orbitalSel r) (capRegion brief r data) <= maxShare.
Proof.
  intro Hpos.
  destruct (Qlt_le_dec maxShare (shareSum (orbitalSel r) data)) as [Hover|Hle].
  - rewrite (capRegion_orbital_sum data Hover Hpos). apply Qle_refl.
  - rewrite capRegion_idle; [exact Hle|]. apply Qle_not_lt. exact Hle.
Qed.

End Cap.

(** The pass of another region leaves the records of [r] alone. *)
Lemma capRegion_other (brief : BriefData) (r r' : string) (data : list ChannelData) :
  r' <> r ->
  List.filter (inRegion r) (capRegion brief r' data) = List.filter (inRegion r) data.
Proof.
  intro Hne.
  assert (Hno : forall d, inRegion r d = true -> orbitalSel r' d = false /\
                                                  networkSel r' d = false).
  { intros d Hd. apply inRegion_eq in Hd.
    assert (inRegion r' d = false) as Hf by (apply inRegion_neq; congruence).
    unfold orbitalSel, networkSel, inRegionSel. rewrite Hf. split; reflexivity. }
  assert (Hscale : forall c f l, List.filter (inRegion r) (map (scaleOrbital r' c f) l)
                                 = List.filter (inRegion r) l).
  { intros c f l. apply filter_map_fixed.
    - intro d. apply inRegion_scaleOrbital.
    - intros d Hd. unfold scaleOrbital. destruct (Hno d Hd) as [-> _]. reflexivity. }
  assert (Htop : forall n s l, List.filter (inRegion r) (map (topUpNetwork r' n s) l)
                               = List.filter (inRegion r) l).
  { intros n s l. apply filter_map_fixed.
    - intro d. apply inRegion_topUpNetwork.
    - intros d Hd. unfold topUpNetwork. destruct (Hno d Hd) as [_ ->]. reflexivity. }
  unfold capRegion.
  destruct (briefOf brief r') as [rb|]; [|reflexivity].
  destruct (maxOrbitalShare rb) as [cap|]; [|reflexivity].
  destruct (Qltb _ _); [|reflexivity]. cbv zeta.
  destruct (Qltb _ _); [rewrite Htop|]; apply Hscale.
Qed.

Lemma capPass_bound (brief : BriefData) (r : string) (rb : RegionBrief) (cap : Q)
    (rs : list string) (data : list ChannelData) :
  briefOf brief r = Some rb -> maxOrbitalShare rb = Some cap -> 0 <= cap ->
  In r rs \/ shareSum (orbitalSel r) data <= cap / 100 ->
  shareSum (orbitalSel r) (fold_left (fun d r0 => capRegion brief r0 d) rs data)
  <= cap / 100.
Proof.
  intros Hbrief Hcap Hpos. revert data.
  induction rs as [|r0 rs IH]; intros data H; simpl.
  - destruct H as [[]|H]. exact H.
  - apply IH. destruct (string_dec r0 r) as [->|Hne].
    + right. apply (capRegion_bound brief r rb cap Hbrief Hcap data Hpos).
    + destruct H as [[Heq|Hin]|Hle]; [congruence|left; exact Hin|right].
      rewrite (shareSum_region (orbitalSel r) r _ data (orbitalSel_inRegion r)
                 (capRegion_other brief r r0 data Hne)).
      exact Hle.
Qed.

(** Finalization and the final sort keep the shares of selected records. *)
Lemma shareSum_final (p : ChannelData -> bool) (l : list ChannelData) :
  (forall d, p (finalize d) = p d) -> (forall d, p d = true -> selected d = true) ->
  shareSum p (sortBy cmpFinal (map finalize l)) == shareSum p l.
Proof.
  intros Hp Hsel.
  rewrite <- (shareSum_perm p _ _ (sortBy_perm cmpFinal (map finalize l))).
  apply shareSum_map_same; [exact Hp|].
  intros d Hd. unfold finalize. rewrite (Hsel d Hd). reflexivity.
Qed.

Lemma inRegionSel_finalize r d : inRegionSel r (finalize d) = inRegionSel r d.
Proof. unfold finalize. destruct (selected d) eqn:E; unfold inRegionSel; simpl; rewrite ?E; reflexivity. Qed.

Lemma orbitalSel_finalize r d : orbitalSel r (finalize d) = orbitalSel r d.
Proof.
  unfold orbitalSel. rewrite inRegionSel_finalize. f_equal.
  unfold finalize. destruct (selected d); reflexivity.
Qed.

Lemma networkSel_finalize r d : networkSel r (finalize d) = networkSel r d.
Proof.
  unfold networkSel. rewrite inRegionSel_finalize. f_equal.
  unfold finalize. destruct (selected d); reflexivity.
Qed.

Lemma inRegionSel_selected r d : inRegionSel r d = true -> selected d = true.
Proof. unfold inRegionSel. rewrite andb_true_iff. tauto. Qed.

Lemma orbitalSel_selected r d : orbitalSel r d = true -> selected d = true.
Proof.
  unfold orbitalSel. rewrite andb_true_iff. intros [H _].
  apply (inRegionSel_selected r). exact H.
Qed.

Lemma networkSel_selected r d : networkSel r d = true -> selected d = true.
Proof.
  unfold networkSel. rewrite andb_true_iff. intros [H _].
  apply (inRegionSel_selected r). exact H.
Qed.

(** C3, as amended.  When a split is optimized with limits enabled (every
    variant but Natural) and the region's cap is not negative, the selected
    orbital channels of the region hold at most the cap in the result.  In
    the pass itself, when they hold more than the cap, the share of each
    is multiplied by cap / total, and the freed share goes to the selected
    non-orbital channels in proportion to their shares, provided these
    hold a positive share; every other record is left as it was. *)
Theorem C3_orbital_cap_with_limits (data : list ChannelData) (brief : BriefData)
    (weightingLogic : string) (weights : option Weights) (r : string)
    (rb : RegionBrief) (cap : Q) :
  briefOf brief r = Some rb -> maxOrbitalShare rb = Some cap -> 0 <= cap ->
  shareSum (orbitalSel r) (optimizeSplit data brief weightingLogic true weights)
  <= cap / 100 /\
  forall before : list ChannelData,
    cap / 100 < shareSum (orbitalSel r) before ->
    Forall2 (cappedRecord r (cap / 100) (shareSum (orbitalSel r) before)
               (shareSum (networkSel r) before))
            before (capRegion brief r before).
Proof.
  intros Hbrief Hcap Hpos. split.
  - unfold optimizeSplit, optimizeRecords, capPass.
    rewrite shareSum_final;
      [|intro; apply orbitalSel_finalize|apply orbitalSel_selected].
    apply (capPass_bound brief r rb cap _ _ Hbrief Hcap Hpos).
    left. eapply briefOf_In. exact Hbrief.
  - intros before Hover. apply (capRegion_records brief r rb cap Hbrief Hcap).
    exact Hover.
Qed.

Lemma C3_orbital_cap_witness :
  shareSum (orbitalSel "Москва")
    (generateSingleSplit (baseSnapshot orbitalRows orbitalBrief) orbitalBrief
       "Affinity" true)
  <= 30 / 100.
Proof.
  apply (C3_orbital_cap_with_limits
           (selectSingle (baseSnapshot orbitalRows orbitalBrief) orbitalBrief "Affinity")
           orbitalBrief "Affinity" None "Москва"
           (mkBrief "All 18+" (Some 2) (Some 30) (Some 20)) 30).
  - reflexivity.
  - reflexivity.
  - unfold Qle. simpl. lia.
Defined.

(** C3, as stated, fails for the Natural variant, which is optimized with
    limits disabled: in the sample the region has a cap of 30% and its
    selected orbital channels hold 100% in the Natural split. *)
Lemma C3_natural_variant_exceeds_cap :
  ~ (forall rows brief res name recs r rb cap,
       processFilesAndCalculate rows brief = Some res ->
       In (name, recs) (splits res) ->
       briefOf brief r = Some rb -> maxOrbitalShare rb = Some cap ->
       (exists d, In d recs /\ orbitalSel r d = true) ->
       shareSum (orbitalSel r) recs <= cap / 100 + (1 # 1000000000)).
Proof.
  intro H.
  pose (recs := generateSingleSplit (baseSnapshot orbitalRows orbitalBrief)
                  orbitalBrief "Natural" false).
  assert (Hle : shareSum (orbitalSel "Москва") recs <= 30 / 100 + (1 # 1000000000)).
  { apply (H orbitalRows orbitalBrief _ "Сплит (Натуральный)" recs "Москва"
             (mkBrief "All 18+" (Some 2) (Some 30) (Some 20)) 30 eq_refl).
    - right. right. right. left. reflexivity.
    - reflexivity.
    - reflexivity.
    - vm_compute. eexists. split; [left; reflexivity|reflexivity]. }
  vm_compute in Hle. apply Hle. reflexivity.
Qed.

(** ** The sum of the shares of a region *)

Lemma inRegion_assignRating div weightingLogic weights r sel r' d :
  inRegion r' (assignRating div weightingLogic weights r sel d) = inRegion r' d.
Proof. unfold assignRating. destruct (inRegionSel r d); reflexivity. Qed.

Lemma inRegion_normalizeShare div r total r' d :
  inRegion r' (normalizeShare div r total d) = inRegion r' d.
Proof.
  unfold normalizeShare. destruct (inRegionSel r d); [reflexivity|].
  destruct (inRegion r d); reflexivity.
Qed.

Lemma inRegionSel_normalizeShare div r total r' d :
  inRegionSel r' (normalizeShare div r total d) = inRegionSel r' d.
Proof.
  unfold normalizeShare. destruct (inRegionSel r d); [reflexivity|].
  destruct (inRegion r d); reflexivity.
Qed.

Lemma totalWeightedRatingOf_map_same (r : string) (f : ChannelData -> ChannelData)
    (l : list ChannelData) :
  (forall d, inRegionSel r (f d) = inRegionSel r d) ->
  (forall d, weightedRating (f d) = weightedRating d) ->
  totalWeightedRatingOf r (map f l) == totalWeightedRatingOf r l.
Proof.
  intros Hp Hw. unfold totalWeightedRatingOf.
  rewrite (filter_map_commute _ f l Hp), sumBy_map.
  apply sumBy_ext. intros d _. rewrite Hw. reflexivity.
Qed.

(** The pass of region [r] normalizes it whenever its total weighted
    rating is positive. *)
Lemma regionPass_total_one weightingLogic weights r data :
  0 < totalWeightedRatingOf r (regionPass Qdiv weightingLogic weights r data) ->
  shareSum (inRegionSel r) (regionPass Qdiv weightingLogic weights r data) == 1.
Proof.
  unfold regionPass.
  destruct (List.filter (inRegionSel r) data) as [|d0 sel] eqn:Hsel.
  - simpl. unfold totalWeightedRatingOf. rewrite Hsel. intro H.
    exfalso. apply (Qlt_irrefl 0). exact H.
  - cbn [List.length Nat.eqb].
    set (data1 := map (assignRating Qdiv weightingLogic weights r (d0 :: sel)) data).
    set (total := totalWeightedRatingOf r data1).
    destruct (Qltb 0 total) eqn:Ht.
    + intros _. apply Qltb_lt in Ht.
      rewrite shareSum_map by (intro; apply inRegionSel_normalizeShare).
      transitivity (sumBy (fun d => orNum (weightedRating d) 0 * / total)
                          (List.filter (inRegionSel r) data1)).
      * apply sumBy_ext. intros d Hd. apply filter_In in Hd as [_ Hd].
        unfold normalizeShare. rewrite Hd. simpl share. apply orNum_Some.
      * rewrite sumBy_scale.
        change (sumBy (fun d => orNum (weightedRating d) 0)
                      (List.filter (inRegionSel r) data1)) with total.
        field. intro Hz. rewrite Hz in Ht. apply (Qlt_irrefl 0). exact Ht.
    + intro H. apply Qltb_ge in Ht. exfalso. apply (Qlt_not_le _ _ H Ht).
Qed.

(** The pass of another region leaves the records of [r] alone. *)
Lemma regionPass_other div weightingLogic weights (r r' : string)
    (data : list ChannelData) :
  r' <> r ->
  List.filter (inRegion r) (regionPass div weightingLogic weights r' data)
  = List.filter (inRegion r) data.
Proof.
  intro Hne.
  assert (Hno : forall d, inRegion r d = true ->
                          inRegion r' d = false /\ inRegionSel r' d = false).
  { intros d Hd. apply inRegion_eq in Hd.
    assert (inRegion r' d = false) as Hf by (apply inRegion_neq; congruence).
    unfold inRegionSel. rewrite Hf. split; reflexivity. }
  assert (Hassign : forall sel l,
             List.filter (inRegion r)
               (map (assignRating div weightingLogic weights r' sel) l)
             = List.filter (inRegion r) l).
  { intros sel l. apply filter_map_fixed.
    - intro d. apply inRegion_assignRating.
    - intros d Hd. unfold assignRating. destruct (Hno d Hd) as [_ ->]. reflexivity. }
  assert (Hnorm : forall total l,
             List.filter (inRegion r) (map (normalizeShare div r' total) l)
             = List.filter (inRegion r) l).
  { intros total l. apply filter_map_fixed.
    - intro d. apply inRegion_normalizeShare.
    - intros d Hd. unfold normalizeShare. destruct (Hno d Hd) as [-> ->]. reflexivity. }
  unfold regionPass.
  destruct (List.length _ =? 0)%nat; [reflexivity|].
  destruct (Qltb 0 _); [rewrite Hnorm|]; apply Hassign.
Qed.

Lemma regionsPass_normalized weightingLogic weights (r : string) (rs : list string)
    (data : list ChannelData) :
  In r rs \/
  (0 < totalWeightedRatingOf r data -> shareSum (inRegionSel r) data == 1) ->
  let out := fold_left (fun d r0 => regionPass Qdiv weightingLogic weights r0 d) rs data in
  0 < totalWeightedRatingOf r out -> shareSum (inRegionSel r) out == 1.
Proof.
  revert data. induction rs as [|r0 rs IH]; intros data H; simpl.
  - destruct H as [[]|H]. exact H.
  - apply IH. destruct (string_dec r0 r) as [->|Hne].
    + right. apply regionPass_total_one.
    + destruct H as [[Heq|Hin]|HP]; [congruence|left; exact Hin|right].
      pose proof (regionPass_other Qdiv weightingLogic weights r r0 data Hne) as Hsame.
      rewrite (totalWeightedRatingOf_region r _ data Hsame).
      rewrite (shareSum_region (inRegionSel r) r _ data (inRegionSel_inRegion r) Hsame).
      exact HP.
Qed.

Lemma applyFloor_idle (brief : BriefData) (d : ChannelData) :
  belowFloor brief d = false -> applyFloor brief d = d.
Proof.
  intro H. unfold applyFloor. rewrite H. destruct (briefOf brief (region d)); reflexivity.
Qed.

Lemma passData_without_deselection brief weightingLogic applyLimits weights data :
  deselects brief weightingLogic applyLimits weights data = false ->
  passData brief weightingLogic applyLimits weights data
  = regionsPass Qdiv brief weightingLogic weights data.
Proof.
  unfold deselects, passData, passOnce. destruct applyLimits; [|reflexivity].
  simpl. intro H. rewrite <- (map_id (regionsPass _ _ _ _ _)) at 2.
  apply map_ext_in. intros d Hd. apply applyFloor_idle.
  destruct (belowFloor brief d) eqn:E; [|reflexivity].
  assert (existsb (belowFloor brief) (regionsPass Qdiv brief weightingLogic weights data)
          = true) as Ht by (apply existsb_exists; exists d; split; assumption).
  congruence.
Qed.

(** A loop that converged ends on a pass whose floor changed nothing. *)
Lemma converged_ends_on_pass data brief weightingLogic applyLimits weights :
  loopConverged data brief weightingLogic applyLimits weights = true ->
  exists before,
    fst (optimizeLoop brief weightingLogic applyLimits weights 0 data)
    = regionsPass Qdiv brief weightingLogic weights before.
Proof.
  unfold loopConverged. intro Hconv. apply Nat.leb_le in Hconv.
  destruct (optimizeLoop_run brief weightingLogic applyLimits weights 20 0 data eq_refl)
    as (p & _ & _ & Hres & _ & [(Hp & Hstop & _)|(_ & Hcnt)]); [|lia].
  destruct p as [|p]; [lia|].
  replace (S p - 1)%nat with p in Hstop by lia.
  exists (Nat.iter p (passData brief weightingLogic applyLimits weights) data).
  rewrite Hres. simpl. apply passData_without_deselection. exact Hstop.
Qed.

Lemma In_briefOf (brief : BriefData) (r : string) :
  In r (regionsOf brief) -> exists rb, briefOf brief r = Some rb.
Proof.
  unfold regionsOf, briefOf. intro H. apply in_map_iff in H as ((k & rb) & <- & Hin).
  destruct (List.find _ _) as [kv|] eqn:E; [eexists; reflexivity|].
  exfalso. apply (find_none _ _ E) in Hin. simpl in Hin.
  rewrite String.eqb_refl in Hin. discriminate.
Qed.

Lemma capRegion_total_rating (brief : BriefData) (r r0 : string)
    (data : list ChannelData) :
  totalWeightedRatingOf r (capRegion brief r0 data) == totalWeightedRatingOf r data.
Proof.
  assert (Hscale : forall c f l,
             totalWeightedRatingOf r (map (scaleOrbital r0 c f) l)
             == totalWeightedRatingOf r l).
  { intros c f l. apply totalWeightedRatingOf_map_same; intro d;
      unfold scaleOrbital; destruct (orbitalSel r0 d); reflexivity. }
  assert (Htop : forall n s l,
             totalWeightedRatingOf r (map (topUpNetwork r0 n s) l)
             == totalWeightedRatingOf r l).
  { intros n s l. apply totalWeightedRatingOf_map_same; intro d;
      unfold topUpNetwork; destruct (networkSel r0 d); reflexivity. }
  unfold capRegion.
  destruct (briefOf brief r0) as [rb|]; [|reflexivity].
  destruct (maxOrbitalShare rb) as [cap|]; [|reflexivity].
  destruct (Qltb _ _); [|reflexivity]. cbv zeta.
  destruct (Qltb _ _); [rewrite Htop|]; apply Hscale.
Qed.

Lemma capPass_total_rating (brief : BriefData) (applyLimits : bool) (r : string)
    (data : list ChannelData) :
  totalWeightedRatingOf r (capPass brief applyLimits data)
  == totalWeightedRatingOf r data.
Proof.
  unfold capPass. destruct applyLimits; [|reflexivity].
  generalize (regionsOf brief). intro rs. revert data.
  induction rs as [|r0 rs IH]; intro data; simpl; [reflexivity|].
  rewrite IH. apply capRegion_total_rating.
Qed.

Lemma final_total_rating (r : string) (l : list ChannelData) :
  totalWeightedRatingOf r (sortBy cmpFinal (map finalize l))
  == totalWeightedRatingOf r l.
Proof.
  transitivity (totalWeightedRatingOf r (map finalize l)).
  - unfold totalWeightedRatingOf. apply sumBy_perm, filter_perm, Permutation_sym,
      sortBy_perm.
  - apply totalWeightedRatingOf_map_same; intro d.
    + apply inRegionSel_finalize.
    + unfold finalize. destruct (selected d); reflexivity.
Qed.

Section CapInvariant.
Variables (brief : BriefData) (r : string) (rb : RegionBrief).
Hypothesis Hbrief : briefOf brief r = Some rb.

(** Without a cap for [r], the cap pass leaves the sum of [r] alone. *)
Lemma capPass_without_cap (rs : list string) (data : list ChannelData) :
  maxOrbitalShare rb = None ->
  shareSum (inRegionSel r) (fold_left (fun d r0 => capRegion brief r0 d) rs data)
  = shareSum (inRegionSel r) data.
Proof.
  intro Hnone. revert data. induction rs as [|r0 rs IH]; intro data; simpl;
    [reflexivity|].
  rewrite IH. destruct (string_dec r0 r) as [->|Hne].
  - unfold capRegion. rewrite Hbrief, Hnone. reflexivity.
  - apply (shareSum_region (inRegionSel r) r _ data (inRegionSel_inRegion r)).
    apply capRegion_other. exact Hne.
Qed.

Variable cap : Q.
Hypothesis Hcap : maxOrbitalShare rb = Some cap.
Hypothesis Hpos : 0 <= cap.

(** With a cap: the region sums to 1, or its selected non-orbital
    channels hold nothing and its orbital channels hold exactly the cap. *)
Local Abbreviation capped data :=
  (shareSum (inRegionSel r) data == 1 \/
   (shareSum (networkSel r) data <= 0 /\ shareSum (orbitalSel r) data == cap / 100)).

Lemma capRegion_capped (r0 : string) (data : list ChannelData) :
  capped data -> capped (capRegion brief r0 data).
Proof.
  intro H. destruct (string_dec r0 r) as [->|Hne].
  - destruct (Qlt_le_dec (cap / 100) (shareSum (orbitalSel r) data)) as [Hover|Hle].
    + destruct H as [Hone|[_ Heq]];
        [|rewrite Heq in Hover; exfalso; apply (Qlt_irrefl _ Hover)].
      pose proof (capRegion_orbital_sum brief r rb cap Hbrief Hcap data Hover Hpos)
        as Horb.
      destruct (Qlt_le_dec 0 (shareSum (networkSel r) data)) as [Hnet|Hnet].
      * left. rewrite shareSum_split, Horb.
        rewrite (capRegion_network_topped brief r rb cap Hbrief Hcap data Hover Hnet).
        rewrite shareSum_split in Hone. rewrite <- Hone. ring.
      * right. split; [|exact Horb].
        rewrite (capRegion_network_kept brief r rb cap Hbrief Hcap data Hover);
          [exact Hnet|]. apply Qle_not_lt. exact Hnet.
    + rewrite (capRegion_idle brief r rb cap Hbrief Hcap); [exact H|].
      apply Qle_not_lt. exact Hle.
  - pose proof (capRegion_other brief r r0 data Hne) as Hsame.
    rewrite (shareSum_region (inRegionSel r) r _ data (inRegionSel_inRegion r) Hsame).
    rewrite (shareSum_region (networkSel r) r _ data (networkSel_inRegion r) Hsame).
    rewrite (shareSum_region (orbitalSel r) r _ data (orbitalSel_inRegion r) Hsame).
    exact H.
Qed.

Lemma capPass_capped (rs : list string) (data : list ChannelData) :
  capped data -> capped (fold_left (fun d r0 => capRegion brief r0 d) rs data).
Proof.
  revert data. induction rs as [|r0 rs IH]; intros data H; simpl; [exact H|].
  apply IH. apply capRegion_capped. exact H.
Qed.

End CapInvariant.

(** C1, as amended.  For a region of the brief, in the result of
    [optimizeSplit]: the shares of its selected records sum to 0 when none
    is selected; and when the loop converged (it was not cut at 20 passes),
    the region's total weighted rating is positive and its cap, if any, is
    not negative, they sum to 1, except in one case: limits are enabled, a
    cap is configured and the selected non-orbital channels hold no share,
    and then the selected orbital channels hold exactly the cap. *)
Theorem C1_share_sum_of_a_region (data : list ChannelData) (brief : BriefData)
    (weightingLogic : string) (applyLimits : bool) (weights : option Weights)
    (r : string) :
  In r (regionsOf brief) ->
  loopConverged data brief weightingLogic applyLimits weights = true ->
  (forall rb cap, briefOf brief r = Some rb -> maxOrbitalShare rb = Some cap ->
                  0 <= cap) ->
  let res := optimizeSplit data brief weightingLogic applyLimits weights in
  (List.filter (inRegionSel r) res = [] -> shareSum (inRegionSel r) res == 0) /\
  (0 < totalWeightedRatingOf r res ->
   shareSum (inRegionSel r) res == 1 \/
   (applyLimits = true /\
    exists rb cap,
      briefOf brief r = Some rb /\ maxOrbitalShare rb = Some cap /\
      shareSum (networkSel r) res <= 0 /\
      shareSum (orbitalSel r) res == cap / 100)).
Proof.
  intros Hr Hconv Hcaps res. split.
  - intro Hnil. unfold shareSum. rewrite Hnil. reflexivity.
  - intro Htotal. unfold res, optimizeSplit, optimizeRecords in *.
    set (L := fst (optimizeLoop brief weightingLogic applyLimits weights 0 data)) in *.
    set (X := capPass brief applyLimits L) in *.
    assert (Hsel : shareSum (inRegionSel r) (sortBy cmpFinal (map finalize X))
                   == shareSum (inRegionSel r) X)
      by (apply shareSum_final;
          [intro; apply inRegionSel_finalize|apply inRegionSel_selected]).
    assert (Hnets : shareSum (networkSel r) (sortBy cmpFinal (map finalize X))
                    == shareSum (networkSel r) X)
      by (apply shareSum_final;
          [intro; apply networkSel_finalize|apply networkSel_selected]).
    assert (Horbs : shareSum (orbitalSel r) (sortBy cmpFinal (map finalize X))
                    == shareSum (orbitalSel r) X)
      by (apply shareSum_final;
          [intro; apply orbitalSel_finalize|apply orbitalSel_selected]).
    unfold X in Htotal. rewrite final_total_rating, capPass_total_rating in Htotal.
    assert (HL : shareSum (inRegionSel r) L == 1).
    { destruct (converged_ends_on_pass _ _ _ _ _ Hconv) as (before & Hbefore).
      fold L in Hbefore. rewrite Hbefore in Htotal |- *.
      apply regionsPass_normalized; [left; exact Hr|exact Htotal]. }
    rewrite Hsel. unfold X, capPass in *.
    destruct applyLimits; [|left; exact HL].
    destruct (In_briefOf brief r Hr) as (rb & Hbrief).
    destruct (maxOrbitalShare rb) as [cap|] eqn:Hcap.
    + destruct (capPass_capped brief r rb Hbrief cap Hcap (Hcaps rb cap Hbrief Hcap)
                  (regionsOf brief) L (or_introl HL)) as [Hone|[Hnet Horb]].
      * left. exact Hone.
      * right. split; [reflexivity|]. exists rb, cap.
        split; [exact Hbrief|]. split; [exact Hcap|].
        rewrite Hnets, Horbs. split; [exact Hnet|exact Horb].
    + left. rewrite (capPass_without_cap brief r rb Hbrief _ _ Hcap). exact HL.
Qed.

(** In the Affinity split of the mixed sample the cap fires (the orbital
    channel would hold 75%) and the region still sums to 1. *)
Lemma C1_share_sum_witness :
  let res := generateSingleSplit (baseSnapshot mixedRows orbitalBrief) orbitalBrief
               "Affinity" true in
  shareSum (inRegionSel "Москва") res == 1 /\
  shareSum (orbitalSel "Москва") res == 30 / 100.
Proof.
  intro res.
  destruct (C1_share_sum_of_a_region
              (selectSingle (baseSnapshot mixedRows orbitalBrief) orbitalBrief "Affinity")
              orbitalBrief "Affinity" true None "Москва") as [_ Hsum].
  - left. reflexivity.
  - reflexivity.
  - intros rb cap Hb Hc. injection Hb as <-. injection Hc as <-.
    unfold Qle. simpl. lia.
  - split; [|reflexivity].
    destruct Hsum as [Hone|(_ & rb & cap & _ & _ & Hnet & _)].
    + reflexivity.
    + exact Hone.
    + exfalso. apply Hnet. reflexivity.
Defined.

(** C1, as stated, fails when the orbital cap applies to a region whose
    selected channels are all orbital: the Affinity split of the orbital
    sample leaves the region with a sum of 30%. *)
Lemma C1_all_orbital_region_sums_to_cap :
  ~ (forall rows brief res name recs r,
       processFilesAndCalculate rows brief = Some res ->
       In (name, recs) (splits res) -> In r (regionsOf brief) ->
       shareSum (inRegionSel r) recs == 0 \/
       Qabs (shareSum (inRegionSel r) recs - 1) <= 1 # 1000000000).
Proof.
  intro H.
  pose (recs := generateSingleSplit (baseSnapshot orbitalRows orbitalBrief)
                  orbitalBrief "Affinity" true).
  assert (Hsum : shareSum (inRegionSel "Москва") recs == 3 # 10) by reflexivity.
  destruct (H orbitalRows orbitalBrief _ "Сплит (Affinity)" recs "Москва" eq_refl)
    as [Hzero|Hone].
  - right. left. reflexivity.
  - left. reflexivity.
  - rewrite Hsum in Hzero. discriminate Hzero.
  - rewrite Hsum in Hone. apply Hone. reflexivity.
Qed.

(** ** The cutoff selection *)

Lemma insertBy_map {A B} (cmp : B -> B -> Q) (g : A -> B) (x : A) (l : list A) :
  insertBy cmp (g x) (map g l) = map g (insertBy (fun a b => cmp (g a) (g b)) x l).
Proof.
  induction l as [|y l IH]; simpl; [reflexivity|].
  destruct (Qle_bool (cmp (g x) (g y)) 0); simpl; [reflexivity|].
  rewrite IH. reflexivity.
Qed.

Lemma sortBy_map {A B} (cmp : B -> B -> Q) (g : A -> B) (l : list A) :
  sortBy cmp (map g l) = map g (sortBy (fun a b => cmp (g a) (g b)) l).
Proof.
  induction l as [|x l IH]; simpl; [reflexivity|].
  rewrite IH. apply insertBy_map.
Qed.

Lemma insertBy_pointwise {A} (cmp cmp' : A -> A -> Q) (x : A) (l : list A) :
  (forall a b, cmp a b = cmp' a b) -> insertBy cmp x l = insertBy cmp' x l.
Proof.
  intro H. induction l as [|y l IH]; simpl; [reflexivity|].
  rewrite H, IH. reflexivity.
Qed.

Lemma sortBy_pointwise {A} (cmp cmp' : A -> A -> Q) (l : list A) :
  (forall a b, cmp a b = cmp' a b) -> sortBy cmp l = sortBy cmp' l.
Proof.
  intro H. induction l as [|x l IH]; simpl; [reflexivity|].
  rewrite IH. apply insertBy_pointwise. exact H.
Qed.

Lemma insertBy_ranked (x : ChannelData) (l : list ChannelData) :
  StronglySorted notCheaper l -> StronglySorted notCheaper (insertBy cmpIndexDesc x l).
Proof.
  induction l as [|y l IH]; intro Hs; simpl.
  - constructor; constructor.
  - apply StronglySorted_inv in Hs as [Hl Hy].
    destruct (Qle_bool (cmpIndexDesc x y) 0) eqn:E.
    + apply Qle_bool_iff in E. unfold cmpIndexDesc in E.
      assert (Hxy : notCheaper x y) by (unfold notCheaper; lra).
      constructor; [constructor; assumption|].
      constructor; [exact Hxy|].
      rewrite List.Forall_forall in Hy |- *. intros z Hz.
      specialize (Hy z Hz). unfold notCheaper in *. lra.
    + assert (Hyx : notCheaper y x).
      { unfold notCheaper. unfold cmpIndexDesc in E.
        destruct (Qlt_le_dec (numVal (indexTcpp y)) (numVal (indexTcpp x)))
          as [Hlt|Hle]; [|exact Hle].
        assert (Qle_bool (numVal (indexTcpp y) - numVal (indexTcpp x)) 0 = true)
          by (apply Qle_bool_iff; lra).
        congruence. }
      constructor; [apply IH; exact Hl|].
      apply List.Forall_forall. intros z Hz.
      apply (Permutation_in z (Permutation_sym (insertBy_perm cmpIndexDesc x l))) in Hz.
      destruct Hz as [<-|Hz]; [exact Hyx|].
      rewrite List.Forall_forall in Hy. apply Hy. exact Hz.
Qed.

Lemma rankedOf_sorted (r : string) (data : list ChannelData) :
  StronglySorted notCheaper (rankedOf r data).
Proof.
  unfold rankedOf. generalize (List.filter (hasIndex r) data). intro l.
  induction l as [|x l IH]; simpl; [constructor|].
  apply insertBy_ranked. exact IH.
Qed.

Lemma sorted_head_dominates {A} (R : A -> A -> Prop) (k : nat) (l : list A) (a b : A) :
  StronglySorted R l -> In a (firstn k l) -> In b (skipn k l) -> R a b.
Proof.
  revert k. induction l as [|x l IH]; intros k Hs Ha Hb.
  - rewrite firstn_nil in Ha. destruct Ha.
  - destruct k as [|k]; [destruct Ha|]. simpl in Ha, Hb.
    apply StronglySorted_inv in Hs as [Hl Hx].
    destruct Ha as [<-|Ha].
    + rewrite List.Forall_forall in Hx. apply Hx.
      rewrite <- (firstn_skipn k l). apply in_or_app. right. exact Hb.
    + apply (IH k); assumption.
Qed.

Lemma cutoffRegion_map (brief : BriefData) (r : string) (data : list ChannelData) :
  cutoffRegion brief r data = map (cutoffStep brief data r) data.
Proof.
  unfold cutoffRegion, cutoffStep, excludedNames.
  destruct (List.length (List.filter (hasIndex r) data) =? 0)%nat.
  - symmetry. apply map_id.
  - reflexivity.
Qed.

Lemma selectionOnly_refl (d : ChannelData) : selectionOnly d d.
Proof. unfold selectionOnly, sameMetrics. repeat split. Qed.

Lemma selectionOnly_trans (a b c : ChannelData) :
  selectionOnly a b -> selectionOnly b c -> selectionOnly a c.
Proof.
  unfold selectionOnly, sameMetrics. intros H1 H2.
  destruct H1 as ((?&?&?&?&?&?&?&?&?&?&?&?)&?&?).
  destruct H2 as ((?&?&?&?&?&?&?&?&?&?&?&?)&?&?).
  repeat split; congruence.
Qed.

Lemma cutoffMark_selectionOnly r S d : selectionOnly d (cutoffMark r S d).
Proof.
  unfold cutoffMark.
  destruct (inRegion r d); [|apply selectionOnly_refl].
  destruct (negb (isNull (indexTcpp d)));
    [destruct (bool_decide _)|]; unfold selectionOnly, sameMetrics; repeat split.
Qed.

Lemma cutoffStep_selectionOnly brief data r d :
  selectionOnly d (cutoffStep brief data r d).
Proof.
  unfold cutoffStep. destruct (_ =? _)%nat;
    [apply selectionOnly_refl|apply cutoffMark_selectionOnly].
Qed.

Lemma selectionOnly_region d d' : selectionOnly d d' -> region d' = region d.
Proof. intros ((?&_)&_). assumption. Qed.

Lemma selectionOnly_channel d d' : selectionOnly d d' -> channel d' = channel d.
Proof. intros ((_&?&_)&_). assumption. Qed.

Lemma selectionOnly_index d d' : selectionOnly d d' -> indexTcpp d' = indexTcpp d.
Proof. intros ((_&_&_&_&_&_&_&_&_&?&_)&_). assumption. Qed.

Lemma hasIndex_selectionOnly r d d' :
  selectionOnly d d' -> hasIndex r d' = hasIndex r d.
Proof.
  intro H. unfold hasIndex, inRegion.
  rewrite (selectionOnly_region _ _ H), (selectionOnly_index _ _ H). reflexivity.
Qed.

Lemma slice0_map {A B} (g : A -> B) (k : Z) (l : list A) :
  slice0 k (map g l) = map g (slice0 k l).
Proof. unfold slice0. rewrite length_map. apply firstn_map. Qed.

(** What the cutoff reads of the data (regions, names and indices) is
    not changed by a function that writes [selected] and [comment] only. *)
Lemma cutChannels_names (brief : BriefData) (r : string) (g : ChannelData -> ChannelData)
    (data : list ChannelData) :
  (forall d, selectionOnly d (g d)) ->
  List.length (List.filter (hasIndex r) (map g data))
  = List.length (List.filter (hasIndex r) data) /\
  map channel (cutChannels brief r (map g data))
  = map channel (cutChannels brief r data).
Proof.
  intro Hg.
  assert (Hf : List.filter (hasIndex r) (map g data)
               = map g (List.filter (hasIndex r) data)).
  { apply filter_map_commute. intro d. apply hasIndex_selectionOnly, Hg. }
  split; [rewrite Hf; apply length_map|].
  unfold cutChannels. rewrite Hf, length_map, sortBy_map.
  rewrite (sortBy_pointwise (fun a b => cmpIndexDesc (g a) (g b)) cmpIndexDesc).
  - rewrite slice0_map, map_map. apply map_ext. intro d.
    apply selectionOnly_channel, Hg.
  - intros a b. unfold cmpIndexDesc.
    rewrite (selectionOnly_index _ _ (Hg a)), (selectionOnly_index _ _ (Hg b)).
    reflexivity.
Qed.

Lemma cutoffStep_stable (brief : BriefData) (r r0 : string) (data : list ChannelData)
    (d : ChannelData) :
  cutoffStep brief (cutoffRegion brief r0 data) r d = cutoffStep brief data r d.
Proof.
  rewrite cutoffRegion_map.
  destruct (cutChannels_names brief r (cutoffStep brief data r0) data) as [Hlen Hnames];
    [intro; apply cutoffStep_selectionOnly|].
  unfold cutoffStep at 1 3, excludedNames. rewrite Hlen, Hnames. reflexivity.
Qed.

(** The cutoff loop acts record by record, with the ranking of the data
    it started from. *)
Lemma cutoffLoop_map (brief : BriefData) (rs : list string) (data : list ChannelData) :
  fold_left (fun d r => cutoffRegion brief r d) rs data
  = map (fun d => fold_left (fun x r => cutoffStep brief data r x) rs d) data.
Proof.
  revert data. induction rs as [|r rs IH]; intro data; simpl.
  - symmetry. apply map_id.
  - rewrite IH.
    transitivity
      (map (fun d => fold_left (fun x r0 => cutoffStep brief data r0 x) rs d)
           (cutoffRegion brief r data)).
    + apply map_ext. intro d. apply fold_left_pointwise.
      intros x r'. apply cutoffStep_stable.
    + rewrite cutoffRegion_map, map_map. reflexivity.
Qed.

Lemma cutoffFold_selectionOnly brief data (rs : list string) (d : ChannelData) :
  selectionOnly d (fold_left (fun x r => cutoffStep brief data r x) rs d).
Proof.
  revert d. induction rs as [|r rs IH]; intro d; simpl.
  - apply selectionOnly_refl.
  - eapply selectionOnly_trans; [apply cutoffStep_selectionOnly|apply IH].
Qed.

Lemma cutoffStep_other brief data r0 d :
  inRegion r0 d = false -> cutoffStep brief data r0 d = d.
Proof.
  intro H. unfold cutoffStep, cutoffMark. rewrite H.
  destruct (_ =? _)%nat; reflexivity.
Qed.

Lemma cutoffStep_selected brief data r d :
  inRegion r d = true ->
  (List.length (List.filter (hasIndex r) data) =? 0)%nat = false ->
  selected (cutoffStep brief data r d)
  = negb (isNull (indexTcpp d))
    && negb (bool_decide (channel d ∈ excludedNames brief r data)).
Proof.
  intros Hr Hn. unfold cutoffStep, cutoffMark. rewrite Hn, Hr.
  destruct (negb (isNull (indexTcpp d))); [|reflexivity].
  destruct (bool_decide _); reflexivity.
Qed.

Lemma cutoffFold_selected brief data (rs : list string) (d : ChannelData) :
  selected (fold_left (fun x r => cutoffStep brief data r x) rs d)
  = if existsb (String.eqb (region d)) rs
       && negb (List.length (List.filter (hasIndex (region d)) data) =? 0)%nat
    then negb (isNull (indexTcpp d))
         && negb (bool_decide (channel d ∈ excludedNames brief (region d) data))
    else selected d.
Proof.
  revert d. induction rs as [|r0 rs IH]; intro d; simpl; [reflexivity|].
  pose proof (cutoffStep_selectionOnly brief data r0 d) as Hso.
  rewrite IH.
  rewrite (selectionOnly_region _ _ Hso), (selectionOnly_index _ _ Hso),
    (selectionOnly_channel _ _ Hso).
  destruct (String.eqb (region d) r0) eqn:Er; simpl.
  - apply String.eqb_eq in Er. subst r0.
    destruct (List.length (List.filter (hasIndex (region d)) data) =? 0)%nat eqn:Hn;
      simpl.
    + rewrite !andb_false_r. unfold cutoffStep. rewrite Hn. reflexivity.
    + rewrite !andb_true_r.
      rewrite (cutoffStep_selected brief data (region d) d) by
        (try apply inRegion_eq; auto).
      destruct (existsb _ rs); reflexivity.
  - rewrite (cutoffStep_other brief data r0 d Er). reflexivity.
Qed.

Lemma NoDup_map_injective {A B} (f : A -> B) (l : list A) (x y : A) :
  List.NoDup (map f l) -> In x l -> In y l -> f x = f y -> x = y.
Proof.
  induction l as [|z l IH]; simpl; intros Hnd Hx Hy Hf; [destruct Hx|].
  apply List.NoDup_cons_iff in Hnd as [Hnin Hnd].
  destruct Hx as [->|Hx], Hy as [->|Hy].
  - reflexivity.
  - exfalso. apply Hnin. rewrite Hf. apply in_map. exact Hy.
  - exfalso. apply Hnin. rewrite <- Hf. apply in_map. exact Hx.
  - apply IH; assumption.
Qed.

Lemma Forall2_map_in {A B} (R : A -> B -> Prop) (f : A -> B) (l : list A) :
  (forall x, In x l -> R x (f x)) -> Forall2 R l (map f l).
Proof.
  induction l as [|x l IH]; intro H; simpl; constructor.
  - apply H. left. reflexivity.
  - apply IH. intros y Hy. apply H. right. exact Hy.
Qed.

Lemma ceilCount_nonneg (n : nat) (cutoffValue : Q) :
  0 <= cutoffValue -> (0 <= ceilCount n cutoffValue)%Z.
Proof.
  intro H. unfold ceilCount.
  apply (Qceiling_resp_le 0). apply Qmult_le_0_compat.
  - unfold Qle. simpl. lia.
  - apply percent_nonneg. exact H.
Qed.

Lemma cutChannels_topOf (brief : BriefData) (r : string) (data : list ChannelData) :
  0 <= cutoffValueOf brief r -> countIsExact brief r data ->
  cutChannels brief r data = topOf brief r data.
Proof.
  intros H Hexact. unfold countIsExact, rankedOf in Hexact.
  rewrite sortBy_length in Hexact.
  unfold cutChannels, topOf, rankedOf, slice0.
  rewrite !sortBy_length, Hexact.
  pose proof (ceilCount_nonneg (List.length (List.filter (hasIndex r) data))
                (cutoffValueOf brief r) H) as Hk.
  destruct (_ <? 0)%Z eqn:E; [apply Z.ltb_lt in E; lia|reflexivity].
Qed.

Lemma In_firstn_In {A} (k : nat) (l : list A) (x : A) :
  In x (firstn k l) -> In x l.
Proof.
  intro H. rewrite <- (firstn_skipn k l). apply in_or_app. left. exact H.
Qed.

Lemma excludedNames_topOf (brief : BriefData) (r : string) (data : list ChannelData)
    (d : ChannelData) :
  0 <= cutoffValueOf brief r -> countIsExact brief r data ->
  List.NoDup (map channel (List.filter (hasIndex r) data)) ->
  In d (List.filter (hasIndex r) data) ->
  channel d ∈ excludedNames brief r data <-> In d (topOf brief r data).
Proof.
  intros Hcut Hexact Hnd Hd. unfold excludedNames.
  rewrite elem_of_list_to_set, list_elem_of_In,
    (cutChannels_topOf brief r data Hcut Hexact).
  split.
  - intro H. apply in_map_iff in H as (t & Hname & Ht).
    assert (Htf : In t (List.filter (hasIndex r) data)).
    { unfold topOf, rankedOf in Ht. apply In_firstn_In in Ht.
      apply sortBy_In in Ht. exact Ht. }
    rewrite <- (NoDup_map_injective channel _ t d Hnd Htf Hd Hname). exact Ht.
  - intro H. apply in_map. exact H.
Qed.

(** C4, as amended.  For a cutoff-based variant and a region of the brief
    whose cutoff is not negative, whose channels with a cost index have
    distinct names and for which the count that the code computes in
    doubles, [Math.ceil(N * (cutoff / 100))], is [ceil (N * cutoff / 100)],
    in a snapshot whose records are all unselected: the channels cut are
    the first [ceil (N * cutoff / 100)] of the [N] channels with a cost
    index ranked by descending index (so none of the others is more
    expensive than one of them), and a record of the region starts
    selected exactly when it has a cost index and is not one of those;
    the selection writes nothing but [selected] and [comment]. *)
Theorem C4_cutoff_excludes_top_of_ranking (data : list ChannelData) (brief : BriefData)
    (weightingLogic : string) (r : string) :
  weightingLogic <> "Natural" -> In r (regionsOf brief) ->
  List.NoDup (map channel (List.filter (hasIndex r) data)) ->
  0 <= cutoffValueOf brief r ->
  countIsExact brief r data ->
  List.Forall (fun d => selected d = false) data ->
  let ranked := rankedOf r data in
  let top := topOf brief r data in
  List.length top
  = Nat.min (Z.to_nat (ceilCount (List.length ranked) (cutoffValueOf brief r)))
            (List.length ranked) /\
  (forall a b, In a top -> In b ranked -> ~ In b top -> notCheaper a b) /\
  Forall2 (cutoffOutcome r top) data (selectSingle data brief weightingLogic).
Proof.
  intros Hlogic Hr Hnd Hcut Hexact Hunsel ranked top. split; [|split].
  - unfold top, topOf. apply length_firstn.
  - intros a b Ha Hb Hnb. unfold top, topOf in Ha, Hnb.
    eapply sorted_head_dominates; [apply (rankedOf_sorted r data)|exact Ha|].
    fold ranked in Hnb |- *.
    rewrite <- (firstn_skipn
                  (Z.to_nat (ceilCount (List.length ranked) (cutoffValueOf brief r)))
                  ranked) in Hb.
    apply in_app_or in Hb as [Hb|Hb]; [contradiction|exact Hb].
  - unfold selectSingle.
    apply String.eqb_neq in Hlogic. rewrite Hlogic. simpl negb. cbv iota.
    rewrite cutoffLoop_map. apply Forall2_map_in. intros d Hd.
    split; [apply cutoffFold_selectionOnly|]. intro Hreg.
    rewrite cutoffFold_selected, Hreg.
    rewrite (existsb_eqb_In r _ Hr). simpl andb.
    destruct (List.length (List.filter (hasIndex r) data) =? 0)%nat eqn:Hn; simpl negb;
      cbv iota.
    + rewrite List.Forall_forall in Hunsel. rewrite (Hunsel d Hd).
      split; [discriminate|]. intros [Hidx _]. exfalso.
      apply Nat.eqb_eq in Hn.
      assert (In d (List.filter (hasIndex r) data)) as Hin.
      { apply filter_In. split; [exact Hd|]. unfold hasIndex.
        rewrite (proj2 (inRegion_eq r d) Hreg).
        destruct (indexTcpp d); [reflexivity|congruence]. }
      destruct (List.filter (hasIndex r) data); [destruct Hin|discriminate].
    + destruct (indexTcpp d) as [i|] eqn:Hi; simpl.
      * assert (In d (List.filter (hasIndex r) data)) as Hin.
        { apply filter_In. split; [exact Hd|]. unfold hasIndex.
          rewrite (proj2 (inRegion_eq r d) Hreg), Hi. reflexivity. }
        pose proof (excludedNames_topOf brief r data d Hcut Hexact Hnd Hin) as Hiff.
        rewrite negb_true_iff, bool_decide_eq_false, Hiff.
        split; [intro H; split; [discriminate|exact H]|intros [_ H]; exact H].
      * split; [discriminate|]. intros [H _]. congruence.
Qed.

Lemma C4_cutoff_witness :
  Forall2 (cutoffOutcome "Москва"
             (topOf orbitalBrief "Москва" (baseSnapshot mixedRows orbitalBrief)))
          (baseSnapshot mixedRows orbitalBrief)
          (selectSingle (baseSnapshot mixedRows orbitalBrief) orbitalBrief "Affinity").
Proof.
  apply (C4_cutoff_excludes_top_of_ranking (baseSnapshot mixedRows orbitalBrief)
           orbitalBrief "Affinity" "Москва").
  - discriminate.
  - left. reflexivity.
  - vm_compute. repeat (constructor; [simpl; intuition discriminate|]). constructor.
  - vm_compute. discriminate.
  - vm_compute. reflexivity.
  - vm_compute. repeat constructor.
Defined.

Lemma Forall2_at {A B} (R : A -> B -> Prop) (l : list A) (l' : list B) (n : nat)
    (a : A) (b : B) :
  Forall2 R l l' -> nth_error l n = Some a -> nth_error l' n = Some b -> R a b.
Proof.
  intro H. revert n. induction H as [|x y l l' Hxy _ IH]; intros [|n] Ha Hb;
    simpl in Ha, Hb; try discriminate.
  - injection Ha as <-. injection Hb as <-. exact Hxy.
  - apply (IH n); assumption.
Qed.

(** C4, as stated, fails three times.  The channels cut are excluded by
    name: with two records named "A", cutting the most expensive one also
    excludes the other, which is not in the top of the ranking.  A
    negative cutoff gives [slice] a negative end, which counts from the
    end of the ranking: with three channels and a cutoff of -50%, two are
    cut instead of none.  And the count is taken from a product of
    doubles: with 25 channels and a cutoff of 28%, [25 * (28 / 100)] is a
    double above 7, so that eight channels are cut where
    [ceil (25 * 28 / 100)] is 7. *)
Lemma C4_duplicate_names_and_negative_cutoff :
  ~ (forall data brief weightingLogic r,
       weightingLogic <> "Natural" -> In r (regionsOf brief) ->
       0 <= cutoffValueOf brief r ->
       List.Forall (fun d => selected d = false) data ->
       Forall2 (cutoffOutcome r (topOf brief r data)) data
               (selectSingle data brief weightingLogic)) /\
  ~ (forall data brief weightingLogic r,
       weightingLogic <> "Natural" -> In r (regionsOf brief) ->
       List.NoDup (map channel (List.filter (hasIndex r) data)) ->
       List.Forall (fun d => selected d = false) data ->
       Forall2 (cutoffOutcome r (topOf brief r data)) data
               (selectSingle data brief weightingLogic)) /\
  ~ (forall data brief weightingLogic r,
       weightingLogic <> "Natural" -> In r (regionsOf brief) ->
       List.NoDup (map channel (List.filter (hasIndex r) data)) ->
       0 <= cutoffValueOf brief r ->
       List.Forall (fun d => selected d = false) data ->
       Forall2 (cutoffOutcome r (topOf brief r data)) data
               (selectSingle data brief weightingLogic)).
Proof.
  split; [|split]; intro H.
  - specialize (H (baseSnapshot duplicateNameRows orbitalBrief) orbitalBrief
                  "Affinity" "Москва").
    assert (Hall : Forall2 (cutoffOutcome "Москва"
                              (topOf orbitalBrief "Москва"
                                 (baseSnapshot duplicateNameRows orbitalBrief)))
                     (baseSnapshot duplicateNameRows orbitalBrief)
                     (selectSingle (baseSnapshot duplicateNameRows orbitalBrief)
                        orbitalBrief "Affinity")).
    { apply H.
      - discriminate.
      - left. reflexivity.
      - vm_compute. discriminate.
      - vm_compute. repeat constructor. }
    vm_compute in Hall.
    eapply (Forall2_at _ _ _ 2%nat) in Hall; [|reflexivity|reflexivity].
    destruct Hall as [_ Hiff]. destruct (Hiff eq_refl) as [_ Hback].
    discriminate Hback. split; [discriminate|].
    intros [Heq|[]]. discriminate Heq.
  - specialize (H (baseSnapshot mixedRows negativeCutoffBrief) negativeCutoffBrief
                  "Affinity" "Москва").
    assert (Hall : Forall2 (cutoffOutcome "Москва"
                              (topOf negativeCutoffBrief "Москва"
                                 (baseSnapshot mixedRows negativeCutoffBrief)))
                     (baseSnapshot mixedRows negativeCutoffBrief)
                     (selectSingle (baseSnapshot mixedRows negativeCutoffBrief)
                        negativeCutoffBrief "Affinity")).
    { apply H.
      - discriminate.
      - left. reflexivity.
      - vm_compute. repeat (constructor; [simpl; intuition discriminate|]). constructor.
      - vm_compute. repeat constructor. }
    vm_compute in Hall.
    eapply (Forall2_at _ _ _ 2%nat) in Hall; [|reflexivity|reflexivity].
    destruct Hall as [_ Hiff]. destruct (Hiff eq_refl) as [_ Hback].
    discriminate Hback. split; [discriminate|]. intros [].
  - specialize (H (baseSnapshot letterRows cutoff28Brief) cutoff28Brief
                  "Affinity" "Москва").
    assert (Hall : Forall2 (cutoffOutcome "Москва"
                              (topOf cutoff28Brief "Москва"
                                 (baseSnapshot letterRows cutoff28Brief)))
                     (baseSnapshot letterRows cutoff28Brief)
                     (selectSingle (baseSnapshot letterRows cutoff28Brief)
                        cutoff28Brief "Affinity")).
    { apply H.
      - discriminate.
      - left. reflexivity.
      - vm_compute.
        repeat (constructor;
                  [intro Hin; repeat (destruct Hin as [Heq|Hin]; [discriminate Heq|]);
                   destruct Hin|]).
        constructor.
      - vm_compute. discriminate.
      - vm_compute. repeat constructor. }
    eapply (Forall2_at _ _ _ 17%nat) in Hall;
      [|vm_compute; reflexivity|vm_compute; reflexivity].
    vm_compute in Hall.
    destruct Hall as [_ Hiff]. destruct (Hiff eq_refl) as [_ Hback].
    discriminate Hback. split; [discriminate|].
    intro Hin. repeat (destruct Hin as [Heq|Hin]; [discriminate Heq|]). destruct Hin.
Qed.

(** With the default cutoff of 20% the two counts agree for every region
    of up to 1000 channels. *)
Lemma default_cutoff_count_is_exact (n : nat) :
  (n <= 1000)%nat -> channelsToCutOf n 20 = ceilCount n 20.
Proof.
  intro H.
  assert (Hall : forallb (fun k => (channelsToCutOf k 20 =? ceilCount k 20)%Z)
                         (seq 0 1001) = true) by (vm_compute; reflexivity).
  rewrite forallb_forall in Hall. apply Z.eqb_eq. apply Hall.
  apply in_seq. lia.
Qed.

(** ** The store *)

Lemma omap_lookup_fresh (objs vals : list ChannelData) :
  omap (fun l => ((objs ++ vals)%list) !! l) (seq (List.length objs) (List.length vals))
  = vals.
Proof.
  revert objs. induction vals as [|v vals IH]; intro objs; simpl; [reflexivity|].
  rewrite list_lookup_middle by reflexivity.
  f_equal.
  replace (objs ++ v :: vals)%list with ((objs ++ [v]) ++ vals)%list
    by (rewrite <- app_assoc; reflexivity).
  replace (S (List.length objs)) with (List.length (objs ++ [v])%list)
    by (rewrite length_app; simpl; lia).
  apply IH.
Qed.

Lemma elementsOf_last (objs : list ChannelData) (arrs : list (list nat))
    (locs : list nat) :
  elementsOf (mkStore objs (arrs ++ [locs])) (List.length arrs) = locs.
Proof.
  unfold elementsOf. simpl. rewrite list_lookup_middle by reflexivity. reflexivity.
Qed.

Lemma deref_fresh (objs : list ChannelData) (arrs : list (list nat))
    (vals : list ChannelData) :
  deref (freshArray objs arrs vals) (List.length arrs) = vals.
Proof.
  unfold deref, freshArray. rewrite elementsOf_last. simpl. apply omap_lookup_fresh.
Qed.

Lemma overwrite_fresh (objs old new : list ChannelData) :
  List.length new = List.length old ->
  fold_left (fun os ld => <[fst ld := snd ld]> os)
            (zip (seq (List.length objs) (List.length old)) new) (objs ++ old)%list
  = (objs ++ new)%list.
Proof.
  revert objs new. induction old as [|o old IH]; intros objs [|v new] Hlen;
    simpl in Hlen; try discriminate; simpl.
  - reflexivity.
  - replace (<[List.length objs := v]> (objs ++ o :: old)%list)
      with ((objs ++ [v]) ++ old)%list.
    + replace (S (List.length objs)) with (List.length (objs ++ [v])%list)
        by (rewrite length_app; simpl; lia).
      rewrite IH by lia. rewrite <- app_assoc. reflexivity.
    + rewrite <- app_assoc. simpl. symmetry.
      rewrite insert_app_r_alt by lia. rewrite Nat.sub_diag. reflexivity.
Qed.

Lemma forEach_fresh (f : ChannelData -> ChannelData) (objs vals : list ChannelData) :
  fold_left (fun os l => match os !! l with
                         | Some d => <[l := f d]> os
                         | None => os
                         end)
            (seq (List.length objs) (List.length vals)) (objs ++ vals)%list
  = (objs ++ map f vals)%list.
Proof.
  revert objs. induction vals as [|v vals IH]; intro objs; simpl; [reflexivity|].
  rewrite list_lookup_middle by reflexivity.
  replace (<[List.length objs := f v]> (objs ++ v :: vals)%list)
    with ((objs ++ [f v]) ++ vals)%list.
  - replace (S (List.length objs)) with (List.length (objs ++ [f v])%list)
      by (rewrite length_app; simpl; lia).
    rewrite IH. rewrite <- app_assoc. reflexivity.
  - rewrite <- app_assoc. simpl. symmetry.
    rewrite insert_app_r_alt by lia. rewrite Nat.sub_diag. reflexivity.
Qed.

Lemma forEachMut_fresh (f : ChannelData -> ChannelData) (objs : list ChannelData)
    (arrs : list (list nat)) (vals : list ChannelData) :
  forEachMut (List.length arrs) f (freshArray objs arrs vals)
  = freshArray objs arrs (map f vals).
Proof.
  unfold forEachMut, freshArray. rewrite elementsOf_last. simpl.
  rewrite forEach_fresh, length_map. reflexivity.
Qed.

Lemma mutateAll_fresh (F : list ChannelData -> list ChannelData)
    (objs : list ChannelData) (arrs : list (list nat)) (vals : list ChannelData) :
  List.length (F vals) = List.length vals ->
  mutateAll (List.length arrs) F (freshArray objs arrs vals)
  = freshArray objs arrs (F vals).
Proof.
  intro Hlen. unfold mutateAll. rewrite deref_fresh.
  unfold freshArray at 1 2 3. rewrite elementsOf_last. simpl.
  rewrite overwrite_fresh by exact Hlen. unfold freshArray. rewrite Hlen. reflexivity.
Qed.

Lemma insertBy_paired {A B} (P : A -> B -> Prop) (cmpA : A -> A -> Q)
    (cmpB : B -> B -> Q) (x : A) (y : B) (l : list A) (l' : list B) :
  (forall a b a' b', P a b -> P a' b' -> cmpA a a' = cmpB b b') ->
  P x y -> Forall2 P l l' ->
  Forall2 P (insertBy cmpA x l) (insertBy cmpB y l').
Proof.
  intros Hcmp Hxy H. induction H as [|a b l l' Hab Hl IH]; simpl.
  - constructor; [exact Hxy|constructor].
  - rewrite (Hcmp x y a b Hxy Hab).
    destruct (Qle_bool (cmpB y b) 0).
    + constructor; [exact Hxy|]. constructor; assumption.
    + constructor; assumption.
Qed.

Lemma sortBy_paired {A B} (P : A -> B -> Prop) (cmpA : A -> A -> Q)
    (cmpB : B -> B -> Q) (l : list A) (l' : list B) :
  (forall a b a' b', P a b -> P a' b' -> cmpA a a' = cmpB b b') ->
  Forall2 P l l' -> Forall2 P (sortBy cmpA l) (sortBy cmpB l').
Proof.
  intros Hcmp H. induction H as [|a b l l' Hab Hl IH]; simpl; [constructor|].
  apply insertBy_paired; assumption.
Qed.

Lemma omap_paired (objs : list ChannelData) (locs : list nat)
    (vals : list ChannelData) :
  Forall2 (fun l d => objs !! l = Some d) locs vals ->
  omap (fun l => objs !! l) locs = vals.
Proof.
  induction 1 as [|l d locs vals Hl _ IH]; simpl; [reflexivity|].
  rewrite Hl. f_equal. exact IH.
Qed.

Lemma fresh_paired (objs vals : list ChannelData) :
  Forall2 (fun l d => ((objs ++ vals)%list) !! l = Some d)
          (seq (List.length objs) (List.length vals)) vals.
Proof.
  revert objs. induction vals as [|v vals IH]; intro objs; simpl; constructor.
  - apply list_lookup_middle. reflexivity.
  - replace (objs ++ v :: vals)%list with ((objs ++ [v]) ++ vals)%list
      by (rewrite <- app_assoc; reflexivity).
    replace (S (List.length objs)) with (List.length (objs ++ [v])%list)
      by (rewrite length_app; simpl; lia).
    apply IH.
Qed.

(** Sorting a fresh array in place: the records stay where they are and
    the array holds their addresses in sorted order. *)
Lemma sortInPlace_fresh (cmp : ChannelData -> ChannelData -> Q)
    (objs : list ChannelData) (arrs : list (list nat)) (vals : list ChannelData) :
  let st' := sortInPlace (List.length arrs) cmp (freshArray objs arrs vals) in
  objects st' = (objs ++ vals)%list /\
  (exists locs, arrays st' = (arrs ++ [locs])%list /\
                forall l, In l locs -> (l < List.length (objs ++ vals)%list)%nat) /\
  deref st' (List.length arrs) = sortBy cmp vals.
Proof.
  intro st'. unfold st', sortInPlace, freshArray. rewrite elementsOf_last.
  cbn [objects arrays].
  set (cmpAt := fun l1 l2 : nat =>
                  match ((objs ++ vals)%list) !! l1, ((objs ++ vals)%list) !! l2 with
                  | Some d1, Some d2 => cmp d1 d2
                  | _, _ => 0
                  end).
  assert (Harr : <[List.length arrs := sortBy cmpAt
                                         (seq (List.length objs) (List.length vals))]>
                   (arrs ++ [seq (List.length objs) (List.length vals)])%list
                 = (arrs ++ [sortBy cmpAt (seq (List.length objs) (List.length vals))])%list).
  { rewrite insert_app_r_alt by lia. rewrite Nat.sub_diag. reflexivity. }
  rewrite Harr.
  split; [reflexivity|]. split.
  - eexists. split; [reflexivity|]. intros l Hl.
    apply sortBy_In in Hl. apply in_seq in Hl. rewrite length_app. lia.
  - unfold deref. rewrite elementsOf_last. cbn [objects].
    apply omap_paired. apply sortBy_paired; [|apply fresh_paired].
    intros a b a' b' Ha Ha'. unfold cmpAt. rewrite Ha, Ha'. reflexivity.
Qed.

Lemma deref_extends (st st' : Store) (b : nat) :
  wfStore st -> extendsStore st st' -> (b < List.length (arrays st))%nat ->
  deref st' b = deref st b.
Proof.
  intros Hwf [[os Hos] [ars Hars]] Hb. unfold deref, elementsOf.
  rewrite Hars, lookup_app_l by exact Hb.
  destruct (arrays st !! b) as [locs|] eqn:Hlocs; simpl; [|reflexivity].
  assert (Hvalid : List.Forall (fun l => (l < List.length (objects st))%nat) locs).
  { unfold wfStore in Hwf. rewrite List.Forall_forall in Hwf. apply Hwf.
    apply list_elem_of_In. eapply list_elem_of_lookup_2. exact Hlocs. }
  assert (Hsame : forall l, (l < List.length (objects st))%nat ->
                            objects st' !! l = objects st !! l)
    by (intros l Hl; rewrite Hos; apply lookup_app_l; exact Hl).
  clear Hlocs.
  induction Hvalid as [|l locs Hl _ IH]; simpl; [reflexivity|].
  rewrite (Hsame l Hl). destruct (objects st !! l); [f_equal|]; exact IH.
Qed.

Lemma extendsStore_refl (st : Store) : extendsStore st st.
Proof. split; exists []; symmetry; apply app_nil_r. Qed.

Lemma extendsStore_trans (st1 st2 st3 : Store) :
  extendsStore st1 st2 -> extendsStore st2 st3 -> extendsStore st1 st3.
Proof.
  intros [[o1 H1] [a1 G1]] [[o2 H2] [a2 G2]]. split.
  - exists (o1 ++ o2)%list. rewrite H2, H1, app_assoc. reflexivity.
  - exists (a1 ++ a2)%list. rewrite G2, G1, app_assoc. reflexivity.
Qed.

(** The optimizer and the selections keep the number of records. *)
Lemma regionPass_length div weightingLogic weights r data :
  List.length (regionPass div weightingLogic weights r data) = List.length data.
Proof.
  unfold regionPass. destruct (_ =? _)%nat; [reflexivity|].
  destruct (Qltb 0 _); rewrite ?length_map; reflexivity.
Qed.

Lemma regionsPass_length div brief weightingLogic weights data :
  List.length (regionsPass div brief weightingLogic weights data) = List.length data.
Proof.
  unfold regionsPass. generalize (regionsOf brief). intro rs. revert data.
  induction rs as [|r rs IH]; intro data; simpl; [reflexivity|].
  rewrite IH. apply regionPass_length.
Qed.

Lemma passData_length brief weightingLogic applyLimits weights data :
  List.length (passData brief weightingLogic applyLimits weights data)
  = List.length data.
Proof.
  unfold passData, passOnce. destruct applyLimits; simpl;
    rewrite ?length_map; apply regionsPass_length.
Qed.

Lemma optimizeLoop_length brief weightingLogic applyLimits weights data :
  List.length (fst (optimizeLoop brief weightingLogic applyLimits weights 0 data))
  = List.length data.
Proof.
  destruct (optimizeLoop_run brief weightingLogic applyLimits weights 20 0 data eq_refl)
    as (p & _ & _ & Hres & _).
  rewrite Hres. clear Hres. induction p as [|p IH]; simpl; [reflexivity|].
  rewrite passData_length. exact IH.
Qed.

Lemma capRegion_length brief r data :
  List.length (capRegion brief r data) = List.length data.
Proof.
  unfold capRegion.
  destruct (briefOf brief r) as [rb|]; [|reflexivity].
  destruct (maxOrbitalShare rb) as [cap|]; [|reflexivity].
  destruct (Qltb _ _); [|reflexivity]. cbv zeta.
  destruct (Qltb _ _); rewrite ?length_map; reflexivity.
Qed.

Lemma capPass_length brief applyLimits data :
  List.length (capPass brief applyLimits data) = List.length data.
Proof.
  unfold capPass. destruct applyLimits; [|reflexivity].
  generalize (regionsOf brief). intro rs. revert data.
  induction rs as [|r rs IH]; intro data; simpl; [reflexivity|].
  rewrite IH. apply capRegion_length.
Qed.

Lemma optimizeRecords_length data brief weightingLogic applyLimits weights :
  List.length (optimizeRecords data brief weightingLogic applyLimits weights)
  = List.length data.
Proof.
  unfold optimizeRecords. rewrite length_map, capPass_length.
  apply optimizeLoop_length.
Qed.

Lemma selectSingle_length data brief weightingLogic :
  List.length (selectSingle data brief weightingLogic) = List.length data.
Proof.
  unfold selectSingle. destruct (negb _).
  - rewrite cutoffLoop_map. apply length_map.
  - apply length_map.
Qed.

(** A fresh array sorted in place, on top of a well-formed store. *)
Lemma sorted_copy_facts (st : Store) (recs : list ChannelData)
    (cmp : ChannelData -> ChannelData -> Q) :
  wfStore st ->
  let st' := sortInPlace (List.length (arrays st)) cmp
               (freshArray (objects st) (arrays st) recs) in
  extendsStore st st' /\ wfStore st' /\
  deref st' (List.length (arrays st)) = sortBy cmp recs /\
  List.length (arrays st') = S (List.length (arrays st)).
Proof.
  intros Hwf st'.
  destruct (sortInPlace_fresh cmp (objects st) (arrays st) recs)
    as (Hobj & (locs & Harr & Hvalid) & Hderef).
  fold st' in Hobj, Harr, Hderef.
  split; [split; eexists; eassumption|].
  split; [|split; [exact Hderef|rewrite Harr, length_app; simpl; lia]].
  unfold wfStore. rewrite Harr, Hobj. apply Forall_app. split.
  - unfold wfStore in Hwf. rewrite List.Forall_forall in Hwf |- *.
    intros arr Harrin. specialize (Hwf arr Harrin).
    rewrite List.Forall_forall in Hwf |- *. intros l Hl.
    specialize (Hwf l Hl). rewrite length_app. lia.
  - constructor; [|constructor]. rewrite List.Forall_forall. exact Hvalid.
Qed.

Lemma generateConstructorSplit_st_eq (allChannels : nat) (brief : BriefData)
    (selectedChannelNames : list string) (weightingLogic : string)
    (weights : option Weights) (st : Store) :
  generateConstructorSplit_st allChannels brief selectedChannelNames weightingLogic
    weights st
  = (sortInPlace (List.length (arrays st)) cmpFinal
       (freshArray (objects st) (arrays st)
          (optimizeRecords (selectConstructor (deref st allChannels) selectedChannelNames)
             brief weightingLogic true weights)),
     List.length (arrays st)).
Proof.
  unfold generateConstructorSplit_st, jsonCopy, allocArray.
  change (mkStore (objects st ++ deref st allChannels)
            (arrays st ++ [seq (List.length (objects st))
                               (List.length (deref st allChannels))]))
    with (freshArray (objects st) (arrays st) (deref st allChannels)).
  rewrite forEachMut_fresh. unfold optimizeSplit_st.
  rewrite mutateAll_fresh by apply optimizeRecords_length. reflexivity.
Qed.

Lemma generateManualSharesSplit_st_eq (allChannels : nat) (brief : BriefData)
    (shares : gmap string Q) (st : Store) :
  generateManualSharesSplit_st allChannels brief shares st
  = (sortInPlace (List.length (arrays st)) cmpFinal
       (freshArray (objects st) (arrays st)
          (manualRecords (deref st allChannels) brief shares)),
     List.length (arrays st)).
Proof.
  unfold generateManualSharesSplit_st, jsonCopy, allocArray.
  change (mkStore (objects st ++ deref st allChannels)
            (arrays st ++ [seq (List.length (objects st))
                               (List.length (deref st allChannels))]))
    with (freshArray (objects st) (arrays st) (deref st allChannels)).
  rewrite forEachMut_fresh. reflexivity.
Qed.

Lemma generateSingleSplit_on_copy (initialData : nat) (brief : BriefData)
    (weightingLogic : string) (applyLimits : bool) (st : Store) :
  generateSingleSplit_st (snd (jsonCopy initialData st)) brief weightingLogic
    applyLimits (fst (jsonCopy initialData st))
  = (sortInPlace (List.length (arrays st)) cmpFinal
       (freshArray (objects st) (arrays st)
          (optimizeRecords (selectSingle (deref st initialData) brief weightingLogic)
             brief weightingLogic applyLimits None)),
     List.length (arrays st)).
Proof.
  unfold jsonCopy, allocArray. cbn [fst snd].
  change (mkStore (objects st ++ deref st initialData)
            (arrays st ++ [seq (List.length (objects st))
                               (List.length (deref st initialData))]))
    with (freshArray (objects st) (arrays st) (deref st initialData)).
  unfold generateSingleSplit_st.
  rewrite mutateAll_fresh by apply selectSingle_length.
  unfold optimizeSplit_st.
  rewrite mutateAll_fresh by apply optimizeRecords_length. reflexivity.
Qed.

Lemma freshArray_facts (st : Store) (vals : list ChannelData) :
  wfStore st ->
  let st' := freshArray (objects st) (arrays st) vals in
  extendsStore st st' /\ wfStore st' /\
  deref st' (List.length (arrays st)) = vals /\
  List.length (arrays st') = S (List.length (arrays st)).
Proof.
  intros Hwf st'. split; [split; eexists; reflexivity|].
  split; [|split; [apply deref_fresh|]].
  - unfold wfStore, st', freshArray. cbn [objects arrays]. apply Forall_app. split.
    + unfold wfStore in Hwf. rewrite List.Forall_forall in Hwf |- *.
      intros arr Harrin. specialize (Hwf arr Harrin).
      rewrite List.Forall_forall in Hwf |- *. intros l Hl.
      specialize (Hwf l Hl). rewrite length_app. lia.
    + constructor; [|constructor]. rewrite List.Forall_forall. intros l Hl.
      apply in_seq in Hl. rewrite length_app. lia.
  - unfold st', freshArray. cbn [arrays]. rewrite length_app. simpl. lia.
Qed.

(** Every variant of the batch is computed on its own copy: its array
    holds the value of [generateSingleSplit] on the snapshot, also after
    the later variants have been computed. *)
Lemma computeSplits_facts (configs : list SplitConfig) (initialData : nat)
    (brief : BriefData) (st : Store) :
  wfStore st -> (initialData < List.length (arrays st))%nat ->
  let out := computeSplits_st configs initialData brief st in
  extendsStore st (fst out) /\ wfStore (fst out) /\
  Forall2 (fun config ref =>
             fst ref = cfgName config /\
             deref (fst out) (snd ref)
             = generateSingleSplit (deref st initialData) brief (cfgLogic config)
                 (cfgApplyLimits config))
          configs (snd out).
Proof.
  revert st. induction configs as [|config rest IH]; intros st Hwf Hinit;
    cbn [computeSplits_st]; cbv zeta.
  - split; [apply extendsStore_refl|]. split; [exact Hwf|constructor].
  - pose proof (generateSingleSplit_on_copy initialData brief (cfgLogic config)
                  (cfgApplyLimits config) st) as Heq.
    destruct (jsonCopy initialData st) as [st1 copy]. cbn [fst snd] in Heq.
    rewrite Heq. clear Heq.
    set (recs := optimizeRecords (selectSingle (deref st initialData) brief
                                    (cfgLogic config))
                   brief (cfgLogic config) (cfgApplyLimits config) None).
    destruct (sorted_copy_facts st recs cmpFinal Hwf) as (Hext & Hwf2 & Hderef & Hlen).
    set (st2 := sortInPlace (List.length (arrays st)) cmpFinal
                  (freshArray (objects st) (arrays st) recs)) in *.
    assert (Hinit2 : (initialData < List.length (arrays st2))%nat) by lia.
    specialize (IH st2 Hwf2 Hinit2).
    destruct (computeSplits_st rest initialData brief st2) as [st3 others].
    cbn [fst snd] in IH |- *. destruct IH as (Hext3 & Hwf3 & Hall).
    split; [eapply extendsStore_trans; eassumption|]. split; [exact Hwf3|].
    constructor.
    + split; [reflexivity|]. cbn [snd].
      rewrite (deref_extends st2 st3 _ Hwf2 Hext3) by lia. exact Hderef.
    + rewrite (deref_extends st st2 initialData Hwf Hext Hinit) in Hall. exact Hall.
Qed.

(** C8.  Computing a split variant leaves the base snapshot unchanged.
    In a store without dangling references, every array that existed
    before a call of [generateConstructorSplit] or
    [generateManualSharesSplit] (the argument, the base snapshot, the
    splits computed earlier) holds the same records after it, and the
    array returned holds the value of the generator on the records of its
    argument, that is, on a copy of them.  [generateSingleSplit] is called
    by the batch only, on a JSON copy of [initialData] for each of the
    four variants: after the batch every array that existed before is
    unchanged, [initialData] holds the base snapshot, and every variant
    holds [generateSingleSplit] of that snapshot. *)
Theorem C8_generators_work_on_copies (st : Store) :
  wfStore st ->
  (forall allChannels brief selectedChannelNames weightingLogic weights,
     let out := generateConstructorSplit_st allChannels brief selectedChannelNames
                  weightingLogic weights st in
     (forall b, (b < List.length (arrays st))%nat -> deref (fst out) b = deref st b) /\
     deref (fst out) (snd out)
     = generateConstructorSplit (deref st allChannels) brief selectedChannelNames
         weightingLogic weights) /\
  (forall allChannels brief shares,
     let out := generateManualSharesSplit_st allChannels brief shares st in
     (forall b, (b < List.length (arrays st))%nat -> deref (fst out) b = deref st b) /\
     deref (fst out) (snd out)
     = generateManualSharesSplit (deref st allChannels) brief shares) /\
  (forall rows brief st' refs,
     processFilesAndCalculate_st rows brief st = Some (st', refs) ->
     (forall b, (b < List.length (arrays st))%nat -> deref st' b = deref st b) /\
     deref st' (initialDataRef refs) = baseSnapshot rows brief /\
     Forall2 (fun config ref =>
                fst ref = cfgName config /\
                deref st' (snd ref)
                = generateSingleSplit (baseSnapshot rows brief) brief
                    (cfgLogic config) (cfgApplyLimits config))
             splitConfigs (splitRefs refs)).
Proof.
  intro Hwf. split; [|split].
  - intros allChannels brief names logic weights out. unfold out.
    rewrite generateConstructorSplit_st_eq. cbn [fst snd].
    destruct (sorted_copy_facts st
                (optimizeRecords (selectConstructor (deref st allChannels) names)
                   brief logic true weights) cmpFinal Hwf)
      as (Hext & _ & Hderef & _).
    split; [|exact Hderef].
    intros b Hb. apply deref_extends; assumption.
  - intros allChannels brief shares out. unfold out.
    rewrite generateManualSharesSplit_st_eq. cbn [fst snd].
    destruct (sorted_copy_facts st (manualRecords (deref st allChannels) brief shares)
                cmpFinal Hwf) as (Hext & _ & Hderef & _).
    split; [|exact Hderef].
    intros b Hb. apply deref_extends; assumption.
  - intros rows brief st' refs. unfold processFilesAndCalculate_st.
    destruct (_ =? _)%nat; [discriminate|].
    unfold allocArray.
    change (mkStore (objects st ++ baseSnapshot rows brief)
              (arrays st ++ [seq (List.length (objects st))
                                 (List.length (baseSnapshot rows brief))]))
      with (freshArray (objects st) (arrays st) (baseSnapshot rows brief)).
    destruct (freshArray_facts st (baseSnapshot rows brief) Hwf)
      as (Hext1 & Hwf1 & Hderef1 & Hlen1).
    set (st1 := freshArray (objects st) (arrays st) (baseSnapshot rows brief)) in *.
    assert (Hinit : (List.length (arrays st) < List.length (arrays st1))%nat) by lia.
    pose proof (computeSplits_facts splitConfigs (List.length (arrays st)) brief st1
                  Hwf1 Hinit) as Hfacts.
    destruct (computeSplits_st splitConfigs (List.length (arrays st)) brief st1)
      as [st2 others].
    cbn [fst snd] in Hfacts. destruct Hfacts as (Hext2 & Hwf2 & Hall).
    intros [= <- <-]. cbn [initialDataRef splitRefs].
    split; [|split].
    + intros b Hb. apply deref_extends; [exact Hwf| |exact Hb].
      eapply extendsStore_trans; eassumption.
    + rewrite (deref_extends st1 st2 _ Hwf1 Hext2 Hinit). exact Hderef1.
    + rewrite Hderef1 in Hall. exact Hall.
Qed.

Lemma C8_generators_witness :
  let out := generateConstructorSplit_st 0 orbitalBrief ["B - 0"] "Affinity" None
               sampleStore in
  deref (fst out) 0 = deref sampleStore 0 /\
  deref (fst out) (snd out)
  = generateConstructorSplit (deref sampleStore 0) orbitalBrief ["B - 0"] "Affinity" None.
Proof.
  assert (Hwf : wfStore sampleStore).
  { unfold wfStore. vm_compute. repeat constructor. }
  destruct (C8_generators_work_on_copies sampleStore Hwf) as (Hconstructor & _ & _).
  destruct (Hconstructor 0%nat orbitalBrief ["B - 0"] "Affinity" None) as [Hframe Hres].
  split; [|exact Hres]. apply Hframe. vm_compute. constructor.
Defined.

(** The copy of the batch is needed: [generateSingleSplit], which is
    private to the module, makes none itself and assigns to the records
    of the array it is given. *)
Lemma generateSingleSplit_st_writes_its_argument :
  ~ (forall st data brief weightingLogic applyLimits,
       wfStore st ->
       deref (fst (generateSingleSplit_st data brief weightingLogic applyLimits st)) data
       = deref st data).
Proof.
  intro H.
  assert (Hwf : wfStore sampleStore).
  { unfold wfStore. vm_compute. repeat constructor. }
  specialize (H sampleStore 0%nat orbitalBrief "Affinity" true Hwf).
  vm_compute in H. discriminate H.
Qed.

(** * Further properties *)

(** ** What the optimizer leaves alone *)

Lemma carriedOver_refl (d : ChannelData) : carriedOver d d.
Proof. split; [reflexivity|tauto]. Qed.

Lemma carriedOver_trans (a b c : ChannelData) :
  carriedOver a b -> carriedOver b c -> carriedOver a c.
Proof. intros [H1 S1] [H2 S2]. split; [congruence|tauto]. Qed.

Lemma Forall2_refl_on {A} (R : A -> A -> Prop) (l : list A) :
  (forall x, R x x) -> Forall2 R l l.
Proof. intro H. induction l; constructor; auto. Qed.

Lemma Forall2_trans_on {A} (R : A -> A -> Prop) (l1 l2 l3 : list A) :
  (forall a b c, R a b -> R b c -> R a c) ->
  Forall2 R l1 l2 -> Forall2 R l2 l3 -> Forall2 R l1 l3.
Proof.
  intros Ht H12. revert l3. induction H12 as [|a b l1 l2 Hab _ IH]; intros l3 H23.
  - inversion H23. constructor.
  - inversion H23 as [|b' c l2' l3' Hbc Hrest]; subst. constructor.
    + eapply Ht; eassumption.
    + apply IH. exact Hrest.
Qed.

Lemma Forall2_fold_steps {A B} (R : A -> A -> Prop) (f : list A -> B -> list A)
    (bs : list B) (l : list A) :
  (forall x, R x x) -> (forall a b c, R a b -> R b c -> R a c) ->
  (forall l b, Forall2 R l (f l b)) ->
  Forall2 R l (fold_left f bs l).
Proof.
  intros Hr Ht Hf. revert l. induction bs as [|b bs IH]; intro l; simpl.
  - apply Forall2_refl_on, Hr.
  - eapply Forall2_trans_on; [exact Ht|apply Hf|apply IH].
Qed.

Lemma Forall2_iter_steps {A} (R : A -> A -> Prop) (f : list A -> list A)
    (n : nat) (l : list A) :
  (forall x, R x x) -> (forall a b c, R a b -> R b c -> R a c) ->
  (forall l, Forall2 R l (f l)) ->
  Forall2 R l (Nat.iter n f l).
Proof.
  intros Hr Ht Hf. induction n as [|n IH]; simpl.
  - apply Forall2_refl_on, Hr.
  - eapply Forall2_trans_on; [exact Ht|exact IH|apply Hf].
Qed.

Lemma keptSelection_refl (d : ChannelData) : keptSelection d d.
Proof. split; reflexivity. Qed.

Lemma keptSelection_trans (a b c : ChannelData) :
  keptSelection a b -> keptSelection b c -> keptSelection a c.
Proof. intros [H1 S1] [H2 S2]. split; congruence. Qed.

Lemma kept_carried (d d' : ChannelData) : keptSelection d d' -> carriedOver d d'.
Proof. intros [Hm Hs]. split; [exact Hm|congruence]. Qed.

Lemma Forall2_weaken {A B} (R R' : A -> B -> Prop) (l : list A) (l' : list B) :
  (forall a b, R a b -> R' a b) -> Forall2 R l l' -> Forall2 R' l l'.
Proof. intros H. induction 1; constructor; auto. Qed.

Lemma assignRating_kept div weightingLogic weights r sel d :
  keptSelection d (assignRating div weightingLogic weights r sel d).
Proof. unfold assignRating. destruct (inRegionSel r d); split; reflexivity. Qed.

Lemma normalizeShare_kept div r total d :
  keptSelection d (normalizeShare div r total d).
Proof.
  unfold normalizeShare. destruct (inRegionSel r d); [split; reflexivity|].
  destruct (inRegion r d); split; reflexivity.
Qed.

Lemma regionPass_kept div weightingLogic weights r data :
  Forall2 keptSelection data (regionPass div weightingLogic weights r data).
Proof.
  unfold regionPass.
  destruct (List.length _ =? 0)%nat; [apply Forall2_refl_on, keptSelection_refl|].
  cbv zeta. destruct (Qltb 0 _).
  - rewrite map_map. apply Forall2_map_pointwise. intro d.
    eapply keptSelection_trans; [apply assignRating_kept|apply normalizeShare_kept].
  - apply Forall2_map_pointwise. intro d. apply assignRating_kept.
Qed.

Lemma regionsPass_kept div brief weightingLogic weights data :
  Forall2 keptSelection data (regionsPass div brief weightingLogic weights data).
Proof.
  unfold regionsPass. apply Forall2_fold_steps.
  - apply keptSelection_refl.
  - apply keptSelection_trans.
  - intros l r. apply regionPass_kept.
Qed.

Lemma applyFloor_carried brief d : carriedOver d (applyFloor brief d).
Proof.
  unfold applyFloor. destruct (briefOf brief (region d)); [|apply carriedOver_refl].
  destruct (belowFloor brief d) eqn:E; [|apply carriedOver_refl].
  split; simpl; [reflexivity|discriminate].
Qed.

Lemma passData_carried brief weightingLogic applyLimits weights data :
  Forall2 carriedOver data (passData brief weightingLogic applyLimits weights data).
Proof.
  assert (H : Forall2 carriedOver data
                (regionsPass Qdiv brief weightingLogic weights data))
    by (apply (Forall2_weaken _ _ _ _ kept_carried), regionsPass_kept).
  unfold passData, passOnce. destruct applyLimits; simpl; [|exact H].
  eapply Forall2_trans_on; [apply carriedOver_trans|exact H|].
  apply Forall2_map_pointwise. intro d. apply applyFloor_carried.
Qed.

Lemma scaleOrbital_kept r c f d : keptSelection d (scaleOrbital r c f d).
Proof. unfold scaleOrbital. destruct (orbitalSel r d); split; reflexivity. Qed.

Lemma topUpNetwork_kept r n s d : keptSelection d (topUpNetwork r n s d).
Proof. unfold topUpNetwork. destruct (networkSel r d); split; reflexivity. Qed.

Lemma capRegion_kept brief r data :
  Forall2 keptSelection data (capRegion brief r data).
Proof.
  unfold capRegion.
  destruct (briefOf brief r) as [rb|]; [|apply Forall2_refl_on, keptSelection_refl].
  destruct (maxOrbitalShare rb) as [cap|]; [|apply Forall2_refl_on, keptSelection_refl].
  destruct (Qltb _ _); [|apply Forall2_refl_on, keptSelection_refl]. cbv zeta.
  destruct (Qltb _ _).
  - rewrite map_map. apply Forall2_map_pointwise. intro d.
    eapply keptSelection_trans; [apply scaleOrbital_kept|apply topUpNetwork_kept].
  - apply Forall2_map_pointwise. intro d. apply scaleOrbital_kept.
Qed.

Lemma capPass_kept brief applyLimits data :
  Forall2 keptSelection data (capPass brief applyLimits data).
Proof.
  unfold capPass. destruct applyLimits.
  - apply Forall2_fold_steps;
      [apply keptSelection_refl|apply keptSelection_trans|
       intros l r; apply capRegion_kept].
  - apply Forall2_refl_on, keptSelection_refl.
Qed.

Lemma finalize_kept d : keptSelection d (finalize d).
Proof. unfold finalize. destruct (selected d) eqn:E; split; simpl; auto. Qed.

Lemma optimizeRecords_carried data brief weightingLogic applyLimits weights :
  Forall2 carriedOver data
    (optimizeRecords data brief weightingLogic applyLimits weights).
Proof.
  unfold optimizeRecords.
  destruct (optimizeLoop_run brief weightingLogic applyLimits weights 20 0 data eq_refl)
    as (p & _ & _ & -> & _).
  set (looped := Nat.iter p _ data).
  assert (H1 : Forall2 carriedOver data looped).
  { apply Forall2_iter_steps;
      [apply carriedOver_refl|apply carriedOver_trans|intro l; apply passData_carried]. }
  apply (Forall2_trans_on _ _ _ _ carriedOver_trans H1).
  apply (Forall2_weaken _ _ _ _ kept_carried).
  apply (Forall2_trans_on _ _ _ _ keptSelection_trans (capPass_kept brief applyLimits looped)).
  apply Forall2_map_pointwise. intro d. apply finalize_kept.
Qed.

Lemma carried_metrics (l l' : list ChannelData) :
  Forall2 carriedOver l l' -> map metricsOf l' = map metricsOf l.
Proof.
  induction 1 as [|d d' l l' [Hm _] _ IH]; simpl; [reflexivity|].
  rewrite Hm, IH. reflexivity.
Qed.

Lemma selectionOnly_metrics (d d' : ChannelData) :
  selectionOnly d d' -> metricsOf d' = metricsOf d.
Proof.
  intros ((?&?&?&?&?&?&?&?&?&?&?&?)&_). unfold metricsOf. congruence.
Qed.

Lemma naturalMark_metrics (d : ChannelData) : metricsOf (naturalMark d) = metricsOf d.
Proof. unfold naturalMark. destruct (_ && _); reflexivity. Qed.

Lemma constructorMark_metrics S (d : ChannelData) :
  metricsOf (constructorMark S d) = metricsOf d.
Proof.
  unfold constructorMark. destruct (_ && _); [destruct (bool_decide _)|]; reflexivity.
Qed.

Lemma manualMark_metrics reg shares (d : ChannelData) :
  metricsOf (manualMark reg shares d) = metricsOf d.
Proof.
  unfold manualMark. destruct (match reg with Some _ => _ | None => _ end);
    [destruct (shares !! channel d) as [p|]; [destruct (Qltb 0 p)|]|]; reflexivity.
Qed.

Lemma selectSingle_metrics data brief weightingLogic :
  map metricsOf (selectSingle data brief weightingLogic) = map metricsOf data.
Proof.
  unfold selectSingle. destruct (negb _).
  - rewrite cutoffLoop_map, map_map. apply map_ext. intro d.
    apply selectionOnly_metrics, cutoffFold_selectionOnly.
  - rewrite map_map. apply map_ext, naturalMark_metrics.
Qed.

Lemma optimizeSplit_metrics data brief weightingLogic applyLimits weights :
  Permutation
    (map metricsOf (optimizeSplit data brief weightingLogic applyLimits weights))
    (map metricsOf data).
Proof.
  unfold optimizeSplit.
  rewrite <- (carried_metrics _ _
                (optimizeRecords_carried data brief weightingLogic applyLimits weights)).
  apply Permutation_map, Permutation_sym, sortBy_perm.
Qed.

(** X1.  A generator neither adds nor drops a record, and writes none of
    the fields it reads: the records it returns carry, up to their order,
    the region, channel, buying type, audience, ratings, prices, cost
    index and sort order of the records it was given. *)
Theorem X1_generators_keep_records_and_metrics :
  (forall data brief weightingLogic applyLimits,
      Permutation
        (map metricsOf (generateSingleSplit data brief weightingLogic applyLimits))
        (map metricsOf data)) /\
  (forall allChannels brief selectedChannelNames weightingLogic weights,
      Permutation
        (map metricsOf (generateConstructorSplit allChannels brief selectedChannelNames
                          weightingLogic weights))
        (map metricsOf allChannels)) /\
  (forall allChannels brief shares,
      Permutation
        (map metricsOf (generateManualSharesSplit allChannels brief shares))
        (map metricsOf allChannels)).
Proof.
  split; [|split].
  - intros. unfold generateSingleSplit.
    rewrite optimizeSplit_metrics, selectSingle_metrics. reflexivity.
  - intros. unfold generateConstructorSplit, selectConstructor.
    rewrite optimizeSplit_metrics, map_map.
    erewrite map_ext; [reflexivity|]. intro d. apply constructorMark_metrics.
  - intros. unfold generateManualSharesSplit, manualRecords.
    rewrite <- (Permutation_map metricsOf (sortBy_perm cmpFinal _)), map_map.
    erewrite map_ext; [reflexivity|]. intro d. apply manualMark_metrics.
Qed.

Lemma Forall2_In_r {A B} (R : A -> B -> Prop) (l : list A) (l' : list B) (y : B) :
  Forall2 R l l' -> In y l' -> exists x, In x l /\ R x y.
Proof.
  induction 1 as [|a b l l' Hab _ IH]; intro Hin; [destruct Hin|].
  destruct Hin as [<-|Hin].
  - exists a. split; [left; reflexivity|exact Hab].
  - destruct (IH Hin) as (x & Hx & HR). exists x. split; [right; exact Hx|exact HR].
Qed.

Lemma optimizeSplit_source data brief weightingLogic applyLimits weights d' :
  In d' (optimizeSplit data brief weightingLogic applyLimits weights) ->
  exists d, In d data /\ carriedOver d d'.
Proof.
  unfold optimizeSplit. intro Hin. apply sortBy_In in Hin.
  exact (Forall2_In_r _ _ _ _
           (optimizeRecords_carried data brief weightingLogic applyLimits weights) Hin).
Qed.

(** X2.  The optimizer only ever deselects: a record selected in its
    result is the record of a channel that was selected in its input,
    with the same metrics. *)
Theorem X2_optimizer_only_deselects (data : list ChannelData) (brief : BriefData)
    (weightingLogic : string) (applyLimits : bool) (weights : option Weights)
    (d' : ChannelData) :
  In d' (optimizeSplit data brief weightingLogic applyLimits weights) ->
  selected d' = true ->
  exists d, In d data /\ selected d = true /\ metricsOf d = metricsOf d'.
Proof.
  intros Hin Hsel.
  destruct (optimizeSplit_source _ _ _ _ _ _ Hin) as (d & Hd & Hm & Hs).
  exists d. split; [exact Hd|]. split; [apply Hs; exact Hsel|symmetry; exact Hm].
Qed.

(** A channel selected in the Affinity split of the mixed sample. *)
Lemma X2_optimizer_only_deselects_witness :
  exists d',
    In d' (optimizeSplit
             (selectSingle (baseSnapshot mixedRows orbitalBrief) orbitalBrief "Affinity")
             orbitalBrief "Affinity" true None) /\
    selected d' = true /\
    exists d,
      In d (selectSingle (baseSnapshot mixedRows orbitalBrief) orbitalBrief "Affinity") /\
      selected d = true /\ metricsOf d = metricsOf d'.
Proof.
  pose (data := selectSingle (baseSnapshot mixedRows orbitalBrief) orbitalBrief
                  "Affinity").
  assert (Hd : exists d', In d' (optimizeSplit data orbitalBrief "Affinity" true None) /\
                          selected d' = true).
  { vm_compute. eexists. split; [left; reflexivity|reflexivity]. }
  destruct Hd as (d' & Hin & Hsel).
  exists d'. split; [exact Hin|]. split; [exact Hsel|].
  exact (X2_optimizer_only_deselects data orbitalBrief "Affinity" true None d' Hin Hsel).
Defined.

(** X3.  The constructor split never selects a channel the user did not
    tick, nor one without a positive TCPP. *)
Theorem X3_constructor_selects_only_chosen (allChannels : list ChannelData)
    (brief : BriefData) (selectedChannelNames : list string) (weightingLogic : string)
    (weights : option Weights) (d : ChannelData) :
  In d (generateConstructorSplit allChannels brief selectedChannelNames
          weightingLogic weights) ->
  selected d = true ->
  In (channel d) selectedChannelNames /\ exists t, tcpp d = Some t /\ 0 < t.
Proof.
  unfold generateConstructorSplit, selectConstructor. intros Hin Hsel.
  destruct (optimizeSplit_source _ _ _ _ _ _ Hin) as (d1 & Hd1 & Hm & Hs).
  apply in_map_iff in Hd1 as (d0 & <- & _).
  specialize (Hs Hsel).
  assert (Hch : channel d = channel (constructorMark (list_to_set selectedChannelNames) d0))
    by (apply (f_equal m_channel) in Hm; exact Hm).
  assert (Ht : tcpp d = tcpp (constructorMark (list_to_set selectedChannelNames) d0))
    by (apply (f_equal m_tcpp) in Hm; exact Hm).
  rewrite Hch, Ht. clear Hch Ht Hm Hin Hsel.
  unfold constructorMark in *.
  destruct (truthy (tcpp d0) && gt0 (tcpp d0)) eqn:Epos; [|simpl in Hs; discriminate].
  destruct (bool_decide (channel d0 ∈ (list_to_set selectedChannelNames : gset string)))
    eqn:Ein; [|simpl in Hs; discriminate].
  simpl. apply bool_decide_eq_true in Ein. split.
  - apply elem_of_list_to_set in Ein. apply list_elem_of_In. exact Ein.
  - apply andb_true_iff in Epos as [_ Hg].
    destruct (tcpp d0) as [t|]; [|discriminate].
    exists t. split; [reflexivity|]. apply Qltb_lt. exact Hg.
Qed.

(** The channel ticked in the constructor split of the two-region sample. *)
Lemma X3_constructor_selects_only_chosen_witness :
  exists d,
    In d (generateConstructorSplit (baseSnapshot twoRegionRows twoRegionBrief)
            twoRegionBrief ["A"] "Affinity" None) /\
    selected d = true /\
    In (channel d) ["A"] /\ exists t, tcpp d = Some t /\ 0 < t.
Proof.
  pose (recs := generateConstructorSplit (baseSnapshot twoRegionRows twoRegionBrief)
                  twoRegionBrief ["A"] "Affinity" None).
  assert (Hd : exists d, In d recs /\ selected d = true).
  { vm_compute. eexists. split; [left; reflexivity|reflexivity]. }
  destruct Hd as (d & Hin & Hsel).
  exists d. split; [exact Hin|]. split; [exact Hsel|].
  exact (X3_constructor_selects_only_chosen
           (baseSnapshot twoRegionRows twoRegionBrief) twoRegionBrief ["A"] "Affinity"
           None d Hin Hsel).
Defined.

(** ** The order of a finished split *)

Lemma insertBy_sorted {A} (cmp : A -> A -> Q) (R : A -> A -> Prop) (x : A) (l : list A) :
  (forall a b, cmp a b <= 0 -> R a b) ->
  (forall a b, ~ cmp a b <= 0 -> R b a) ->
  (forall a b c, R a b -> R b c -> R a c) ->
  StronglySorted R l -> StronglySorted R (insertBy cmp x l).
Proof.
  intros Hle Hgt Htr. induction l as [|y l IH]; intro Hs; simpl.
  - constructor; constructor.
  - apply StronglySorted_inv in Hs as [Hl Hy].
    destruct (Qle_bool (cmp x y) 0) eqn:E.
    + apply Qle_bool_iff in E. apply Hle in E.
      constructor; [constructor; assumption|].
      constructor; [exact E|].
      rewrite List.Forall_forall in Hy |- *. intros z Hz.
      apply (Htr _ y); [exact E|apply Hy; exact Hz].
    + assert (Hyx : R y x).
      { apply Hgt. intro H. apply Qle_bool_iff in H. congruence. }
      constructor; [apply IH; exact Hl|].
      apply List.Forall_forall. intros z Hz.
      apply (Permutation_in z (Permutation_sym (insertBy_perm cmp x l))) in Hz.
      destruct Hz as [<-|Hz]; [exact Hyx|].
      rewrite List.Forall_forall in Hy. apply Hy. exact Hz.
Qed.

Lemma sortBy_sorted {A} (cmp : A -> A -> Q) (R : A -> A -> Prop) (l : list A) :
  (forall a b, cmp a b <= 0 -> R a b) ->
  (forall a b, ~ cmp a b <= 0 -> R b a) ->
  (forall a b c, R a b -> R b c -> R a c) ->
  StronglySorted R (sortBy cmp l).
Proof.
  intros Hle Hgt Htr. induction l as [|x l IH]; simpl; [constructor|].
  apply insertBy_sorted; assumption.
Qed.

Lemma cmpFinal_sorted (l : list ChannelData) :
  StronglySorted finalOrder (sortBy cmpFinal l).
Proof.
  apply sortBy_sorted.
  - intros a b. unfold cmpFinal, finalOrder.
    destruct (Qeq_bool (sortOrder a - sortOrder b) 0) eqn:E.
    + apply Qeq_bool_iff in E. intro H. right. split; lra.
    + apply Qeq_bool_neq in E. intro H. left. lra.
  - intros a b. unfold cmpFinal, finalOrder.
    destruct (Qeq_bool (sortOrder a - sortOrder b) 0) eqn:E.
    + apply Qeq_bool_iff in E. intro H. right. split; lra.
    + apply Qeq_bool_neq in E. intro H. left. lra.
  - intros a b c. unfold finalOrder. intros [H1|[H1 H1']] [H2|[H2 H2']].
    + left. lra.
    + left. lra.
    + left. lra.
    + right. split; lra.
Qed.

(** X4.  Every split comes out ordered: regions in the order of the
    brief and, inside a region, channels by descending share. *)
Theorem X4_split_is_ordered (recs : list ChannelData) :
  SplitOutput recs -> StronglySorted finalOrder recs.
Proof.
  intros [data brief weightingLogic applyLimits
         |allChannels brief names weightingLogic weights
         |allChannels brief shares];
    apply cmpFinal_sorted.
Qed.

Lemma X4_split_is_ordered_witness :
  StronglySorted finalOrder
    (generateSingleSplit (baseSnapshot twoRegionRows twoRegionBrief) twoRegionBrief
       "Affinity" true).
Proof. apply X4_split_is_ordered. constructor. Defined.

(** ** The 20-pass limit *)

Lemma optimizeLoop_cut brief weightingLogic applyLimits weights (n iterationCount : nat)
    (data : list ChannelData) :
  (iterationCount + n = 20)%nat ->
  snd (optimizeLoop brief weightingLogic applyLimits weights iterationCount data)
  = 21%nat ->
  forall k, (k < n)%nat ->
    deselects brief weightingLogic applyLimits weights
      (Nat.iter k (passData brief weightingLogic applyLimits weights) data) = true.
Proof.
  revert iterationCount data.
  induction n as [|n IH]; intros ic data Hic Hcut k Hk; [lia|].
  rewrite optimizeLoop_step in Hcut.
  destruct (20 <? S ic)%nat eqn:E; [apply Nat.ltb_lt in E; lia|].
  destruct (deselects brief weightingLogic applyLimits weights data) eqn:Hch.
  - destruct k as [|k]; [exact Hch|].
    rewrite Nat.iter_succ_r. apply (IH (S ic)); [lia|exact Hcut|lia].
  - simpl in Hcut. lia.
Qed.

Lemma selectedCount_kept (l l' : list ChannelData) :
  Forall2 keptSelection l l' -> selectedCount l' = selectedCount l.
Proof.
  unfold selectedCount. induction 1 as [|d d' l l' [_ Hs] _ IH]; simpl; [reflexivity|].
  rewrite Hs. destruct (selected d); simpl; rewrite IH; reflexivity.
Qed.

Lemma belowFloor_selected brief d : belowFloor brief d = true -> selected d = true.
Proof.
  unfold belowFloor. destruct (briefOf brief (region d)); [|discriminate].
  rewrite !andb_true_iff. tauto.
Qed.

Lemma selected_applyFloor brief d :
  selected (applyFloor brief d) = selected d && negb (belowFloor brief d).
Proof.
  unfold applyFloor. destruct (belowFloor brief d) eqn:E.
  - pose proof (belowFloor_selected _ _ E) as Hs.
    unfold belowFloor in E. destruct (briefOf brief (region d)); [|discriminate].
    simpl. rewrite andb_false_r. reflexivity.
  - rewrite andb_true_r. destruct (briefOf brief (region d)); reflexivity.
Qed.

Lemma applyFloor_count brief (l : list ChannelData) :
  (selectedCount (map (applyFloor brief) l) <= selectedCount l)%nat /\
  (existsb (belowFloor brief) l = true ->
   (selectedCount (map (applyFloor brief) l) < selectedCount l)%nat).
Proof.
  unfold selectedCount. induction l as [|d l [IHle IHlt]]; simpl.
  - split; [lia|discriminate].
  - rewrite selected_applyFloor.
    destruct (belowFloor brief d) eqn:E.
    + rewrite (belowFloor_selected _ _ E). simpl. split; [lia|intros _; lia].
    + rewrite andb_true_r. simpl.
      destruct (selected d); simpl; split; try lia; intro H; specialize (IHlt H); lia.
Qed.

Lemma passData_count brief weightingLogic applyLimits weights data :
  deselects brief weightingLogic applyLimits weights data = true ->
  (selectedCount (passData brief weightingLogic applyLimits weights data)
   < selectedCount data)%nat.
Proof.
  unfold deselects, passData, passOnce.
  pose proof (selectedCount_kept _ _
                (regionsPass_kept Qdiv brief weightingLogic weights data)) as Hsame.
  destruct applyLimits; simpl; [|discriminate].
  intro H. rewrite <- Hsame. apply applyFloor_count. exact H.
Qed.

Lemma deselecting_passes_count brief weightingLogic applyLimits weights data (k : nat) :
  (forall j, (j < k)%nat ->
     deselects brief weightingLogic applyLimits weights
       (Nat.iter j (passData brief weightingLogic applyLimits weights) data) = true) ->
  (selectedCount (Nat.iter k (passData brief weightingLogic applyLimits weights) data)
   + k <= selectedCount data)%nat.
Proof.
  induction k as [|k IH]; intro H; simpl; [lia|].
  pose proof (passData_count _ _ _ _ _ (H k (Nat.lt_succ_diag_r k))) as Hlt.
  assert (Hk : forall j, (j < k)%nat ->
                 deselects brief weightingLogic applyLimits weights
                   (Nat.iter j (passData brief weightingLogic applyLimits weights) data)
                 = true) by (intros j Hj; apply H; lia).
  specialize (IH Hk). lia.
Qed.

(** X5.  The 20-pass limit cannot cut the loop short when fewer than 20
    records are selected on entry: every pass that asks for another one
    deselects a record, so the loop ends on a pass that deselects none. *)
Theorem X5_loop_converges_under_20_selected (data : list ChannelData)
    (brief : BriefData) (weightingLogic : string) (applyLimits : bool)
    (weights : option Weights) :
  (selectedCount data < 20)%nat ->
  loopConverged data brief weightingLogic applyLimits weights = true.
Proof.
  intro Hfew. unfold loopConverged. apply Nat.leb_le.
  destruct (optimizeLoop_run brief weightingLogic applyLimits weights 20 0 data eq_refl)
    as (p & Hle & _ & _ & _ & [(_ & _ & Hcnt)|(_ & Hcnt)]); [lia|].
  pose proof (optimizeLoop_cut brief weightingLogic applyLimits weights 20 0 data
                eq_refl Hcnt) as Hall.
  pose proof (deselecting_passes_count brief weightingLogic applyLimits weights data 20
                Hall).
  lia.
Qed.

Lemma X5_loop_converges_witness :
  loopConverged
    (selectSingle (baseSnapshot mixedRows orbitalBrief) orbitalBrief "Affinity")
    orbitalBrief "Affinity" true None = true.
Proof.
  apply X5_loop_converges_under_20_selected.
  vm_compute. lia.
Defined.

(** ** The minimum-share floor *)

Lemma converged_floor_clear data brief weightingLogic weights :
  loopConverged data brief weightingLogic true weights = true ->
  exists before,
    fst (optimizeLoop brief weightingLogic true weights 0 data)
    = regionsPass Qdiv brief weightingLogic weights before /\
    existsb (belowFloor brief) (regionsPass Qdiv brief weightingLogic weights before)
    = false.
Proof.
  unfold loopConverged. intro Hconv. apply Nat.leb_le in Hconv.
  destruct (optimizeLoop_run brief weightingLogic true weights 20 0 data eq_refl)
    as (p & _ & _ & Hres & _ & [(Hp & Hstop & _)|(_ & Hcnt)]); [|lia].
  destruct p as [|p]; [lia|].
  replace (S p - 1)%nat with p in Hstop by lia.
  exists (Nat.iter p (passData brief weightingLogic true weights) data).
  split.
  - rewrite Hres. simpl. apply passData_without_deselection. exact Hstop.
  - exact Hstop.
Qed.

Lemma regionPass_shares_set weightingLogic weights r data :
  0 < totalWeightedRatingOf r (regionPass Qdiv weightingLogic weights r data) ->
  List.Forall (fun d => share d <> None)
    (List.filter (inRegion r) (regionPass Qdiv weightingLogic weights r data)).
Proof.
  unfold regionPass.
  destruct (List.filter (inRegionSel r) data) as [|d0 sel] eqn:Hsel.
  - simpl. unfold totalWeightedRatingOf. rewrite Hsel. intro H.
    exfalso. apply (Qlt_irrefl 0). exact H.
  - cbn [List.length Nat.eqb].
    set (data1 := map (assignRating Qdiv weightingLogic weights r (d0 :: sel)) data).
    set (total := totalWeightedRatingOf r data1).
    destruct (Qltb 0 total) eqn:Ht.
    + intros _. apply List.Forall_forall. intros d Hd.
      apply filter_In in Hd as [Hd Hr]. apply in_map_iff in Hd as (d1 & <- & _).
      rewrite inRegion_normalizeShare in Hr.
      unfold normalizeShare.
      destruct (inRegionSel r d1); [discriminate|]. rewrite Hr. discriminate.
    + intro H. apply Qltb_ge in Ht. exfalso. apply (Qlt_not_le _ _ H Ht).
Qed.

Lemma regionsPass_shares_set weightingLogic weights (r : string) (rs : list string)
    (data : list ChannelData) :
  In r rs \/
  (0 < totalWeightedRatingOf r data ->
   List.Forall (fun d => share d <> None) (List.filter (inRegion r) data)) ->
  let out := fold_left (fun d r0 => regionPass Qdiv weightingLogic weights r0 d) rs data in
  0 < totalWeightedRatingOf r out ->
  List.Forall (fun d => share d <> None) (List.filter (inRegion r) out).
Proof.
  revert data. induction rs as [|r0 rs IH]; intros data H; simpl.
  - destruct H as [[]|H]. exact H.
  - apply IH. destruct (string_dec r0 r) as [->|Hne].
    + right. apply regionPass_shares_set.
    + destruct H as [[Heq|Hin]|HP]; [congruence|left; exact Hin|right].
      pose proof (regionPass_other Qdiv weightingLogic weights r r0 data Hne) as Hsame.
      rewrite (totalWeightedRatingOf_region r _ data Hsame), Hsame.
      exact HP.
Qed.

Lemma isOrbital_scaleOrbital r c f d : isOrbital (scaleOrbital r c f d) = isOrbital d.
Proof. unfold scaleOrbital. destruct (orbitalSel r d); reflexivity. Qed.

Lemma isOrbital_topUpNetwork r n s d : isOrbital (topUpNetwork r n s d) = isOrbital d.
Proof. unfold topUpNetwork. destruct (networkSel r d); reflexivity. Qed.

Section Floor.
Variables (brief : BriefData) (r : string) (rb : RegionBrief).
Hypothesis Hbrief : briefOf brief r = Some rb.

Local Abbreviation floor := (minShareOf rb).

(** The floor holds for the records of [r] that satisfy [P]. *)
Local Abbreviation floorHolds P data :=
  (List.Forall (fun d : ChannelData => P d = true -> floorOk floor d)
     (List.filter (inRegion r) data)).

Lemma floor_clear_holds (data : list ChannelData) :
  existsb (belowFloor brief) data = false ->
  List.Forall (fun d => share d <> None) (List.filter (inRegion r) data) ->
  floorHolds (fun _ => true) data.
Proof.
  intros Hclear Hset. rewrite List.Forall_forall in Hset |- *.
  intros d Hd _ Hsel. specialize (Hset d Hd).
  apply filter_In in Hd as [Hd Hr].
  destruct (share d) as [s|] eqn:Hs; [|congruence].
  exists s. split; [reflexivity|].
  destruct (belowFloor brief d) eqn:E.
  - assert (existsb (belowFloor brief) data = true)
      by (apply existsb_exists; exists d; split; assumption).
    congruence.
  - unfold belowFloor in E. apply inRegion_eq in Hr. rewrite Hr, Hbrief, Hsel, Hs in E.
    simpl in E. apply Qltb_ge in E. exact E.
Qed.

Lemma topUp_raises (n s : Q) (d : ChannelData) :
  0 < n -> 0 < s -> 0 <= floor ->
  floorOk floor d -> floorOk floor (topUpNetwork r n s d).
Proof.
  intros Hn Hs Hfloor Hok. unfold topUpNetwork.
  destruct (networkSel r d) eqn:E; [|exact Hok].
  intros _. destruct (Hok (networkSel_selected _ _ E)) as (x & Hx & Hle).
  rewrite Hx. simpl. eexists. split; [reflexivity|].
  assert (0 <= x / n * s).
  { apply Qmult_le_0_compat; [|apply Qlt_le_weak; exact Hs].
    unfold Qdiv. apply Qmult_le_0_compat; [lra|].
    apply Qlt_le_weak, Qinv_lt_0_compat. exact Hn. }
  lra.
Qed.

(** The cap pass of any region keeps the floor of the non-orbital
    channels of [r]. *)
Lemma capRegion_floor_network (r0 : string) (data : list ChannelData) :
  0 <= floor ->
  floorHolds (fun d => negb (isOrbital d)) data ->
  floorHolds (fun d => negb (isOrbital d)) (capRegion brief r0 data).
Proof.
  intros Hfloor H. destruct (string_dec r0 r) as [->|Hne];
    [|rewrite (capRegion_other brief r r0 data Hne); exact H].
  unfold capRegion. rewrite Hbrief.
  destruct (maxOrbitalShare rb) as [cap|]; [|exact H].
  destruct (Qltb _ _) eqn:Hover; [|exact H]. cbv zeta.
  apply Qltb_lt in Hover.
  assert (Hscale : forall f,
             floorHolds (fun d => negb (isOrbital d))
               (map (scaleOrbital r cap f) data)).
  { intro f. rewrite filter_map_commute by (intro; apply inRegion_scaleOrbital).
    rewrite List.Forall_forall in H |- *. intros d' Hd' Hnet.
    apply in_map_iff in Hd' as (d & <- & Hd).
    rewrite isOrbital_scaleOrbital in Hnet.
    assert (Hno : orbitalSel r d = false).
    { unfold orbitalSel. destruct (isOrbital d); [discriminate|apply andb_false_r]. }
    unfold scaleOrbital. rewrite Hno. apply H; assumption. }
  destruct (Qltb 0 _) eqn:Hnet; [|apply Hscale].
  apply Qltb_lt in Hnet.
  rewrite filter_map_commute by (intro; apply inRegion_topUpNetwork).
  specialize (Hscale (cap / 100 / shareSum (orbitalSel r) data)).
  rewrite List.Forall_forall in Hscale |- *. intros d' Hd' Ho.
  apply in_map_iff in Hd' as (d & <- & Hd).
  apply topUp_raises; [exact Hnet|lra|exact Hfloor|].
  apply Hscale; [exact Hd|].
  rewrite isOrbital_topUpNetwork in Ho. exact Ho.
Qed.

(** Without a cap for [r], the cap pass leaves the records of [r] alone. *)
Lemma capPass_records_without_cap (rs : list string) (data : list ChannelData) :
  maxOrbitalShare rb = None ->
  List.filter (inRegion r) (fold_left (fun d r0 => capRegion brief r0 d) rs data)
  = List.filter (inRegion r) data.
Proof.
  intro Hnone. revert data. induction rs as [|r0 rs IH]; intro data; simpl;
    [reflexivity|].
  rewrite IH. destruct (string_dec r0 r) as [->|Hne].
  - unfold capRegion. rewrite Hbrief, Hnone. reflexivity.
  - apply capRegion_other. exact Hne.
Qed.

Lemma capPass_floor_network (rs : list string) (data : list ChannelData) :
  0 <= floor ->
  floorHolds (fun d => negb (isOrbital d)) data ->
  floorHolds (fun d => negb (isOrbital d))
    (fold_left (fun d r0 => capRegion brief r0 d) rs data).
Proof.
  intro Hfloor. revert data. induction rs as [|r0 rs IH]; intros data H; simpl;
    [exact H|].
  apply IH, capRegion_floor_network; assumption.
Qed.

End Floor.

(** X6.  With limits enabled, when the loop converged and the region's
    total weighted rating is positive, every channel that ends selected
    holds at least the region's minimum share (which must not be
    negative), unless it is an orbital channel of a region with an orbital
    cap: the cap may scale those below the floor. *)
Theorem X6_selected_channels_hold_the_floor (data : list ChannelData)
    (brief : BriefData) (weightingLogic : string) (weights : option Weights)
    (r : string) (rb : RegionBrief) (d : ChannelData) :
  briefOf brief r = Some rb ->
  loopConverged data brief weightingLogic true weights = true ->
  0 <= minShareOf rb ->
  let res := optimizeSplit data brief weightingLogic true weights in
  0 < totalWeightedRatingOf r res ->
  In d res -> region d = r -> selected d = true ->
  isOrbital d = false \/ maxOrbitalShare rb = None ->
  exists s, share d = Some s /\ minShareOf rb <= s.
Proof.
  intros Hbrief Hconv Hfloor res Htotal Hin Hreg Hsel Hcase.
  pose proof (briefOf_In brief r rb Hbrief) as Hr.
  unfold res, optimizeSplit, optimizeRecords in *.
  set (L := fst (optimizeLoop brief weightingLogic true weights 0 data)) in *.
  rewrite final_total_rating, capPass_total_rating in Htotal.
  destruct (converged_floor_clear _ _ _ _ Hconv) as (before & Hbefore & Hclear).
  fold L in Hbefore. rewrite <- Hbefore in Hclear.
  assert (Hset : List.Forall (fun d => share d <> None) (List.filter (inRegion r) L)).
  { rewrite Hbefore in Htotal |- *.
    apply regionsPass_shares_set; [left; exact Hr|exact Htotal]. }
  pose proof (floor_clear_holds brief r rb Hbrief L Hclear Hset) as HL.
  apply sortBy_In in Hin. apply in_map_iff in Hin as (d0 & <- & Hd0).
  assert (Hsel0 : selected d0 = true)
    by (destruct (finalize_kept d0) as [_ <-]; exact Hsel).
  assert (Hreg0 : inRegion r d0 = true).
  { apply inRegion_eq. destruct (finalize_kept d0) as [Hm _].
    apply (f_equal m_region) in Hm. simpl in Hm. congruence. }
  assert (Horb0 : isOrbital (finalize d0) = isOrbital d0).
  { destruct (finalize_kept d0) as [Hm _].
    apply (f_equal m_channel) in Hm. simpl in Hm. unfold isOrbital. congruence. }
  assert (Hshare : share (finalize d0) = share d0)
    by (unfold finalize; rewrite Hsel0; reflexivity).
  rewrite Hshare. rewrite Horb0 in Hcase.
  assert (Hfin : In d0 (List.filter (inRegion r) (capPass brief true L)))
    by (apply filter_In; split; assumption).
  unfold capPass in Hfin.
  destruct Hcase as [Hnet|Hnone].
  - assert (H : List.Forall
                  (fun x => negb (isOrbital x) = true -> floorOk (minShareOf rb) x)
                  (List.filter (inRegion r)
                     (fold_left (fun x r0 => capRegion brief r0 x) (regionsOf brief) L))).
    { apply (capPass_floor_network brief r rb Hbrief); [exact Hfloor|].
      eapply List.Forall_impl; [|exact HL]. intros x Hx _. apply Hx. reflexivity. }
    rewrite List.Forall_forall in H. apply (H d0 Hfin); [rewrite Hnet; reflexivity|].
    exact Hsel0.
  - rewrite (capPass_records_without_cap brief r rb Hbrief _ _ Hnone) in Hfin.
    rewrite List.Forall_forall in HL. apply (HL d0 Hfin); [reflexivity|exact Hsel0].
Qed.

(** In the Affinity split of the mixed sample the cap takes the orbital
    channel from 75% to 30%; the network channel that stays selected ends
    at 70%, above the floor of 2%. *)
Lemma X6_selected_channels_hold_the_floor_witness :
  exists d s,
    In d (generateSingleSplit (baseSnapshot mixedRows orbitalBrief) orbitalBrief
            "Affinity" true) /\
    selected d = true /\ isOrbital d = false /\ share d = Some s /\ 2 / 100 <= s.
Proof.
  pose (data := selectSingle (baseSnapshot mixedRows orbitalBrief) orbitalBrief
                  "Affinity").
  pose (res := optimizeSplit data orbitalBrief "Affinity" true None).
  assert (Hd : exists d, In d res /\ region d = "Москва" /\ selected d = true /\
                         isOrbital d = false).
  { vm_compute. eexists. split; [left; reflexivity|repeat split]. }
  destruct Hd as (d & Hin & Hreg & Hsel & Hnet).
  destruct (X6_selected_channels_hold_the_floor data orbitalBrief "Affinity" None
              "Москва" (mkBrief "All 18+" (Some 2) (Some 30) (Some 20)) d)
    as (s & Hs & Hle).
  - reflexivity.
  - vm_compute. reflexivity.
  - unfold Qle. simpl. lia.
  - vm_compute. reflexivity.
  - exact Hin.
  - exact Hreg.
  - exact Hsel.
  - left. exact Hnet.
  - exists d, s. split; [exact Hin|]. split; [exact Hsel|]. split; [exact Hnet|].
    split; [exact Hs|exact Hle].
Defined.

(** ** Regions outside the brief *)

Lemma Forall2_fold_steps_in {A B} (R : A -> A -> Prop) (f : list A -> B -> list A)
    (bs : list B) (l : list A) :
  (forall x, R x x) -> (forall a b c, R a b -> R b c -> R a c) ->
  (forall l b, In b bs -> Forall2 R l (f l b)) ->
  Forall2 R l (fold_left f bs l).
Proof.
  intros Hr Ht. revert l. induction bs as [|b bs IH]; intros l Hf; simpl.
  - apply Forall2_refl_on, Hr.
  - eapply Forall2_trans_on; [exact Ht|apply Hf; left; reflexivity|].
    apply IH. intros l' b' Hb'. apply Hf. right. exact Hb'.
Qed.

Section OutsideBrief.
Variable brief : BriefData.

(** A step that leaves alone the records whose region has no brief. *)
Local Abbreviation passedOver :=
  (fun d d' : ChannelData => briefOf brief (region d) = None -> d' = d).

Lemma passedOver_trans (a b c : ChannelData) :
  passedOver a b -> passedOver b c -> passedOver a c.
Proof. intros H1 H2 Ha. specialize (H1 Ha). subst b. apply H2. exact Ha. Qed.

Lemma outside_not_in (r0 : string) (d : ChannelData) :
  In r0 (regionsOf brief) -> briefOf brief (region d) = None -> inRegion r0 d = false.
Proof.
  intros Hin Hnone. apply inRegion_neq. intro Heq.
  destruct (In_briefOf brief r0 Hin) as (rb & Hrb). congruence.
Qed.

Lemma regionPass_passedOver div weightingLogic weights r0 data :
  In r0 (regionsOf brief) ->
  Forall2 passedOver data (regionPass div weightingLogic weights r0 data).
Proof.
  intro Hin.
  assert (Ha : forall sel d,
             passedOver d (assignRating div weightingLogic weights r0 sel d)).
  { intros sel d Hnone. unfold assignRating, inRegionSel.
    rewrite (outside_not_in r0 d Hin Hnone). reflexivity. }
  assert (Hn : forall total d, passedOver d (normalizeShare div r0 total d)).
  { intros total d Hnone. unfold normalizeShare, inRegionSel.
    rewrite (outside_not_in r0 d Hin Hnone). reflexivity. }
  unfold regionPass.
  destruct (List.length _ =? 0)%nat; [apply Forall2_refl_on; auto|].
  cbv zeta. destruct (Qltb 0 _).
  - rewrite map_map. apply Forall2_map_pointwise. intro d.
    eapply passedOver_trans; [apply Ha|apply Hn].
  - apply Forall2_map_pointwise. intro d. apply Ha.
Qed.

Lemma capRegion_passedOver r0 data :
  In r0 (regionsOf brief) -> Forall2 passedOver data (capRegion brief r0 data).
Proof.
  intro Hin.
  assert (Hs : forall c f d, passedOver d (scaleOrbital r0 c f d)).
  { intros c f d Hnone. unfold scaleOrbital, orbitalSel, inRegionSel.
    rewrite (outside_not_in r0 d Hin Hnone). reflexivity. }
  assert (Ht : forall n s d, passedOver d (topUpNetwork r0 n s d)).
  { intros n s d Hnone. unfold topUpNetwork, networkSel, inRegionSel.
    rewrite (outside_not_in r0 d Hin Hnone). reflexivity. }
  unfold capRegion.
  destruct (briefOf brief r0) as [rb|]; [|apply Forall2_refl_on; auto].
  destruct (maxOrbitalShare rb) as [cap|]; [|apply Forall2_refl_on; auto].
  destruct (Qltb _ _); [|apply Forall2_refl_on; auto]. cbv zeta.
  destruct (Qltb _ _).
  - rewrite map_map. apply Forall2_map_pointwise. intro d.
    eapply passedOver_trans; [apply Hs|apply Ht].
  - apply Forall2_map_pointwise. intro d. apply Hs.
Qed.

Lemma passData_passedOver weightingLogic applyLimits weights data :
  Forall2 passedOver data (passData brief weightingLogic applyLimits weights data).
Proof.
  assert (H : Forall2 passedOver data
                (regionsPass Qdiv brief weightingLogic weights data)).
  { unfold regionsPass. apply Forall2_fold_steps_in.
    - auto.
    - apply passedOver_trans.
    - intros l r0 Hin. apply regionPass_passedOver. exact Hin. }
  unfold passData, passOnce. destruct applyLimits; simpl; [|exact H].
  eapply Forall2_trans_on; [apply passedOver_trans|exact H|].
  apply Forall2_map_pointwise. intros d Hnone. unfold applyFloor. rewrite Hnone.
  reflexivity.
Qed.

Lemma beforeFinalize_passedOver data weightingLogic applyLimits weights :
  Forall2 passedOver data
    (capPass brief applyLimits
       (fst (optimizeLoop brief weightingLogic applyLimits weights 0 data))).
Proof.
  destruct (optimizeLoop_run brief weightingLogic applyLimits weights 20 0 data eq_refl)
    as (p & _ & _ & -> & _).
  set (looped := Nat.iter p _ data).
  assert (H1 : Forall2 passedOver data looped).
  { apply Forall2_iter_steps;
      [auto|apply passedOver_trans|intro l; apply passData_passedOver]. }
  apply (Forall2_trans_on _ _ _ _ passedOver_trans H1).
  unfold capPass. destruct applyLimits; [|apply Forall2_refl_on; auto].
  apply Forall2_fold_steps_in;
    [auto|apply passedOver_trans|intros l r0 Hin; apply capRegion_passedOver; exact Hin].
Qed.

End OutsideBrief.

Lemma Forall2_In_l {A B} (R : A -> B -> Prop) (l : list A) (l' : list B) (x : A) :
  Forall2 R l l' -> In x l -> exists y, In y l' /\ R x y.
Proof.
  induction 1 as [|a b l l' Hab _ IH]; intro Hin; [destruct Hin|].
  destruct Hin as [<-|Hin].
  - exists b. split; [left; reflexivity|exact Hab].
  - destruct (IH Hin) as (y & Hy & HR). exists y. split; [right; exact Hy|exact HR].
Qed.

(** X7.  The optimizer passes over the records of a region for which
    the brief answers [undefined], that is, a region that is no key of the
    brief and does not bear the name of a member of [Object.prototype]:
    it rates, normalizes, floors and caps none of them, and only fills in
    their TRP (or zeroes share and TRP) at the end. *)
Theorem X7_regions_without_brief_are_only_finalized (data : list ChannelData)
    (brief : BriefData) (weightingLogic : string) (applyLimits : bool)
    (weights : option Weights) (d : ChannelData) :
  In d data -> withoutBrief brief (region d) ->
  In (finalize d) (optimizeSplit data brief weightingLogic applyLimits weights).
Proof.
  intros Hin [Hnone _]. unfold optimizeSplit, optimizeRecords.
  apply sortBy_In. apply in_map_iff.
  destruct (Forall2_In_l _ _ _ d
              (beforeFinalize_passedOver brief data weightingLogic applyLimits weights)
              Hin) as (d' & Hd' & Hsame).
  exists d'. split; [rewrite (Hsame Hnone); reflexivity|exact Hd'].
Qed.

(** The constructor split of the two-region sample, computed with the
    brief of the first region only as the results screen does: the record
    of the second region is only finalized. *)
Lemma X7_regions_without_brief_witness :
  exists d,
    In d (selectConstructor (baseSnapshot twoRegionRows twoRegionBrief) ["A"]) /\
    region d = "Казань" /\
    In (finalize d)
       (generateConstructorSplit (baseSnapshot twoRegionRows twoRegionBrief)
          (mkBriefData [("Москва", mkBrief "All 18+" (Some 2) None (Some 20))])
          ["A"] "Affinity" None).
Proof.
  pose (data := selectConstructor (baseSnapshot twoRegionRows twoRegionBrief) ["A"]).
  assert (Hd : exists d, In d data /\ region d = "Казань").
  { vm_compute. eexists. split; [right; right; left; reflexivity|reflexivity]. }
  destruct Hd as (d & Hin & Hreg).
  exists d. split; [exact Hin|]. split; [exact Hreg|].
  apply (X7_regions_without_brief_are_only_finalized data); [exact Hin|].
  rewrite Hreg. split; [reflexivity|].
  intro H. repeat (destruct H as [H|H]; [discriminate H|]). destruct H.
Defined.

(** ** The Natural selection *)

Lemma naturalMark_selected (d : ChannelData) :
  selected (naturalMark d) = true <->
  exists t c, tvrTa d = Some t /\ 0 < t /\ cpp d = Some c /\ 0 < c.
Proof.
  unfold naturalMark.
  destruct (truthy (tvrTa d) && gt0 (tvrTa d) && negb (isNull (cpp d)) && gt0 (cpp d))
    eqn:E; simpl.
  - split; [intros _|reflexivity].
    rewrite !andb_true_iff in E. destruct E as [[[_ Ht] _] Hc].
    destruct (tvrTa d) as [t|]; [|discriminate].
    destruct (cpp d) as [c|]; [|discriminate].
    exists t, c. repeat split; try reflexivity; apply Qltb_lt; assumption.
  - split; [discriminate|]. intros (t & c & Ht & Htp & Hc & Hcp). exfalso.
    rewrite Ht, Hc in E. simpl in E.
    assert (Hz : Qeq_bool t 0 = false).
    { destruct (Qeq_bool t 0) eqn:Ez; [|reflexivity].
      apply Qeq_bool_iff in Ez. rewrite Ez in Htp. exfalso. apply (Qlt_irrefl _ Htp). }
    apply Qltb_lt in Htp, Hcp. rewrite Hz, Htp, Hcp in E. discriminate.
Qed.

(** X8.  In a Natural split computed without limits, as the batch does,
    a channel is selected exactly when it has a positive TVR and a
    positive price; nothing else decides. *)
Theorem X8_natural_split_selects_priced_rated_channels (data : list ChannelData)
    (brief : BriefData) (d : ChannelData) :
  In d (generateSingleSplit data brief "Natural" false) ->
  (selected d = true <->
   exists t c, tvrTa d = Some t /\ 0 < t /\ cpp d = Some c /\ 0 < c).
Proof.
  unfold generateSingleSplit. rewrite optimizeSplit_without_limits.
  intro Hin. apply sortBy_In in Hin. apply in_map_iff in Hin as (d1 & <- & Hd1).
  destruct (Forall2_In_r _ _ _ _
              (regionsPass_kept Qdiv brief "Natural" None
                 (selectSingle data brief "Natural")) Hd1)
    as (d0 & Hd0 & Hk).
  unfold selectSingle in Hd0. simpl in Hd0.
  apply in_map_iff in Hd0 as (d & <- & _).
  pose proof (keptSelection_trans _ _ _ Hk (finalize_kept d1)) as [Hm Hs].
  rewrite naturalMark_metrics in Hm.
  rewrite Hs, naturalMark_selected.
  apply (f_equal m_tvrTa) in Hm as Ht. apply (f_equal m_cpp) in Hm as Hc.
  simpl in Ht, Hc. rewrite Ht, Hc. reflexivity.
Qed.

Lemma X8_natural_split_witness :
  exists d,
    In d (generateSingleSplit (baseSnapshot orbitalRows orbitalBrief) orbitalBrief
            "Natural" false) /\
    (selected d = true <->
     exists t c, tvrTa d = Some t /\ 0 < t /\ cpp d = Some c /\ 0 < c).
Proof.
  pose (recs := generateSingleSplit (baseSnapshot orbitalRows orbitalBrief)
                  orbitalBrief "Natural" false).
  assert (Hd : exists d, In d recs).
  { vm_compute. eexists. left. reflexivity. }
  destruct Hd as (d & Hin).
  exists d. split; [exact Hin|].
  apply (X8_natural_split_selects_priced_rated_channels
           (baseSnapshot orbitalRows orbitalBrief) orbitalBrief d Hin).
Defined.

(** ** TRP and share *)

Lemma finalize_trp (d : ChannelData) :
  exists t, trp (finalize d) = Some t /\ t == orNum (share (finalize d)) 0 * 1000.
Proof.
  unfold finalize. destruct (selected d); simpl; eexists; (split; [reflexivity|]);
    reflexivity.
Qed.

Lemma manualMark_trp reg shares (d : ChannelData) :
  exists t, trp (manualMark reg shares d) = Some t /\
            t == orNum (share (manualMark reg shares d)) 0 * 1000.
Proof.
  unfold manualMark. destruct (match reg with Some _ => _ | None => _ end);
    [destruct (shares !! channel d) as [p|]; [destruct (Qltb 0 p)|]|];
    cbn [trp share set_comment set_trp set_share set_selected];
    eexists; (split; [reflexivity|]); try reflexivity.
  rewrite orNum_Some. reflexivity.
Qed.

(** The same fact, for use by the properties of the summaries. *)
Lemma split_record_trp (recs : list ChannelData) (d : ChannelData) :
  SplitOutput recs -> In d recs ->
  exists t, trp d = Some t /\ t == orNum (share d) 0 * 1000.
Proof.
  intros Hout Hin.
  assert (Hsrc : exists d0, d = finalize d0 \/ exists reg shares, d = manualMark reg shares d0).
  { destruct Hout; unfold generateSingleSplit, generateConstructorSplit,
      generateManualSharesSplit, manualRecords, optimizeSplit, optimizeRecords in Hin;
      apply sortBy_In in Hin; apply in_map_iff in Hin as (d0 & <- & _); exists d0;
      [left; reflexivity|left; reflexivity|right; eauto]. }
  destruct Hsrc as (d0 & [->|(reg & shares & ->)]);
    [apply finalize_trp|apply manualMark_trp].
Qed.

(** X9.  In every record of every split the TRP is set and equals 1000
    times the share (a share that was never computed counting as 0). *)
Theorem X9_trp_is_1000_times_share (recs : list ChannelData) (d : ChannelData) :
  SplitOutput recs -> In d recs ->
  exists t, trp d = Some t /\ t == orNum (share d) 0 * 1000.
Proof.
  intros Hout Hin. destruct Hout as [data brief logic limits
                                    |allChannels brief names logic weights
                                    |allChannels brief shares].
  - unfold generateSingleSplit, optimizeSplit, optimizeRecords in Hin.
    apply sortBy_In in Hin. apply in_map_iff in Hin as (d0 & <- & _).
    apply finalize_trp.
  - unfold generateConstructorSplit, optimizeSplit, optimizeRecords in Hin.
    apply sortBy_In in Hin. apply in_map_iff in Hin as (d0 & <- & _).
    apply finalize_trp.
  - unfold generateManualSharesSplit, manualRecords in Hin.
    apply sortBy_In in Hin. apply in_map_iff in Hin as (d0 & <- & _).
    apply manualMark_trp.
Qed.

Lemma X9_trp_witness :
  exists d t,
    In d (generateManualSharesSplit (baseSnapshot twoRegionRows twoRegionBrief)
            twoRegionBrief manualPercentages) /\
    trp d = Some t /\ t == orNum (share d) 0 * 1000.
Proof.
  pose (recs := generateManualSharesSplit (baseSnapshot twoRegionRows twoRegionBrief)
                  twoRegionBrief manualPercentages).
  assert (Hd : exists d, In d recs).
  { vm_compute. eexists. left. reflexivity. }
  destruct Hd as (d & Hin).
  destruct (X9_trp_is_1000_times_share recs d) as (t & Ht & Heq);
    [constructor|exact Hin|].
  exists d, t. split; [exact Hin|]. split; [exact Ht|exact Heq].
Defined.

(** ** The records of the base snapshot *)

Lemma indexOne_row r M d :
  region (indexOne r M d) = region d /\ channel (indexOne r M d) = channel d /\
  type (indexOne r M d) = type d /\ ta (indexOne r M d) = ta d /\
  tvrTa (indexOne r M d) = tvrTa d /\ aff (indexOne r M d) = aff d /\
  salesTvr (indexOne r M d) = salesTvr d /\ cpp (indexOne r M d) = cpp d /\
  tcpp (indexOne r M d) = tcpp d /\ sortOrder (indexOne r M d) = sortOrder d.
Proof. unfold indexOne. destruct (_ && _); repeat split. Qed.

Lemma indexFold_row (M : string -> Q) (rs : list string) (d : ChannelData) :
  let d' := fold_left (fun x r => indexOne r (M r) x) rs d in
  region d' = region d /\ channel d' = channel d /\ type d' = type d /\
  ta d' = ta d /\ tvrTa d' = tvrTa d /\ aff d' = aff d /\
  salesTvr d' = salesTvr d /\ cpp d' = cpp d /\ tcpp d' = tcpp d /\
  sortOrder d' = sortOrder d.
Proof.
  revert d. induction rs as [|r rs IH]; intro d; simpl; [repeat split|].
  destruct (IH (indexOne r (M r) d)) as (H1&H2&H3&H4&H5&H6&H7&H8&H9&H10).
  destruct (indexOne_row r (M r) d) as (G1&G2&G3&G4&G5&G6&G7&G8&G9&G10).
  repeat split; congruence.
Qed.

(** A record of the base snapshot is a record built from a row, with its
    cost index filled in. *)
Lemma baseSnapshot_source (rows : list RatingRow) (brief : BriefData) (d : ChannelData) :
  In d (baseSnapshot rows brief) ->
  exists row d0,
    In row rows /\ buildRecord brief row = Some d0 /\
    region d = region d0 /\ channel d = channel d0 /\ type d = type d0 /\
    ta d = ta d0 /\ tvrTa d = tvrTa d0 /\ aff d = aff d0 /\
    salesTvr d = salesTvr d0 /\ cpp d = cpp d0 /\ tcpp d = tcpp d0 /\
    sortOrder d = sortOrder d0.
Proof.
  unfold baseSnapshot, calcIndexTcpp. rewrite calcIndex_map. intro Hd.
  apply in_map_iff in Hd as (d0 & <- & Hd0).
  apply In_buildInitialData in Hd0 as (row & Hrow & Hb).
  exists row, d0. split; [exact Hrow|]. split; [exact Hb|].
  apply indexFold_row.
Qed.

Lemma briefOf_indexOf (brief : BriefData) (r : string) (rb : RegionBrief) :
  briefOf brief r = Some rb ->
  exists i, indexOf r (regionsOf brief) = Some i /\
            nth_error (regionBriefs brief) i = Some (r, rb).
Proof.
  unfold briefOf, regionsOf. destruct brief as [l]. simpl.
  induction l as [|[k v] l IH]; simpl; [discriminate|].
  destruct (String.eqb k r) eqn:E.
  - intros [= <-]. apply String.eqb_eq in E. subst k. exists 0%nat. split; reflexivity.
  - intro H. destruct (IH H) as (i & Hi & Hn). exists (S i). rewrite Hi.
    split; [reflexivity|exact Hn].
Qed.

(** X10.  Every record of the base snapshot belongs to a region of the
    brief and carries the audience of that region; its sort order is the
    position of the region in the brief, counted from 1, so the fallback
    value 99 never appears. *)
Theorem X10_base_records_follow_the_brief (rows : list RatingRow) (brief : BriefData)
    (d : ChannelData) :
  In d (baseSnapshot rows brief) ->
  exists i rb,
    nth_error (regionBriefs brief) i = Some (region d, rb) /\
    indexOf (region d) (regionsOf brief) = Some i /\
    ta d = targetAudience rb /\
    sortOrder d = inject_Z (Z.of_nat i + 1).
Proof.
  intro Hd.
  destruct (baseSnapshot_source _ _ _ Hd)
    as (row & d0 & _ & Hb & Hr & _ & _ & Hta & _ & _ & _ & _ & _ & Hso).
  rewrite Hr, Hta, Hso. clear Hr Hta Hso Hd d.
  unfold buildRecord in Hb.
  destruct (rowRegion row) as [key|]; [|discriminate].
  destruct (briefOf brief key) as [rb|] eqn:Hbrief; [|discriminate].
  destruct (rowChannel row) as [name|]; [|discriminate].
  destruct (negb (rowTaColumns row)); [discriminate|].
  injection Hb as <-. simpl.
  destruct (briefOf_indexOf _ _ _ Hbrief) as (i & Hi & Hn).
  exists i, rb. unfold sortOrderOf. rewrite Hi. repeat split; assumption.
Qed.

Lemma X10_base_records_witness :
  exists d i rb,
    In d (baseSnapshot twoRegionRows twoRegionBrief) /\
    nth_error (regionBriefs twoRegionBrief) i = Some (region d, rb) /\
    indexOf (region d) (regionsOf twoRegionBrief) = Some i /\
    ta d = targetAudience rb /\
    sortOrder d = inject_Z (Z.of_nat i + 1).
Proof.
  assert (Hd : exists d, In d (baseSnapshot twoRegionRows twoRegionBrief)).
  { vm_compute. eexists. right. right. left. reflexivity. }
  destruct Hd as (d & Hin).
  destruct (X10_base_records_follow_the_brief twoRegionRows twoRegionBrief d Hin)
    as (i & rb & H).
  exists d, i, rb. split; [exact Hin|exact H].
Defined.

Lemma Qdiv_mult_back (a b : Q) : ~ b == 0 -> a / b * b == a.
Proof. intro H. field. exact H. Qed.


(** X11.  The columns of the base snapshot agree with each other: an
    affinity is positive and Sales TVR times affinity gives back TVR TA; a
    TCPP comes with a price, and times the affinity (channels bought by
    GRP) or times 3 and the TVR TA (channels bought by the minute) it gives
    back that price. *)
Theorem X11_base_columns_are_consistent (rows : list RatingRow) (brief : BriefData)
    (d : ChannelData) :
  In d (baseSnapshot rows brief) ->
  (forall a, aff d = Some a ->
     0 < a /\
     forall v, tvrTa d = Some v -> exists s, salesTvr d = Some s /\ s * a == v) /\
  (forall t, tcpp d = Some t ->
     exists c, cpp d = Some c /\
       match type d with
       | GRP => exists a, aff d = Some a /\ t * a == c
       | Min => exists v, tvrTa d = Some v /\ 0 < v /\ t * 3 * v == c
       end).
Proof.
  intro Hd.
  destruct (baseSnapshot_source _ _ _ Hd)
    as (row & d0 & _ & Hb & _ & _ & Hty & _ & Htv & Haf & Hsa & Hcp & Htc & _).
  rewrite Hty, Htv, Haf, Hsa, Hcp, Htc. clear Hty Htv Haf Hsa Hcp Htc Hd d.
  unfold buildRecord in Hb.
  destruct (rowRegion row) as [key|]; [|discriminate].
  destruct (briefOf brief key) as [rb|]; [|discriminate].
  destruct (rowChannel row) as [name|]; [|discriminate].
  destruct (negb (rowTaColumns row)); [discriminate|].
  injection Hb as <-. cbv zeta. cbn [type tvrTa aff salesTvr cpp tcpp].
  set (a0 := numVal (rowTotalTvrTa row) / numVal (rowSalesTvr row)).
  assert (Hmin : forall t,
             (if truthy (rowCpp row) && gt0 (rowAvgTvrTa row)
              then Some (numVal (rowCpp row) / 3 / numVal (rowAvgTvrTa row))
              else None) = Some t ->
             exists c, rowCpp row = Some c /\
               exists v, rowAvgTvrTa row = Some v /\ 0 < v /\ t * 3 * v == c).
  { intro t.
    destruct (truthy (rowCpp row) && gt0 (rowAvgTvrTa row)) eqn:E; [|discriminate].
    intros [= <-]. apply andb_true_iff in E as [Hc Hv].
    destruct (rowCpp row) as [c|]; [|discriminate].
    destruct (rowAvgTvrTa row) as [v|]; [|discriminate].
    exists c. split; [reflexivity|]. exists v. split; [reflexivity|].
    apply Qltb_lt in Hv. split; [exact Hv|]. cbn [numVal]. field.
    intro Hz. rewrite Hz in Hv. apply (Qlt_irrefl _ Hv). }
  destruct (gt0 (rowTotalTvrTa row) && gt0 (rowSalesTvr row)) eqn:Eaff.
  - assert (Hpos : 0 < a0).
    { apply andb_true_iff in Eaff as [H1 H2].
      apply Qdiv_pos; apply gt0_pos; assumption. }
    assert (Hnz : ~ a0 == 0) by (intro Hz; rewrite Hz in Hpos; apply (Qlt_irrefl _ Hpos)).
    assert (Ht1 : truthy (Some a0) = true).
    { cbn [truthy]. destruct (Qeq_bool a0 0) eqn:Ez; [|reflexivity].
      apply Qeq_bool_iff in Ez. contradiction. }
    assert (Ht2 : gt0 (Some a0) = true) by (apply Qltb_lt; exact Hpos).
    rewrite Ht1, Ht2. cbn [andb numVal].
    split.
    + intros a [= <-]. split; [exact Hpos|].
      intros v Hv. rewrite Hv. eexists. split; [reflexivity|].
      apply Qdiv_mult_back. exact Hnz.
    + intros t. destruct (_ || _ || _); [apply Hmin|].
      rewrite !andb_true_r.
      destruct (truthy (rowCpp row)) eqn:Hc; [|discriminate].
      intros [= <-]. destruct (rowCpp row) as [c|]; [|discriminate].
      exists c. split; [reflexivity|]. exists a0. split; [reflexivity|].
      cbn [numVal]. apply Qdiv_mult_back. exact Hnz.
  - split; [discriminate|].
    intros t. destruct (_ || _ || _); [apply Hmin|].
    cbn [truthy]. rewrite andb_false_r. discriminate.
Qed.

Lemma X11_base_columns_witness :
  exists d a c,
    In d (baseSnapshot mixedRows orbitalBrief) /\ aff d = Some a /\ cpp d = Some c /\
    0 < a /\ exists t, tcpp d = Some t /\ t * a == c.
Proof.
  assert (Hd : exists d a c t, In d (baseSnapshot mixedRows orbitalBrief) /\
                               aff d = Some a /\ cpp d = Some c /\ tcpp d = Some t /\
                               type d = GRP).
  { vm_compute. do 4 eexists. split; [left; reflexivity|repeat split]. }
  destruct Hd as (d & a & c & t & Hin & Ha & Hc & Ht & Hty).
  destruct (X11_base_columns_are_consistent mixedRows orbitalBrief d Hin) as [H1 H2].
  destruct (H1 a Ha) as [Hpos _].
  destruct (H2 t Ht) as (c' & Hc' & Hform).
  rewrite Hty in Hform. destruct Hform as (a' & Ha' & Heq).
  exists d, a, c. split; [exact Hin|]. split; [exact Ha|]. split; [exact Hc|].
  split; [exact Hpos|]. exists t. split; [exact Ht|].
  assert (a' = a) by congruence. assert (c' = c) by congruence. subst. exact Heq.
Defined.

(** ** The summaries *)

Lemma regionKpisOf_In (splits : list (string * list ChannelData)) (r name : string)
    (k : SummaryKPIs) :
  In (name, k) (regionKpisOf splits r) <->
  exists recs, In (name, recs) splits /\ kpisOfSplit r recs = Some k.
Proof.
  unfold regionKpisOf. rewrite <- list_elem_of_In, list_elem_of_omap. split.
  - intros ([n recs] & Hin & H). simpl in H.
    destruct (kpisOfSplit r recs) as [k'|] eqn:E; [|discriminate].
    injection H as <- <-. exists recs. split; [apply list_elem_of_In; exact Hin|exact E].
  - intros (recs & Hin & E). exists (name, recs).
    split; [apply list_elem_of_In; exact Hin|]. simpl. rewrite E. reflexivity.
Qed.

Lemma kpisOfSplit_inv (r : string) (recs : list ChannelData) (k : SummaryKPIs) :
  kpisOfSplit r recs = Some k ->
  (exists d, In d recs /\ inRegionSel r d = true) /\
  trps k = sumBy (fun d => orNum (trp d) 0) (List.filter (inRegionSel r) recs) /\
  avrTvr k = sumBy (fun d => orNum (tvrTa d) 0 * orNum (share d) 0)
               (List.filter (inRegionSel r) recs) /\
  affinity k = sumBy (fun d => orNum (aff d) 0 * orNum (share d) 0)
                 (List.filter (inRegionSel r) recs) /\
  cppTa k = sumBy (fun d => orNum (tcpp d) 0 * orNum (share d) 0)
              (List.filter (inRegionSel r) recs) /\
  budget k = cppTa k * trps k /\ costIndex k = 0.
Proof.
  unfold kpisOfSplit.
  destruct (List.filter (inRegionSel r) recs) as [|d0 sel] eqn:Hsel; [discriminate|].
  cbn [List.length Nat.ltb Nat.leb]. intros [= <-]. cbn [trps avrTvr affinity cppTa budget costIndex].
  split; [|repeat split].
  exists d0. apply filter_In. rewrite Hsel. left. reflexivity.
Qed.

(** What the cost-index step does to a table of KPIs. *)
Lemma withCostIndex_none (regionKpis : list (string * SummaryKPIs)) :
  (forall kv, In kv regionKpis -> ~ 0 < budget (snd kv)) ->
  withCostIndex regionKpis = regionKpis.
Proof.
  intro H. unfold withCostIndex.
  destruct (List.filter (Qltb 0) (map (fun kv => budget (snd kv)) regionKpis))
    as [|b bs] eqn:E; [reflexivity|].
  exfalso.
  assert (Hb : In b (List.filter (Qltb 0) (map (fun kv => budget (snd kv)) regionKpis)))
    by (rewrite E; left; reflexivity).
  apply filter_In in Hb as [Hb Hpos]. apply in_map_iff in Hb as (kv & <- & Hkv).
  apply Qltb_lt in Hpos. exact (H kv Hkv Hpos).
Qed.

Lemma withCostIndex_some (regionKpis : list (string * SummaryKPIs)) :
  (exists kv, In kv regionKpis /\ 0 < budget (snd kv)) ->
  exists M,
    0 < M /\
    (forall kv, In kv regionKpis -> budget (snd kv) <= M) /\
    (exists kv, In kv regionKpis /\ budget (snd kv) == M) /\
    withCostIndex regionKpis
    = map (fun kv => (fst kv, set_costIndex (budget (snd kv) / M) (snd kv))) regionKpis.
Proof.
  intros (kv0 & Hkv0 & Hpos0). unfold withCostIndex.
  set (budgets := List.filter (Qltb 0) (map (fun kv => budget (snd kv)) regionKpis)).
  assert (Hin0 : In (budget (snd kv0)) budgets).
  { apply filter_In. split; [apply in_map_iff; exists kv0; split; auto|].
    apply Qltb_lt. exact Hpos0. }
  assert (Hne : budgets <> []) by (intro E; rewrite E in Hin0; destruct Hin0).
  destruct budgets as [|b bs] eqn:Eb; [congruence|].
  cbn [List.length Nat.ltb Nat.leb]. rewrite <- Eb in *. clear Eb b bs.
  destruct (maxList_attained budgets Hne) as (x & Hx & Hmax).
  apply filter_In in Hx as [Hx Hxpos]. apply Qltb_lt in Hxpos.
  apply in_map_iff in Hx as (kvx & Hkvx & Hinx).
  assert (HM : 0 < maxList budgets) by (rewrite Hmax; exact Hxpos).
  exists (maxList budgets). split; [exact HM|]. split; [|split].
  - intros kv Hkv.
    destruct (Qlt_le_dec 0 (budget (snd kv))) as [Hp|Hn].
    + apply maxList_ge. apply filter_In.
      split; [apply in_map_iff; exists kv; split; auto|apply Qltb_lt; exact Hp].
    + apply Qlt_le_weak in HM. eapply Qle_trans; eassumption.
  - exists kvx. split; [exact Hinx|]. rewrite Hkvx. symmetry. exact Hmax.
  - apply Qltb_lt in HM. rewrite HM. reflexivity.
Qed.

Lemma generateSummaries_In (splits : list (string * list ChannelData))
    (brief : BriefData) (r : string) (s : RegionSummary) :
  In (r, s) (generateSummaries splits brief) ->
  In r (regionsOf brief) /\ s = summaryOf splits r.
Proof.
  unfold generateSummaries. intro H. apply in_map_iff in H as (r0 & [= <- <-] & Hr).
  split; [exact Hr|reflexivity].
Qed.

(** X12.  The cost index of a region's splits is their budget over the
    largest positive budget of the region: it never exceeds 1 and one
    split has exactly 1.  When no split of the region has a positive
    budget, every cost index stays 0. *)
Theorem X12_cost_index_is_relative_to_the_largest_budget
    (splits : list (string * list ChannelData)) (brief : BriefData) (r : string)
    (s : RegionSummary) :
  In (r, s) (generateSummaries splits brief) ->
  ((forall name k, In (name, k) (kpis s) -> ~ 0 < budget k) ->
   forall name k, In (name, k) (kpis s) -> costIndex k = 0) /\
  ((exists name k, In (name, k) (kpis s) /\ 0 < budget k) ->
   exists M,
     0 < M /\
     (forall name k, In (name, k) (kpis s) ->
        budget k <= M /\ costIndex k == budget k / M /\ costIndex k <= 1) /\
     (exists name k, In (name, k) (kpis s) /\ budget k == M /\ costIndex k == 1)).
Proof.
  intro Hs. apply generateSummaries_In in Hs as [_ ->]. cbn [summaryOf kpis].
  set (K := regionKpisOf splits r).
  assert (Hzero : forall name k, In (name, k) K -> costIndex k = 0).
  { intros name k Hk. apply regionKpisOf_In in Hk as (recs & _ & Hk).
    apply kpisOfSplit_inv in Hk. tauto. }
  destruct (List.filter (Qltb 0) (map (fun kv => budget (snd kv)) K)) as [|b bs] eqn:E.
  - assert (Hnone : forall kv, In kv K -> ~ 0 < budget (snd kv)).
    { intros kv Hkv Hpos.
      assert (In (budget (snd kv))
                (List.filter (Qltb 0) (map (fun kv => budget (snd kv)) K))) as Hin.
      { apply filter_In. split; [apply in_map_iff; exists kv; split; auto|].
        apply Qltb_lt. exact Hpos. }
      rewrite E in Hin. destruct Hin. }
    rewrite (withCostIndex_none K Hnone). split.
    + intros _. exact Hzero.
    + intros (name & k & Hk & Hpos). exfalso. exact (Hnone (name, k) Hk Hpos).
  - assert (Hsome : exists kv, In kv K /\ 0 < budget (snd kv)).
    { assert (In b (List.filter (Qltb 0) (map (fun kv => budget (snd kv)) K))) as Hb
        by (rewrite E; left; reflexivity).
      apply filter_In in Hb as [Hb Hpos]. apply in_map_iff in Hb as (kv & <- & Hkv).
      exists kv. split; [exact Hkv|apply Qltb_lt; exact Hpos]. }
    destruct (withCostIndex_some K Hsome) as (M & HM & Hle & (kvx & Hkvx & Hx) & ->).
    assert (HMnz : ~ M == 0) by (intro Hz; rewrite Hz in HM; apply (Qlt_irrefl _ HM)).
    split.
    + intros Hnone name k Hk. exfalso.
      destruct Hsome as (kv & Hkv & Hpos).
      apply (Hnone (fst kv) (set_costIndex (budget (snd kv) / M) (snd kv))); [|exact Hpos].
      apply in_map_iff. exists kv. split; [reflexivity|exact Hkv].
    + intros _. exists M. split; [exact HM|]. split.
      * intros name k Hk. apply in_map_iff in Hk as (kv & [= <- <-] & Hkv).
        cbn [budget costIndex set_costIndex]. split; [apply Hle; exact Hkv|].
        split; [reflexivity|].
        apply Qle_shift_div_r; [exact HM|]. rewrite Qmult_1_l. apply Hle. exact Hkv.
      * exists (fst kvx), (set_costIndex (budget (snd kvx) / M) (snd kvx)). split.
        -- apply in_map_iff. exists kvx. split; [reflexivity|exact Hkvx].
        -- cbn [budget costIndex set_costIndex]. split; [exact Hx|].
           rewrite Hx. field. exact HMnz.
Qed.

Lemma X12_cost_index_witness :
  exists s M,
    In ("Москва", s) (generateSummaries mixedSplits orbitalBrief) /\
    0 < M /\
    (forall name k, In (name, k) (kpis s) ->
       budget k <= M /\ costIndex k == budget k / M /\ costIndex k <= 1) /\
    (exists name k, In (name, k) (kpis s) /\ budget k == M /\ costIndex k == 1).
Proof.
  pose (s := summaryOf mixedSplits "Москва").
  assert (Hin : In ("Москва", s) (generateSummaries mixedSplits orbitalBrief))
    by (left; reflexivity).
  destruct (X12_cost_index_is_relative_to_the_largest_budget
              mixedSplits orbitalBrief "Москва" s Hin) as [_ H].
  destruct H as (M & HM & Hall & Hone).
  - vm_compute. do 2 eexists. split; [left; reflexivity|reflexivity].
  - exists s, M. split; [exact Hin|]. split; [exact HM|]. split; [exact Hall|exact Hone].
Defined.

Lemma withCostIndex_In (regionKpis : list (string * SummaryKPIs)) (name : string)
    (k : SummaryKPIs) :
  In (name, k) (withCostIndex regionKpis) ->
  exists k0, In (name, k0) regionKpis /\ k = set_costIndex (costIndex k) k0.
Proof.
  assert (Hid : forall k0, k0 = set_costIndex (costIndex k0) k0)
    by (intros [? ? ? ? ? ?]; reflexivity).
  unfold withCostIndex.
  destruct (0 <? _)%nat; [|intro H; exists k; split; [exact H|apply Hid]].
  cbv zeta. destruct (Qltb 0 _); [|intro H; exists k; split; [exact H|apply Hid]].
  intro H. apply in_map_iff in H as ([n k0] & [= <- <-] & Hin).
  exists k0. split; [exact Hin|reflexivity].
Qed.

Lemma summary_kpi_source (splits : list (string * list ChannelData)) (r name : string)
    (k : SummaryKPIs) :
  In (name, k) (kpis (summaryOf splits r)) ->
  exists recs k0,
    In (name, recs) splits /\ kpisOfSplit r recs = Some k0 /\
    k = set_costIndex (costIndex k) k0.
Proof.
  cbn [summaryOf kpis]. intro H.
  apply withCostIndex_In in H as (k0 & Hk0 & Hk).
  apply regionKpisOf_In in Hk0 as (recs & Hrecs & Hk0).
  exists recs, k0. repeat split; assumption.
Qed.

(** X13.  A KPI entry of a region belongs to a split that selects a
    channel of the region; its budget is its CPP times its TRPs; and for a
    split produced by a generator its TRPs are 1000 times the sum of the
    shares of the region's selected channels. *)
Theorem X13_summary_trps_are_1000_times_the_shares
    (splits : list (string * list ChannelData)) (brief : BriefData) (r : string)
    (s : RegionSummary) (name : string) (k : SummaryKPIs) :
  In (r, s) (generateSummaries splits brief) -> In (name, k) (kpis s) ->
  exists recs,
    In (name, recs) splits /\
    (exists d, In d recs /\ region d = r /\ selected d = true) /\
    budget k = cppTa k * trps k /\
    (SplitOutput recs -> trps k == 1000 * shareSum (inRegionSel r) recs).
Proof.
  intros Hs Hk. apply generateSummaries_In in Hs as [_ ->].
  apply summary_kpi_source in Hk as (recs & k0 & Hrecs & Hk0 & ->).
  apply kpisOfSplit_inv in Hk0 as ((d & Hd & Hsel) & Htrps & _ & _ & _ & Hbudget & _).
  exists recs. split; [exact Hrecs|]. split; [|split].
  - exists d. split; [exact Hd|].
    unfold inRegionSel in Hsel. apply andb_true_iff in Hsel as [Hr Hsel].
    split; [apply inRegion_eq; exact Hr|exact Hsel].
  - cbn [budget cppTa trps set_costIndex]. exact Hbudget.
  - intro Hout. cbn [trps set_costIndex]. rewrite Htrps. unfold shareSum.
    rewrite Qmult_comm, <- sumBy_scale. apply sumBy_ext. intros x Hx.
    apply filter_In in Hx as [Hx _].
    destruct (split_record_trp recs x Hout Hx) as (t & Ht & Heq).
    rewrite Ht, orNum_Some. exact Heq.
Qed.

Lemma X13_summary_trps_witness :
  exists s k recs,
    In ("Москва", s) (generateSummaries mixedSplits orbitalBrief) /\
    In ("Сплит (Affinity)", k) (kpis s) /\
    In ("Сплит (Affinity)", recs) mixedSplits /\
    trps k == 1000 * shareSum (inRegionSel "Москва") recs.
Proof.
  pose (s := summaryOf mixedSplits "Москва").
  assert (Hin : In ("Москва", s) (generateSummaries mixedSplits orbitalBrief))
    by (left; reflexivity).
  assert (Hk : exists k, In ("Сплит (Affinity)", k) (kpis s)).
  { vm_compute. eexists. right. left. reflexivity. }
  destruct Hk as (k & Hk).
  destruct (X13_summary_trps_are_1000_times_the_shares
              mixedSplits orbitalBrief "Москва" s "Сплит (Affinity)" k Hin Hk)
    as (recs & Hrecs & _ & _ & Htrps).
  exists s, k, recs. split; [exact Hin|]. split; [exact Hk|]. split; [exact Hrecs|].
  apply Htrps.
  unfold mixedSplits, splitConfigs in Hrecs. cbn [map cfgName cfgLogic cfgApplyLimits] in Hrecs.
  destruct Hrecs as [H|[H|[H|[H|[]]]]]; apply (f_equal snd) in H; cbn [snd] in H;
    rewrite <- H; constructor.
Defined.

(** ** Weighted averages *)

Lemma weighted_sum_bounds {A} (f w : A -> Q) (lo hi : Q) (l : list A) :
  (forall x, In x l -> 0 <= w x /\ lo <= f x /\ f x <= hi) ->
  lo * sumBy w l <= sumBy (fun x => f x * w x) l /\
  sumBy (fun x => f x * w x) l <= hi * sumBy w l.
Proof.
  induction l as [|x l IH]; intro H.
  - rewrite !sumBy_nil. split; rewrite Qmult_0_r; apply Qle_refl.
  - destruct IH as [IHlo IHhi]; [intros y Hy; apply H; right; exact Hy|].
    destruct (H x (or_introl eq_refl)) as (Hw & Hlo & Hhi).
    rewrite !sumBy_cons.
    assert (lo * w x <= f x * w x) by (apply Qmult_le_compat_r; assumption).
    assert (f x * w x <= hi * w x) by (apply Qmult_le_compat_r; assumption).
    split; lra.
Qed.

(** X14.  The three rating KPIs of a split are share-weighted averages:
    when the shares of the region's selected channels are not negative
    and sum to 1, the average TVR, the affinity and the CPP of the
    audience each lie between the smallest and the largest value of the
    metric among those channels. *)
Theorem X14_rating_kpis_are_weighted_averages (r : string) (recs : list ChannelData)
    (k : SummaryKPIs) :
  kpisOfSplit r recs = Some k ->
  (forall d, In d recs -> inRegionSel r d = true -> 0 <= orNum (share d) 0) ->
  shareSum (inRegionSel r) recs == 1 ->
  (forall lo hi,
     (forall d, In d recs -> inRegionSel r d = true ->
                lo <= orNum (tvrTa d) 0 /\ orNum (tvrTa d) 0 <= hi) ->
     lo <= avrTvr k /\ avrTvr k <= hi) /\
  (forall lo hi,
     (forall d, In d recs -> inRegionSel r d = true ->
                lo <= orNum (aff d) 0 /\ orNum (aff d) 0 <= hi) ->
     lo <= affinity k /\ affinity k <= hi) /\
  (forall lo hi,
     (forall d, In d recs -> inRegionSel r d = true ->
                lo <= orNum (tcpp d) 0 /\ orNum (tcpp d) 0 <= hi) ->
     lo <= cppTa k /\ cppTa k <= hi).
Proof.
  intros Hk Hw Hone.
  apply kpisOfSplit_inv in Hk as (_ & _ & Htvr & Haff & Hcpp & _).
  unfold shareSum in Hone.
  assert (Hgen : forall (f : ChannelData -> Q) lo hi,
             (forall d, In d recs -> inRegionSel r d = true -> lo <= f d /\ f d <= hi) ->
             lo <= sumBy (fun d => f d * orNum (share d) 0)
                     (List.filter (inRegionSel r) recs) /\
             sumBy (fun d => f d * orNum (share d) 0)
               (List.filter (inRegionSel r) recs) <= hi).
  { intros f lo hi Hf.
    destruct (weighted_sum_bounds f (fun d => orNum (share d) 0) lo hi
                (List.filter (inRegionSel r) recs)) as [Hlo Hhi].
    - intros d Hd. apply filter_In in Hd as [Hd Hsel].
      split; [apply Hw; assumption|apply Hf; assumption].
    - rewrite Hone, Qmult_1_r in Hlo, Hhi. split; assumption. }
  rewrite Htvr, Haff, Hcpp.
  split; [|split]; intros lo hi Hb; apply Hgen; exact Hb.
Qed.

(** In the Affinity split of the mixed sample the two selected channels
    have a TVR of 1 and of 3; the average TVR lies between them. *)
Lemma X14_rating_kpis_witness :
  exists k,
    kpisOfSplit "Москва"
      (generateSingleSplit (baseSnapshot mixedRows orbitalBrief) orbitalBrief
         "Affinity" true) = Some k /\
    1 <= avrTvr k /\ avrTvr k <= 3.
Proof.
  pose (recs := generateSingleSplit (baseSnapshot mixedRows orbitalBrief) orbitalBrief
                  "Affinity" true).
  assert (Hk : exists k, kpisOfSplit "Москва" recs = Some k)
    by (vm_compute; eexists; reflexivity).
  destruct Hk as (k & Hk).
  assert (Hall : forallb (fun d => negb (inRegionSel "Москва" d)
                                   || (Qle_bool 0 (orNum (share d) 0)
                                       && Qle_bool 1 (orNum (tvrTa d) 0)
                                       && Qle_bool (orNum (tvrTa d) 0) 3)) recs = true)
    by (vm_compute; reflexivity).
  rewrite forallb_forall in Hall.
  assert (Hd : forall d, In d recs -> inRegionSel "Москва" d = true ->
                 0 <= orNum (share d) 0 /\ 1 <= orNum (tvrTa d) 0 /\
                 orNum (tvrTa d) 0 <= 3).
  { intros d Hd Hsel. specialize (Hall d Hd). rewrite Hsel in Hall. simpl in Hall.
    rewrite !andb_true_iff in Hall. destruct Hall as [[H1 H2] H3].
    apply Qle_bool_iff in H1, H2, H3. repeat split; assumption. }
  destruct (X14_rating_kpis_are_weighted_averages "Москва" recs k Hk) as [Htvr _].
  - intros d Hin Hsel. apply (Hd d Hin Hsel).
  - vm_compute. reflexivity.
  - exists k. split; [exact Hk|]. apply Htvr.
    intros d Hin Hsel. apply (Hd d Hin Hsel).
Defined.

(** ** The tables of a summary *)

Lemma setAdd_In (set : list string) (c x : string) :
  In x (setAdd set c) <-> In x set \/ x = c.
Proof.
  unfold setAdd. destruct (existsb (String.eqb c) set) eqn:E.
  - split; [tauto|]. intros [H|Hx]; [exact H|]. subst x.
    apply existsb_exists in E as (y & Hy & Heq). apply String.eqb_eq in Heq.
    subst y. exact Hy.
  - rewrite in_app_iff. simpl. split; intros [H|H]; auto.
    destruct H as [H|[]]. right. symmetry. exact H.
Qed.

Lemma NoDup_snoc {A} (l : list A) (x : A) :
  List.NoDup l -> ~ In x l -> List.NoDup (l ++ [x]).
Proof.
  induction 1 as [|y l Hy Hl IH]; intro Hx; simpl.
  - constructor; [intros []|constructor].
  - constructor.
    + rewrite in_app_iff. simpl. intros [H|[H|[]]]; [contradiction|].
      apply Hx. left. symmetry. exact H.
    + apply IH. intro H. apply Hx. right. exact H.
Qed.

Lemma setAdd_NoDup (set : list string) (c : string) :
  List.NoDup set -> List.NoDup (setAdd set c).
Proof.
  intro H. unfold setAdd. destruct (existsb (String.eqb c) set) eqn:E; [exact H|].
  apply NoDup_snoc; [exact H|]. intro Hin.
  assert (existsb (String.eqb c) set = true)
    by (apply existsb_exists; exists c; split; [exact Hin|apply String.eqb_refl]).
  congruence.
Qed.

Lemma fold_setAdd (cs set : list string) :
  (List.NoDup set -> List.NoDup (fold_left setAdd cs set)) /\
  forall x, In x (fold_left setAdd cs set) <-> In x set \/ In x cs.
Proof.
  revert set. induction cs as [|c cs IH]; intro set; simpl.
  - split; [tauto|]. intro x. tauto.
  - destruct (IH (setAdd set c)) as [Hnd Hin]. split.
    + intro H. apply Hnd, setAdd_NoDup, H.
    + intro x. rewrite Hin, setAdd_In. intuition (subst; auto).
Qed.

Lemma allChannels_fold (r : string) (splits : list (string * list ChannelData))
    (set : list string) :
  let out :=
    fold_left
      (fun set split =>
         fold_left setAdd (map channel (List.filter (listedIn r) (snd split))) set)
      splits set in
  (List.NoDup set -> List.NoDup out) /\
  forall x, In x out <->
            In x set \/
            exists split d, In split splits /\ In d (snd split) /\
                            listedIn r d = true /\ channel d = x.
Proof.
  revert set. induction splits as [|split splits IH]; intro set; simpl.
  - split; [tauto|]. intro x. split; [auto|]. intros [H|(sp & d & [] & _)]. exact H.
  - set (names := map channel (List.filter (listedIn r) (snd split))).
    destruct (IH (fold_left setAdd names set)) as [Hnd Hin].
    destruct (fold_setAdd names set) as [Hnd1 Hin1]. split.
    + intro H. apply Hnd, Hnd1, H.
    + intro x. rewrite Hin, Hin1. split.
      * intros [[H|H]|(sp & d & Hsp & Hd & Hl & Hc)].
        -- left. exact H.
        -- right. unfold names in H. apply in_map_iff in H as (d & Hc & Hd).
           apply filter_In in Hd as [Hd Hl].
           exists split, d. repeat split; auto.
        -- right. exists sp, d. repeat split; auto.
      * intros [H|(sp & d & [<-|Hsp] & Hd & Hl & Hc)].
        -- left. left. exact H.
        -- left. right. unfold names. apply in_map_iff. exists d.
           split; [exact Hc|]. apply filter_In. split; assumption.
        -- right. exists sp, d. repeat split; auto.
Qed.

Lemma listedIn_spec (r : string) (d : ChannelData) :
  listedIn r d = true <->
  region d = r /\ (selected d = true \/ exists x, share d = Some x /\ 0 < x).
Proof.
  unfold listedIn. rewrite andb_true_iff, orb_true_iff. split.
  - intros [Hr Hs]. split; [apply inRegion_eq; exact Hr|].
    destruct Hs as [Hs|Hs]; [left; exact Hs|right].
    destruct (share d) as [x|]; [|discriminate].
    exists x. split; [reflexivity|apply Qltb_lt; exact Hs].
  - intros [Hr Hs]. split; [apply inRegion_eq; exact Hr|].
    destruct Hs as [Hs|(x & Hx & Hpos)]; [left; exact Hs|right].
    rewrite Hx. apply Qltb_lt. exact Hpos.
Qed.

Lemma withCostIndex_names (regionKpis : list (string * SummaryKPIs)) :
  map fst (withCostIndex regionKpis) = map fst regionKpis.
Proof.
  unfold withCostIndex. destruct (0 <? _)%nat; [|reflexivity].
  cbv zeta. destruct (Qltb 0 _); [|reflexivity].
  rewrite map_map. reflexivity.
Qed.

(** X15.  There is one summary per region of the brief, in the order of
    the brief.  Its channel table lists, once each, the names of the
    region's channels that some split selects or gives a positive share,
    every row holding one cell per split in the order of the splits; its
    KPI table has an entry exactly for the splits that select a channel
    of the region. *)
Theorem X15_summary_tables (splits : list (string * list ChannelData))
    (brief : BriefData) :
  map fst (generateSummaries splits brief) = regionsOf brief /\
  forall r s,
    In (r, s) (generateSummaries splits brief) ->
    summaryRegion s = r /\
    List.NoDup (map fst (channels s)) /\
    (forall c, In c (map fst (channels s)) <->
       exists name recs d,
         In (name, recs) splits /\ In d recs /\ region d = r /\ channel d = c /\
         (selected d = true \/ exists x, share d = Some x /\ 0 < x)) /\
    (forall c row, In (c, row) (channels s) -> map fst row = map fst splits) /\
    (forall name, In name (map fst (kpis s)) <->
       exists recs d,
         In (name, recs) splits /\ In d recs /\ region d = r /\ selected d = true).
Proof.
  split.
  - unfold generateSummaries. rewrite map_map. apply map_id.
  - intros r s Hs. apply generateSummaries_In in Hs as [_ ->].
    cbn [summaryOf summaryRegion channels kpis].
    assert (Hnames : map fst (channelsOf splits r) = allChannelsInRegionOf splits r).
    { unfold channelsOf. rewrite map_map. apply map_id. }
    destruct (allChannels_fold r splits []) as [Hnd Hin].
    split; [reflexivity|]. split; [|split; [|split]].
    + rewrite Hnames. apply Hnd. constructor.
    + intro c. rewrite Hnames. unfold allChannelsInRegionOf. rewrite Hin. split.
      * intros [[]|([name recs] & d & Hsp & Hd & Hl & Hc)].
        apply listedIn_spec in Hl as [Hr Hsel].
        exists name, recs, d. repeat split; assumption.
      * intros (name & recs & d & Hsp & Hd & Hr & Hc & Hsel). right.
        exists (name, recs), d. repeat split; try assumption.
        apply listedIn_spec. split; assumption.
    + intros c row H. unfold channelsOf in H.
      apply in_map_iff in H as (c0 & [= <- <-] & _). rewrite map_map. reflexivity.
    + intro name. rewrite withCostIndex_names. split.
      * intro H. apply in_map_iff in H as ([n k] & Hn & Hk). simpl in Hn. subst n.
        apply regionKpisOf_In in Hk as (recs & Hrecs & Hk).
        apply kpisOfSplit_inv in Hk as ((d & Hd & Hsel) & _).
        apply andb_true_iff in Hsel as [Hr Hsel].
        exists recs, d. repeat split; try assumption. apply inRegion_eq. exact Hr.
      * intros (recs & d & Hrecs & Hd & Hr & Hsel).
        destruct (kpisOfSplit r recs) as [k|] eqn:Hk.
        -- apply in_map_iff. exists (name, k). split; [reflexivity|].
           apply regionKpisOf_In. exists recs. split; assumption.
        -- exfalso. unfold kpisOfSplit in Hk.
           assert (Hin' : In d (List.filter (inRegionSel r) recs)).
           { apply filter_In. split; [exact Hd|]. unfold inRegionSel.
             apply andb_true_iff. split; [apply inRegion_eq; exact Hr|exact Hsel]. }
           destruct (List.filter (inRegionSel r) recs); [destruct Hin'|].
           discriminate.
Qed.

(** ** Audience columns *)

Lemma existsb_eqb_string (x : string) (l : list string) :
  existsb (String.eqb x) l = true <-> In x l.
Proof.
  rewrite existsb_exists. split.
  - intros (y & Hy & Heq). apply String.eqb_eq in Heq. subst. exact Hy.
  - intro H. exists x. split; [exact H|apply String.eqb_refl].
Qed.

Lemma matchLazyPrefix_sound (tails : list string) (h p : string) :
  matchLazyPrefix tails h = Some p ->
  exists t, In t tails /\ h = p ++ t /\ clearRun p t = true.
Proof.
  revert p. induction h as [|c h IH]; intro p; cbn [matchLazyPrefix].
  - destruct (existsb (String.eqb "") tails) eqn:E; [|discriminate].
    intros [= <-]. exists "". apply existsb_eqb_string in E. repeat split. exact E.
  - destruct (existsb (String.eqb (String c h)) tails) eqn:E.
    + intros [= <-]. exists (String c h). apply existsb_eqb_string in E.
      repeat split. exact E.
    + destruct (lineTerminatorAt (String c h)) eqn:Elt; [discriminate|].
      destruct (matchLazyPrefix tails h) as [g|]; [|discriminate].
      intros [= <-]. destruct (IH g eq_refl) as (t & Ht & Hh & Hclear).
      exists t. split; [exact Ht|]. split; [simpl; rewrite Hh; reflexivity|].
      cbn [clearRun]. change ((String c g ++ t)%string) with (String c (g ++ t)).
      rewrite <- Hh, Elt, Hclear. reflexivity.
Qed.

Lemma properSuffixes_In (q t t' : string) :
  q <> "" -> (q ++ t)%string = t' -> In t (properSuffixes t').
Proof.
  revert t'. induction q as [|c q IH]; intros t' Hq Heq; [congruence|].
  subst t'. simpl. destruct q as [|c' q].
  - left. reflexivity.
  - right. apply (IH _ ltac:(discriminate) eq_refl).
Qed.

Lemma independentTails_spec (tails : list string) (q t : string) :
  independentTails tails = true -> In t tails -> q <> "" ->
  existsb (String.eqb (q ++ t)) tails = false.
Proof.
  unfold independentTails. rewrite forallb_forall. intros Hind Ht Hq.
  destruct (existsb (String.eqb (q ++ t)) tails) eqn:E; [|reflexivity].
  apply existsb_eqb_string in E. specialize (Hind _ E).
  rewrite forallb_forall in Hind.
  specialize (Hind t (properSuffixes_In q t _ Hq eq_refl)).
  apply negb_true_iff in Hind.
  assert (existsb (String.eqb t) tails = true) by (apply existsb_eqb_string; exact Ht).
  congruence.
Qed.

Lemma matchLazyPrefix_complete (tails : list string) (p t : string) :
  independentTails tails = true -> In t tails -> clearRun p t = true ->
  matchLazyPrefix tails (p ++ t) = Some p.
Proof.
  intros Hind Ht. induction p as [|c p IH]; intro Hclear.
  - change (("" ++ t)%string) with t. apply existsb_eqb_string in Ht.
    destruct t as [|c t]; cbn [matchLazyPrefix]; rewrite Ht; reflexivity.
  - cbn [clearRun] in Hclear. apply andb_true_iff in Hclear as [Hlt Hclear].
    apply negb_true_iff in Hlt.
    pose proof (independentTails_spec tails (String c p) t Hind Ht ltac:(discriminate))
      as Hno.
    change ((String c p ++ t)%string) with (String c (p ++ t)) in *.
    cbn [matchLazyPrefix]. rewrite Hno, Hlt, (IH Hclear). reflexivity.
Qed.

(** A text that starts with an underscore cannot complete a line
    terminator begun in what precedes it. *)
Lemma lineTerminatorAt_before_underscore (q t : string) :
  q <> "" ->
  lineTerminatorAt (q ++ String (byte 95) t) = lineTerminatorAt (q ++ "").
Proof.
  assert (H1 : Ascii.eqb (byte 95) (byte 128) = false) by reflexivity.
  assert (H2 : Ascii.eqb (byte 95) (byte 168) = false) by reflexivity.
  assert (H3 : Ascii.eqb (byte 95) (byte 169) = false) by reflexivity.
  intro Hq. destruct q as [|c1 [|c2 [|c3 q]]]; [congruence| | |];
    unfold lineTerminatorAt; cbv [String.append].
  - destruct (Ascii.eqb c1 (byte 10) || Ascii.eqb c1 (byte 13)); [reflexivity|].
    destruct (Ascii.eqb c1 (byte 226)); [|reflexivity].
    destruct t; [reflexivity|]. rewrite H1. reflexivity.
  - destruct (Ascii.eqb c1 (byte 10) || Ascii.eqb c1 (byte 13)); [reflexivity|].
    destruct (Ascii.eqb c1 (byte 226)); [|reflexivity].
    rewrite H2, H3. apply andb_false_r.
  - reflexivity.
Qed.

Lemma clearRun_before_underscore (p t : string) :
  clearRun p (String (byte 95) t) = noLineBreak p.
Proof.
  unfold noLineBreak. induction p as [|c p IH]; [reflexivity|].
  cbn [clearRun]. rewrite IH.
  rewrite (lineTerminatorAt_before_underscore (String c p) t) by discriminate.
  reflexivity.
Qed.

Lemma tvrTails_underscore (t : string) :
  In t tvrTails -> exists t', t = String (byte 95) t'.
Proof.
  intros [<-|[<-|[<-|[<-|[]]]]]; eexists; reflexivity.
Qed.

(** X16.  The audience a header stands for, as the pre-parser reads it:
    a header is read as an audience column exactly when it is a name
    followed by one of the four TVR suffixes, and the audience is that
    name; conversely a name without line breaks followed by one of the
    suffixes is read back as that name. *)
Theorem X16_audience_header_round_trip :
  (forall h ta, matchLazyPrefix tvrTails h = Some ta ->
     exists t, In t tvrTails /\ h = (ta ++ t)%string /\ noLineBreak ta = true) /\
  (forall ta t, In t tvrTails -> noLineBreak ta = true ->
     matchLazyPrefix tvrTails (ta ++ t) = Some ta).
Proof.
  split.
  - intros h ta H. apply matchLazyPrefix_sound in H as (t & Ht & Hh & Hclear).
    exists t. split; [exact Ht|]. split; [exact Hh|].
    destruct (tvrTails_underscore t Ht) as (t' & ->).
    rewrite clearRun_before_underscore in Hclear. exact Hclear.
  - intros ta t Ht Hclear. apply matchLazyPrefix_complete.
    + vm_compute. reflexivity.
    + exact Ht.
    + destruct (tvrTails_underscore t Ht) as (t' & ->).
      rewrite clearRun_before_underscore. exact Hclear.
Qed.

Lemma taSetOf_fold (headers : list string) (set : list string) (ta : string) :
  In ta
     (fold_left
        (fun taSet h =>
           match matchLazyPrefix tvrTails h with
           | Some group => if nonEmpty group then setAdd taSet group else taSet
           | None => taSet
           end)
        headers set) <->
  In ta set \/
  exists h, In h headers /\ matchLazyPrefix tvrTails h = Some ta /\ nonEmpty ta = true.
Proof.
  revert set. induction headers as [|h headers IH]; intro set; simpl.
  - split; [auto|]. intros [H|(h & [] & _)]. exact H.
  - rewrite IH. clear IH. split.
    + intros [H|(h' & Hh' & Hm & Hne)]; [|right; exists h'; auto].
      destruct (matchLazyPrefix tvrTails h) as [g|] eqn:Hm; [|left; exact H].
      destruct (nonEmpty g) eqn:Hne; [|left; exact H].
      apply setAdd_In in H as [H|Heq]; [left; exact H|]. subst ta.
      right. exists h. auto.
    + intros [H|(h' & [<-|Hh'] & Hm & Hne)].
      * left. destruct (matchLazyPrefix tvrTails h) as [g|]; [|exact H].
        destruct (nonEmpty g); [|exact H]. apply setAdd_In. left. exact H.
      * left. rewrite Hm, Hne. apply setAdd_In. right. reflexivity.
      * right. exists h'. auto.
Qed.

(** X17.  A header row that passes the audience check of
    [validateRatingsFile] gives the pre-parser at least one audience: the
    audience of the pair that the check found, which has a column of
    average TVR and a column of total TVR in the row. *)
Theorem X17_validated_headers_offer_an_audience (headers : list string) :
  hasTaColumnPair headers = true ->
  exists ta,
    In ta (taSetOf headers) /\ ta <> "" /\
    (In (ta ++ "__AVG Reg TVR") headers \/ In (ta ++ "__AVG TVR") headers) /\
    (In (ta ++ "__PBA Reg TVR") headers \/ In (ta ++ "__TVR") headers).
Proof.
  unfold hasTaColumnPair. intro H. apply existsb_exists in H as (h & Hh & H).
  destruct (matchLazyPrefix avgTails h) as [ta|] eqn:Hm; [|discriminate].
  destruct (nonEmpty ta) eqn:Hne; [|discriminate].
  apply matchLazyPrefix_sound in Hm as (t & Ht & Heq & Hclear).
  exists ta. split; [|split; [|split]].
  - unfold taSetOf. apply taSetOf_fold. right. exists h.
    split; [exact Hh|]. split; [|exact Hne].
    rewrite Heq. apply matchLazyPrefix_complete; [vm_compute; reflexivity| |exact Hclear].
    destruct Ht as [<-|[<-|[]]]; simpl; auto.
  - intro E. subst ta. discriminate.
  - subst h. destruct Ht as [<-|[<-|[]]]; [left|right]; exact Hh.
  - simpl in H. rewrite !orb_true_iff in H. destruct H as [H|[H|H]]; [| |discriminate].
    + left. apply existsb_eqb_string. exact H.
    + right. apply existsb_eqb_string. exact H.
Qed.

Lemma X17_validated_headers_witness :
  exists ta,
    In ta (taSetOf templateHeaders) /\ ta <> "" /\
    (In (ta ++ "__AVG Reg TVR") templateHeaders \/
     In (ta ++ "__AVG TVR") templateHeaders) /\
    (In (ta ++ "__PBA Reg TVR") templateHeaders \/ In (ta ++ "__TVR") templateHeaders).
Proof.
  apply (X17_validated_headers_offer_an_audience templateHeaders).
  vm_compute. reflexivity.
Defined.

(** ** Looking a column up by its names *)

Lemma findIndex_spec {A} (p : A -> bool) (l : list A) :
  (findIndex p l = (-1)%Z /\ forall x, In x l -> p x = false) \/
  ((0 <= findIndex p l)%Z /\
   (exists x, nth_error l (Z.to_nat (findIndex p l)) = Some x /\ p x = true) /\
   forall j x, (j < Z.to_nat (findIndex p l))%nat -> nth_error l j = Some x ->
               p x = false).
Proof.
  induction l as [|a l IH]; cbn [findIndex].
  - left. split; [reflexivity|intros x []].
  - destruct (p a) eqn:Ea.
    + right. split; [lia|]. split; [exists a; split; [reflexivity|exact Ea]|].
      intros j x Hj. simpl in Hj. lia.
    + destruct IH as [[Hm Hall]|(Hpos & (x & Hx & Hpx) & Hbefore)].
      * left. rewrite Hm. simpl. split; [reflexivity|].
        intros x [<-|Hx]; [exact Ea|apply Hall; exact Hx].
      * right. cbv zeta.
        destruct (findIndex p l =? -1)%Z eqn:E; [apply Z.eqb_eq in E; lia|].
        replace (Z.to_nat (findIndex p l + 1)) with (S (Z.to_nat (findIndex p l)))
          by lia.
        split; [lia|]. split; [exists x; split; [exact Hx|exact Hpx]|].
        intros [|j] y Hj Hy; simpl in Hy.
        -- injection Hy as <-. exact Ea.
        -- apply (Hbefore j y); [lia|exact Hy].
Qed.

(** X18.  [findColumn] answers -1 exactly when no header matches any of
    the names (a missing header cell matches none).  Otherwise the names
    are tried in the order given, before the columns: the answer is the
    leftmost column that matches the first name matched by any column. *)
Theorem X18_findColumn_tries_names_in_order (trim toLowerCase : string -> string)
    (headers : list (option string)) (namesToSearch : list string) :
  let index := findColumn trim toLowerCase headers namesToSearch in
  (index = (-1)%Z <->
   forall name h, In name namesToSearch -> In h headers ->
                  headerIs trim toLowerCase name h = false) /\
  (index <> (-1)%Z ->
   (0 <= index)%Z /\
   exists k name,
     nth_error namesToSearch k = Some name /\
     (exists h, nth_error headers (Z.to_nat index) = Some h /\
                headerIs trim toLowerCase name h = true) /\
     (forall j h, (j < Z.to_nat index)%nat -> nth_error headers j = Some h ->
                  headerIs trim toLowerCase name h = false) /\
     (forall k' name' h, (k' < k)%nat -> nth_error namesToSearch k' = Some name' ->
                         In h headers -> headerIs trim toLowerCase name' h = false)).
Proof.
  induction namesToSearch as [|name rest IH]; cbn [findColumn]; cbv zeta.
  - split; [|congruence]. split; [intros _ name h []|reflexivity].
  - destruct (findIndex_spec (headerIs trim toLowerCase name) headers)
      as [[Hm Hall]|(Hpos & Hhit & Hbefore)].
    + rewrite Hm. simpl. cbv zeta in IH. destruct IH as [IH1 IH2]. split.
      * rewrite IH1. split.
        -- intros H n h [<-|Hn] Hh; [apply Hall; exact Hh|apply H; assumption].
        -- intros H n h Hn Hh. apply H; [right; exact Hn|exact Hh].
      * intro Hne. destruct (IH2 Hne) as (Hp & k & n & Hk & Hh & Hb & Hearlier).
        split; [exact Hp|]. exists (S k), n. split; [exact Hk|].
        split; [exact Hh|]. split; [exact Hb|].
        intros [|k'] n' h Hk' Hn' Hh'; simpl in Hn'.
        -- injection Hn' as <-. apply Hall. exact Hh'.
        -- apply (Hearlier k' n' h); [lia|exact Hn'|exact Hh'].
    + destruct (findIndex (headerIs trim toLowerCase name) headers =? -1)%Z eqn:E;
        [apply Z.eqb_eq in E; lia|].
      simpl. split.
      * split; [lia|]. intro H. exfalso.
        destruct Hhit as (h & Hh & Hp). apply nth_error_In in Hh.
        rewrite (H name h (or_introl eq_refl) Hh) in Hp. discriminate.
      * intros _. split; [exact Hpos|]. exists 0%nat, name.
        split; [reflexivity|]. split; [exact Hhit|]. split; [exact Hbefore|].
        intros k' n' h Hk'. lia.
Qed.

(** ** Shares are fractions *)

Lemma orNum_nonneg (x : num) (d : Q) : 0 <= numVal x -> 0 <= d -> 0 <= orNum x d.
Proof.
  destruct x as [q|]; simpl; intros Hq Hd; [|exact Hd].
  destruct (Qeq_bool q 0); assumption.
Qed.

Lemma Qdiv_nonneg (a b : Q) : 0 <= a -> 0 < b -> 0 <= a / b.
Proof.
  intros Ha Hb. unfold Qdiv. apply Qmult_le_0_compat; [exact Ha|].
  apply Qlt_le_weak, Qinv_lt_0_compat. exact Hb.
Qed.

Lemma ratingAff_nonneg (d : ChannelData) : soundRecord d -> 0 <= ratingAff d.
Proof.
  intros (Ht & Ha & _). unfold ratingAff.
  apply Qmult_le_0_compat; apply orNum_nonneg; try assumption; [apply Qle_refl|].
  unfold Qle. simpl. lia.
Qed.

Lemma ratingTcpp_nonneg (avgTcpp : Q) (d : ChannelData) :
  soundRecord d -> 0 <= ratingTcpp Qdiv avgTcpp d.
Proof.
  intros (Ht & _ & _). unfold ratingTcpp.
  destruct (Qltb 0 avgTcpp && truthy (tcpp d) && gt0 (tcpp d)) eqn:E; [|apply Qle_refl].
  rewrite !andb_true_iff in E. destruct E as [[Havg _] Hg].
  apply Qltb_lt in Havg. apply gt0_pos in Hg.
  apply Qdiv_nonneg; [apply orNum_nonneg; [exact Ht|apply Qle_refl]|].
  apply Qdiv_pos; assumption.
Qed.

Lemma ratingEff_nonneg (d : ChannelData) : soundRecord d -> 0 <= ratingEff Qdiv d.
Proof.
  intros (Ht & _ & _). unfold ratingEff.
  destruct (Qltb 0 (orNum (cpp d) 0)) eqn:E; [|apply Qle_refl].
  apply Qltb_lt in E. apply orNum_pos_numVal in E.
  apply Qdiv_nonneg; [apply orNum_nonneg; [exact Ht|apply Qle_refl]|exact E].
Qed.

Lemma plainRating_nonneg (weightingLogic : string) (avgTcpp : Q) (d : ChannelData) :
  soundRecord d -> 0 <= orNum (plainRating Qdiv weightingLogic avgTcpp d) 0.
Proof.
  intro Hd. unfold plainRating.
  assert (Hsome : forall q, 0 <= q -> 0 <= orNum (Some q) 0)
    by (intros q Hq; apply orNum_nonneg; [exact Hq|apply Qle_refl]).
  destruct (String.eqb weightingLogic "Natural").
  - apply orNum_nonneg; [apply Hd|apply Qle_refl].
  - destruct (String.eqb weightingLogic "Affinity"); [apply Hsome, ratingAff_nonneg, Hd|].
    destruct (String.eqb weightingLogic "Efficiency");
      [apply Hsome, ratingEff_nonneg, Hd|].
    destruct (String.eqb weightingLogic "TCPP"); [apply Hsome, ratingTcpp_nonneg, Hd|].
    apply Hsome. apply orNum_nonneg; [apply Hd|apply Qle_refl].
Qed.

Lemma guarded_share_nonneg (a total : Q) :
  0 <= a -> 0 <= (if Qltb 0 total then a / total else 0).
Proof.
  intro Ha. destruct (Qltb 0 total) eqn:E; [|apply Qle_refl].
  apply Qltb_lt in E. apply Qdiv_nonneg; assumption.
Qed.

Lemma customRating_nonneg (w : Weights) (avgTcpp : Q) (sel : list ChannelData)
    (d : ChannelData) :
  0 <= w_aff w /\ 0 <= w_tcpp w /\ 0 <= w_eff w ->
  List.Forall soundRecord sel -> In d sel ->
  0 <= orNum (customRating Qdiv w (rawRatings Qdiv avgTcpp sel) d) 0.
Proof.
  intros (Hwa & Hwt & Hwe) Hsel Hd. unfold customRating.
  destruct (List.find _ _) as [cw|] eqn:Hfind.
  - apply find_some in Hfind as [Hin _]. unfold rawRatings in Hin.
    apply in_map_iff in Hin as (d0 & <- & Hd0).
    rewrite List.Forall_forall in Hsel. specialize (Hsel d0 Hd0).
    cbn [wr_aff wr_tcpp wr_eff].
    apply orNum_nonneg; [|apply Qle_refl]. cbn [numVal].
    set (ta := sumBy wr_aff _). set (tt := sumBy wr_tcpp _). set (te := sumBy wr_eff _).
    pose proof (guarded_share_nonneg _ ta (ratingAff_nonneg d0 Hsel)) as Ha.
    pose proof (guarded_share_nonneg _ tt (ratingTcpp_nonneg avgTcpp d0 Hsel)) as Ht.
    pose proof (guarded_share_nonneg _ te (ratingEff_nonneg d0 Hsel)) as He.
    pose proof (Qmult_le_0_compat _ _ (percent_nonneg _ Hwa) Ha).
    pose proof (Qmult_le_0_compat _ _ (percent_nonneg _ Hwt) Ht).
    pose proof (Qmult_le_0_compat _ _ (percent_nonneg _ Hwe) He).
    lra.
  - exfalso.
    assert (Hin : In (mkRaw (channel d) (ratingAff d) (ratingTcpp Qdiv avgTcpp d)
                        (ratingEff Qdiv d)) (rawRatings Qdiv avgTcpp sel)).
    { unfold rawRatings. apply in_map_iff. exists d. split; [reflexivity|exact Hd]. }
    pose proof (find_none _ _ Hfind _ Hin) as Hno. cbn [wr_ch] in Hno.
    rewrite String.eqb_refl in Hno. discriminate.
Qed.

Lemma newRating_nonneg (weightingLogic : string) (weights : option Weights)
    (sel : list ChannelData) (d : ChannelData) :
  soundWeights weights -> List.Forall soundRecord sel -> In d sel ->
  0 <= orNum (newRating Qdiv weightingLogic weights sel d) 0.
Proof.
  intros Hw Hsel Hd. unfold newRating.
  assert (Hsound : soundRecord d) by (rewrite List.Forall_forall in Hsel; auto).
  destruct (String.eqb weightingLogic "Custom"); [|apply plainRating_nonneg, Hsound].
  destruct weights as [w|]; [|apply plainRating_nonneg, Hsound].
  apply customRating_nonneg; [apply Hw; reflexivity|exact Hsel|exact Hd].
Qed.

Lemma soundRecord_kept (d d' : ChannelData) :
  keptSelection d d' -> share d' = share d -> soundRecord d -> soundRecord d'.
Proof.
  intros [Hm _] Hs (Ht & Ha & Hsh). unfold soundRecord.
  apply (f_equal m_tvrTa) in Hm as Htv. apply (f_equal m_aff) in Hm as Haf.
  simpl in Htv, Haf. rewrite Htv, Haf, Hs. repeat split; assumption.
Qed.

Lemma soundRecord_share (d d' : ChannelData) (s : Q) :
  keptSelection d d' -> share d' = Some s -> 0 <= s -> soundRecord d -> soundRecord d'.
Proof.
  intros [Hm _] Hs Hpos (Ht & Ha & _). unfold soundRecord.
  apply (f_equal m_tvrTa) in Hm as Htv. apply (f_equal m_aff) in Hm as Haf.
  simpl in Htv, Haf. rewrite Htv, Haf, Hs. repeat split; assumption.
Qed.

Lemma regionPass_sound (weightingLogic : string) (weights : option Weights)
    (r : string) (data : list ChannelData) :
  soundWeights weights -> List.Forall soundRecord data ->
  List.Forall soundRecord (regionPass Qdiv weightingLogic weights r data).
Proof.
  intros Hw Hdata. unfold regionPass.
  destruct (List.length _ =? 0)%nat; [exact Hdata|]. cbv zeta.
  set (sel := List.filter (inRegionSel r) data).
  assert (Hsel : List.Forall soundRecord sel).
  { apply List.Forall_forall. intros d Hd. apply filter_In in Hd as [Hd _].
    rewrite List.Forall_forall in Hdata. auto. }
  assert (Hassign : forall d, In d data ->
             soundRecord (assignRating Qdiv weightingLogic weights r sel d)).
  { intros d Hd. apply (soundRecord_kept d); [apply assignRating_kept| |].
    - unfold assignRating. destruct (inRegionSel r d); reflexivity.
    - rewrite List.Forall_forall in Hdata. auto. }
  destruct (Qltb 0 _) eqn:Htotal.
  - apply Qltb_lt in Htotal. apply List.Forall_forall. intros d2 Hd2.
    apply in_map_iff in Hd2 as (d1 & <- & Hd1).
    apply in_map_iff in Hd1 as (d & <- & Hd).
    specialize (Hassign d Hd).
    set (d1 := assignRating Qdiv weightingLogic weights r sel d) in *.
    unfold normalizeShare.
    destruct (inRegionSel r d1) eqn:E1.
    + eapply (soundRecord_share d1); [split; reflexivity|reflexivity| |exact Hassign].
      apply Qdiv_nonneg; [|exact Htotal].
      unfold d1 in E1 |- *. rewrite inRegionSel_assignRating in E1.
      unfold assignRating. rewrite E1. cbn [weightedRating set_weightedRating].
      apply newRating_nonneg; [exact Hw|exact Hsel|].
      apply filter_In. split; assumption.
    + destruct (inRegion r d1); [|exact Hassign].
      eapply (soundRecord_share d1);
        [split; reflexivity|reflexivity|apply Qle_refl|exact Hassign].
  - apply List.Forall_forall. intros d1 Hd1.
    apply in_map_iff in Hd1 as (d & <- & Hd). apply Hassign. exact Hd.
Qed.

Lemma passData_sound brief weightingLogic applyLimits weights data :
  soundWeights weights -> List.Forall soundRecord data ->
  List.Forall soundRecord (passData brief weightingLogic applyLimits weights data).
Proof.
  intros Hw Hdata.
  assert (H : List.Forall soundRecord
                (regionsPass Qdiv brief weightingLogic weights data)).
  { unfold regionsPass. generalize (regionsOf brief). intro rs. revert data Hdata.
    induction rs as [|r rs IH]; intros data Hdata; simpl; [exact Hdata|].
    apply IH. apply regionPass_sound; assumption. }
  unfold passData, passOnce. destruct applyLimits; simpl; [|exact H].
  apply List.Forall_forall. intros d' Hd'. apply in_map_iff in Hd' as (d & <- & Hd).
  rewrite List.Forall_forall in H. specialize (H d Hd).
  unfold applyFloor. destruct (briefOf brief (region d)); [|exact H].
  destruct (belowFloor brief d); [|exact H]. exact H.
Qed.

Lemma capRegion_sound (brief : BriefData) (r : string) (data : list ChannelData) :
  capsInRange brief -> List.Forall soundRecord data ->
  List.Forall soundRecord (capRegion brief r data).
Proof.
  intros Hcaps Hdata. unfold capRegion.
  destruct (briefOf brief r) as [rb|] eqn:Hbrief; [|exact Hdata].
  destruct (maxOrbitalShare rb) as [cap|] eqn:Hcap; [|exact Hdata].
  destruct (Hcaps r rb cap Hbrief Hcap) as [Hpos _].
  destruct (Qltb _ _) eqn:Hover; [|exact Hdata]. cbv zeta.
  apply Qltb_lt in Hover.
  set (total := shareSum (orbitalSel r) data) in *.
  assert (Hmax : 0 <= cap / 100) by (apply percent_nonneg; exact Hpos).
  assert (Hscale : forall d, soundRecord d ->
             soundRecord (scaleOrbital r cap (cap / 100 / total) d)).
  { intros d Hd. unfold scaleOrbital. destruct (orbitalSel r d); [|exact Hd].
    eapply (soundRecord_share d); [split; reflexivity|reflexivity| |exact Hd].
    apply Qmult_le_0_compat; [apply Hd|]. apply Qdiv_nonneg; [exact Hmax|lra]. }
  assert (H1 : List.Forall soundRecord (map (scaleOrbital r cap (cap / 100 / total)) data)).
  { apply List.Forall_forall. intros d' Hd'. apply in_map_iff in Hd' as (d & <- & Hd).
    apply Hscale. rewrite List.Forall_forall in Hdata. auto. }
  destruct (Qltb 0 _) eqn:Hnet; [|exact H1].
  apply Qltb_lt in Hnet.
  apply List.Forall_forall. intros d' Hd'. apply in_map_iff in Hd' as (d & <- & Hd).
  rewrite List.Forall_forall in H1. specialize (H1 d Hd).
  unfold topUpNetwork. destruct (networkSel r d); [|exact H1].
  eapply (soundRecord_share d); [split; reflexivity|reflexivity| |exact H1].
  destruct H1 as (_ & _ & Hs).
  assert (0 <= numVal (share d) / shareSum (networkSel r)
                                    (map (scaleOrbital r cap (cap / 100 / total)) data)
               * (total - cap / 100)).
  { apply Qmult_le_0_compat; [apply Qdiv_nonneg; assumption|lra]. }
  lra.
Qed.

Lemma capPass_sound (brief : BriefData) (applyLimits : bool) (data : list ChannelData) :
  capsInRange brief -> List.Forall soundRecord data ->
  List.Forall soundRecord (capPass brief applyLimits data).
Proof.
  intros Hcaps. unfold capPass. destruct applyLimits; [|auto].
  generalize (regionsOf brief). intro rs. revert data.
  induction rs as [|r rs IH]; intros data Hdata; simpl; [exact Hdata|].
  apply IH, capRegion_sound; assumption.
Qed.

Lemma finalize_sound (d : ChannelData) : soundRecord d -> soundRecord (finalize d).
Proof.
  intro Hd. unfold finalize. destruct (selected d).
  - apply (soundRecord_kept d); [split; reflexivity|reflexivity|exact Hd].
  - eapply (soundRecord_share d);
      [split; reflexivity|reflexivity|apply Qle_refl|exact Hd].
Qed.

Lemma optimizeSplit_sound data brief weightingLogic applyLimits weights :
  soundWeights weights -> capsInRange brief -> List.Forall soundRecord data ->
  List.Forall soundRecord (optimizeSplit data brief weightingLogic applyLimits weights).
Proof.
  intros Hw Hcaps Hdata. unfold optimizeSplit, optimizeRecords.
  apply List.Forall_forall. intros d Hd. apply sortBy_In in Hd.
  apply in_map_iff in Hd as (d0 & <- & Hd0). apply finalize_sound.
  revert d0 Hd0. apply List.Forall_forall. apply capPass_sound; [exact Hcaps|].
  destruct (optimizeLoop_run brief weightingLogic applyLimits weights 20 0 data eq_refl)
    as (p & _ & _ & -> & _).
  induction p as [|p IH]; simpl; [exact Hdata|].
  apply passData_sound; assumption.
Qed.

(** The sum of the shares of a region after a converged optimization:
    1, or the cap when only orbital channels hold a share. *)
Lemma region_share_sum (data : list ChannelData) (brief : BriefData)
    (weightingLogic : string) (applyLimits : bool) (weights : option Weights)
    (r : string) :
  In r (regionsOf brief) ->
  loopConverged data brief weightingLogic applyLimits weights = true ->
  capsInRange brief ->
  let res := optimizeSplit data brief weightingLogic applyLimits weights in
  0 < totalWeightedRatingOf r res ->
  shareSum (inRegionSel r) res == 1 \/
  exists rb cap,
    briefOf brief r = Some rb /\ maxOrbitalShare rb = Some cap /\
    shareSum (networkSel r) res <= 0 /\ shareSum (orbitalSel r) res == cap / 100.
Proof.
  intros Hr Hconv Hcaps res Htotal. unfold res, optimizeSplit, optimizeRecords in *.
  set (L := fst (optimizeLoop brief weightingLogic applyLimits weights 0 data)) in *.
  set (X := capPass brief applyLimits L) in *.
  assert (Hsel : shareSum (inRegionSel r) (sortBy cmpFinal (map finalize X))
                 == shareSum (inRegionSel r) X)
    by (apply shareSum_final;
        [intro; apply inRegionSel_finalize|apply inRegionSel_selected]).
  assert (Hnets : shareSum (networkSel r) (sortBy cmpFinal (map finalize X))
                  == shareSum (networkSel r) X)
    by (apply shareSum_final;
        [intro; apply networkSel_finalize|apply networkSel_selected]).
  assert (Horbs : shareSum (orbitalSel r) (sortBy cmpFinal (map finalize X))
                  == shareSum (orbitalSel r) X)
    by (apply shareSum_final;
        [intro; apply orbitalSel_finalize|apply orbitalSel_selected]).
  unfold X in Htotal. rewrite final_total_rating, capPass_total_rating in Htotal.
  assert (HL : shareSum (inRegionSel r) L == 1).
  { destruct (converged_ends_on_pass _ _ _ _ _ Hconv) as (before & Hbefore).
    fold L in Hbefore. rewrite Hbefore in Htotal |- *.
    apply regionsPass_normalized; [left; exact Hr|exact Htotal]. }
  rewrite Hsel. unfold X, capPass in *.
  destruct applyLimits; [|left; exact HL].
  destruct (In_briefOf brief r Hr) as (rb & Hbrief).
  destruct (maxOrbitalShare rb) as [cap|] eqn:Hcap.
  - destruct (Hcaps r rb cap Hbrief Hcap) as [Hpos _].
    destruct (capPass_capped brief r rb Hbrief cap Hcap Hpos
                (regionsOf brief) L (or_introl HL)) as [Hone|[Hnet Horb]].
    + left. exact Hone.
    + right. exists rb, cap. split; [exact Hbrief|]. split; [exact Hcap|].
      rewrite Hnets, Horbs. split; [exact Hnet|exact Horb].
  - left. rewrite (capPass_without_cap brief r rb Hbrief _ _ Hcap). exact HL.
Qed.

Lemma member_le_sum {A} (f : A -> Q) (l : list A) (x : A) :
  (forall y, In y l -> 0 <= f y) -> In x l -> f x <= sumBy f l.
Proof.
  induction l as [|a l IH]; intros Hpos Hx; [destruct Hx|].
  rewrite sumBy_cons.
  assert (Hl : 0 <= sumBy f l).
  { clear IH Hx. induction l as [|b l IHl]; [rewrite sumBy_nil; apply Qle_refl|].
    rewrite sumBy_cons.
    assert (0 <= f b) by (apply Hpos; right; left; reflexivity).
    assert (0 <= sumBy f l).
    { apply IHl. intros y [<-|Hy]; apply Hpos; [left|right; right]; auto. }
    lra. }
  destruct Hx as [<-|Hx].
  - lra.
  - assert (0 <= f a) by (apply Hpos; left; reflexivity).
    assert (f x <= sumBy f l) by (apply IH; [intros y Hy; apply Hpos; right|]; auto).
    lra.
Qed.

(** X19.  Shares are fractions.  When no input record has a negative
    TVR, affinity or share, the custom weights are not negative and every
    orbital cap lies between 0 and 100, no share of the result is
    negative; and in a region of the brief whose loop converged and whose
    total weighted rating is positive, no share exceeds 1. *)
Theorem X19_shares_are_fractions (data : list ChannelData) (brief : BriefData)
    (weightingLogic : string) (applyLimits : bool) (weights : option Weights)
    (d : ChannelData) :
  List.Forall soundRecord data -> soundWeights weights -> capsInRange brief ->
  let res := optimizeSplit data brief weightingLogic applyLimits weights in
  In d res ->
  0 <= numVal (share d) /\
  (In (region d) (regionsOf brief) ->
   loopConverged data brief weightingLogic applyLimits weights = true ->
   0 < totalWeightedRatingOf (region d) res ->
   numVal (share d) <= 1).
Proof.
  intros Hdata Hw Hcaps res Hd.
  pose proof (optimizeSplit_sound data brief weightingLogic applyLimits weights
                Hw Hcaps Hdata) as Hsound.
  fold res in Hsound. rewrite List.Forall_forall in Hsound.
  split; [apply (Hsound d Hd)|].
  intros Hr Hconv Htotal.
  assert (Hterm : forall y, In y res -> 0 <= orNum (share y) 0).
  { intros y Hy. rewrite orNum0_numVal. apply (Hsound y Hy). }
  destruct (selected d) eqn:Hsel.
  - assert (Hin : inRegionSel (region d) d = true).
    { unfold inRegionSel, inRegion. rewrite String.eqb_refl, Hsel. reflexivity. }
    assert (Hle : forall p, p d = true ->
               numVal (share d) <= shareSum p res).
    { intros p Hp. rewrite <- orNum0_numVal. unfold shareSum.
      apply (member_le_sum (fun y => orNum (share y) 0)).
      - intros y Hy. apply filter_In in Hy as [Hy _]. apply Hterm. exact Hy.
      - apply filter_In. split; assumption. }
    destruct (region_share_sum data brief weightingLogic applyLimits weights
                (region d) Hr Hconv Hcaps Htotal)
      as [Hone|(rb & cap & Hbrief & Hcap & Hnet & Horb)].
    + fold res in Hone. rewrite <- Hone. apply Hle. exact Hin.
    + fold res in Hnet, Horb. destruct (Hcaps _ _ _ Hbrief Hcap) as [_ Hmax].
      destruct (isOrbital d) eqn:Eo.
      * assert (Ho : orbitalSel (region d) d = true)
          by (unfold orbitalSel; rewrite Hin, Eo; reflexivity).
        pose proof (Hle _ Ho) as H. rewrite Horb in H.
        assert (cap / 100 <= 1).
        { apply Qle_shift_div_r; [reflexivity|]. rewrite Qmult_1_l. exact Hmax. }
        lra.
      * assert (Hn : networkSel (region d) d = true)
          by (unfold networkSel; rewrite Hin, Eo; reflexivity).
        pose proof (Hle _ Hn) as H. lra.
  - unfold res, optimizeSplit, optimizeRecords in Hd.
    apply sortBy_In in Hd. apply in_map_iff in Hd as (d0 & Heq & _).
    rewrite <- Heq in Hsel |- *.
    destruct (finalize_unselected d0 Hsel) as [-> _]. simpl. unfold Qle. simpl. lia.
Qed.

Lemma orbitalBrief_capsInRange : capsInRange orbitalBrief.
Proof.
  intros r rb cap Hb Hc. unfold orbitalBrief, briefOf in Hb.
  cbn [regionBriefs List.find fst snd] in Hb.
  destruct (String.eqb "Москва" r); [|discriminate].
  injection Hb as <-. injection Hc as <-. split; unfold Qle; simpl; lia.
Qed.

(** In the Affinity split of the mixed sample every share lies between 0
    and 1. *)
Lemma X19_shares_witness :
  exists d,
    In d (generateSingleSplit (baseSnapshot mixedRows orbitalBrief) orbitalBrief
            "Affinity" true) /\
    0 <= numVal (share d) /\ numVal (share d) <= 1.
Proof.
  pose (data := selectSingle (baseSnapshot mixedRows orbitalBrief) orbitalBrief
                  "Affinity").
  pose (res := optimizeSplit data orbitalBrief "Affinity" true None).
  assert (Hd : exists d, In d res /\ region d = "Москва").
  { vm_compute. eexists. split; [left; reflexivity|reflexivity]. }
  destruct Hd as (d & Hin & Hreg).
  assert (Hsound : forallb (fun x => Qle_bool 0 (numVal (tvrTa x))
                                     && Qle_bool 0 (numVal (aff x))
                                     && Qle_bool 0 (numVal (share x))) data = true)
    by (vm_compute; reflexivity).
  destruct (X19_shares_are_fractions data orbitalBrief "Affinity" true None d)
    as [Hpos Hle].
  - apply List.Forall_forall. intros x Hx.
    rewrite forallb_forall in Hsound. specialize (Hsound x Hx).
    rewrite !andb_true_iff in Hsound. destruct Hsound as [[H1 H2] H3].
    apply Qle_bool_iff in H1, H2, H3. repeat split; assumption.
  - intros w Hw. discriminate.
  - exact orbitalBrief_capsInRange.
  - exact Hin.
  - exists d. split; [exact Hin|]. split; [exact Hpos|]. apply Hle.
    + rewrite Hreg. left. reflexivity.
    + vm_compute. reflexivity.
    + rewrite Hreg. vm_compute. reflexivity.
Defined.

(** ** The manual-shares panel *)

Lemma panelShares_inv (channels : list ChannelData) (shares : gmap string Q) :
  panelShares channels shares ->
  forall c v, shares !! c = Some v ->
    0 <= v /\ exists ch, In ch channels /\ channel ch = c.
Proof.
  induction 1 as [|shares ch numValue _ IH Hch]; intros c v Hc.
  - rewrite lookup_empty in Hc. discriminate.
  - unfold handleShareChange in Hc.
    assert (Hdel : delete (channel ch) shares !! c = Some v ->
                   0 <= v /\ exists ch0, In ch0 channels /\ channel ch0 = c).
    { intro H. apply lookup_delete_Some in H as [_ H]. apply IH. exact H. }
    destruct numValue as [x|]; [|apply Hdel; exact Hc].
    destruct (Qle_bool 0 x) eqn:Ex; [|apply Hdel; exact Hc].
    apply lookup_insert_Some in Hc as [[<- <-]|[_ Hc]]; [|apply IH; exact Hc].
    split; [apply Qle_bool_iff; exact Ex|]. exists ch. split; [exact Hch|reflexivity].
Qed.

(** The percentage typed for a channel name, 0 when there is none. *)
Local Abbreviation typedFor shares c := (default 0 (shares !! c)).

Lemma sumBy_single_out (names : list string) (i : string) (x : Q) (h : string -> Q) :
  List.NoDup names -> In i names ->
  sumBy (fun c => if String.eqb c i then x else h c) names
  == x + sumBy h names - h i.
Proof.
  induction 1 as [|c names Hc Hnd IH]; intro Hi; [destruct Hi|].
  rewrite !sumBy_cons. destruct Hi as [->|Hi].
  - rewrite String.eqb_refl.
    rewrite (sumBy_ext (fun c => if String.eqb c i then x else h c) h names).
    + ring.
    + intros y Hy. destruct (String.eqb y i) eqn:E; [|reflexivity].
      apply String.eqb_eq in E. subst y. contradiction.
  - destruct (String.eqb c i) eqn:E.
    + apply String.eqb_eq in E. subst c. contradiction.
    + rewrite (IH Hi). ring.
Qed.

Lemma typed_total (names : list string) (shares : gmap string Q) :
  List.NoDup names ->
  (forall c v, shares !! c = Some v -> In c names) ->
  sumBy (fun c => typedFor shares c) names
  == sumBy (fun kv => snd kv) (map_to_list shares).
Proof.
  intro Hnd. induction shares as [|i x m Hi IH] using map_ind; intro Hdom.
  - rewrite map_to_list_empty, sumBy_nil.
    rewrite (sumBy_ext _ (fun _ => 0) names).
    + clear. induction names as [|c names IH]; [reflexivity|].
      rewrite sumBy_cons, IH. ring.
    + intros c _. rewrite lookup_empty. reflexivity.
  - rewrite (sumBy_perm _ _ _ (map_to_list_insert m i x Hi)), sumBy_cons. cbn [snd].
    rewrite <- IH.
    + rewrite (sumBy_ext _ (fun c => if String.eqb c i then x else typedFor m c) names).
      * rewrite sumBy_single_out; [|exact Hnd|apply (Hdom i x), lookup_insert_eq].
        rewrite Hi. simpl. ring.
      * intros c _. destruct (String.eqb c i) eqn:E.
        -- apply String.eqb_eq in E. subst c. rewrite lookup_insert_eq. reflexivity.
        -- apply String.eqb_neq in E. rewrite lookup_insert_ne by congruence.
           reflexivity.
    + intros c v Hc. apply (Hdom c v).
      rewrite lookup_insert_ne; [exact Hc|]. intros ->. congruence.
Qed.

Lemma manual_region_sum (r : string) (shares : gmap string Q) (data : list ChannelData) :
  (forall c v, shares !! c = Some v -> 0 <= v) ->
  shareSum (inRegionSel r) (map (manualMark (Some r) shares) data)
  == sumBy (fun c => typedFor shares c) (map channel (List.filter (inRegion r) data))
     / 100.
Proof.
  intro Hpos. unfold shareSum.
  induction data as [|d data IH]; [reflexivity|].
  cbn [map List.filter].
  assert (Hreg : inRegion r (manualMark (Some r) shares d) = inRegion r d).
  { pose proof (manualMark_metrics (Some r) shares d) as Hm.
    apply (f_equal m_region) in Hm. cbn [metricsOf m_region] in Hm.
    unfold inRegion. rewrite Hm. reflexivity. }
  destruct (inRegion r d) eqn:Er.
  - cbn [map]. rewrite sumBy_cons.
    assert (Hrec : forall l,
               sumBy (fun x => orNum (share x) 0)
                 (if selected (manualMark (Some r) shares d)
                  then manualMark (Some r) shares d :: l else l)
               == typedFor shares (channel d) / 100
                  + sumBy (fun x => orNum (share x) 0) l).
    { intro l. unfold manualMark. rewrite Er.
      destruct (shares !! channel d) as [v|] eqn:Hv; cbn [default from_option]; unfold id.
      - destruct (Qltb 0 v) eqn:Ev;
          cbn [selected share set_comment set_trp set_share set_selected].
        + rewrite sumBy_cons.
          cbn [share set_comment set_trp set_share set_selected].
          rewrite orNum_Some. reflexivity.
        + apply Qltb_ge in Ev. pose proof (Hpos _ _ Hv) as Hv0.
          assert (Hz : v == 0) by (apply Qle_antisym; assumption).
          rewrite Hz. generalize (sumBy (fun x => orNum (share x) 0) l). intro q.
          field.
      - cbn [selected set_comment set_trp set_share set_selected].
        generalize (sumBy (fun x => orNum (share x) 0) l). intro q. field. }
    unfold inRegionSel at 1. rewrite Hreg. cbn [andb].
    rewrite Hrec, IH. field.
  - unfold inRegionSel at 1. rewrite Hreg. cbn [andb]. exact IH.
Qed.

(** X20.  The manual-shares panel hands over what it shows.  For a map
    of percentages built by the panel of a region whose channels have
    distinct names, the shares of the split computed from it sum, in that
    region, to the panel's total divided by 100; so when the click passes
    the panel's test (total within 0.001 of 100) the region sums to 1
    within 0.00001. *)
Theorem X20_manual_panel_total_is_the_split_total (initialData : list ChannelData)
    (activeRegion : string) (regionBrief : RegionBrief) (shares : gmap string Q) :
  panelShares (List.filter (inRegion activeRegion) initialData) shares ->
  List.NoDup (map channel (List.filter (inRegion activeRegion) initialData)) ->
  let splitData :=
    handleCalculateManualSharesSplit initialData activeRegion regionBrief shares in
  shareSum (inRegionSel activeRegion) splitData == totalShareOf shares / 100 /\
  (handleCalculateClick shares = Some shares ->
   Qabs (shareSum (inRegionSel activeRegion) splitData - 1) < 1 / 100000).
Proof.
  intros Hpanel Hnd splitData.
  pose proof (panelShares_inv _ _ Hpanel) as Hinv.
  assert (Hsum : shareSum (inRegionSel activeRegion) splitData
                 == totalShareOf shares / 100).
  { unfold splitData, handleCalculateManualSharesSplit, generateManualSharesSplit,
      manualRecords.
    rewrite <- (shareSum_perm _ _ _ (sortBy_perm cmpFinal _)).
    cbn [regionsOf regionBriefs map fst head].
    rewrite manual_region_sum by (intros c v Hc; apply (Hinv c v Hc)).
    rewrite typed_total.
    - unfold totalShareOf.
      rewrite (sumBy_ext (fun kv => snd kv) (fun kv => orNum (Some (snd kv)) 0)
                 (map_to_list shares)); [reflexivity|].
      intros kv _. rewrite orNum_Some. reflexivity.
    - exact Hnd.
    - intros c v Hc. destruct (Hinv c v Hc) as (_ & ch & Hch & <-).
      apply in_map. exact Hch. }
  split; [exact Hsum|].
  unfold handleCalculateClick.
  destruct (Qltb _ _) eqn:E; [|discriminate]. intros _.
  apply Qltb_lt in E. rewrite Hsum.
  apply Qabs_Qlt_condition in E. apply Qabs_Qlt_condition.
  destruct E as [E1 E2].
  assert (H100 : totalShareOf shares / 100 == totalShareOf shares * (1 # 100))
    by field.
  assert (Ha : 1 / 1000 == 1 # 1000) by reflexivity.
  assert (Hb : 1 / 100000 == 1 # 100000) by reflexivity.
  rewrite Ha in E1, E2. rewrite H100, Hb. split; lra.
Qed.

Lemma X20_manual_panel_witness :
  let splitData :=
    handleCalculateManualSharesSplit (baseSnapshot twoRegionRows twoRegionBrief)
      "Москва" (mkBrief "All 18+" (Some 2) None (Some 20)) typedShares in
  shareSum (inRegionSel "Москва") splitData == totalShareOf typedShares / 100 /\
  Qabs (shareSum (inRegionSel "Москва") splitData - 1) < 1 / 100000.
Proof.
  intro splitData.
  destruct (X20_manual_panel_total_is_the_split_total
              (baseSnapshot twoRegionRows twoRegionBrief) "Москва"
              (mkBrief "All 18+" (Some 2) None (Some 20)) typedShares) as [Hsum Hone].
  - unfold typedShares.
    assert (Hrows : exists a b,
               List.filter (inRegion "Москва") (baseSnapshot twoRegionRows twoRegionBrief)
               = [a; b] /\ channel a = "A" /\ channel b = "B").
    { vm_compute. do 2 eexists. split; [reflexivity|split; reflexivity]. }
    destruct Hrows as (a & b & -> & <- & <-).
    apply panel_edit; [apply panel_edit; [apply panel_start|left; reflexivity]|].
    right. left. reflexivity.
  - vm_compute. repeat constructor; intros H; repeat destruct H as [H|H];
      try discriminate H; try destruct H.
  - split; [exact Hsum|]. apply Hone. vm_compute. reflexivity.
Defined.

(** ** Regions are optimized independently *)

Lemma fold_sum_map {A B} (f : B -> Q) (g : A -> B) (l : list A) (a : Q) :
  fold_left (fun sum d => sum + f d) (map g l) a
  = fold_left (fun sum d => sum + f (g d)) l a.
Proof.
  revert a. induction l as [|x l IH]; intro a; simpl; [reflexivity|]. apply IH.
Qed.

(** A sum is a function of the list of its terms. *)
Lemma sumBy_terms {A B} (f : A -> Q) (g : B -> Q) (l : list A) (l' : list B) :
  map f l = map g l' -> sumBy f l = sumBy g l'.
Proof.
  intro H. unfold sumBy.
  rewrite <- (fold_sum_map (fun q => q) f l 0), <- (fold_sum_map (fun q => q) g l' 0).
  rewrite H. reflexivity.
Qed.

Lemma map_by_metrics {B} (F : ChannelData -> B) (l l' : list ChannelData) :
  (forall a b, metricsOf a = metricsOf b -> F a = F b) ->
  map metricsOf l = map metricsOf l' -> map F l = map F l'.
Proof.
  intro HF. revert l'. induction l as [|x l IH]; intros [|y l'] H;
    try discriminate H; [reflexivity|].
  cbn [map] in H |- *.
  assert (Hxy : metricsOf x = metricsOf y) by congruence.
  assert (Hl : map metricsOf l = map metricsOf l') by congruence.
  rewrite (HF x y Hxy), (IH l' Hl). reflexivity.
Qed.

Lemma metrics_fields (a b : ChannelData) :
  metricsOf a = metricsOf b ->
  region a = region b /\ channel a = channel b /\ tvrTa a = tvrTa b /\
  aff a = aff b /\ cpp a = cpp b /\ tcpp a = tcpp b.
Proof.
  intro H.
  pose proof (f_equal m_region H). pose proof (f_equal m_channel H).
  pose proof (f_equal m_tvrTa H). pose proof (f_equal m_aff H).
  pose proof (f_equal m_cpp H). pose proof (f_equal m_tcpp H).
  repeat split; assumption.
Qed.

Lemma ratings_by_metrics div (avgTcpp : Q) (a b : ChannelData) :
  metricsOf a = metricsOf b ->
  ratingAff a = ratingAff b /\ ratingTcpp div avgTcpp a = ratingTcpp div avgTcpp b /\
  ratingEff div a = ratingEff div b.
Proof.
  intro H. destruct (metrics_fields a b H) as (_ & _ & Ht & Ha & Hc & Htc).
  unfold ratingAff, ratingTcpp, ratingEff. rewrite Ht, Ha, Hc, Htc.
  repeat split; reflexivity.
Qed.

(** The rating of a channel reads the selected channels of the region
    through their metrics only. *)
Lemma newRating_stats div weightingLogic weights (sel sel' : list ChannelData)
    (d : ChannelData) :
  map metricsOf sel' = map metricsOf sel ->
  newRating div weightingLogic weights sel' d
  = newRating div weightingLogic weights sel d.
Proof.
  intro H.
  assert (Havg : avgTcppOf div sel' = avgTcppOf div sel).
  { unfold avgTcppOf. f_equal.
    - apply sumBy_terms. apply map_by_metrics; [|exact H].
      intros a b Hab. destruct (metrics_fields a b Hab) as (_ & _ & _ & _ & _ & ->).
      reflexivity.
    - rewrite <- (length_map metricsOf sel'), H, length_map. reflexivity. }
  assert (Hraw : forall avg, rawRatings div avg sel' = rawRatings div avg sel).
  { intro avg. unfold rawRatings. apply map_by_metrics; [|exact H].
    intros a b Hab. destruct (ratings_by_metrics div avg a b Hab) as (-> & -> & ->).
    destruct (metrics_fields a b Hab) as (_ & -> & _). reflexivity. }
  unfold newRating. cbv zeta. rewrite Havg, Hraw. reflexivity.
Qed.

(** For a channel among the selected ones, it reads the channel through
    its metrics only. *)
Lemma newRating_record div weightingLogic weights (sel : list ChannelData)
    (d d' : ChannelData) :
  metricsOf d' = metricsOf d -> In d sel ->
  newRating div weightingLogic weights sel d'
  = newRating div weightingLogic weights sel d.
Proof.
  intros H Hin.
  destruct (metrics_fields d' d H) as (_ & Hch & Ht & Ha & Hc & Htc).
  assert (Hplain : forall avg, plainRating div weightingLogic avg d'
                               = plainRating div weightingLogic avg d).
  { intro avg. unfold plainRating.
    destruct (ratings_by_metrics div avg d' d H) as (-> & -> & ->).
    rewrite Ht. reflexivity. }
  unfold newRating. cbv zeta.
  destruct (String.eqb weightingLogic "Custom"); [|apply Hplain].
  destruct weights as [w|]; [|apply Hplain].
  unfold customRating. cbv zeta. rewrite Hch.
  destruct (List.find _ _) eqn:Hfind; [reflexivity|].
  exfalso.
  pose proof (find_none _ _ Hfind
                (mkRaw (channel d) (ratingAff d)
                   (ratingTcpp div (avgTcppOf div sel) d) (ratingEff div d))) as Hno.
  cbn [wr_ch] in Hno. rewrite String.eqb_refl in Hno.
  assert (false = true -> False) by discriminate.
  apply H0. symmetry. apply Hno.
  unfold rawRatings.
  apply (in_map (fun d0 => mkRaw (channel d0) (ratingAff d0)
                             (ratingTcpp div (avgTcppOf div sel) d0)
                             (ratingEff div d0)) sel d Hin).
Qed.

Lemma set_weightedRating_same (d : ChannelData) (v : num) :
  weightedRating d = v -> set_weightedRating v d = d.
Proof. intros <-. destruct d; reflexivity. Qed.

Lemma set_share_same (d : ChannelData) (v : num) :
  share d = v -> set_share v d = d.
Proof. intros <-. destruct d; reflexivity. Qed.

Lemma metricsOf_assignRating div weightingLogic weights r sel d :
  metricsOf (assignRating div weightingLogic weights r sel d) = metricsOf d.
Proof. unfold assignRating. destruct (inRegionSel r d); reflexivity. Qed.

Lemma metricsOf_normalizeShare div r total d :
  metricsOf (normalizeShare div r total d) = metricsOf d.
Proof.
  unfold normalizeShare. destruct (inRegionSel r d); [reflexivity|].
  destruct (inRegion r d); reflexivity.
Qed.

Lemma weightedRating_normalizeShare div r total d :
  weightedRating (normalizeShare div r total d) = weightedRating d.
Proof.
  unfold normalizeShare. destruct (inRegionSel r d); [reflexivity|].
  destruct (inRegion r d); reflexivity.
Qed.

Lemma normalizeShare_twice div r total d :
  normalizeShare div r total (normalizeShare div r total d)
  = normalizeShare div r total d.
Proof.
  unfold normalizeShare at 1.
  rewrite inRegionSel_normalizeShare, inRegion_normalizeShare,
    weightedRating_normalizeShare.
  unfold normalizeShare.
  destruct (inRegionSel r d) eqn:Es.
  - apply set_share_same. reflexivity.
  - destruct (inRegion r d) eqn:Er; [|reflexivity].
    apply set_share_same. reflexivity.
Qed.

(** The sum of the ratings of a region after a step that keeps the
    ratings and the selection. *)
Lemma totalWeightedRatingOf_kept r (f : ChannelData -> ChannelData)
    (data : list ChannelData) :
  (forall d, inRegionSel r (f d) = inRegionSel r d) ->
  (forall d, weightedRating (f d) = weightedRating d) ->
  totalWeightedRatingOf r (map f data) = totalWeightedRatingOf r data.
Proof.
  intros Hsel Hwr. unfold totalWeightedRatingOf.
  rewrite (filter_map_commute _ f data Hsel).
  apply sumBy_terms. rewrite map_map. apply map_ext. intro d. rewrite Hwr. reflexivity.
Qed.

(** A second pass over a region changes nothing. *)
Lemma regionPass_twice div weightingLogic weights (r : string)
    (data : list ChannelData) :
  regionPass div weightingLogic weights r (regionPass div weightingLogic weights r data)
  = regionPass div weightingLogic weights r data.
Proof.
  set (sel := List.filter (inRegionSel r) data).
  set (A := assignRating div weightingLogic weights r sel).
  assert (Hagain : forall (g : ChannelData -> ChannelData),
             (forall d, metricsOf (g d) = metricsOf d) ->
             (forall d, inRegionSel r (g d) = inRegionSel r d) ->
             (forall d, weightedRating (g d) = weightedRating d) ->
             map (assignRating div weightingLogic weights r
                    (List.filter (inRegionSel r) (map g (map A data))))
                 (map g (map A data))
             = map g (map A data)).
  { intros g Hm Hs Hw.
    assert (HmA : forall d, metricsOf (g (A d)) = metricsOf d).
    { intro d. rewrite Hm. apply metricsOf_assignRating. }
    assert (HsA : forall d, inRegionSel r (g (A d)) = inRegionSel r d).
    { intro d. rewrite Hs. apply inRegionSel_assignRating. }
    rewrite (map_map A g).
    rewrite (filter_map_commute _ (fun d => g (A d)) data HsA). fold sel.
    rewrite <- (map_id (map (fun d => g (A d)) data)) at 2.
    rewrite !map_map. apply map_ext_in. intros d Hd.
    unfold assignRating at 1. rewrite HsA.
    destruct (inRegionSel r d) eqn:Es; [|reflexivity].
    apply set_weightedRating_same.
    assert (HwA : weightedRating (A d) = newRating div weightingLogic weights sel d).
    { unfold A, assignRating. rewrite Es. reflexivity. }
    rewrite Hw, HwA.
    rewrite (newRating_stats div weightingLogic weights sel
               (map (fun d => g (A d)) sel)).
    - symmetry. apply newRating_record; [apply HmA|].
      unfold sel. apply filter_In. split; assumption.
    - rewrite map_map. apply map_ext. intro x. apply HmA. }
  destruct (List.length sel =? 0)%nat eqn:Elen.
  { assert (Hone : regionPass div weightingLogic weights r data = data).
    { unfold regionPass. fold sel. rewrite Elen. reflexivity. }
    rewrite !Hone. reflexivity. }
  assert (Hlen : forall g, (forall d, inRegionSel r (g d) = inRegionSel r d) ->
             (List.length (List.filter (inRegionSel r) (map g (map A data))) =? 0)%nat
             = false).
  { intros g Hs. rewrite (filter_map_commute _ g _ Hs).
    unfold A. rewrite (filter_map_commute _ _ data
                         (inRegionSel_assignRating div weightingLogic weights r sel r)).
    fold sel. rewrite !length_map. exact Elen. }
  destruct (Qltb 0 (totalWeightedRatingOf r (map A data))) eqn:Etot.
  - set (total := totalWeightedRatingOf r (map A data)) in *.
    set (Nz := normalizeShare div r total).
    assert (Hone : regionPass div weightingLogic weights r data = map Nz (map A data)).
    { unfold regionPass. fold sel. rewrite Elen. fold A. fold total. rewrite Etot.
      reflexivity. }
    rewrite !Hone. unfold regionPass.
    rewrite (Hlen Nz (inRegionSel_normalizeShare div r total r)).
    rewrite (Hagain Nz (metricsOf_normalizeShare div r total)
               (inRegionSel_normalizeShare div r total r)
               (weightedRating_normalizeShare div r total)).
    rewrite (totalWeightedRatingOf_kept r Nz (map A data)
               (inRegionSel_normalizeShare div r total r)
               (weightedRating_normalizeShare div r total)).
    fold total. rewrite Etot. fold Nz.
    rewrite (map_map Nz Nz). apply map_ext. intro d. apply normalizeShare_twice.
  - assert (Hone : regionPass div weightingLogic weights r data = map A data).
    { unfold regionPass. fold sel. rewrite Elen. fold A. rewrite Etot. reflexivity. }
    rewrite !Hone. unfold regionPass.
    pose proof (Hlen (fun d => d) (fun d => eq_refl)) as Hlen'.
    pose proof (Hagain (fun d => d) (fun d => eq_refl) (fun d => eq_refl)
                  (fun d => eq_refl)) as Hagain'.
    rewrite map_id in Hlen', Hagain'.
    rewrite Hlen', Hagain', Etot. reflexivity.
Qed.

Section RegionView.
Variable r : string.

Local Abbreviation view := (List.filter (inRegion r)).

Lemma view_view (x : list ChannelData) : view (view x) = view x.
Proof. apply filter_within. intros d H. exact H. Qed.

Lemma view_elsewhere (r0 : string) (z : list ChannelData) :
  r0 <> r -> view z = z -> forall d, In d z -> inRegion r0 d = false.
Proof.
  intros Hne Hz d Hd. rewrite <- Hz in Hd. apply filter_In in Hd as [_ Hd].
  apply inRegion_eq in Hd. apply inRegion_neq. congruence.
Qed.

Lemma filter_none {A} (p : A -> bool) (l : list A) :
  (forall x, In x l -> p x = false) -> List.filter p l = [].
Proof.
  induction l as [|x l IH]; intro H; simpl; [reflexivity|].
  rewrite (H x (or_introl eq_refl)). apply IH. intros y Hy. apply H. right. exact Hy.
Qed.

(** A loop over the regions of the brief whose body reads and writes the
    records of its region only. *)
Section RegionFold.
Variable P : string -> list ChannelData -> list ChannelData.
Hypothesis P_same : forall x, view (P r x) = P r (view x).
Hypothesis P_other : forall r0 x, r0 <> r -> view (P r0 x) = view x.
Hypothesis P_absent : forall r0 z, r0 <> r -> view z = z -> P r0 z = z.

Lemma view_fold (rs : list string) (x : list ChannelData) :
  view (fold_left (fun d r0 => P r0 d) rs x)
  = fold_left (fun d r0 => P r0 d) rs (view x).
Proof.
  revert x. induction rs as [|a rs IH]; intro x; simpl; [reflexivity|].
  rewrite IH. f_equal.
  destruct (String.eqb_spec a r) as [->|Hne]; [apply P_same|].
  rewrite (P_other a x Hne). symmetry. apply P_absent; [exact Hne|apply view_view].
Qed.

Lemma fold_absent (rs : list string) (z : list ChannelData) :
  ~ In r rs -> view z = z -> fold_left (fun d r0 => P r0 d) rs z = z.
Proof.
  induction rs as [|a rs IH]; intros Hno Hz; simpl; [reflexivity|].
  rewrite (P_absent a z); [|intros ->; apply Hno; left; reflexivity|exact Hz].
  apply IH; [|exact Hz]. intro H. apply Hno. right. exact H.
Qed.

Lemma fold_once (rs : list string) (z : list ChannelData) :
  List.NoDup rs -> In r rs -> view z = z ->
  fold_left (fun d r0 => P r0 d) rs z = P r z.
Proof.
  induction rs as [|a rs IH]; intros Hnd Hin Hz; [destruct Hin|].
  apply List.NoDup_cons_iff in Hnd as [Ha Hnd]. simpl.
  destruct (String.eqb_spec a r) as [->|Hne].
  - apply fold_absent; [exact Ha|]. rewrite P_same, Hz. reflexivity.
  - rewrite (P_absent a z Hne Hz). apply IH; [exact Hnd| |exact Hz].
    destruct Hin as [Hin|Hin]; [congruence|exact Hin].
Qed.

Hypothesis P_twice : forall z, P r (P r z) = P r z.

Lemma fold_within (rs : list string) (z : list ChannelData) :
  view z = z ->
  fold_left (fun d r0 => P r0 d) rs z
  = if existsb (String.eqb r) rs then P r z else z.
Proof.
  revert z. induction rs as [|a rs IH]; intros z Hz; simpl; [reflexivity|].
  rewrite (String.eqb_sym r a).
  destruct (String.eqb_spec a r) as [->|Hne]; simpl.
  - rewrite IH; [|rewrite P_same, Hz; reflexivity].
    rewrite P_twice. destruct (existsb _ rs); reflexivity.
  - rewrite (P_absent a z Hne Hz). apply IH. exact Hz.
Qed.

Lemma fold_twice (rs : list string) (z : list ChannelData) :
  view z = z ->
  fold_left (fun d r0 => P r0 d) rs (fold_left (fun d r0 => P r0 d) rs z)
  = fold_left (fun d r0 => P r0 d) rs z.
Proof.
  intro Hz. rewrite (fold_within rs z Hz).
  destruct (existsb (String.eqb r) rs) eqn:E.
  - rewrite fold_within; [|rewrite P_same, Hz; reflexivity].
    rewrite E. apply P_twice.
  - rewrite (fold_within rs z Hz), E. reflexivity.
Qed.
End RegionFold.

(** *** The weighting pass *)

Lemma view_regionPass_same div weightingLogic weights (x : list ChannelData) :
  view (regionPass div weightingLogic weights r x)
  = regionPass div weightingLogic weights r (view x).
Proof.
  unfold regionPass.
  rewrite (filter_within (inRegionSel r) (inRegion r) x (inRegionSel_inRegion r)).
  destruct (List.length _ =? 0)%nat; [reflexivity|].
  set (A := assignRating div weightingLogic weights r _).
  assert (HA : map A (view x) = view (map A x)).
  { symmetry. apply filter_map_commute. intro d. apply inRegion_assignRating. }
  assert (Ht : totalWeightedRatingOf r (view (map A x))
               = totalWeightedRatingOf r (map A x)).
  { unfold totalWeightedRatingOf.
    rewrite (filter_within (inRegionSel r) (inRegion r) _ (inRegionSel_inRegion r)).
    reflexivity. }
  rewrite HA, Ht. destruct (Qltb 0 _); [|reflexivity].
  apply filter_map_commute. intro d. apply inRegion_normalizeShare.
Qed.

Lemma regionPass_absent div weightingLogic weights (r0 : string)
    (z : list ChannelData) :
  r0 <> r -> view z = z -> regionPass div weightingLogic weights r0 z = z.
Proof.
  intros Hne Hz. unfold regionPass.
  rewrite (filter_none (inRegionSel r0) z); [reflexivity|].
  intros d Hd. unfold inRegionSel. rewrite (view_elsewhere r0 z Hne Hz d Hd).
  reflexivity.
Qed.

Lemma view_regionsPass div brief weightingLogic weights (x : list ChannelData) :
  view (regionsPass div brief weightingLogic weights x)
  = regionsPass div brief weightingLogic weights (view x).
Proof.
  unfold regionsPass.
  apply (view_fold (regionPass div weightingLogic weights)).
  - apply view_regionPass_same.
  - intros r0 y Hne. apply regionPass_other. exact Hne.
  - apply regionPass_absent.
Qed.

Lemma regionsPass_within div brief weightingLogic weights (z : list ChannelData) :
  view z = z ->
  regionsPass div brief weightingLogic weights z
  = if existsb (String.eqb r) (regionsOf brief)
    then regionPass div weightingLogic weights r z else z.
Proof.
  unfold regionsPass.
  apply (fold_within (regionPass div weightingLogic weights)).
  - apply view_regionPass_same.
  - apply regionPass_absent.
  - apply regionPass_twice.
Qed.

Lemma regionsPass_twice div brief weightingLogic weights (z : list ChannelData) :
  view z = z ->
  regionsPass div brief weightingLogic weights
    (regionsPass div brief weightingLogic weights z)
  = regionsPass div brief weightingLogic weights z.
Proof.
  unfold regionsPass.
  apply (fold_twice (regionPass div weightingLogic weights)).
  - apply view_regionPass_same.
  - apply regionPass_absent.
  - apply regionPass_twice.
Qed.

(** *** The loop *)

Lemma inRegion_applyFloor brief d : inRegion r (applyFloor brief d) = inRegion r d.
Proof.
  unfold applyFloor. destruct (briefOf brief (region d)); [|reflexivity].
  destruct (belowFloor brief d); reflexivity.
Qed.

Section RegionLoop.
Variables (brief : BriefData) (weightingLogic : string) (applyLimits : bool)
          (weights : option Weights).

Local Abbreviation loop := (optimizeLoop brief weightingLogic applyLimits weights).
Local Abbreviation pass := (passData brief weightingLogic applyLimits weights).
Local Abbreviation changed := (deselects brief weightingLogic applyLimits weights).

Lemma view_passData (x : list ChannelData) : view (pass x) = pass (view x).
Proof.
  unfold passData, passOnce. destruct applyLimits; cbn [fst].
  - rewrite (filter_map_commute _ _ _ (inRegion_applyFloor brief)).
    rewrite view_regionsPass. reflexivity.
  - apply view_regionsPass.
Qed.

Lemma view_deselects (x : list ChannelData) :
  changed (view x) = true -> changed x = true.
Proof.
  unfold deselects, passOnce. destruct applyLimits; cbn [snd]; [|intro H; exact H].
  rewrite <- view_regionsPass. intro H.
  apply existsb_exists in H as (d & Hd & Hb).
  apply existsb_exists. exists d. split; [|exact Hb].
  apply filter_In in Hd as [Hd _]. exact Hd.
Qed.

(** A pass that deselects nothing in a region has settled it. *)
Lemma pass_settled (z : list ChannelData) :
  view z = z -> changed z = false ->
  pass (pass z) = pass z /\ changed (pass z) = false.
Proof.
  intros Hz Hd.
  rewrite (passData_without_deselection _ _ _ _ z Hd).
  pose proof (regionsPass_twice Qdiv brief weightingLogic weights z Hz) as Hy.
  assert (Hdy : changed (regionsPass Qdiv brief weightingLogic weights z) = false).
  { unfold deselects, passOnce in Hd |- *.
    destruct applyLimits; cbn [snd] in Hd |- *; [|reflexivity].
    rewrite Hy. exact Hd. }
  split; [|exact Hdy].
  rewrite (passData_without_deselection _ _ _ _ _ Hdy). exact Hy.
Qed.

Lemma loop_settled (iterationCount : nat) (y : list ChannelData) :
  pass y = y -> changed y = false -> fst (loop iterationCount y) = y.
Proof.
  intros Hp Hc. rewrite optimizeLoop_step.
  destruct (20 <? S iterationCount)%nat; [reflexivity|].
  rewrite Hc. cbn [fst]. exact Hp.
Qed.

Lemma view_loop (n iterationCount : nat) (x : list ChannelData) :
  (iterationCount + n = 20)%nat ->
  view (fst (loop iterationCount x)) = fst (loop iterationCount (view x)).
Proof.
  revert iterationCount x.
  induction n as [|n IH]; intros ic x Hic;
    rewrite (optimizeLoop_step _ _ _ _ ic x), (optimizeLoop_step _ _ _ _ ic (view x)).
  - assert (ic = 20%nat) as -> by lia. reflexivity.
  - destruct (20 <? S ic)%nat; [reflexivity|].
    destruct (changed (view x)) eqn:Ev.
    + rewrite (view_deselects x Ev).
      rewrite (IH (S ic) (pass x)) by lia. rewrite view_passData. reflexivity.
    + destruct (pass_settled (view x) (view_view x) Ev) as [Hp Hc].
      destruct (changed x) eqn:Ex.
      * rewrite (IH (S ic) (pass x)) by lia. rewrite view_passData. cbn [fst].
        apply loop_settled; assumption.
      * cbn [fst]. apply view_passData.
Qed.
End RegionLoop.

(** *** The orbital cap *)

Lemma view_capRegion_same brief (x : list ChannelData) :
  view (capRegion brief r x) = capRegion brief r (view x).
Proof.
  unfold capRegion. destruct (briefOf brief r) as [regionBrief|]; [|reflexivity].
  destruct (maxOrbitalShare regionBrief) as [cap|]; [|reflexivity]. cbv zeta.
  assert (Hsum : forall p l, (forall d, p d = true -> inRegion r d = true) ->
             shareSum p (view l) = shareSum p l).
  { intros p l Hp. unfold shareSum. rewrite (filter_within p (inRegion r) l Hp).
    reflexivity. }
  rewrite (Hsum _ x (orbitalSel_inRegion r)).
  destruct (Qltb (cap / 100) _); [|reflexivity].
  set (S := scaleOrbital r cap _).
  assert (HS : map S (view x) = view (map S x)).
  { symmetry. apply filter_map_commute. intro d. apply inRegion_scaleOrbital. }
  rewrite HS, (Hsum _ (map S x) (networkSel_inRegion r)).
  destruct (Qltb 0 _); [|reflexivity].
  apply filter_map_commute. intro d. apply inRegion_topUpNetwork.
Qed.

Lemma capRegion_absent brief (r0 : string) (z : list ChannelData) :
  r0 <> r -> view z = z -> capRegion brief r0 z = z.
Proof.
  intros Hne Hz.
  assert (HS : forall c f, map (scaleOrbital r0 c f) z = z).
  { intros c f. rewrite <- (map_id z) at 2. apply map_ext_in. intros d Hd.
    unfold scaleOrbital, orbitalSel, inRegionSel.
    rewrite (view_elsewhere r0 z Hne Hz d Hd). reflexivity. }
  assert (HT : forall n s, map (topUpNetwork r0 n s) z = z).
  { intros n s. rewrite <- (map_id z) at 2. apply map_ext_in. intros d Hd.
    unfold topUpNetwork, networkSel, inRegionSel.
    rewrite (view_elsewhere r0 z Hne Hz d Hd). reflexivity. }
  unfold capRegion. destruct (briefOf brief r0) as [regionBrief|]; [|reflexivity].
  destruct (maxOrbitalShare regionBrief) as [cap|]; [|reflexivity]. cbv zeta.
  destruct (Qltb (cap / 100) _); [|reflexivity].
  rewrite HS. destruct (Qltb 0 _); [apply HT|reflexivity].
Qed.

Lemma view_capPass brief applyLimits (x : list ChannelData) :
  view (capPass brief applyLimits x) = capPass brief applyLimits (view x).
Proof.
  unfold capPass. destruct applyLimits; [|reflexivity].
  apply (view_fold (capRegion brief)).
  - apply view_capRegion_same.
  - intros r0 y Hne. apply capRegion_other. exact Hne.
  - apply capRegion_absent.
Qed.

(** *** The end of [optimizeSplit] *)

Lemma inRegion_finalize d : inRegion r (finalize d) = inRegion r d.
Proof. unfold finalize. destruct (selected d); reflexivity. Qed.

Lemma view_optimizeRecords data brief weightingLogic applyLimits weights :
  view (optimizeRecords data brief weightingLogic applyLimits weights)
  = optimizeRecords (view data) brief weightingLogic applyLimits weights.
Proof.
  unfold optimizeRecords.
  rewrite (filter_map_commute _ _ _ inRegion_finalize).
  rewrite view_capPass.
  rewrite (view_loop brief weightingLogic applyLimits weights 20 0 data eq_refl).
  reflexivity.
Qed.
End RegionView.

(** Sorting and filtering commute. *)
Lemma insertBy_first {A} (cmp : A -> A -> Q) (x : A) (l : list A) :
  (forall y, In y l -> cmp x y <= 0) -> insertBy cmp x l = x :: l.
Proof.
  destruct l as [|y l]; intro H; simpl; [reflexivity|].
  assert (E : Qle_bool (cmp x y) 0 = true)
    by (apply Qle_bool_iff, H; left; reflexivity).
  rewrite E. reflexivity.
Qed.

Lemma insertBy_filter {A} (cmp : A -> A -> Q) (R : A -> A -> Prop) (p : A -> bool)
    (x : A) (l : list A) :
  (forall a b, cmp a b <= 0 <-> R a b) ->
  (forall a b c, R a b -> R b c -> R a c) ->
  StronglySorted R l ->
  List.filter p (insertBy cmp x l)
  = if p x then insertBy cmp x (List.filter p l) else List.filter p l.
Proof.
  intros Hiff Htr. induction l as [|y l IH]; intro Hs.
  - simpl. destruct (p x); reflexivity.
  - apply StronglySorted_inv in Hs as [Hl Hy]. cbn [insertBy].
    destruct (Qle_bool (cmp x y) 0) eqn:E.
    + cbn [List.filter]. destruct (p x) eqn:Ex; [|reflexivity].
      symmetry. apply insertBy_first. intros z Hz.
      assert (Hin : In z (y :: l)).
      { destruct (p y); [destruct Hz as [<-|Hz]; [left; reflexivity|]|];
          right; apply filter_In in Hz as [Hz _]; exact Hz. }
      apply Qle_bool_iff in E.
      destruct Hin as [<-|Hin]; [exact E|].
      apply Hiff. apply (Htr _ y); [apply Hiff; exact E|].
      rewrite List.Forall_forall in Hy. apply Hy. exact Hin.
    + cbn [List.filter]. rewrite (IH Hl).
      destruct (p y) eqn:Ey; [|reflexivity].
      destruct (p x); [|reflexivity].
      cbn [insertBy]. rewrite E. reflexivity.
Qed.

Lemma cmpFinal_order (a b : ChannelData) : cmpFinal a b <= 0 <-> finalOrder a b.
Proof.
  unfold cmpFinal, finalOrder.
  destruct (Qeq_bool (sortOrder a - sortOrder b) 0) eqn:E.
  - apply Qeq_bool_iff in E. split; [intro H; right; split; lra|].
    intros [H|[_ H]]; lra.
  - apply Qeq_bool_neq in E. split; [intro H; left; lra|].
    intros [H|[H _]]; lra.
Qed.

Lemma sortBy_cmpFinal_filter (p : ChannelData -> bool) (l : list ChannelData) :
  List.filter p (sortBy cmpFinal l) = sortBy cmpFinal (List.filter p l).
Proof.
  induction l as [|x l IH]; [reflexivity|].
  change (sortBy cmpFinal (x :: l)) with (insertBy cmpFinal x (sortBy cmpFinal l)).
  rewrite (insertBy_filter cmpFinal finalOrder p x (sortBy cmpFinal l) cmpFinal_order).
  - cbn [List.filter]. destruct (p x); [|exact IH].
    change (sortBy cmpFinal (x :: List.filter p l))
      with (insertBy cmpFinal x (sortBy cmpFinal (List.filter p l))).
    rewrite IH. reflexivity.
  - intros a b c. unfold finalOrder. intros [H1|[H1 H1']] [H2|[H2 H2']];
      [left; lra|left; lra|left; lra|right; split; lra].
  - apply cmpFinal_sorted.
Qed.

Lemma view_optimizeSplit r data brief weightingLogic applyLimits weights :
  List.filter (inRegion r) (optimizeSplit data brief weightingLogic applyLimits weights)
  = optimizeSplit (List.filter (inRegion r) data) brief weightingLogic applyLimits
      weights.
Proof.
  unfold optimizeSplit. rewrite sortBy_cmpFinal_filter, view_optimizeRecords.
  reflexivity.
Qed.

(** *** The selection stages *)

Lemma hasIndex_inRegion r d : hasIndex r d = true -> inRegion r d = true.
Proof. unfold hasIndex. rewrite andb_true_iff. tauto. Qed.

Lemma inRegion_cutoffMark r r0 S d : inRegion r (cutoffMark r0 S d) = inRegion r d.
Proof.
  unfold cutoffMark. destruct (inRegion r0 d); [|reflexivity].
  destruct (negb (isNull (indexTcpp d))); [destruct (bool_decide _)|]; reflexivity.
Qed.

Lemma view_cutoffRegion_same r brief (x : list ChannelData) :
  List.filter (inRegion r) (cutoffRegion brief r x)
  = cutoffRegion brief r (List.filter (inRegion r) x).
Proof.
  unfold cutoffRegion, cutChannels.
  rewrite (filter_within (hasIndex r) (inRegion r) x (hasIndex_inRegion r)).
  destruct (List.length _ =? 0)%nat; [reflexivity|].
  apply filter_map_commute. intro d. apply inRegion_cutoffMark.
Qed.

Lemma view_cutoffRegion_other r brief (r0 : string) (x : list ChannelData) :
  r0 <> r ->
  List.filter (inRegion r) (cutoffRegion brief r0 x) = List.filter (inRegion r) x.
Proof.
  intro Hne. unfold cutoffRegion.
  destruct (List.length _ =? 0)%nat; [reflexivity|].
  apply filter_map_fixed.
  - intro d. apply inRegion_cutoffMark.
  - intros d Hd. apply inRegion_eq in Hd.
    assert (inRegion r0 d = false) as Hf by (apply inRegion_neq; congruence).
    unfold cutoffMark. rewrite Hf. reflexivity.
Qed.

Lemma cutoffRegion_absent r brief (r0 : string) (z : list ChannelData) :
  r0 <> r -> List.filter (inRegion r) z = z -> cutoffRegion brief r0 z = z.
Proof.
  intros Hne Hz. unfold cutoffRegion.
  rewrite (filter_none (hasIndex r0) z); [reflexivity|].
  intros d Hd. unfold hasIndex. rewrite (view_elsewhere r r0 z Hne Hz d Hd).
  reflexivity.
Qed.

Lemma view_selectSingle r data brief weightingLogic :
  List.filter (inRegion r) (selectSingle data brief weightingLogic)
  = selectSingle (List.filter (inRegion r) data) brief weightingLogic.
Proof.
  unfold selectSingle. destruct (negb _).
  - apply (view_fold r (cutoffRegion brief)).
    + apply view_cutoffRegion_same.
    + intros r0 x Hne. apply view_cutoffRegion_other. exact Hne.
    + apply cutoffRegion_absent.
  - apply filter_map_commute. intro d. unfold naturalMark.
    destruct (_ && _); reflexivity.
Qed.

Lemma view_selectConstructor r data names :
  List.filter (inRegion r) (selectConstructor data names)
  = selectConstructor (List.filter (inRegion r) data) names.
Proof.
  unfold selectConstructor. apply filter_map_commute. intro d. unfold constructorMark.
  destruct (_ && _); [destruct (bool_decide _)|]; reflexivity.
Qed.

Lemma view_manualRecords r data brief shares :
  List.filter (inRegion r) (manualRecords data brief shares)
  = manualRecords (List.filter (inRegion r) data) brief shares.
Proof.
  unfold manualRecords. apply filter_map_commute. intro d.
  pose proof (f_equal m_region (manualMark_metrics (head (regionsOf brief)) shares d))
    as H.
  cbn [m_region metricsOf] in H. unfold inRegion. rewrite H. reflexivity.
Qed.

(** X21.  A split treats the regions independently of each other: the
    records of a region in the split of the whole table are the split of
    the records of that region alone, for each of the three generators. *)
Theorem X21_regions_are_split_independently (r : string) (brief : BriefData) :
  (forall data weightingLogic applyLimits,
     List.filter (inRegion r) (generateSingleSplit data brief weightingLogic applyLimits)
     = generateSingleSplit (List.filter (inRegion r) data) brief weightingLogic
         applyLimits) /\
  (forall allChannels selectedChannelNames weightingLogic weights,
     List.filter (inRegion r)
       (generateConstructorSplit allChannels brief selectedChannelNames weightingLogic
          weights)
     = generateConstructorSplit (List.filter (inRegion r) allChannels) brief
         selectedChannelNames weightingLogic weights) /\
  (forall allChannels shares,
     List.filter (inRegion r) (generateManualSharesSplit allChannels brief shares)
     = generateManualSharesSplit (List.filter (inRegion r) allChannels) brief shares).
Proof.
  split; [|split].
  - intros data weightingLogic applyLimits. unfold generateSingleSplit.
    rewrite view_optimizeSplit, view_selectSingle. reflexivity.
  - intros allChannels names weightingLogic weights. unfold generateConstructorSplit.
    rewrite view_optimizeSplit, view_selectConstructor. reflexivity.
  - intros allChannels shares. unfold generateManualSharesSplit.
    rewrite sortBy_cmpFinal_filter, view_manualRecords. reflexivity.
Qed.

(** ** A recalculation on the results screen *)

Lemma existsb_ext_in {A} (f g : A -> bool) (l : list A) :
  (forall x, In x l -> f x = g x) -> existsb f l = existsb g l.
Proof.
  induction l as [|x l IH]; intro H; simpl; [reflexivity|].
  rewrite (H x (or_introl eq_refl)), IH; [reflexivity|].
  intros y Hy. apply H. right. exact Hy.
Qed.

Section BriefOfRegion.
Variables (r : string) (regionBrief : RegionBrief) (brief : BriefData).
Hypothesis brief_r : briefOf brief r = Some regionBrief.
Hypothesis brief_keys : List.NoDup (regionsOf brief).

Local Abbreviation briefForRegion := (mkBriefData [(r, regionBrief)]).

Lemma briefForRegion_r : briefOf briefForRegion r = Some regionBrief.
Proof.
  unfold briefOf. cbn [regionBriefs List.find fst snd]. rewrite String.eqb_refl.
  reflexivity.
Qed.

Lemma brief_has_r : In r (regionsOf brief).
Proof.
  unfold briefOf in brief_r.
  destruct (List.find _ (regionBriefs brief)) as [kv|] eqn:Hfind; [|discriminate].
  apply find_some in Hfind as [Hin Hk]. apply String.eqb_eq in Hk.
  rewrite <- Hk. unfold regionsOf. apply in_map. exact Hin.
Qed.

Lemma regionsPass_briefForRegion weightingLogic weights (z : list ChannelData) :
  List.filter (inRegion r) z = z ->
  regionsPass Qdiv brief weightingLogic weights z
  = regionsPass Qdiv briefForRegion weightingLogic weights z.
Proof.
  intro Hz. rewrite !(regionsPass_within r) by exact Hz.
  assert (E : existsb (String.eqb r) (regionsOf brief) = true).
  { apply existsb_exists. exists r. split; [apply brief_has_r|apply String.eqb_refl]. }
  rewrite E. cbn [regionsOf regionBriefs map fst existsb].
  rewrite String.eqb_refl. reflexivity.
Qed.

Lemma belowFloor_briefForRegion (d : ChannelData) :
  inRegion r d = true ->
  belowFloor brief d = belowFloor briefForRegion d /\
  applyFloor brief d = applyFloor briefForRegion d.
Proof.
  intro Hd. apply inRegion_eq in Hd. unfold applyFloor, belowFloor.
  rewrite Hd, brief_r, briefForRegion_r. split; reflexivity.
Qed.

Lemma passOnce_briefForRegion weightingLogic applyLimits weights
    (z : list ChannelData) :
  List.filter (inRegion r) z = z ->
  passOnce brief weightingLogic applyLimits weights z
  = passOnce briefForRegion weightingLogic applyLimits weights z.
Proof.
  intro Hz. unfold passOnce. cbv zeta.
  rewrite (regionsPass_briefForRegion weightingLogic weights z Hz).
  destruct applyLimits; [|reflexivity].
  set (y := regionsPass Qdiv briefForRegion weightingLogic weights z).
  assert (Hy : forall d, In d y -> inRegion r d = true).
  { intros d Hd. unfold y in Hd. rewrite <- Hz, <- (view_regionsPass r) in Hd.
    apply filter_In in Hd as [_ Hd]. exact Hd. }
  f_equal.
  - apply map_ext_in. intros d Hd. apply belowFloor_briefForRegion, Hy, Hd.
  - apply existsb_ext_in. intros d Hd. apply belowFloor_briefForRegion, Hy, Hd.
Qed.

Lemma optimizeLoop_briefForRegion weightingLogic applyLimits weights
    (n iterationCount : nat) (z : list ChannelData) :
  (iterationCount + n = 20)%nat -> List.filter (inRegion r) z = z ->
  optimizeLoop brief weightingLogic applyLimits weights iterationCount z
  = optimizeLoop briefForRegion weightingLogic applyLimits weights iterationCount z.
Proof.
  revert iterationCount z.
  induction n as [|n IH]; intros ic z Hic Hz;
    rewrite (optimizeLoop_step brief _ _ _ ic z),
      (optimizeLoop_step (mkBriefData [(r, regionBrief)]) _ _ _ ic z).
  - assert (ic = 20%nat) as -> by lia. reflexivity.
  - destruct (20 <? S ic)%nat; [reflexivity|].
    unfold deselects, passData.
    rewrite (passOnce_briefForRegion weightingLogic applyLimits weights z Hz).
    destruct (snd _); [|reflexivity].
    apply IH; [lia|].
    change (fst (passOnce briefForRegion weightingLogic applyLimits weights z))
      with (passData briefForRegion weightingLogic applyLimits weights z).
    rewrite (view_passData r), Hz. reflexivity.
Qed.

Lemma capPass_briefForRegion applyLimits (y : list ChannelData) :
  List.filter (inRegion r) y = y -> capPass brief applyLimits y = capPass briefForRegion applyLimits y.
Proof.
  intro Hy. unfold capPass. destruct applyLimits; [|reflexivity].
  rewrite (fold_once r (capRegion brief) (view_capRegion_same r brief)
             (capRegion_absent r brief) (regionsOf brief) y brief_keys brief_has_r Hy).
  cbn [regionsOf regionBriefs map fst fold_left].
  unfold capRegion. rewrite brief_r, briefForRegion_r. reflexivity.
Qed.

Lemma optimizeSplit_briefForRegion weightingLogic applyLimits weights
    (z : list ChannelData) :
  List.filter (inRegion r) z = z ->
  optimizeSplit z brief weightingLogic applyLimits weights
  = optimizeSplit z briefForRegion weightingLogic applyLimits weights.
Proof.
  intro Hz. unfold optimizeSplit, optimizeRecords.
  rewrite (optimizeLoop_briefForRegion weightingLogic applyLimits weights 20 0 z
             eq_refl Hz).
  rewrite capPass_briefForRegion; [reflexivity|].
  rewrite (view_loop r briefForRegion weightingLogic applyLimits weights 20 0 z eq_refl).
  rewrite Hz. reflexivity.
Qed.
End BriefOfRegion.

(** X22.  A constructor recalculation on the results screen, which runs
    with the brief of the active region alone, gives for that region the
    records that the constructor gives with the whole brief. *)
Theorem X22_constructor_recalculation_agrees_with_whole_brief
    (initialData : list ChannelData) (briefData : BriefData) (activeRegion : string)
    (regionBrief : RegionBrief) (selectedChannels : list string) (logic : string)
    (weights : option Weights) :
  briefOf briefData activeRegion = Some regionBrief ->
  List.NoDup (regionsOf briefData) ->
  List.filter (inRegion activeRegion)
    (handleCalculateConstructorSplit initialData activeRegion regionBrief
       selectedChannels logic weights)
  = List.filter (inRegion activeRegion)
      (generateConstructorSplit initialData briefData selectedChannels logic weights).
Proof.
  intros Hbrief Hkeys.
  unfold handleCalculateConstructorSplit, generateConstructorSplit.
  rewrite !view_optimizeSplit. symmetry.
  apply optimizeSplit_briefForRegion; [exact Hbrief|exact Hkeys|].
  apply view_view.
Qed.

Lemma X22_constructor_recalculation_witness :
  List.filter (inRegion "Москва")
    (handleCalculateConstructorSplit (baseSnapshot twoRegionRows twoRegionBrief)
       "Москва" (mkBrief "All 18+" (Some 2) None (Some 20)) ["A"; "B"] "Affinity" None)
  = List.filter (inRegion "Москва")
      (generateConstructorSplit (baseSnapshot twoRegionRows twoRegionBrief)
         twoRegionBrief ["A"; "B"] "Affinity" None).
Proof.
  apply X22_constructor_recalculation_agrees_with_whole_brief.
  - vm_compute. reflexivity.
  - vm_compute. repeat constructor; intros H; repeat destruct H as [H|H];
      try discriminate H; try destruct H.
Defined.

(** ** Shares follow the ratings *)

Lemma regionPass_share_formula weightingLogic weights (r : string)
    (z : list ChannelData) (d : ChannelData) :
  0 < totalWeightedRatingOf r (regionPass Qdiv weightingLogic weights r z) ->
  In d (regionPass Qdiv weightingLogic weights r z) -> inRegionSel r d = true ->
  share d = Some (orNum (weightedRating d) 0
                  / totalWeightedRatingOf r (regionPass Qdiv weightingLogic weights r z)).
Proof.
  unfold regionPass.
  destruct (List.length (List.filter (inRegionSel r) z) =? 0)%nat eqn:Elen.
  { apply Nat.eqb_eq, length_zero_iff_nil in Elen.
    unfold totalWeightedRatingOf. rewrite Elen. intro H.
    exfalso. apply (Qlt_irrefl 0). exact H. }
  set (data1 := map (assignRating Qdiv weightingLogic weights r _) z).
  destruct (Qltb 0 (totalWeightedRatingOf r data1)) eqn:Etot.
  - rewrite (totalWeightedRatingOf_kept r _ data1
               (fun x => inRegionSel_normalizeShare Qdiv r _ r x)
               (weightedRating_normalizeShare Qdiv r _)).
    intros _ Hin Hsel. apply in_map_iff in Hin as (d1 & <- & _).
    rewrite inRegionSel_normalizeShare in Hsel.
    rewrite weightedRating_normalizeShare. unfold normalizeShare. rewrite Hsel.
    reflexivity.
  - apply Qltb_ge in Etot. intro H. exfalso. apply (Qlt_not_le _ _ H Etot).
Qed.

Lemma regionsPass_share_formula brief weightingLogic weights (r : string)
    (x : list ChannelData) (d : ChannelData) :
  In r (regionsOf brief) ->
  0 < totalWeightedRatingOf r (regionsPass Qdiv brief weightingLogic weights x) ->
  In d (regionsPass Qdiv brief weightingLogic weights x) -> inRegionSel r d = true ->
  share d = Some (orNum (weightedRating d) 0
                  / totalWeightedRatingOf r
                      (regionsPass Qdiv brief weightingLogic weights x)).
Proof.
  intros Hr Htot Hin Hsel.
  set (z := List.filter (inRegion r) x).
  assert (Hview : List.filter (inRegion r)
                    (regionsPass Qdiv brief weightingLogic weights x)
                  = regionPass Qdiv weightingLogic weights r z).
  { rewrite view_regionsPass. rewrite (regionsPass_within r) by apply view_view.
    assert (E : existsb (String.eqb r) (regionsOf brief) = true).
    { apply existsb_exists. exists r. split; [exact Hr|apply String.eqb_refl]. }
    rewrite E. reflexivity. }
  assert (Hy : List.filter (inRegion r) (regionPass Qdiv weightingLogic weights r z)
               = regionPass Qdiv weightingLogic weights r z).
  { rewrite view_regionPass_same. unfold z. rewrite view_view. reflexivity. }
  assert (HT : totalWeightedRatingOf r (regionsPass Qdiv brief weightingLogic weights x)
               = totalWeightedRatingOf r (regionPass Qdiv weightingLogic weights r z)).
  { apply totalWeightedRatingOf_region. rewrite Hy. exact Hview. }
  rewrite HT in Htot |- *.
  apply regionPass_share_formula; [exact Htot| |exact Hsel].
  rewrite <- Hview. apply filter_In. split; [exact Hin|].
  apply inRegionSel_inRegion. exact Hsel.
Qed.

Lemma capPass_records_uncapped brief applyLimits (r : string) (rb : RegionBrief)
    (data : list ChannelData) :
  briefOf brief r = Some rb ->
  applyLimits = false \/ maxOrbitalShare rb = None ->
  List.filter (inRegion r) (capPass brief applyLimits data)
  = List.filter (inRegion r) data.
Proof.
  intros Hbrief Hcase. unfold capPass. destruct applyLimits; [|reflexivity].
  destruct Hcase as [Hcase|Hnone]; [discriminate|].
  apply (capPass_records_without_cap brief r rb Hbrief). exact Hnone.
Qed.

(** X23.  When the loop converged and no orbital cap acts on a region of
    the brief whose total weighted rating is positive, the share of each
    of its selected channels is its weighted rating over the total
    weighted rating of the selected channels of the region. *)
Theorem X23_share_is_rating_over_total (data : list ChannelData) (brief : BriefData)
    (weightingLogic : string) (applyLimits : bool) (weights : option Weights)
    (r : string) (rb : RegionBrief) (d : ChannelData) :
  briefOf brief r = Some rb ->
  applyLimits = false \/ maxOrbitalShare rb = None ->
  loopConverged data brief weightingLogic applyLimits weights = true ->
  let res := optimizeSplit data brief weightingLogic applyLimits weights in
  0 < totalWeightedRatingOf r res ->
  In d res -> region d = r -> selected d = true ->
  exists s, share d = Some s /\
            s == orNum (weightedRating d) 0 / totalWeightedRatingOf r res.
Proof.
  intros Hbrief Hcase Hconv res Htotal Hin Hreg Hsel.
  pose proof (briefOf_In brief r rb Hbrief) as Hr.
  unfold res, optimizeSplit, optimizeRecords in *.
  set (L := fst (optimizeLoop brief weightingLogic applyLimits weights 0 data)) in *.
  assert (HT : totalWeightedRatingOf r
                 (sortBy cmpFinal (map finalize (capPass brief applyLimits L)))
               == totalWeightedRatingOf r L).
  { rewrite final_total_rating. apply capPass_total_rating. }
  rewrite HT in Htotal.
  destruct (converged_ends_on_pass _ _ _ _ _ Hconv) as (before & Hbefore).
  fold L in Hbefore.
  apply sortBy_In in Hin. apply in_map_iff in Hin as (d0 & <- & Hd0).
  destruct (finalize_kept d0) as [Hm Hs].
  assert (Hsel0 : selected d0 = true) by congruence.
  assert (Hreg0 : inRegion r d0 = true).
  { apply inRegion_eq. apply (f_equal m_region) in Hm. simpl in Hm. congruence. }
  assert (HinL : In d0 L).
  { assert (H : In d0 (List.filter (inRegion r) (capPass brief applyLimits L)))
      by (apply filter_In; split; assumption).
    rewrite (capPass_records_uncapped brief applyLimits r rb L Hbrief Hcase) in H.
    apply filter_In in H as [H _]. exact H. }
  assert (Hshare : share d0
                   = Some (orNum (weightedRating d0) 0 / totalWeightedRatingOf r L)).
  { rewrite Hbefore in HinL, Htotal |- *.
    apply regionsPass_share_formula; [exact Hr|exact Htotal|exact HinL|].
    unfold inRegionSel. rewrite Hreg0, Hsel0. reflexivity. }
  exists (orNum (weightedRating d0) 0 / totalWeightedRatingOf r L).
  split.
  - unfold finalize. rewrite Hsel0. exact Hshare.
  - assert (Hw : weightedRating (finalize d0) = weightedRating d0)
      by (unfold finalize; rewrite Hsel0; reflexivity).
    rewrite Hw, HT. reflexivity.
Qed.

(** In the Affinity split the constructor makes of the channels A and B
    of the two-region sample they are rated 6 and 1 in the first region:
    A holds 6/7 of it. *)
Lemma X23_share_is_rating_over_total_witness :
  exists d s,
    In d (generateConstructorSplit (baseSnapshot twoRegionRows twoRegionBrief)
            twoRegionBrief ["A"; "B"] "Affinity" None) /\
    region d = "Москва" /\ channel d = "A" /\ share d = Some s /\ s == 6 / 7.
Proof.
  pose (data := selectConstructor (baseSnapshot twoRegionRows twoRegionBrief)
                  ["A"; "B"]).
  pose (res := optimizeSplit data twoRegionBrief "Affinity" true None).
  assert (Hd : exists d, In d res /\ region d = "Москва" /\ selected d = true /\
                         channel d = "A" /\
                         orNum (weightedRating d) 0 / totalWeightedRatingOf "Москва" res
                         == 6 / 7).
  { vm_compute. eexists. split; [left; reflexivity|repeat split]. }
  destruct Hd as (d & Hin & Hreg & Hsel & Hch & Hval).
  destruct (X23_share_is_rating_over_total data twoRegionBrief "Affinity" true None
              "Москва" (mkBrief "All 18+" (Some 2) None (Some 20)) d)
    as (s & Hs & Heq).
  - reflexivity.
  - right. reflexivity.
  - vm_compute. reflexivity.
  - vm_compute. reflexivity.
  - exact Hin.
  - exact Hreg.
  - exact Hsel.
  - exists d, s. split; [exact Hin|]. split; [exact Hreg|]. split; [exact Hch|].
    split; [exact Hs|]. rewrite Heq. exact Hval.
Defined.

(** ** The rating of a selected channel *)

Lemma plainRating_by_metrics div weightingLogic (avgTcpp : Q) (a b : ChannelData) :
  metricsOf a = metricsOf b ->
  plainRating div weightingLogic avgTcpp a = plainRating div weightingLogic avgTcpp b.
Proof.
  intro H. unfold plainRating.
  destruct (ratings_by_metrics div avgTcpp a b H) as (-> & -> & ->).
  destruct (metrics_fields a b H) as (_ & _ & -> & _). reflexivity.
Qed.

(** Outside the TCPP and the custom logic the rating of a channel is a
    function of the channel alone. *)
Lemma newRating_own div weightingLogic weights (sel : list ChannelData)
    (d : ChannelData) :
  weightingLogic <> "TCPP" ->
  weightingLogic <> "Custom" \/ weights = None ->
  newRating div weightingLogic weights sel d = plainRating div weightingLogic 0 d.
Proof.
  intros Htcpp Hcustom.
  assert (Hplain : forall avg, plainRating div weightingLogic avg d
                               = plainRating div weightingLogic 0 d).
  { intro avg. unfold plainRating.
    destruct (String.eqb weightingLogic "Natural"); [reflexivity|].
    destruct (String.eqb weightingLogic "Affinity"); [reflexivity|].
    destruct (String.eqb weightingLogic "Efficiency"); [reflexivity|].
    destruct (String.eqb_spec weightingLogic "TCPP"); [contradiction|reflexivity]. }
  unfold newRating. cbv zeta.
  destruct (String.eqb_spec weightingLogic "Custom") as [E|_]; [|apply Hplain].
  destruct Hcustom as [Hc| ->]; [contradiction|apply Hplain].
Qed.

Lemma applyFloor_selected brief (d : ChannelData) :
  selected (applyFloor brief d) = true -> applyFloor brief d = d.
Proof.
  unfold applyFloor. destruct (briefOf brief (region d)); [|reflexivity].
  destruct (belowFloor brief d); [discriminate|reflexivity].
Qed.

Lemma view_regionsPass_of_brief brief weightingLogic weights (r : string)
    (x : list ChannelData) :
  In r (regionsOf brief) ->
  List.filter (inRegion r) (regionsPass Qdiv brief weightingLogic weights x)
  = regionPass Qdiv weightingLogic weights r (List.filter (inRegion r) x).
Proof.
  intro Hr. rewrite view_regionsPass. rewrite (regionsPass_within r) by apply view_view.
  assert (E : existsb (String.eqb r) (regionsOf brief) = true).
  { apply existsb_exists. exists r. split; [exact Hr|apply String.eqb_refl]. }
  rewrite E. reflexivity.
Qed.

(** The rating a pass leaves in a selected record of a region of the
    brief is the one it computed from the channels selected on entry. *)
Lemma passData_rating brief weightingLogic applyLimits weights (r : string)
    (x : list ChannelData) (d : ChannelData) :
  In r (regionsOf brief) ->
  In d (passData brief weightingLogic applyLimits weights x) ->
  inRegionSel r d = true ->
  exists d0, In d0 (List.filter (inRegionSel r) x) /\ metricsOf d = metricsOf d0 /\
             weightedRating d
             = newRating Qdiv weightingLogic weights (List.filter (inRegionSel r) x) d0.
Proof.
  intros Hr Hin Hsel.
  assert (Hpass : In d (regionsPass Qdiv brief weightingLogic weights x)).
  { unfold passData, passOnce in Hin. destruct applyLimits; cbn [fst] in Hin;
      [|exact Hin].
    apply in_map_iff in Hin as (d1 & Hd1 & Hin).
    rewrite <- Hd1 in Hsel. apply inRegionSel_selected in Hsel.
    rewrite (applyFloor_selected brief d1 Hsel) in Hd1. subst d1. exact Hin. }
  assert (Hy : In d (regionPass Qdiv weightingLogic weights r
                       (List.filter (inRegion r) x))).
  { rewrite <- (view_regionsPass_of_brief brief weightingLogic weights r x Hr).
    apply filter_In. split; [exact Hpass|apply inRegionSel_inRegion; exact Hsel]. }
  clear Hin Hpass. unfold regionPass in Hy.
  rewrite (filter_within (inRegionSel r) (inRegion r) x (inRegionSel_inRegion r)) in Hy.
  set (sel := List.filter (inRegionSel r) x) in *.
  assert (Hstep : forall d0, In d0 (List.filter (inRegion r) x) ->
             inRegionSel r d0 = true ->
             In d0 sel /\
             metricsOf (assignRating Qdiv weightingLogic weights r sel d0) = metricsOf d0 /\
             weightedRating (assignRating Qdiv weightingLogic weights r sel d0)
             = newRating Qdiv weightingLogic weights sel d0).
  { intros d0 Hd0 Hs0. apply filter_In in Hd0 as [Hd0 _].
    split; [apply filter_In; split; assumption|].
    split; [apply metricsOf_assignRating|].
    unfold assignRating. rewrite Hs0. reflexivity. }
  destruct (List.length sel =? 0)%nat eqn:Elen.
  { apply Nat.eqb_eq, length_zero_iff_nil in Elen.
    destruct (Hstep d Hy Hsel) as (Hd & _ & _). rewrite Elen in Hd. destruct Hd. }
  destruct (Qltb 0 _).
  - apply in_map_iff in Hy as (d1 & <- & Hd1).
    apply in_map_iff in Hd1 as (d0 & <- & Hd0).
    rewrite inRegionSel_normalizeShare, inRegionSel_assignRating in Hsel.
    destruct (Hstep d0 Hd0 Hsel) as (Hin0 & Hm & Hw).
    exists d0. split; [exact Hin0|].
    rewrite metricsOf_normalizeShare, weightedRating_normalizeShare.
    split; assumption.
  - apply in_map_iff in Hy as (d0 & <- & Hd0).
    rewrite inRegionSel_assignRating in Hsel.
    destruct (Hstep d0 Hd0 Hsel) as (Hin0 & Hm & Hw).
    exists d0. split; [exact Hin0|]. split; assumption.
Qed.

Lemma capRegion_source brief (r : string) (x : list ChannelData) (d' : ChannelData) :
  In d' (capRegion brief r x) ->
  exists d, In d x /\ metricsOf d' = metricsOf d /\ selected d' = selected d /\
            weightedRating d' = weightedRating d.
Proof.
  assert (Hscale : forall c f d,
             metricsOf (scaleOrbital r c f d) = metricsOf d /\
             selected (scaleOrbital r c f d) = selected d /\
             weightedRating (scaleOrbital r c f d) = weightedRating d).
  { intros c f d. unfold scaleOrbital. destruct (orbitalSel r d); repeat split. }
  assert (Htop : forall n s d,
             metricsOf (topUpNetwork r n s d) = metricsOf d /\
             selected (topUpNetwork r n s d) = selected d /\
             weightedRating (topUpNetwork r n s d) = weightedRating d).
  { intros n s d. unfold topUpNetwork. destruct (networkSel r d); repeat split. }
  assert (Hsame : In d' x ->
             exists d, In d x /\ metricsOf d' = metricsOf d /\
                       selected d' = selected d /\
                       weightedRating d' = weightedRating d).
  { intro H. exists d'. repeat split. exact H. }
  unfold capRegion. destruct (briefOf brief r) as [regionBrief|]; [|exact Hsame].
  destruct (maxOrbitalShare regionBrief) as [cap|]; [|exact Hsame]. cbv zeta.
  destruct (Qltb (cap / 100) _); [|exact Hsame].
  destruct (Qltb 0 _); intro Hin.
  - apply in_map_iff in Hin as (d1 & <- & Hd1).
    apply in_map_iff in Hd1 as (d & <- & Hd).
    exists d. split; [exact Hd|].
    destruct (Htop (shareSum (networkSel r)
                      (map (scaleOrbital r cap (cap / 100 / shareSum (orbitalSel r) x)) x))
                   (shareSum (orbitalSel r) x - cap / 100)
                   (scaleOrbital r cap (cap / 100 / shareSum (orbitalSel r) x) d))
      as (-> & -> & ->).
    apply Hscale.
  - apply in_map_iff in Hin as (d & <- & Hd).
    exists d. split; [exact Hd|apply Hscale].
Qed.

Lemma capPass_source brief applyLimits (x : list ChannelData) (d' : ChannelData) :
  In d' (capPass brief applyLimits x) ->
  exists d, In d x /\ metricsOf d' = metricsOf d /\ selected d' = selected d /\
            weightedRating d' = weightedRating d.
Proof.
  unfold capPass. destruct applyLimits; [|intro H; exists d'; repeat split; exact H].
  generalize (regionsOf brief). intro rs. revert x.
  induction rs as [|r rs IH]; intros x Hin; simpl in Hin.
  - exists d'. repeat split. exact Hin.
  - destruct (IH _ Hin) as (d1 & Hd1 & Hm1 & Hs1 & Hw1).
    destruct (capRegion_source brief r x d1 Hd1) as (d & Hd & Hm & Hs & Hw).
    exists d. split; [exact Hd|]. repeat split; congruence.
Qed.

(** The rating of a selected record of a finished split was computed by
    the last pass of the loop. *)
Lemma final_rating_source (data : list ChannelData) (brief : BriefData)
    (weightingLogic : string) (applyLimits : bool) (weights : option Weights)
    (r : string) (d : ChannelData) :
  In r (regionsOf brief) ->
  In d (optimizeSplit data brief weightingLogic applyLimits weights) ->
  region d = r -> selected d = true ->
  exists sel d0, metricsOf d = metricsOf d0 /\
                 weightedRating d = newRating Qdiv weightingLogic weights sel d0.
Proof.
  intros Hr Hin Hreg Hsel.
  unfold optimizeSplit, optimizeRecords in Hin.
  apply sortBy_In in Hin. apply in_map_iff in Hin as (d1 & <- & Hd1).
  destruct (finalize_kept d1) as [Hm1 Hs1].
  assert (Hw1 : weightedRating (finalize d1) = weightedRating d1)
    by (unfold finalize; destruct (selected d1); reflexivity).
  destruct (capPass_source _ _ _ _ Hd1) as (d2 & Hd2 & Hm2 & Hs2 & Hw2).
  destruct (optimizeLoop_run brief weightingLogic applyLimits weights 20 0 data eq_refl)
    as (p & _ & Hp & Hres & _).
  destruct p as [|p]; [specialize (Hp ltac:(lia)); lia|].
  rewrite Hres in Hd2. cbn [Nat.iter nat_rect] in Hd2.
  destruct (passData_rating brief weightingLogic applyLimits weights r _ d2 Hr Hd2)
    as (d0 & _ & Hm0 & Hw0).
  { unfold inRegionSel, inRegion.
    assert (region d2 = r).
    { pose proof (f_equal m_region Hm1) as E1. pose proof (f_equal m_region Hm2) as E2.
      cbn [m_region metricsOf] in E1, E2. congruence. }
    rewrite H, String.eqb_refl. simpl. congruence. }
  eexists _, d0. split; [congruence|]. rewrite Hw1, Hw2. exact Hw0.
Qed.

(** X24.  Under every logic but TCPP and the custom blend, the rating
    left in a selected record of a region of the brief is the rating of
    that logic computed from the record's own metrics, whatever else is
    selected. *)
Theorem X24_rating_of_a_selected_channel (data : list ChannelData)
    (brief : BriefData) (weightingLogic : string) (applyLimits : bool)
    (weights : option Weights) (r : string) (d : ChannelData) :
  In r (regionsOf brief) ->
  weightingLogic <> "TCPP" ->
  weightingLogic <> "Custom" \/ weights = None ->
  In d (optimizeSplit data brief weightingLogic applyLimits weights) ->
  region d = r -> selected d = true ->
  weightedRating d = plainRating Qdiv weightingLogic 0 d.
Proof.
  intros Hr Htcpp Hcustom Hin Hreg Hsel.
  destruct (final_rating_source data brief weightingLogic applyLimits weights r d
              Hr Hin Hreg Hsel) as (sel & d0 & Hm & Hw).
  rewrite Hw, (newRating_own Qdiv weightingLogic weights sel d0 Htcpp Hcustom).
  symmetry. apply plainRating_by_metrics. exact Hm.
Qed.

(** In the Affinity split of the channels A and B of the two-region
    sample, A is rated TVR times affinity: 3 times 2. *)
Lemma X24_rating_of_a_selected_channel_witness :
  exists d,
    In d (generateConstructorSplit (baseSnapshot twoRegionRows twoRegionBrief)
            twoRegionBrief ["A"; "B"] "Affinity" None) /\
    region d = "Москва" /\ channel d = "A" /\ weightedRating d = Some (3 * 2).
Proof.
  pose (data := selectConstructor (baseSnapshot twoRegionRows twoRegionBrief)
                  ["A"; "B"]).
  pose (res := optimizeSplit data twoRegionBrief "Affinity" true None).
  assert (Hd : exists d, In d res /\ region d = "Москва" /\ selected d = true /\
                         channel d = "A" /\
                         plainRating Qdiv "Affinity" 0 d = Some (3 * 2)).
  { vm_compute. eexists. split; [left; reflexivity|repeat split]. }
  destruct Hd as (d & Hin & Hreg & Hsel & Hch & Hval).
  exists d. split; [exact Hin|]. split; [exact Hreg|]. split; [exact Hch|].
  rewrite <- Hval.
  apply (X24_rating_of_a_selected_channel data twoRegionBrief "Affinity" true None
           "Москва" d).
  - left. reflexivity.
  - discriminate.
  - right. reflexivity.
  - exact Hin.
  - exact Hreg.
  - exact Hsel.
Defined.

(** ** The constructor panel *)

(** X25.  The option of the constructor panel for efficiency sends the
    name "Эффективность", which the optimizer does not know: in the split
    it starts, the selected channels of the active region are rated by
    their TVR alone, and the price of a channel does not enter its
    rating. *)
Theorem X25_panel_efficiency_option_rates_by_tvr (initialData : list ChannelData)
    (activeRegion : string) (regionBrief : RegionBrief) (st : ConstructorPanel.State)
    (selectedChannels : list string) (logic : string) (weights : option Weights)
    (d : ChannelData) :
  ConstructorPanel.logic st = "Эффективность" ->
  ConstructorPanel.handleCalculateClick st = Some (selectedChannels, logic, weights) ->
  In d (handleCalculateConstructorSplit initialData activeRegion regionBrief
          selectedChannels logic weights) ->
  region d = activeRegion -> selected d = true ->
  weightedRating d = Some (orNum (tvrTa d) 0).
Proof.
  intros Hlogic Hclick Hin Hreg Hsel.
  unfold ConstructorPanel.handleCalculateClick in Hclick. rewrite Hlogic in Hclick.
  change (String.eqb "Эффективность" "Custom") with false in Hclick.
  cbn [andb] in Hclick.
  assert (Hl : logic = "Эффективность") by congruence.
  assert (Hw : weights = None) by congruence.
  subst logic weights.
  unfold handleCalculateConstructorSplit, generateConstructorSplit in Hin.
  assert (Hr : In activeRegion (regionsOf (mkBriefData [(activeRegion, regionBrief)])))
    by (left; reflexivity).
  destruct (final_rating_source _ _ _ _ _ activeRegion d Hr Hin Hreg Hsel)
    as (sel & d0 & Hm & Hrating).
  rewrite Hrating, newRating_own; [|discriminate|right; reflexivity].
  destruct (metrics_fields d d0 Hm) as (_ & _ & -> & _). reflexivity.
Qed.

(** With the efficiency option the channels A and B of the first region
    of the sample, priced 200 and 50, are rated 3 and 1, their TVR. *)
Lemma X25_panel_efficiency_option_witness :
  let st := ConstructorPanel.toggleChannel
              (ConstructorPanel.toggleChannel
                 (ConstructorPanel.setLogic ConstructorPanel.initial "Эффективность")
                 "A") "B" in
  exists d,
    In d (handleCalculateConstructorSplit (baseSnapshot twoRegionRows twoRegionBrief)
            "Москва" (mkBrief "All 18+" (Some 2) None (Some 20))
            ["A"; "B"] "Эффективность" None) /\
    channel d = "A" /\ cpp d = Some 200 /\ weightedRating d = Some 3.
Proof.
  intro st.
  pose (res := handleCalculateConstructorSplit
                 (baseSnapshot twoRegionRows twoRegionBrief)
                 "Москва" (mkBrief "All 18+" (Some 2) None (Some 20))
                 ["A"; "B"] "Эффективность" None).
  assert (Hd : exists d, In d res /\ region d = "Москва" /\ selected d = true /\
                         channel d = "A" /\ cpp d = Some 200 /\
                         Some (orNum (tvrTa d) 0) = Some 3).
  { vm_compute. eexists. split; [left; reflexivity|repeat split]. }
  destruct Hd as (d & Hin & Hreg & Hsel & Hch & Hcpp & Hval).
  exists d. split; [exact Hin|]. split; [exact Hch|]. split; [exact Hcpp|].
  rewrite <- Hval.
  apply (X25_panel_efficiency_option_rates_by_tvr
           (baseSnapshot twoRegionRows twoRegionBrief) "Москва"
           (mkBrief "All 18+" (Some 2) None (Some 20)) st
           ["A"; "B"] "Эффективность" None d).
  - reflexivity.
  - reflexivity.
  - exact Hin.
  - exact Hreg.
  - exact Hsel.
Defined.

Lemma setWeight_range (field : ConstructorPanel.Field) (v : Q) (w : Weights) :
  0 <= v <= 100 ->
  (0 <= w_aff w <= 100 /\ 0 <= w_tcpp w <= 100 /\ 0 <= w_eff w <= 100) ->
  let w' := ConstructorPanel.setWeight field v w in
  0 <= w_aff w' <= 100 /\ 0 <= w_tcpp w' <= 100 /\ 0 <= w_eff w' <= 100.
Proof. intros Hv (Ha & Ht & He). destruct field; simpl; repeat split; tauto. Qed.

Lemma reachable_weights (st : ConstructorPanel.State) :
  ConstructorPanel.reachable st ->
  let w := ConstructorPanel.weights st in
  0 <= w_aff w <= 100 /\ 0 <= w_tcpp w <= 100 /\ 0 <= w_eff w <= 100.
Proof.
  induction 1 as [|st channelName _ IH|st value _ IH|st field numValue isEmpty _ IH].
  - simpl. repeat split; unfold Qle; simpl; lia.
  - unfold ConstructorPanel.toggleChannel. destruct (existsb _ _); exact IH.
  - exact IH.
  - assert (Hzero : 0 <= 0 <= 100) by (split; unfold Qle; simpl; lia).
    unfold ConstructorPanel.handleWeightChange.
    destruct numValue as [n|].
    + destruct ((0 <=? n)%Z && (n <=? 100)%Z) eqn:E.
      * apply andb_true_iff in E as [E0 E1].
        apply Z.leb_le in E0, E1.
        apply setWeight_range; [|exact IH].
        split; [change 0 with (inject_Z 0)|change 100 with (inject_Z 100)];
          rewrite <- Zle_Qle; assumption.
      * destruct isEmpty; [apply setWeight_range; assumption|exact IH].
    + destruct isEmpty; [apply setWeight_range; assumption|exact IH].
Qed.

(** X26.  Whatever was typed into the panel, a custom calculation leaves
    it only with three weights between 0 and 100 that sum to 100; every
    other calculation leaves it without weights. *)
Theorem X26_panel_sends_weights_that_sum_to_100 (st : ConstructorPanel.State)
    (selectedChannels : list string) (logic : string) (weights : option Weights) :
  ConstructorPanel.reachable st ->
  ConstructorPanel.handleCalculateClick st = Some (selectedChannels, logic, weights) ->
  match weights with
  | Some w =>
    logic = "Custom" /\ w_aff w + w_tcpp w + w_eff w == 100 /\
    0 <= w_aff w <= 100 /\ 0 <= w_tcpp w <= 100 /\ 0 <= w_eff w <= 100
  | None => logic <> "Custom"
  end.
Proof.
  intros Hreach Hclick. pose proof (reachable_weights st Hreach) as Hrange.
  unfold ConstructorPanel.handleCalculateClick in Hclick.
  destruct (String.eqb_spec (ConstructorPanel.logic st) "Custom") as [Hc|Hc].
  - destruct (Qeq_bool (ConstructorPanel.totalWeight st) 100) eqn:E;
      cbn [andb negb] in Hclick; [|discriminate].
    apply Qeq_bool_iff in E.
    assert (Hl : logic = ConstructorPanel.logic st) by congruence.
    assert (Hw : weights = Some (ConstructorPanel.weights st)) by congruence.
    subst logic weights. split; [exact Hc|]. split; [exact E|exact Hrange].
  - cbn [andb] in Hclick.
    assert (Hl : logic = ConstructorPanel.logic st) by congruence.
    assert (Hw : weights = None) by congruence.
    subst logic weights. exact Hc.
Qed.

(** The panel after 50, 30 and 20 were typed and the custom logic was
    chosen. *)
Lemma X26_panel_sends_weights_witness :
  let st := ConstructorPanel.setLogic
              (ConstructorPanel.handleWeightChange
                 (ConstructorPanel.handleWeightChange ConstructorPanel.initial
                    ConstructorPanel.aff_field (Some 50%Z) false)
                 ConstructorPanel.eff_field (Some 20%Z) false) "Custom" in
  ConstructorPanel.handleCalculateClick st
  = Some ([], "Custom", Some (mkWeights (inject_Z 50) 30 (inject_Z 20))) /\
  inject_Z 50 + 30 + inject_Z 20 == 100.
Proof.
  intro st.
  assert (Hclick : ConstructorPanel.handleCalculateClick st
                   = Some ([], "Custom", Some (mkWeights (inject_Z 50) 30 (inject_Z 20))))
    by reflexivity.
  split; [exact Hclick|].
  pose proof (X26_panel_sends_weights_that_sum_to_100 st [] "Custom"
                (Some (mkWeights (inject_Z 50) 30 (inject_Z 20)))) as H.
  cbn [w_aff w_tcpp w_eff] in H. apply H; [|exact Hclick].
  unfold st. apply ConstructorPanel.reach_logic.
  apply ConstructorPanel.reach_weight, ConstructorPanel.reach_weight.
  apply ConstructorPanel.reach_initial.
Defined.

(** ** From the validation to the calculation *)

Lemma findColumn_found (trim toLowerCase : string -> string)
    (headers : list (option string)) (namesToSearch : list string) (name : string)
    (h : option string) :
  In name namesToSearch -> In h headers ->
  headerIs trim toLowerCase name h = true ->
  findColumn trim toLowerCase headers namesToSearch <> (-1)%Z.
Proof.
  intros Hname Hh Hmatch.
  induction namesToSearch as [|n rest IH]; [destruct Hname|].
  cbn [findColumn]. cbv zeta.
  destruct (findIndex_spec (headerIs trim toLowerCase n) headers)
    as [[Hm Hall]|(Hpos & _)].
  - rewrite Hm. cbn [Z.eqb negb]. destruct Hname as [->|Hname]; [|apply IH; exact Hname].
    rewrite (Hall h Hh) in Hmatch. discriminate.
  - destruct (findIndex (headerIs trim toLowerCase n) headers =? -1)%Z eqn:E;
      [apply Z.eqb_eq in E; lia|].
    cbn [negb]. lia.
Qed.

(** X27.  A header row that passes the audience check of the validation
    holds an audience for which the calculation finds both of its columns,
    the average and the total TVR, provided that trimming changes neither
    the headers nor the audience names read from them.  [cells] is the
    header row as the calculation reads it, where an empty cell is
    missing. *)
Theorem X27_validated_audience_has_its_columns (trim toLowerCase : string -> string)
    (headers : list string) (cells : list (option string)) :
  hasTaColumnPair headers = true ->
  (forall h, In h headers -> h <> "" -> In (Some h) cells) ->
  (forall h, In h headers -> trim h = h) ->
  (forall ta, In ta (taSetOf headers) -> trim ta = ta) ->
  exists ta,
    In ta (taSetOf headers) /\
    findAvgTAColumn trim toLowerCase cells (trim ta) <> (-1)%Z /\
    findTotalTAColumn trim toLowerCase cells (trim ta) <> (-1)%Z.
Proof.
  intros Hpair Hcells Hheaders Hnames.
  unfold hasTaColumnPair in Hpair. apply existsb_exists in Hpair as (h & Hh & H).
  destruct (matchLazyPrefix avgTails h) as [ta|] eqn:Hm; [|discriminate].
  destruct (nonEmpty ta) eqn:Hne; [|discriminate].
  apply matchLazyPrefix_sound in Hm as (t & Ht & Heq & Hclear).
  assert (Hta : In ta (taSetOf headers)).
  { unfold taSetOf. apply taSetOf_fold. right. exists h.
    split; [exact Hh|]. split; [|exact Hne].
    rewrite Heq. apply matchLazyPrefix_complete; [vm_compute; reflexivity| |exact Hclear].
    destruct Ht as [<-|[<-|[]]]; simpl; auto. }
  assert (Hfull : forall suffix, (ta ++ suffix)%string <> "").
  { intros suffix E. destruct ta; discriminate. }
  assert (Hfind : forall names suffix,
             In (ta ++ suffix)%string names -> In (ta ++ suffix)%string headers ->
             findColumn trim toLowerCase cells names <> (-1)%Z).
  { intros names suffix Hn Hin.
    apply (findColumn_found trim toLowerCase _ names _ (Some (ta ++ suffix)%string) Hn).
    - apply Hcells; [exact Hin|apply Hfull].
    - cbn [headerIs]. rewrite (Hheaders _ Hin). apply String.eqb_refl. }
  exists ta. split; [exact Hta|]. rewrite (Hnames ta Hta).
  split.
  - unfold findAvgTAColumn. subst h. apply (Hfind _ t); [|exact Hh].
    apply (in_map (fun suffix => (ta ++ suffix)%string)). exact Ht.
  - unfold findTotalTAColumn.
    simpl in H. rewrite !orb_true_iff in H.
    destruct H as [H|[H|H]]; [| |discriminate]; apply existsb_eqb_string in H.
    + apply (Hfind _ "__PBA Reg TVR"); [left; reflexivity|exact H].
    + apply (Hfind _ "__TVR"); [right; left; reflexivity|exact H].
Qed.

Lemma X27_validated_audience_witness :
  exists ta,
    In ta (taSetOf templateHeaders) /\
    findAvgTAColumn (fun s => s) (fun s => s) (map Some templateHeaders) ta <> (-1)%Z /\
    findTotalTAColumn (fun s => s) (fun s => s) (map Some templateHeaders) ta <> (-1)%Z.
Proof.
  apply (X27_validated_audience_has_its_columns (fun s => s) (fun s => s)
           templateHeaders (map Some templateHeaders)).
  - vm_compute. reflexivity.
  - intros h Hh _. apply in_map. exact Hh.
  - intros h _. reflexivity.
  - intros ta _. reflexivity.
Defined.

(** ** Cell colours *)

Lemma jsRound_between (lo hi : Z) (x : Q) :
  inject_Z lo <= x <= inject_Z hi -> (lo <= jsRound x <= hi)%Z.
Proof.
  intros [Hlo Hhi]. unfold jsRound.
  pose proof (Qfloor_le (x + (1 # 2))) as Hfl.
  pose proof (Qlt_floor (x + (1 # 2))) as Hlt.
  set (z := Qfloor (x + (1 # 2))) in *.
  rewrite inject_Z_plus in Hlt. change (inject_Z 1) with 1 in Hlt.
  split.
  - assert (H : inject_Z lo < inject_Z (z + 1)).
    { rewrite inject_Z_plus. change (inject_Z 1) with 1. lra. }
    rewrite <- Zlt_Qlt in H. lia.
  - assert (H : inject_Z z < inject_Z (hi + 1)).
    { rewrite inject_Z_plus. change (inject_Z 1) with 1. lra. }
    rewrite <- Zlt_Qlt in H. lia.
Qed.

Lemma jsRound_integer (n : Z) (x : Q) : x == inject_Z n -> jsRound x = n.
Proof.
  intro H. pose proof (jsRound_between n n x) as Hb.
  assert (inject_Z n <= x <= inject_Z n) as Hx by (rewrite H; split; apply Qle_refl).
  specialize (Hb Hx). lia.
Qed.

Lemma percent_unit (v min max : Q) :
  min < max -> min <= v <= max -> 0 <= (v - min) / (max - min) <= 1.
Proof.
  intros Hlt [Hlo Hhi]. split.
  - apply Qle_shift_div_l; lra.
  - apply Qle_shift_div_r; lra.
Qed.

(** The colour at a given point of the scale: the two branches of
    [getGradientColor]. *)
Local Abbreviation paletteAt percent :=
  (if Qltb percent (1 # 2)
   then rgb (jsRound (248 + percent * 2 * (255 - 248)))
            (jsRound (105 + percent * 2 * (235 - 105)))
            (jsRound (107 + percent * 2 * (132 - 107)))
   else rgb (jsRound (255 + (percent - (1 # 2)) * 2 * (99 - 255)))
            (jsRound (235 + (percent - (1 # 2)) * 2 * (190 - 235)))
            (jsRound (132 + (percent - (1 # 2)) * 2 * (123 - 132)))).

Lemma palette_range (percent : Q) :
  0 <= percent <= 1 ->
  exists r g b,
    paletteAt percent = rgb r g b /\
    (99 <= r <= 255)%Z /\ (105 <= g <= 235)%Z /\ (107 <= b <= 132)%Z.
Proof.
  intros [H0 H1]. destruct (Qltb percent (1 # 2)) eqn:Ehalf.
  - apply Qltb_lt in Ehalf. do 3 eexists. split; [reflexivity|].
    split; [|split]; apply jsRound_between;
      (split; [change (inject_Z ?n) with (n # 1)|change (inject_Z ?n) with (n # 1)]);
      lra.
  - apply Qltb_ge in Ehalf. do 3 eexists. split; [reflexivity|].
    split; [|split]; apply jsRound_between;
      (split; [change (inject_Z ?n) with (n # 1)|change (inject_Z ?n) with (n # 1)]);
      lra.
Qed.

Lemma palette_start (percent : Q) : percent == 0 -> paletteAt percent = rgb 248 105 107.
Proof.
  intro Hz.
  assert (E : Qltb percent (1 # 2) = true) by (apply Qltb_lt; lra).
  rewrite E. f_equal; apply jsRound_integer; rewrite Hz; reflexivity.
Qed.

Lemma palette_end (percent : Q) : percent == 1 -> paletteAt percent = rgb 99 190 123.
Proof.
  intro Hone.
  assert (E : Qltb percent (1 # 2) = false) by (apply Qltb_ge; lra).
  rewrite E. f_equal; apply jsRound_integer; rewrite Hone; reflexivity.
Qed.

Lemma gradient_of_percent (v min max : Q) :
  0 < v -> min < max ->
  getGradientColor (Some v) min max = paletteAt ((v - min) / (max - min)).
Proof.
  intros Hpos Hlt.
  assert (E1 : Qle_bool v 0 = false).
  { destruct (Qle_bool v 0) eqn:E; [|reflexivity]. apply Qle_bool_iff in E. lra. }
  assert (E2 : Qle_bool max min = false).
  { destruct (Qle_bool max min) eqn:E; [|reflexivity]. apply Qle_bool_iff in E. lra. }
  unfold getGradientColor. cbn [isNull numVal orb]. rewrite E1, E2. reflexivity.
Qed.

(** X28.  For a positive value between the smallest and the largest of
    its column, the gradient gives a colour of the palette: every part
    lies between the parts of red (248, 105, 107), yellow (255, 235, 132)
    and green (99, 190, 123), so it is a valid colour; the smallest value
    is red and the largest one green. *)
Theorem X28_gradient_stays_inside_the_palette (v min max : Q) :
  0 < v -> min < max -> min <= v <= max ->
  (exists r g b,
     getGradientColor (Some v) min max = rgb r g b /\
     (99 <= r <= 255)%Z /\ (105 <= g <= 235)%Z /\ (107 <= b <= 132)%Z) /\
  (v == min -> getGradientColor (Some v) min max = rgb 248 105 107) /\
  (v == max -> getGradientColor (Some v) min max = rgb 99 190 123).
Proof.
  intros Hpos Hlt Hrange.
  rewrite (gradient_of_percent v min max Hpos Hlt).
  split; [|split].
  - apply palette_range, percent_unit; assumption.
  - intro Hmin. apply palette_start. rewrite Hmin. field. lra.
  - intro Hmax. apply palette_end. rewrite Hmax. field. lra.
Qed.

Lemma X28_gradient_witness :
  getGradientColor (Some 3) 1 3 = rgb 99 190 123 /\
  getGradientColor (Some 1) 1 3 = rgb 248 105 107.
Proof.
  destruct (X28_gradient_stays_inside_the_palette 3 1 3) as (_ & _ & Hmax);
    [reflexivity|reflexivity|split; unfold Qle; simpl; lia|].
  split; [apply Hmax; reflexivity|reflexivity].
Defined.

(** X29.  The inverted gradient, which colours the cost columns, leaves
    the largest value of a column without a colour: it hands the plain
    gradient the value 0, which that one reads as "no value".  The
    smallest value is green, and every value below the largest gets a
    colour of the palette. *)
Theorem X29_inverted_gradient_leaves_the_largest_value_uncoloured (v min max : Q) :
  0 < v -> min < max -> min <= v <= max ->
  (v == max -> getInvertedGradientColor (Some v) min max = transparent) /\
  (v == min -> getInvertedGradientColor (Some v) min max = rgb 99 190 123) /\
  (v < max -> exists r g b,
     getInvertedGradientColor (Some v) min max = rgb r g b /\
     (99 <= r <= 255)%Z /\ (105 <= g <= 235)%Z /\ (107 <= b <= 132)%Z).
Proof.
  intros Hpos Hlt Hrange.
  pose proof (percent_unit v min max Hlt Hrange) as Hp.
  assert (E1 : Qle_bool v 0 = false).
  { destruct (Qle_bool v 0) eqn:E; [|reflexivity]. apply Qle_bool_iff in E. lra. }
  assert (E2 : Qle_bool max min = false).
  { destruct (Qle_bool max min) eqn:E; [|reflexivity]. apply Qle_bool_iff in E. lra. }
  unfold getInvertedGradientColor. cbn [isNull numVal orb]. rewrite E1, E2. cbv zeta.
  set (percent := (v - min) / (max - min)) in *.
  assert (Hinner : 0 < 1 - percent ->
            getGradientColor (Some (1 - percent)) 0 1
            = paletteAt ((1 - percent - 0) / (1 - 0))).
  { intro H. apply gradient_of_percent; [exact H|reflexivity]. }
  assert (Hsame : (1 - percent - 0) / (1 - 0) == 1 - percent) by (field; lra).
  split; [|split].
  - intro Hmax.
    assert (Hone : percent == 1) by (unfold percent; rewrite Hmax; field; lra).
    unfold getGradientColor. cbn [isNull numVal orb].
    assert (E : Qle_bool (1 - percent) 0 = true) by (apply Qle_bool_iff; lra).
    rewrite E. reflexivity.
  - intro Hmin.
    assert (Hz : percent == 0) by (unfold percent; rewrite Hmin; field; lra).
    rewrite Hinner by lra. apply palette_end. lra.
  - intro Hbelow.
    assert (Hless : percent < 1).
    { unfold percent. apply Qlt_shift_div_r; lra. }
    rewrite Hinner by lra. apply palette_range. lra.
Qed.

Lemma X29_inverted_gradient_witness :
  getInvertedGradientColor (Some 3) 1 3 = transparent /\
  getInvertedGradientColor (Some 1) 1 3 = rgb 99 190 123.
Proof.
  destruct (X29_inverted_gradient_leaves_the_largest_value_uncoloured 3 1 3)
    as (Hmax & _ & _);
    [reflexivity|reflexivity|split; unfold Qle; simpl; lia|].
  split; [apply Hmax; reflexivity|reflexivity].
Defined.

(** ** What the generators read of the brief *)

Lemma sameLimits_regions (brief brief' : BriefData) :
  sameLimitsBrief brief brief' -> regionsOf brief = regionsOf brief'.
Proof.
  unfold sameLimitsBrief, regionsOf.
  generalize (regionBriefs brief) (regionBriefs brief'). intros l l' H.
  induction H as [|kv kv' l l' [Hk _] _ IH]; simpl; [reflexivity|].
  rewrite Hk, IH. reflexivity.
Qed.

Lemma sameLimits_briefOf (brief brief' : BriefData) (r : string) :
  sameLimitsBrief brief brief' ->
  match briefOf brief r, briefOf brief' r with
  | Some a, Some b => sameLimits a b
  | None, None => True
  | _, _ => False
  end.
Proof.
  unfold sameLimitsBrief, briefOf.
  generalize (regionBriefs brief) (regionBriefs brief'). intros l l' H.
  induction H as [|kv kv' l l' [Hk Hl] _ IH]; simpl; [exact I|].
  rewrite <- Hk. destruct (String.eqb (fst kv) r); [exact Hl|exact IH].
Qed.

Section SameLimits.
Variables brief brief' : BriefData.
Hypothesis limits : sameLimitsBrief brief brief'.

Lemma sameLimits_floor (d : ChannelData) :
  belowFloor brief d = belowFloor brief' d /\ applyFloor brief d = applyFloor brief' d.
Proof.
  pose proof (sameLimits_briefOf brief brief' (region d) limits) as H.
  unfold applyFloor, belowFloor.
  destruct (briefOf brief (region d)) as [a|], (briefOf brief' (region d)) as [b|];
    try contradiction; [|split; reflexivity].
  destruct H as (-> & _ & _). split; reflexivity.
Qed.

Lemma sameLimits_passOnce weightingLogic applyLimits weights (x : list ChannelData) :
  passOnce brief weightingLogic applyLimits weights x
  = passOnce brief' weightingLogic applyLimits weights x.
Proof.
  unfold passOnce, regionsPass. rewrite (sameLimits_regions brief brief' limits). cbv zeta.
  destruct applyLimits; [|reflexivity]. f_equal.
  - apply map_ext. intro d. apply sameLimits_floor.
  - apply existsb_ext_in. intros d _. apply sameLimits_floor.
Qed.

Lemma sameLimits_loop weightingLogic applyLimits weights (n iterationCount : nat)
    (x : list ChannelData) :
  (iterationCount + n = 20)%nat ->
  optimizeLoop brief weightingLogic applyLimits weights iterationCount x
  = optimizeLoop brief' weightingLogic applyLimits weights iterationCount x.
Proof.
  revert iterationCount x.
  induction n as [|n IH]; intros ic x Hic;
    rewrite (optimizeLoop_step brief _ _ _ ic x), (optimizeLoop_step brief' _ _ _ ic x).
  - assert (ic = 20%nat) as -> by lia. reflexivity.
  - destruct (20 <? S ic)%nat; [reflexivity|].
    unfold deselects, passData. rewrite sameLimits_passOnce.
    destruct (snd _); [|reflexivity]. apply IH. lia.
Qed.

Lemma sameLimits_capRegion (r : string) (x : list ChannelData) :
  capRegion brief r x = capRegion brief' r x.
Proof.
  pose proof (sameLimits_briefOf brief brief' r limits) as H. unfold capRegion.
  destruct (briefOf brief r) as [a|], (briefOf brief' r) as [b|];
    try contradiction; [|reflexivity].
  destruct H as (_ & -> & _). reflexivity.
Qed.

Lemma sameLimits_optimizeSplit weightingLogic applyLimits weights
    (x : list ChannelData) :
  optimizeSplit x brief weightingLogic applyLimits weights
  = optimizeSplit x brief' weightingLogic applyLimits weights.
Proof.
  unfold optimizeSplit, optimizeRecords.
  rewrite (sameLimits_loop weightingLogic applyLimits weights 20 0 x eq_refl).
  f_equal. f_equal. unfold capPass. destruct applyLimits; [|reflexivity].
  rewrite (sameLimits_regions brief brief' limits). generalize (regionsOf brief').
  intro rs. generalize (fst (optimizeLoop brief' weightingLogic true weights 0 x)).
  induction rs as [|r rs IH]; intro y; simpl; [reflexivity|].
  rewrite sameLimits_capRegion. apply IH.
Qed.

Lemma sameLimits_cutoffRegion (r : string) (x : list ChannelData) :
  cutoffRegion brief r x = cutoffRegion brief' r x.
Proof.
  pose proof (sameLimits_briefOf brief brief' r limits) as H.
  assert (Hcut : cutoffValueOf brief r = cutoffValueOf brief' r).
  { unfold cutoffValueOf.
    destruct (briefOf brief r) as [a|], (briefOf brief' r) as [b|];
      try contradiction; [|reflexivity].
    destruct H as (_ & _ & H). exact H. }
  unfold cutoffRegion, cutChannels. rewrite Hcut. reflexivity.
Qed.

Lemma sameLimits_selectSingle weightingLogic (x : list ChannelData) :
  selectSingle x brief weightingLogic = selectSingle x brief' weightingLogic.
Proof.
  unfold selectSingle. destruct (negb _); [|reflexivity].
  rewrite (sameLimits_regions brief brief' limits). generalize (regionsOf brief'). intro rs. revert x.
  induction rs as [|r rs IH]; intro x; simpl; [reflexivity|].
  rewrite sameLimits_cutoffRegion. apply IH.
Qed.
End SameLimits.

(** X30.  Of the brief the two optimizing generators read the regions
    and, for each region, the floor, the cap and the cutoff, an empty
    floor standing for 2 and an empty cutoff for 20: two briefs that agree
    on these give the same splits.  The audience named in the brief does
    not enter a split. *)
Theorem X30_generators_read_the_limits_of_the_brief (brief brief' : BriefData) :
  sameLimitsBrief brief brief' ->
  (forall data weightingLogic applyLimits,
     generateSingleSplit data brief weightingLogic applyLimits
     = generateSingleSplit data brief' weightingLogic applyLimits) /\
  (forall allChannels selectedChannelNames weightingLogic weights,
     generateConstructorSplit allChannels brief selectedChannelNames weightingLogic
       weights
     = generateConstructorSplit allChannels brief' selectedChannelNames weightingLogic
         weights).
Proof.
  intro Hsame. split.
  - intros data weightingLogic applyLimits. unfold generateSingleSplit.
    rewrite (sameLimits_selectSingle brief brief' Hsame).
    apply sameLimits_optimizeSplit. exact Hsame.
  - intros allChannels names weightingLogic weights.
    unfold generateConstructorSplit. apply sameLimits_optimizeSplit. exact Hsame.
Qed.

(** A region just ticked in the form, with 2 and 20 written into its
    fields, computes as one whose fields were emptied and whose audience
    was changed. *)
Lemma X30_generators_read_the_limits_witness :
  let ticked := mkBriefData (handleRegionToggle [] ["All 18+"] "Москва") in
  let emptied := mkBriefData [("Москва", mkBrief "W 25-45" None None None)] in
  let data := baseSnapshot twoRegionRows twoRegionBrief in
  generateSingleSplit data ticked "TCPP" true
  = generateSingleSplit data emptied "TCPP" true /\
  generateConstructorSplit data ticked ["A"; "B"] "Affinity" None
  = generateConstructorSplit data emptied ["A"; "B"] "Affinity" None.
Proof.
  intros ticked emptied data.
  destruct (X30_generators_read_the_limits_of_the_brief ticked emptied) as [H1 H2].
  - constructor; [|constructor]. split; [reflexivity|]. repeat split.
  - split; [apply H1|apply H2].
Defined.
